(** * Supriya: the non-realtime session scheduler and multi-output UGens

    A shallow embedding of
      - [supriya/tools/nonrealtimetools/Session.py]
      - [supriya/tools/ugentools/MultiOutUGen.py]
      - [supriya/library/audiolib/UGenArray.py]
    together with the properties of the scheduler that the specification
    states about them, and of
      - [supriya/newpatterns/patterns.py] and [supriya/newpatterns/noise.py]
        (the seeded generator, the choice of an index, shuffling,
        the broadcasting of operands)
      - [supriya/ugens/inout.py] ([SoundIn.ar])
      - [supriya/tools/responsetools/BufferSetResponse.py]
      - [supriya/tools/servertools/Group.py] ([Group._iterate_children])
    with properties that these functions show.

    Conventions of the embedding:
      - Python objects that are used as dictionary keys by identity (synths,
        buses, bus groups) are represented by handles: the position at which
        the object was registered in its session.
      - A Python [dict] is an association list in insertion order with
        unique keys; assigning to an existing key keeps its position.
      - A raised exception is the constructor [Raise] carrying the name of
        the exception class.
      - Offsets are exact rationals extended by the two infinities of
        [abjad.tools.mathtools]; [float(offset)] rounds them to binary64
        and raises [OverflowError] beyond its range.
      - A [set] is iterated in an order that depends on the hashes of its
        members, which for objects differ from run to run; the embedding
        is parametric in that order ([SetIteration]). *)

From Stdlib Require Import Bool Arith ZArith QArith Qcanon Lia.
From Stdlib Require Import List String Ascii.
From Stdlib Require Strings.Byte.
From Stdlib Require Import Permutation Sorted.
From Stdlib Require Floats Uint63.
Import ListNotations.

Set Implicit Arguments.

Local Open Scope nat_scope.

(* ================================================================== *)
(** ** Exceptions *)

Inductive Result (A : Type) : Type :=
| Ok (value : A)
| Raise (exception : string).

Arguments Ok {A} value.
Arguments Raise {A} exception.

Definition bind {A B : Type} (r : Result A) (k : A -> Result B) : Result B :=
  match r with
  | Ok a => k a
  | Raise e => Raise e
  end.

Notation "x <- r ;; k" := (bind r (fun x => k))
  (at level 61, r at next level, right associativity).

(** A [for] loop whose body may raise: the first exception leaves the loop. *)
Fixpoint for_each {A St : Type} (body : St -> A -> Result St)
         (xs : list A) (st : St) : Result St :=
  match xs with
  | [] => Ok st
  | x :: xs' => st' <- body st x ;; for_each body xs' st'
  end.

(** [enumerate(xs, start)] *)
Fixpoint enumerate {A : Type} (start : nat) (xs : list A) : list (nat * A) :=
  match xs with
  | [] => []
  | x :: xs' => (start, x) :: enumerate (S start) xs'
  end.

(* ================================================================== *)
(** ** Offsets *)

Inductive Offset : Type :=
| NegativeInfinity
| Finite (q : Qc)
| Infinity.

Definition offset_compare (a b : Offset) : comparison :=
  match a, b with
  | NegativeInfinity, NegativeInfinity => Eq
  | NegativeInfinity, _ => Lt
  | Finite _, NegativeInfinity => Gt
  | Finite p, Finite q => (p ?= q)%Qc
  | Finite _, Infinity => Lt
  | Infinity, Infinity => Eq
  | Infinity, _ => Gt
  end.

Definition offset_eqb (a b : Offset) : bool :=
  match offset_compare a b with Eq => true | _ => false end.

Definition offset_ltb (a b : Offset) : bool :=
  match offset_compare a b with Lt => true | _ => false end.

Definition offset_leb (a b : Offset) : bool :=
  match offset_compare a b with Gt => false | _ => true end.

Definition offset_lt (a b : Offset) : Prop := offset_compare a b = Lt.
Definition offset_le (a b : Offset) : Prop := offset_compare a b <> Gt.

(** Offsets written as integers and as fractions. *)
Definition at_int (z : Z) : Offset := Finite (Q2Qc (inject_Z z)).
Definition at_frac (n : Z) (d : positive) : Offset := Finite (Q2Qc (n # d)).

(* ================================================================== *)
(** ** [float(offset)]

    The timestamp of a bundle is a Python [float], a binary64 number.
    [float] converts an exact rational to the nearest binary64 number,
    ties to the neighbour with the even significand; a rational that
    rounds beyond the greatest finite binary64 number raises
    [OverflowError], one that rounds to zero gives the zero of its sign.
    The infinities of [abjad.tools.mathtools] convert to the infinities
    of binary64. *)

Definition Timestamp : Type := SpecFloat.spec_float.

(** [numerator / denominator] rounded to an integer, ties to the even
    neighbour. *)
Definition round_half_even (numerator denominator : Z) : Z :=
  let quotient := (numerator / denominator)%Z in
  let remainder := (numerator mod denominator)%Z in
  match (2 * remainder ?= denominator)%Z with
  | Lt => quotient
  | Gt => (quotient + 1)%Z
  | Eq => if Z.even quotient then quotient else (quotient + 1)%Z
  end.

(** The binary64 number nearest to [numerator / denominator]: its
    significand, of at most 53 bits, and its exponent counted from the
    exponent -1074 of the least positive binary64 number. *)
Definition binary64_round (numerator denominator : positive) : Z * Z :=
  let scaled := (Zpos numerator * 2 ^ 1074)%Z in
  let exponent :=
    Z.max 0 (Z.log2 (scaled / Zpos denominator) - 52) in
  let significand :=
    round_half_even scaled (Zpos denominator * 2 ^ exponent) in
  if (significand =? 2 ^ 53)%Z
  then (2 ^ 52, exponent + 1)%Z
  else (significand, exponent).

(** The greatest finite binary64 number has the exponent 971 = 2045 - 1074. *)
Definition binary64 (sign : bool) (numerator denominator : positive)
  : Result Timestamp :=
  let (significand, exponent) := binary64_round numerator denominator in
  match significand with
  | Zpos significand =>
      if (2045 <? exponent)%Z then Raise "OverflowError"
      else Ok (SpecFloat.S754_finite sign significand (exponent - 1074))
  | _ => Ok (SpecFloat.S754_zero sign)
  end.

Definition float (offset : Offset) : Result Timestamp :=
  match offset with
  | NegativeInfinity => Ok (SpecFloat.S754_infinity true)
  | Infinity => Ok (SpecFloat.S754_infinity false)
  | Finite q =>
      match Qnum q with
      | Z0 => Ok (SpecFloat.S754_zero false)
      | Zpos numerator => binary64 false numerator (Qden q)
      | Zneg numerator => binary64 true numerator (Qden q)
      end
  end.

(** [a <= b] on floats *)
Definition Timestamp_leb (a b : Timestamp) : bool := SpecFloat.SFleb a b.

(* ================================================================== *)
(** ** Python dictionaries *)

Section Dict.
Variables K V : Type.
Variable eqb : K -> K -> bool.

Definition Dict : Type := list (K * V).

(** [d.get(k)] *)
Fixpoint dict_get (d : Dict) (k : K) : option V :=
  match d with
  | [] => None
  | (k', v) :: d' => if eqb k' k then Some v else dict_get d' k
  end.

(** [k in d] *)
Definition dict_mem (d : Dict) (k : K) : bool :=
  match dict_get d k with Some _ => true | None => false end.

(** [d[k] = v] *)
Fixpoint dict_set (d : Dict) (k : K) (v : V) : Dict :=
  match d with
  | [] => [(k, v)]
  | (k', v') :: d' =>
      if eqb k' k then (k', v) :: d' else (k', v') :: dict_set d' k v
  end.

(** [d.update(other)] *)
Definition dict_update (d other : Dict) : Dict :=
  fold_left (fun acc kv => dict_set acc (fst kv) (snd kv)) other d.

(** [d[k]], raising [KeyError] *)
Definition dict_item (d : Dict) (k : K) : Result V :=
  match dict_get d k with
  | Some v => Ok v
  | None => Raise "KeyError"
  end.

Definition dict_keys (d : Dict) : list K := map fst d.
End Dict.

Section DictOfLists.
Variables K A : Type.
Variable eqb : K -> K -> bool.

(** [d.setdefault(k, [])] followed by [.extend(xs)] on the list it
    returns: the list stored in the dictionary is the one extended. *)
Definition dict_extend (d : Dict K (list A)) (k : K) (xs : list A)
  : Dict K (list A) :=
  match dict_get eqb d k with
  | Some old => dict_set eqb d k (old ++ xs)
  | None => dict_set eqb d k ([] ++ xs)
  end.

(** [d.get(k, [])] *)
Definition dict_get_list (d : Dict K (list A)) (k : K) : list A :=
  match dict_get eqb d k with
  | Some xs => xs
  | None => []
  end.

(** Emitting a sequence of (key, items) pairs into a dictionary. *)
Definition emit_all (emissions : list (K * list A)) (d : Dict K (list A))
  : Dict K (list A) :=
  fold_left (fun acc e => dict_extend acc (fst e) (snd e)) emissions d.

(** The items emitted under one key, in order. *)
Definition emitted_at (emissions : list (K * list A)) (k : K) : list A :=
  flat_map (fun e => if eqb (fst e) k then snd e else []) emissions.
End DictOfLists.

(* ================================================================== *)
(** ** [sorted]

    Python's [sorted] is stable; the order is given by a boolean
    less-or-equal on the sort keys. *)

Section Sorted.
Variable A : Type.
Variable leb : A -> A -> bool.

Fixpoint insert_sorted (x : A) (l : list A) : list A :=
  match l with
  | [] => [x]
  | y :: l' => if leb x y then x :: l else y :: insert_sorted x l'
  end.

Fixpoint sorted (l : list A) : list A :=
  match l with
  | [] => []
  | x :: l' => insert_sorted x (sorted l')
  end.

(** A relation that the comparison decides on a pair of elements. *)
Definition decides (R : A -> A -> Prop) (x y : A) : Prop :=
  (leb x y = true -> R x y) /\ (leb x y = false -> R y x).
End Sorted.

(* ================================================================== *)
(** ** Data model of a session *)

(** [synthdeftools.CalculationRate] *)
Inductive CalculationRate : Type := AUDIO | CONTROL | DEMAND | SCALAR.

Definition CalculationRate_eqb (a b : CalculationRate) : bool :=
  match a, b with
  | AUDIO, AUDIO | CONTROL, CONTROL | DEMAND, DEMAND | SCALAR, SCALAR => true
  | _, _ => false
  end.

(** A compiled definition: its explicit name (empty when it has none),
    the hash of its compiled graph and the compiled graph itself. *)
Record SynthDef : Type := {
  name : string;
  anonymous_name : string;
  compiled : list Byte.byte;
}.

Definition bytes_eqb (a b : list Byte.byte) : bool :=
  if list_eq_dec Byte.byte_eq_dec a b then true else false.

Definition SynthDef_eqb (a b : SynthDef) : bool :=
  String.eqb (name a) (name b)
  && String.eqb (anonymous_name a) (anonymous_name b)
  && bytes_eqb (compiled a) (compiled b).

(** A bus group as its member buses see it: the handle of the group and
    [len(bus_group)].  A group that has a member has at least one. *)
Record BusGroup : Type := {
  bus_group_handle : nat;
  bus_count : positive;
}.

Record Bus : Type := {
  calculation_rate : CalculationRate;
  bus_group : option BusGroup;
  bus_events : list (Offset * Q);          (* [bus._events] *)
}.

Record Synth : Type := {
  start_offset : Offset;
  stop_offset : Offset;
  synthdef : SynthDef;
  add_action : nat;
  synth_kwargs : list (string * Q);
  synth_events : list (Offset * (string * Q));
}.

Record Timespan : Type := {
  timespan_start_offset : Offset;
  timespan_stop_offset : Offset;
}.

Record Session : Type := {
  _input_count : nat;
  _output_count : nat;
  _buses : list Bus;           (* the keys of the [OrderedDict] *)
  _synths : list Synth;        (* the [TimespanCollection] *)
}.

(** [Session.__init__] *)
Definition Session_init (input_count output_count : nat) : Session :=
  {| _input_count := input_count;
     _output_count := output_count;
     _buses := [];
     _synths := [] |}.

(** [Session()] *)
Definition Session_new : Session := Session_init 0 2.

(** [Session.add_bus]; the handle of the new bus is returned with the
    session. *)
Definition add_bus (self : Session) (rate : CalculationRate)
  : Session * nat :=
  let bus := {| calculation_rate := rate; bus_group := None;
                bus_events := [] |} in
  ({| _input_count := _input_count self;
      _output_count := _output_count self;
      _buses := _buses self ++ [bus];
      _synths := _synths self |},
   List.length (_buses self)).

(** [Session.add_bus_group]: every bus of the group is registered; the
    group's handle is the position of its first bus. *)
Definition add_bus_group (self : Session) (count : nat)
           (rate : CalculationRate) : Session * nat :=
  let handle := List.length (_buses self) in
  match count with
  | O => (self, handle)
  | S n =>
      let group := {| bus_group_handle := handle;
                      bus_count := Pos.of_succ_nat n |} in
      let bus := {| calculation_rate := rate; bus_group := Some group;
                    bus_events := [] |} in
      ({| _input_count := _input_count self;
          _output_count := _output_count self;
          _buses := _buses self ++ repeat bus count;
          _synths := _synths self |},
       handle)
  end.

(** [Session.add_synth] *)
Definition add_synth (self : Session) (synth : Synth) : Session * nat :=
  ({| _input_count := _input_count self;
      _output_count := _output_count self;
      _buses := _buses self;
      _synths := _synths self ++ [synth] |},
   List.length (_synths self)).

(** The keys of the identifier mapping: the objects of a session. *)
Inductive Ref : Type :=
| SynthRef (handle : nat)
| AudioOutputBusRef (index : nat)
| AudioInputBusRef (index : nat)
| BusRef (handle : nat)
| BusGroupRef (handle : nat).

Definition Ref_eqb (a b : Ref) : bool :=
  match a, b with
  | SynthRef i, SynthRef j => Nat.eqb i j
  | AudioOutputBusRef i, AudioOutputBusRef j => Nat.eqb i j
  | AudioInputBusRef i, AudioInputBusRef j => Nat.eqb i j
  | BusRef i, BusRef j => Nat.eqb i j
  | BusGroupRef i, BusGroupRef j => Nat.eqb i j
  | _, _ => false
  end.

(* ================================================================== *)
(** ** Requests and OSC messages *)

(** The request classes of [requesttools] that the session names. *)
Inductive Request : Type :=
| SynthDefReceiveRequest (synthdefs : list SynthDef)
| ControlBusSetRequest (index_value_pairs : list (nat * Q))
| GroupNewRequest (node_id : nat) (target_node_id : nat)
| SynthNewRequest (definition : SynthDef) (node_id : nat)
                  (action : nat) (target_node_id : nat)
                  (kwargs : list (string * Q))
| NodeMapToAudioBusRequest (node_id : nat) (kwargs : list (string * nat))
| NodeMapToControlBusRequest (node_id : nat) (kwargs : list (string * nat))
| NodeSetRequest (node_id : nat) (kwargs : list (string * Q))
| NodeFreeRequest (node_ids : list nat).

(** [type(request)] *)
Inductive RequestType : Type :=
| SynthDefReceiveRequestType
| ControlBusSetRequestType
| GroupNewRequestType
| SynthNewRequestType
| NodeMapToAudioBusRequestType
| NodeMapToControlBusRequestType
| NodeSetRequestType
| NodeFreeRequestType.

Definition type_of (request : Request) : RequestType :=
  match request with
  | SynthDefReceiveRequest _ => SynthDefReceiveRequestType
  | ControlBusSetRequest _ => ControlBusSetRequestType
  | GroupNewRequest _ _ => GroupNewRequestType
  | SynthNewRequest _ _ _ _ _ => SynthNewRequestType
  | NodeMapToAudioBusRequest _ _ => NodeMapToAudioBusRequestType
  | NodeMapToControlBusRequest _ _ => NodeMapToControlBusRequestType
  | NodeSetRequest _ _ => NodeSetRequestType
  | NodeFreeRequest _ => NodeFreeRequestType
  end.

Definition RequestType_eqb (a b : RequestType) : bool :=
  match a, b with
  | SynthDefReceiveRequestType, SynthDefReceiveRequestType
  | ControlBusSetRequestType, ControlBusSetRequestType
  | GroupNewRequestType, GroupNewRequestType
  | SynthNewRequestType, SynthNewRequestType
  | NodeMapToAudioBusRequestType, NodeMapToAudioBusRequestType
  | NodeMapToControlBusRequestType, NodeMapToControlBusRequestType
  | NodeSetRequestType, NodeSetRequestType
  | NodeFreeRequestType, NodeFreeRequestType => true
  | _, _ => false
  end.

(** An OSC message is either the encoding of a request
    ([request.to_osc_message(with_textual_osc_command=True)], kept
    symbolic: the encoding layer is outside the session) or a message
    built directly from an address, as [osctools.OscMessage(0)]. *)
Inductive OscMessage : Type :=
| to_osc_message (request : Request)
| OscMessage_of_address (address : nat).

Record OscBundle : Type := {
  timestamp : Timestamp;
  contents : list OscMessage;
}.

(* ================================================================== *)
(** ** Collaborators of the session that the specification describes *)

(** Modelled from the spec: [servertools.NodeIdAllocator] is not part of
    the sources at hand.  It is an integer counter starting above the
    reserved range (the session's own documentation shows 1000 as the
    first identifier); [allocate_node_id] returns the counter and
    advances it, so identifiers strictly increase and are never reused. *)
Record NodeIdAllocator : Type := { next_node_id : nat }.

Definition NodeIdAllocator_new : NodeIdAllocator := {| next_node_id := 1000 |}.

Definition allocate_node_id (allocator : NodeIdAllocator)
  : nat * NodeIdAllocator :=
  (next_node_id allocator, {| next_node_id := S (next_node_id allocator) |}).

(** Modelled from the spec: [servertools.BlockAllocator] is not part of
    the sources at hand.  It is a free list of address ranges above
    [heap_minimum]; [allocate(size)] returns the first address of the
    first free block of the requested length.  The session never frees,
    so the free list is the single range starting at [free_from]. *)
Record BlockAllocator : Type := { free_from : nat }.

Definition BlockAllocator_new (heap_minimum : nat) : BlockAllocator :=
  {| free_from := heap_minimum |}.

Definition allocate (allocator : BlockAllocator) (size : nat)
  : nat * BlockAllocator :=
  (free_from allocator, {| free_from := free_from allocator + size |}).

(** Modelled from the spec: [nonrealtimetools.Synth] is not part of the
    sources at hand.  The spec orders entities by
    [(start_offset, declaration order)]: a synth is less than another
    when it starts earlier, and [sorted] keeps the declaration order of
    synths that start together. *)
Definition Synth_ltb (x y : nat * Synth) : bool :=
  offset_ltb (start_offset (snd x)) (start_offset (snd y)).

(** [sorted(xs)] for a type with [<]: [x] stays before [y] unless
    [y < x]. *)
Definition sorted_with (A : Type) (ltb : A -> A -> bool) (l : list A)
  : list A :=
  sorted (fun x y => negb (ltb y x)) l.

(** Modelled from the spec: [Synth._collect_requests] is not part of the
    sources at hand.  A synth contributes a synth-new request at its start
    offset, a parameter-set request at the offset of every time-varying
    override, and a node-free request at its stop offset, each carrying
    the node identifier assigned to the synth (the forms shown in the
    session's own documentation). *)
Definition synth_requests (node_id : nat) (self : Synth)
  : Dict Offset (list Request) :=
  let requests :=
    dict_extend offset_eqb [] (start_offset self)
      [SynthNewRequest (synthdef self) node_id (add_action self) 0
                       (synth_kwargs self)] in
  let requests :=
    fold_left
      (fun acc event =>
         dict_extend offset_eqb acc (fst event)
                     [NodeSetRequest node_id [snd event]])
      (synth_events self) requests in
  dict_extend offset_eqb requests (stop_offset self)
              [NodeFreeRequest [node_id]].

Definition Synth_collect_requests (id_mapping : Dict Ref nat)
           (handle : nat) (self : Synth)
  : Result (Dict Offset (list Request)) :=
  node_id <- dict_item Ref_eqb id_mapping (SynthRef handle) ;;
  Ok (synth_requests node_id self).

(** Modelled from the spec: [TimespanCollection.iterate_simultaneities]
    is not part of the sources at hand.  It yields, in ascending offset
    order, every distinct timeline point at which at least one entity
    starts or stops, with the entities starting and stopping there. *)
Record Simultaneity : Type := {
  simultaneity_offset : Offset;
  start_timespans : list (nat * Synth);
  stop_timespans : list (nat * Synth);
}.

Fixpoint insert_offset (o : Offset) (l : list Offset) : list Offset :=
  match l with
  | [] => [o]
  | p :: l' =>
      match offset_compare o p with
      | Lt => o :: l
      | Eq => l
      | Gt => p :: insert_offset o l'
      end
  end.

Definition timeline_points (synths : list Synth) : list Offset :=
  fold_right insert_offset []
             (map start_offset synths ++ map stop_offset synths).

Definition iterate_simultaneities (synths : list Synth) : list Simultaneity :=
  map (fun o =>
         {| simultaneity_offset := o;
            start_timespans :=
              filter (fun s => offset_eqb (start_offset (snd s)) o)
                     (enumerate 0 synths);
            stop_timespans :=
              filter (fun s => offset_eqb (stop_offset (snd s)) o)
                     (enumerate 0 synths) |})
      (timeline_points synths).

(** [set(simultaneity.start_timespans)]: the synths that start together
    are distinct objects, so the set holds each of them once.  The order
    in which the set is iterated depends on the hashes of the objects,
    which differ from run to run. *)
Class SetIteration : Type := {
  iterate : list (nat * Synth) -> list (nat * Synth);
  iterate_members : forall members, Permutation (iterate members) members;
}.

(** Two iteration orders: that of the list the set is made from, and
    the reverse of it. *)
Definition list_order : SetIteration :=
  {| iterate := fun members => members;
     iterate_members := fun members => Permutation_refl members |}.

Definition reverse_order : SetIteration :=
  {| iterate := fun members => rev members;
     iterate_members :=
       fun members => Permutation_sym (Permutation_rev members) |}.

(** [Timespan] is a class of the [abjad] library, on which the session
    builds, and not of this repository.  Its order, which
    [_collect_synth_requests] uses in its sort key, is that of the pair
    (start offset, stop offset): start offsets are compared first and
    stop offsets decide between equal start offsets. *)
Definition Timespan_eqb (a b : Timespan) : bool :=
  offset_eqb (timespan_start_offset a) (timespan_start_offset b)
  && offset_eqb (timespan_stop_offset a) (timespan_stop_offset b).

Definition Timespan_ltb (a b : Timespan) : bool :=
  offset_ltb (timespan_start_offset a) (timespan_start_offset b)
  || (offset_eqb (timespan_start_offset a) (timespan_start_offset b)
      && offset_ltb (timespan_stop_offset a) (timespan_stop_offset b)).

(** [x._get_timespan(x)] *)
Definition _get_timespan (x : Synth) : Timespan :=
  {| timespan_start_offset := start_offset x;
     timespan_stop_offset := stop_offset x |}.

(** Modelled from the spec: [AudioOutputBusGroup] and
    [AudioInputBusGroup] are not part of the sources at hand.  The output
    group holds one audio bus per output channel of the session, the
    input group one per input channel. *)
Definition audio_output_bus_group (self : Session) : list Ref :=
  map AudioOutputBusRef (seq 0 (_output_count self)).

Definition audio_input_bus_group (self : Session) : list Ref :=
  map AudioInputBusRef (seq 0 (_input_count self)).

(* ================================================================== *)
(** ** [Session]: private methods *)

(** [Session._prioritized_request_types] *)
Definition _prioritized_request_types : list RequestType :=
  [ SynthDefReceiveRequestType;
    ControlBusSetRequestType;
    GroupNewRequestType;
    SynthNewRequestType;
    NodeMapToAudioBusRequestType;
    NodeMapToControlBusRequestType;
    NodeSetRequestType ].

(** The two allocators of [_build_bus_id_mapping]; the local name
    [allocator] refers to one of them. *)
Record BusAllocators : Type := {
  audio_bus_allocator : BlockAllocator;
  control_bus_allocator : BlockAllocator;
}.

Definition allocate_for (rate : CalculationRate) (allocators : BusAllocators)
           (size : nat) : nat * BusAllocators :=
  if CalculationRate_eqb rate AUDIO
  then
    let (address, allocator) := allocate (audio_bus_allocator allocators) size in
    (address, {| audio_bus_allocator := allocator;
                 control_bus_allocator := control_bus_allocator allocators |})
  else
    let (address, allocator) := allocate (control_bus_allocator allocators) size in
    (address, {| audio_bus_allocator := audio_bus_allocator allocators;
                 control_bus_allocator := allocator |}).

(** The body of the loop over [self._buses]. *)
Definition _build_bus_id_mapping_step
           (state : Dict Ref nat * BusAllocators) (entry : nat * Bus)
  : Dict Ref nat * BusAllocators :=
  let (mapping, allocators) := state in
  let (handle, bus) := entry in
  if dict_mem Ref_eqb mapping (BusRef handle) then state
  else
    match bus_group bus with
    | None =>
        let (address, allocators) :=
          allocate_for (calculation_rate bus) allocators 1 in
        (dict_set Ref_eqb mapping (BusRef handle) address, allocators)
    | Some group =>
        let size := Pos.to_nat (bus_count group) in
        let (block_id, allocators) :=
          allocate_for (calculation_rate bus) allocators size in
        let mapping :=
          dict_set Ref_eqb mapping (BusGroupRef (bus_group_handle group))
                   block_id in
        let mapping :=
          fold_left (fun acc bus_id => dict_set Ref_eqb acc (BusRef handle) bus_id)
                    (seq block_id size) mapping in
        (mapping, allocators)
    end.

Definition _build_bus_id_mapping (self : Session) : Dict Ref nat :=
  let input_count := _input_count self in
  let output_count := _output_count self in
  let first_private_bus_id := input_count + output_count in
  let allocators :=
    {| audio_bus_allocator := BlockAllocator_new first_private_bus_id;
       control_bus_allocator := BlockAllocator_new 0 |} in
  let mapping : Dict Ref nat := [] in
  let mapping :=
    if Nat.eqb output_count 0 then mapping
    else fold_left (fun acc entry => dict_set Ref_eqb acc (snd entry) (fst entry))
                   (enumerate 0 (audio_output_bus_group self)) mapping in
  let mapping :=
    if Nat.eqb input_count 0 then mapping
    else fold_left (fun acc entry => dict_set Ref_eqb acc (snd entry) (fst entry))
                   (enumerate output_count (audio_input_bus_group self))
                   mapping in
  fst (fold_left _build_bus_id_mapping_step (enumerate 0 (_buses self))
                 (mapping, allocators)).

(** The body of the loop over [sorted(self._synths)]. *)
Definition _build_synth_id_mapping_step
           (state : Dict Ref nat * NodeIdAllocator) (timespan : nat * Synth)
  : Dict Ref nat * NodeIdAllocator :=
  let (mapping, allocator) := state in
  if dict_mem Ref_eqb mapping (SynthRef (fst timespan)) then state
  else
    let (node_id, allocator) := allocate_node_id allocator in
    (dict_set Ref_eqb mapping (SynthRef (fst timespan)) node_id, allocator).

Definition _build_synth_id_mapping (self : Session) : Dict Ref nat :=
  fst (fold_left _build_synth_id_mapping_step
                 (sorted_with Synth_ltb (enumerate 0 (_synths self)))
                 ([], NodeIdAllocator_new)).

(** [events_by_offset.setdefault(offset, {})[bus_id] = value] *)
Definition record_bus_event (events_by_offset : Dict Offset (Dict nat Q))
           (offset : Offset) (bus_id : nat) (value : Q)
  : Dict Offset (Dict nat Q) :=
  let events :=
    match dict_get offset_eqb events_by_offset offset with
    | Some events => events
    | None => []
    end in
  dict_set offset_eqb events_by_offset offset
           (dict_set Nat.eqb events bus_id value).

Definition _collect_bus_requests (self : Session)
           (request_mapping : Dict Offset (list Request))
           (id_mapping : Dict Ref nat)
  : Result (Dict Offset (list Request)) :=
  events_by_offset <-
    for_each
      (fun events_by_offset entry =>
         let bus := snd entry in
         if negb (CalculationRate_eqb (calculation_rate bus) CONTROL)
         then Ok events_by_offset
         else
           bus_id <- dict_item Ref_eqb id_mapping (BusRef (fst entry)) ;;
           Ok (fold_left
                 (fun acc event =>
                    record_bus_event acc (fst event) bus_id (snd event))
                 (bus_events bus) events_by_offset))
      (enumerate 0 (_buses self)) [] ;;
  Ok (fold_left
        (fun request_mapping item =>
           let index_value_pairs :=
             sorted_with (fun x y : nat * Q => Nat.ltb (fst x) (fst y))
                         (snd item) in
           let request := ControlBusSetRequest index_value_pairs in
           dict_extend offset_eqb request_mapping (fst item) [request])
        events_by_offset request_mapping).

(** The sort key of [_collect_synth_requests]: a timespan and a node
    identifier, compared as Python compares tuples. *)
Definition comparator_ltb (x y : (Timespan * nat) * (nat * Synth)) : bool :=
  let (tx, ix) := fst x in
  let (ty, iy) := fst y in
  if Timespan_eqb tx ty then Nat.ltb ix iy else Timespan_ltb tx ty.

Definition _collect_synth_requests (self : Session)
           (request_mapping : Dict Offset (list Request))
           (id_mapping : Dict Ref nat)
  : Result (Dict Offset (list Request)) :=
  keyed <-
    for_each
      (fun keyed x =>
         node_id <- dict_item Ref_eqb id_mapping (SynthRef (fst x)) ;;
         Ok (keyed ++ [((_get_timespan (snd x), node_id), x)]))
      (enumerate 0 (_synths self)) [] ;;
  let synths := map snd (sorted_with comparator_ltb keyed) in
  for_each
    (fun request_mapping synth =>
       items <- Synth_collect_requests id_mapping (fst synth) (snd synth) ;;
       Ok (fold_left
             (fun acc item => dict_extend offset_eqb acc (fst item) (snd item))
             items request_mapping))
    synths request_mapping.

Definition _collect_synthdef_requests {set_iteration : SetIteration}
           (self : Session) (request_mapping : Dict Offset (list Request))
  : Dict Offset (list Request) :=
  let synthdefs_to_offsets : Dict SynthDef Offset :=
    fold_left
      (fun acc simultaneity =>
         let start_events := iterate (start_timespans simultaneity) in
         fold_left
           (fun acc start_event =>
              let synthdef := synthdef (snd start_event) in
              if dict_mem SynthDef_eqb acc synthdef then acc
              else dict_set SynthDef_eqb acc synthdef
                            (start_offset (snd start_event)))
           start_events acc)
      (iterate_simultaneities (_synths self)) [] in
  let offsets_to_synthdefs : Dict Offset (list SynthDef) :=
    fold_left
      (fun acc item => dict_extend offset_eqb acc (snd item) [fst item])
      synthdefs_to_offsets [] in
  fold_left
    (fun request_mapping item =>
       let synthdefs :=
         sorted_with (fun x y => String.ltb (anonymous_name x) (anonymous_name y))
                     (snd item) in
       let request := SynthDefReceiveRequest synthdefs in
       dict_extend offset_eqb request_mapping (fst item) [request])
    offsets_to_synthdefs request_mapping.

Definition request_node_ids (request : Request) : list nat :=
  match request with
  | NodeFreeRequest node_ids => node_ids
  | _ => []
  end.

Definition _process_requests (offset : Offset) (requests : list Request)
  : Result OscBundle :=
  timestamp <- float offset ;;
  let requests_by_type : Dict RequestType (list Request) :=
    fold_left
      (fun acc request =>
         dict_extend RequestType_eqb acc (type_of request) [request])
      requests [] in
  let osc_messages :=
    fold_left
      (fun osc_messages request_type =>
         fold_left
           (fun osc_messages request => osc_messages ++ [to_osc_message request])
           (dict_get_list RequestType_eqb requests_by_type request_type)
           osc_messages)
      _prioritized_request_types [] in
  let osc_messages :=
    match dict_get RequestType_eqb requests_by_type NodeFreeRequestType with
    | Some node_free_requests =>
        let node_ids :=
          fold_left (fun node_ids request => node_ids ++ request_node_ids request)
                    node_free_requests [] in
        osc_messages ++ [to_osc_message (NodeFreeRequest node_ids)]
    | None => osc_messages
    end in
  Ok {| timestamp := timestamp; contents := osc_messages |}.

(** [x not in (mathtools.Infinity(), mathtools.NegativeInfinity)]: the
    second member is the class itself, which no offset equals. *)
Definition not_in_prototype (x : Offset) : bool :=
  negb (offset_eqb x Infinity || false).

Definition _process_terminal_event (final_offset : Offset)
           (timespan : option Timespan) : Result (list OscBundle) :=
  match timespan with
  | Some timespan =>
      if not_in_prototype (timespan_stop_offset timespan)
         && offset_ltb final_offset (timespan_stop_offset timespan)
      then
        timestamp <- float (timespan_stop_offset timespan) ;;
        Ok [ {| timestamp := timestamp;
                contents := [OscMessage_of_address 0] |} ]
      else Ok []
  | None => Ok []
  end.

(* ================================================================== *)
(** ** [struct.pack('>i', n)] *)

Definition byte_of_Z (z : Z) : Byte.byte :=
  match Byte.of_N (Z.to_N (Z.land z 255)) with
  | Some b => b
  | None => Byte.x00
  end.

(** A signed 32-bit integer, most significant byte first; values outside
    the range raise [struct.error]. *)
Definition struct_pack_i (n : Z) : Result (list Byte.byte) :=
  if ((- 2 ^ 31 <=? n) && (n <? 2 ^ 31))%Z
  then Ok [ byte_of_Z (Z.shiftr n 24); byte_of_Z (Z.shiftr n 16);
            byte_of_Z (Z.shiftr n 8); byte_of_Z n ]
  else Raise "struct.error".

(** Reading an unsigned big-endian integer. *)
Definition big_endian (bytes : list Byte.byte) : Z :=
  fold_left (fun acc b => (acc * 256 + Z.of_N (Byte.to_N b))%Z) bytes 0%Z.

(* ================================================================== *)
(** ** [Session]: rendering *)

Section Rendering.

(** The operations of [abjad.tools.timespantools] on the inventory of
    a session's synths, and the wire encoding of a bundle
    ([OscBundle.to_datagram(realtime=False)]), belong to other
    packages; the session is parametric in them. *)
Variable inventory_timespan : list Synth -> Timespan.
Variable inventory_and : list Synth -> Timespan -> list Synth.
Variable inventory_translate : list Synth -> Offset -> list Synth.
Variable offset_sub : Offset -> Offset -> Offset.
Variable OscBundle_to_datagram : OscBundle -> list Byte.byte.
Context {set_iteration : SetIteration}.

Definition _process_timespan_mask (self : Session)
           (timespan : option Timespan) : Session :=
  match timespan, _synths self with
  | Some timespan, _ :: _ =>
      let synths := _synths self in
      let original_timespan := inventory_timespan synths in
      let synths := inventory_and synths timespan in
      let synths :=
        if not_in_prototype (timespan_start_offset timespan)
        then
          let translation :=
            offset_sub (timespan_start_offset timespan)
                       (timespan_start_offset original_timespan) in
          inventory_translate synths translation
        else synths in
      let session := Session_new in
      {| _input_count := _input_count session;
         _output_count := _output_count session;
         _buses := _buses session;
         _synths := _synths session ++ synths |}
  | _, _ => self
  end.

Definition to_osc_bundles (self : Session) (timespan : option Timespan)
  : Result (list OscBundle) :=
  let session := _process_timespan_mask self timespan in
  let id_mapping : Dict Ref nat := [] in
  let id_mapping :=
    dict_update Ref_eqb id_mapping (_build_synth_id_mapping session) in
  let id_mapping :=
    dict_update Ref_eqb id_mapping (_build_bus_id_mapping session) in
  let request_mapping : Dict Offset (list Request) := [] in
  request_mapping <-
    _collect_bus_requests session request_mapping id_mapping ;;
  let request_mapping :=
    _collect_synthdef_requests session request_mapping in
  request_mapping <-
    _collect_synth_requests session request_mapping id_mapping ;;
  match request_mapping with
  | [] => Raise "ValueError"
  | first :: _ =>
      let items :=
        sorted_with (fun x y : Offset * list Request =>
                       offset_ltb (fst x) (fst y))
                    request_mapping in
      osc_bundles <-
        for_each
          (fun osc_bundles item =>
             osc_bundle <- _process_requests (fst item) (snd item) ;;
             Ok (osc_bundles ++ [osc_bundle]))
          items [] ;;
      (* the loop variable keeps the last offset *)
      let offset := last (map fst items) (fst first) in
      terminal <- _process_terminal_event offset timespan ;;
      Ok (osc_bundles ++ terminal)
  end.

Definition to_datagram (self : Session) (timespan : option Timespan)
  : Result (list Byte.byte) :=
  osc_bundles <- to_osc_bundles self timespan ;;
  datagrams <-
    for_each
      (fun datagrams osc_bundle =>
         let datagram := OscBundle_to_datagram osc_bundle in
         let size := Z.of_nat (List.length datagram) in
         size <- struct_pack_i size ;;
         Ok (datagrams ++ [size; datagram]))
      osc_bundles [] ;;
  Ok (List.concat datagrams).

End Rendering.

(* ================================================================== *)
(** ** The session of the class documentation *)

Module Documentation.

Definition sine : SynthDef :=
  {| name := "";
     anonymous_name := "9c4eb4778dc0faf39459fa8a5cd45c19";
     compiled := [] |}.

Definition synth (start stop : Z) (kwargs : list (string * Q))
           (events : list (Offset * (string * Q))) : Synth :=
  {| start_offset := at_int start; stop_offset := at_int stop;
     synthdef := sine; add_action := 0;
     synth_kwargs := kwargs; synth_events := events |}.

Definition session : Session :=
  let session := Session_new in
  let session :=
    fst (add_synth session
           (synth 0 10 [] [(at_frac 15 2, ("frequency"%string, 880 # 1))])) in
  let session :=
    fst (add_synth session
           (synth 5 15 [("frequency"%string, 443 # 1)]
                  [(at_frac 15 2, ("frequency"%string, 990 # 1))])) in
  fst (add_synth session (synth 0 15 [("frequency"%string, 666 # 1)] [])).

End Documentation.

(* ================================================================== *)
(** ** Further sessions used as examples *)

(** Rendering without a render range never calls the operations on
    timespans; the examples pass these, and iterate sets in the order
    of the list they are made from. *)
Definition whole_timespan (_ : list Synth) : Timespan :=
  {| timespan_start_offset := NegativeInfinity;
     timespan_stop_offset := Infinity |}.
Definition keep_synths (synths : list Synth) (_ : Timespan) : list Synth :=
  synths.
Definition keep_offsets (synths : list Synth) (_ : Offset) : list Synth :=
  synths.
Definition left_offset (a _ : Offset) : Offset := a.

(** An encoding of bundles that is only used for its length: one byte
    for each message of the bundle. *)
Definition one_byte_per_message (bundle : OscBundle) : list Byte.byte :=
  map (fun _ => Byte.x00) (contents bundle).

Definition to_osc_bundles_plain (self : Session) : Result (list OscBundle) :=
  to_osc_bundles (set_iteration := list_order)
                 whole_timespan keep_synths keep_offsets left_offset self None.

Definition plain_bundles (self : Session) : list OscBundle :=
  match to_osc_bundles_plain self with
  | Ok bundles => bundles
  | Raise _ => []
  end.

Module ScenarioC.

(** Two overlapping synths on [0, 10) and [5, 15) that share one
    definition. *)
Definition session : Session :=
  let session := Session_new in
  let session := fst (add_synth session (Documentation.synth 0 10 [] [])) in
  fst (add_synth session (Documentation.synth 5 15 [] [])).

Definition bundles : list OscBundle :=
  Eval vm_compute in plain_bundles session.

End ScenarioC.

Module SameGraph.

(** One graph compiled under two names: two definitions that differ and
    have the anonymous name, the hash of the graph, in common.  Two
    synths that start together use them. *)
Definition first : SynthDef :=
  {| name := "first";
     anonymous_name := "9c4eb4778dc0faf39459fa8a5cd45c19";
     compiled := [] |}.

Definition second : SynthDef :=
  {| name := "second";
     anonymous_name := "9c4eb4778dc0faf39459fa8a5cd45c19";
     compiled := [] |}.

Definition synth (definition : SynthDef) : Synth :=
  {| start_offset := at_int 0; stop_offset := at_int 10;
     synthdef := definition; add_action := 0;
     synth_kwargs := []; synth_events := [] |}.

Definition session : Session :=
  let session := Session_new in
  let session := fst (add_synth session (synth first)) in
  fst (add_synth session (synth second)).

End SameGraph.

Module SameStart.

(** Two synths that start together; the one declared first stops last. *)
Definition long_synth : Synth := Documentation.synth 0 15 [] [].
Definition short_synth : Synth := Documentation.synth 0 10 [] [].

Definition session : Session :=
  let session := Session_new in
  let session := fst (add_synth session long_synth) in
  fst (add_synth session short_synth).

End SameStart.

Module Buses.

(** Two control buses and an audio bus between them, each with a value
    recorded at offset 0. *)
Definition session : Session :=
  {| _input_count := 0;
     _output_count := 2;
     _buses :=
       [ {| calculation_rate := CONTROL; bus_group := None;
            bus_events := [(at_int 0, 1 # 2)] |};
         {| calculation_rate := AUDIO; bus_group := None;
            bus_events := [(at_int 0, 1 # 1)] |};
         {| calculation_rate := CONTROL; bus_group := None;
            bus_events := [(at_int 0, 3 # 4); (at_int 5, 1 # 1)] |} ];
     _synths := [] |}.

Definition bundles : list OscBundle :=
  Eval vm_compute in plain_bundles session.

(** A session with one group of two control buses. *)
Definition grouped : Session := fst (add_bus_group Session_new 2 CONTROL).

End Buses.

Module Overwritten.

(** A control bus that is given two values at offset 0. *)
Definition session : Session :=
  {| _input_count := 0;
     _output_count := 2;
     _buses :=
       [ {| calculation_rate := CONTROL; bus_group := None;
            bus_events := [(at_int 0, 1 # 2); (at_int 0, 3 # 4)] |} ];
     _synths := [] |}.

End Overwritten.

Module DocumentationBundles.

Definition bundles : list OscBundle :=
  Eval vm_compute in plain_bundles Documentation.session.

Definition first_bundle : OscBundle :=
  Eval vm_compute in
    match bundles with
    | bundle :: _ => bundle
    | [] => {| timestamp := SpecFloat.S754_nan; contents := [] |}
    end.

End DocumentationBundles.

(* ================================================================== *)
(** ** Multi-output UGens and UGen arrays *)

Record UGen : Type := {
  ugen_name : string;
  channel_count : nat;         (* [MultiOutUGen.channel_count] *)
}.

(** [MultiOutUGen.__len__] *)
Definition UGen_len (self : UGen) : nat := channel_count self.

Inductive BinaryOperator : Type :=
| ADDITION | FLOAT_DIVISION | MODULO | MULTIPLICATION | SUBTRACTION.

(** The members of a UGen array.  The arithmetic of a member with an
    operand builds an operator UGen over both; it is kept symbolic. *)
Inductive Signal : Type :=
| OutputProxy (source : UGen) (output_index : nat)
| Constant (value : Q)
| BinaryOpUGen (operator : BinaryOperator) (left right : Signal)
| NegationUGen (operand : Signal).

(** Modelled from the spec: [UGen.__getitem__] is not part of the
    sources at hand.  An output proxy is a (producing node, output index)
    pair, and [ugen[:]] is the sequence of the proxies of all outputs of
    the UGen, [len(ugen)] of them. *)
Definition UGen_outputs (self : UGen) : list Signal :=
  map (OutputProxy self) (seq 0 (UGen_len self)).

Record UGenArray : Type := { ugens : list Signal }.

(** [UGenArray.__init__]: [assert len(ugens)] *)
Definition UGenArray_init (members : list Signal) : Result UGenArray :=
  match members with
  | [] => Raise "AssertionError"
  | _ :: _ => Ok {| ugens := members |}
  end.

(** [UGenArray.__len__] *)
Definition UGenArray_len (self : UGenArray) : nat := List.length (ugens self).

(** [UGenArray.__getitem__] on an index in range *)
Definition UGenArray_getitem (self : UGenArray) (i : nat) : option Signal :=
  nth_error (ugens self) i.

Definition UGenArray_add (self : UGenArray) (expr : Signal) : Result UGenArray :=
  UGenArray_init (map (fun x => BinaryOpUGen ADDITION x expr) (ugens self)).

Definition UGenArray_div (self : UGenArray) (expr : Signal) : Result UGenArray :=
  UGenArray_init (map (fun x => BinaryOpUGen FLOAT_DIVISION x expr) (ugens self)).

Definition UGenArray_mod (self : UGenArray) (expr : Signal) : Result UGenArray :=
  UGenArray_init (map (fun x => BinaryOpUGen MODULO x expr) (ugens self)).

Definition UGenArray_mul (self : UGenArray) (expr : Signal) : Result UGenArray :=
  UGenArray_init (map (fun x => BinaryOpUGen MULTIPLICATION x expr) (ugens self)).

Definition UGenArray_neg (self : UGenArray) : Result UGenArray :=
  UGenArray_init (map NegationUGen (ugens self)).

Definition UGenArray_sub (self : UGenArray) (expr : Signal) : Result UGenArray :=
  UGenArray_init (map (fun x => BinaryOpUGen SUBTRACTION x expr) (ugens self)).

(** What the expansion of the base class hands to
    [MultiOutUGen._new_expanded]: one UGen, or a sequence of UGens. *)
Inductive Expanded : Type :=
| ExpandedUGen (ugen : UGen)
| ExpandedSequence (ugens : list UGen).

(** What [MultiOutUGen._new_expanded] returns. *)
Inductive Expansion : Type :=
| BareProxy (proxy : Signal)
| Array (array : UGenArray).

Definition MultiOutUGen_new_expanded (ugen : Expanded) : Result Expansion :=
  let output_proxies : list Signal := [] in
  let output_proxies :=
    match ugen with
    | ExpandedUGen ugen => output_proxies ++ UGen_outputs ugen
    | ExpandedSequence ugens =>
        fold_left (fun acc x => acc ++ UGen_outputs x) ugens output_proxies
    end in
  match output_proxies with
  | [proxy] => Ok (BareProxy proxy)
  | _ =>
      result <- UGenArray_init output_proxies ;;
      Ok (Array result)
  end.

(** The output proxies of all instances, flattened into one sequence. *)
Definition flat_outputs (ugen : Expanded) : list Signal :=
  match ugen with
  | ExpandedUGen ugen => UGen_outputs ugen
  | ExpandedSequence ugens => flat_map UGen_outputs ugens
  end.

(** Every arithmetic operation of an array that is not empty yields an
    array of the same length. *)
Definition preserves_length (self : UGenArray) : Prop :=
  (forall expr, exists r, UGenArray_add self expr = Ok r
                          /\ UGenArray_len r = UGenArray_len self)
  /\ (forall expr, exists r, UGenArray_div self expr = Ok r
                             /\ UGenArray_len r = UGenArray_len self)
  /\ (forall expr, exists r, UGenArray_mod self expr = Ok r
                             /\ UGenArray_len r = UGenArray_len self)
  /\ (forall expr, exists r, UGenArray_mul self expr = Ok r
                             /\ UGenArray_len r = UGenArray_len self)
  /\ (exists r, UGenArray_neg self = Ok r
                /\ UGenArray_len r = UGenArray_len self)
  /\ (forall expr, exists r, UGenArray_sub self expr = Ok r
                             /\ UGenArray_len r = UGenArray_len self).

(* ================================================================== *)
(** ** Patterns: random number generators and shuffling

    [supriya/newpatterns/patterns.py] and [supriya/newpatterns/noise.py].
    Python's [float] is the binary64 float of the kernel. *)

(** [float(n)] for an integer between 0 and 2^63 *)
Definition float_of_int (n : Z) : PrimFloat.float :=
  PrimFloat.of_uint63 (Uint63.of_Z n).

(** [int(x)]: truncation towards zero; an infinity raises
    [OverflowError], a nan [ValueError]. *)
Definition int (x : PrimFloat.float) : Result Z :=
  match FloatOps.Prim2SF x with
  | SpecFloat.S754_zero _ => Ok 0%Z
  | SpecFloat.S754_infinity _ => Raise "OverflowError"
  | SpecFloat.S754_nan => Raise "ValueError"
  | SpecFloat.S754_finite negative mantissa exponent =>
      let magnitude :=
        if (0 <=? exponent)%Z then (Z.pos mantissa * 2 ^ exponent)%Z
        else (Z.pos mantissa / 2 ^ (- exponent))%Z in
      Ok (if negative then (- magnitude)%Z else magnitude)
  end.

(** A float that is neither an infinity nor a nan: the floats that
    [int] converts. *)
Definition is_finite (x : PrimFloat.float) : bool :=
  match FloatOps.Prim2SF x with
  | SpecFloat.S754_zero _ | SpecFloat.S754_finite _ _ _ => true
  | SpecFloat.S754_infinity _ | SpecFloat.S754_nan => false
  end.

(** The state of [Pattern._get_seeded_rng] after one turn of its loop:
    [seed = (seed * 1_103_515_245 + 12345) & 0x7FFFFFFF] *)
Definition seeded_rng_step (seed : Z) : Z :=
  Z.land (seed * 1103515245 + 12345) 2147483647.

(** The state after the given number of turns. *)
Fixpoint seeded_rng_state (seed : Z) (turns : nat) : Z :=
  match turns with
  | O => seed
  | S turns => seeded_rng_step (seeded_rng_state seed turns)
  end.

(** [Pattern._get_seeded_rng(seed)]: the generator never ends; it is the
    sequence of the values it yields, [float(seed) / 0x7FFFFFFF] after
    each turn. *)
Definition _get_seeded_rng (seed : Z) (n : nat) : PrimFloat.float :=
  PrimFloat.div (float_of_int (seeded_rng_state seed (S n)))
                (float_of_int 2147483647).

(** [int(next(rng) * 0x7FFFFFFF) % n]: the generator is the sequence of
    its values and the position of the next one. *)
Definition draw_index (rng : nat -> PrimFloat.float) (position : nat) (n : nat)
  : Result nat :=
  drawn <- int (PrimFloat.mul (rng position) (float_of_int 2147483647)) ;;
  if Nat.eqb n 0 then Raise "ZeroDivisionError"
  else Ok (Z.to_nat (drawn mod Z.of_nat n)).


(** [indices.pop(index)] for an index that is not negative *)
Definition list_pop (A : Type) (l : list A) (index : nat)
  : Result (A * list A) :=
  match nth_error l index with
  | Some x => Ok (x, firstn index l ++ skipn (S index) l)
  | None => Raise "IndexError"
  end.

(** The [while len(indices) > 1] loop of [ShufflePattern._shuffle]; every
    turn removes one index, so [len(indices)] turns are fuel enough and
    [None] is never the result (see [shuffle_loop_returns]). *)
Fixpoint shuffle_loop (fuel : nat) (rng : nat -> PrimFloat.float)
         (indices shuffled_indices : list nat) (position : nat)
  : option (Result (list nat * list nat * nat)) :=
  if Nat.ltb 1 (List.length indices)
  then
    match fuel with
    | O => None
    | S fuel =>
        match draw_index rng position (List.length indices) with
        | Raise e => Some (Raise e)
        | Ok index =>
            match list_pop indices index with
            | Raise e => Some (Raise e)
            | Ok (popped, indices) =>
                shuffle_loop fuel rng indices (shuffled_indices ++ [popped])
                             (S position)
            end
        end
    end
  else Some (Ok (indices, shuffled_indices, position)).

(** [ShufflePattern._shuffle(length, rng)]: the shuffled indices and the
    position of the generator afterwards. *)
Definition _shuffle (length : nat) (rng : nat -> PrimFloat.float)
           (position : nat) : option (Result (list nat * nat)) :=
  let indices := seq 0 length in
  let shuffled_indices : list nat := [] in
  match shuffle_loop length rng indices shuffled_indices position with
  | None => None
  | Some (Raise e) => Some (Raise e)
  | Some (Ok (indices, shuffled_indices, position)) =>
      match indices with
      | [] => Some (Ok (shuffled_indices, position))
      | _ :: _ =>
          (* [indices.pop()] takes the last index *)
          Some (Ok (shuffled_indices ++ [last indices 0], position))
      end
  end.

(* ================================================================== *)
(** ** [Pattern._process_recursive]

    [supriya/newpatterns/patterns.py].  An operand is a value that is not
    a sequence, a str, or a list or tuple of operands.  A str is a
    sequence as well ([isinstance(expr, Sequence)] holds for it): its
    items are its characters, each of them a str of length one and so a
    sequence again.  The other sequences of Python (bytes, ranges) have
    items that are not sequences and are lists of such values here. *)

#[local] Unset Elimination Schemes.

Inductive Expr (A : Type) : Type :=
| Atom (value : A)
| Text (value : string)
| Sequence (items : list (Expr A)).

#[local] Set Elimination Schemes.

Arguments Atom {A} value.
Arguments Text {A} value.
Arguments Sequence {A} items.

(** The items of a str: its characters, as strs of length one. *)
Definition characters (A : Type) (value : string) : list (Expr A) :=
  map (fun character => Text (String character EmptyString))
      (list_ascii_of_string value).

(** [for x in xs: result.append(f(x))], where a call may raise and the
    recursion may run out of fuel. *)
Fixpoint collect (X Y : Type) (f : X -> option (Result Y)) (xs : list X)
  : option (Result (list Y)) :=
  match xs with
  | [] => Some (Ok [])
  | x :: xs =>
      match f x with
      | None => None
      | Some (Raise e) => Some (Raise e)
      | Some (Ok y) =>
          match collect f xs with
          | None => None
          | Some (Raise e) => Some (Raise e)
          | Some (Ok ys) => Some (Ok (y :: ys))
          end
      end
  end.

Section ProcessRecursive.
Variables A B : Type.
Variable procedure : A -> A -> Result B.

(** [isinstance(expr, Sequence)] *)
Definition is_sequence (expr : Expr A) : bool :=
  match expr with
  | Atom _ => false
  | Text _ => true
  | Sequence _ => true
  end.

(** [expr] if it is a sequence, [[expr]] otherwise *)
Definition as_sequence (expr : Expr A) : list (Expr A) :=
  match expr with
  | Atom _ => [expr]
  | Text value => characters A value
  | Sequence items => items
  end.

(** [cycle = itertools.cycle(expr)] and
    [(next(cycle) for _ in range(length))]: [next] on the cycle of an
    empty sequence raises [StopIteration] inside the generator, which
    Python 3.7 and later turn into [RuntimeError]. *)
Definition cycled (expr : list (Expr A)) (length : nat)
  : Result (list (Expr A)) :=
  match expr with
  | [] => if Nat.eqb length 0 then Ok [] else Raise "RuntimeError"
  | first :: _ =>
      Ok (map (fun i => nth (i mod List.length expr) expr first)
              (seq 0 length))
  end.

(** The recursion descends into the items of a sequence; [fuel] bounds
    its depth, and [None] is returned when it does not suffice (see
    [process_recursive_returns]). *)
Fixpoint _process_recursive (fuel : nat) (expr_one expr_two : Expr A)
  : option (Result (Expr B)) :=
  match fuel with
  | O => None
  | S fuel =>
      match expr_one, expr_two with
      | Atom one, Atom two =>
          (* neither operand is a sequence *)
          Some (result <- procedure one two ;; Ok (Atom result))
      | _, _ =>
          let expr_one := as_sequence expr_one in
          let expr_two := as_sequence expr_two in
          let length :=
            Nat.max (List.length expr_one) (List.length expr_two) in
          match (if List.length expr_one <? length
                 then cycled expr_one length else Ok expr_one) with
          | Raise e => Some (Raise e)
          | Ok expr_one =>
              match (if List.length expr_two <? length
                     then cycled expr_two length else Ok expr_two) with
              | Raise e => Some (Raise e)
              | Ok expr_two =>
                  match collect
                          (fun pair =>
                             _process_recursive fuel (fst pair) (snd pair))
                          (combine expr_one expr_two) with
                  | None => None
                  | Some (Raise e) => Some (Raise e)
                  | Some (Ok result) => Some (Ok (Sequence result))
                  end
              end
          end
      end
  end.

End ProcessRecursive.

(** The depth to which sequences are nested in an operand. *)
Fixpoint depth (A : Type) (expr : Expr A) : nat :=
  match expr with
  | Atom _ => 0
  | Text _ => 1
  | Sequence items => S (list_max (map (@depth A) items))
  end.

(** An operand none of whose sequences is empty. *)
Fixpoint no_empty_sequence (A : Type) (expr : Expr A) : bool :=
  match expr with
  | Atom _ => true
  | Text value =>
      match value with
      | EmptyString => false
      | String _ _ => true
      end
  | Sequence items =>
      match items with
      | [] => false
      | _ :: _ => forallb (@no_empty_sequence A) items
      end
  end.

(** An operand that holds no str. *)
Fixpoint no_str (A : Type) (expr : Expr A) : bool :=
  match expr with
  | Atom _ => true
  | Text _ => false
  | Sequence items => forallb (@no_str A) items
  end.

Module Broadcasting.

(** [operator.__add__] on integers, and the operands [[1, 2, 3]] and
    [[10, [20, 30]]]. *)
Definition add (one two : Z) : Result Z := Ok (one + two)%Z.

Definition expr_one : Expr Z := Sequence [Atom 1; Atom 2; Atom 3]%Z.

Definition expr_two : Expr Z :=
  Sequence [Atom 10; Sequence [Atom 20; Atom 30]]%Z.

End Broadcasting.

(* ================================================================== *)
(** ** [SoundIn.ar]

    [supriya/ugens/inout.py].  The argument is an integer or an iterable
    of values; the result is the call of [In.ar] that [SoundIn.ar]
    makes. *)

Inductive Value : Type :=
| IntValue (z : Z)
| OtherValue.

Inductive BusArgument : Type :=
| BusNumber (bus : Value)
| BusNumbers (bus : list Value).

(** [bus + channel_offset], where [channel_offset] is
    [NumOutputBuses.ir()]: the sum of an integer, or of a tuple of
    integers, and a UGen is kept symbolic. *)
Inductive InputBus : Type :=
| PlusNumOutputBuses (bus : Z)
| TuplePlusNumOutputBuses (bus : list Z).

Record In_ar : Type := {
  In_bus : InputBus;
  In_channel_count : nat;
}.

(** [all(isinstance(x, int) for x in bus)], with the integers *)
Fixpoint all_int (bus : list Value) : option (list Z) :=
  match bus with
  | [] => Some []
  | IntValue z :: bus =>
      match all_int bus with
      | Some zs => Some (z :: zs)
      | None => None
      end
  | OtherValue :: _ => None
  end.

(** [min(bus)] and [max(bus)] of a tuple *)
Definition tuple_min (bus : list Z) : Result Z :=
  match bus with
  | [] => Raise "ValueError"
  | z :: bus => Ok (fold_left Z.min bus z)
  end.

Definition tuple_max (bus : list Z) : Result Z :=
  match bus with
  | [] => Raise "ValueError"
  | z :: bus => Ok (fold_left Z.max bus z)
  end.

(** [tuple(range(start, stop))] *)
Definition range (start stop : Z) : list Z :=
  map (fun i => (start + Z.of_nat i)%Z) (seq 0 (Z.to_nat (stop - start))).

Definition tuple_eqb (a b : list Z) : bool :=
  if list_eq_dec Z.eq_dec a b then true else false.

Definition SoundIn_ar (bus : BusArgument) : Result In_ar :=
  bus <-
    match bus with
    | BusNumbers bus =>
        match all_int bus with
        | Some bus => Ok (sorted Z.leb bus)
        | None => Raise "AssertionError"
        end
    | BusNumber (IntValue bus) => Ok [bus]
    | BusNumber OtherValue => Raise "AssertionError"
    end ;;
  lowest <- tuple_min bus ;;
  highest <- tuple_max bus ;;
  if tuple_eqb bus (range lowest (highest + 1))
  then Ok {| In_bus := PlusNumOutputBuses lowest;
             In_channel_count := List.length bus |}
  else Ok {| In_bus := TuplePlusNumOutputBuses bus;
             In_channel_count := 1 |}.

(** A run of consecutive integers. *)
Definition run (first : Z) (n : nat) : list Z :=
  map (fun i => (first + Z.of_nat i)%Z) (seq 0 n).

(* ================================================================== *)
(** ** [BufferSetResponse]

    [supriya/tools/responsetools/BufferSetResponse.py].  An item of the
    response is what [as_dict] reads of it: [item.sample_index] and
    [item.sample_value]. *)

Record BufferSetItem : Type := {
  sample_index : Z;
  sample_value : PrimFloat.float;
}.

(** [_items] is [None] unless the caller passes a sequence. *)
Record BufferSetResponse : Type := {
  _buffer_id : option Z;
  _items : option (list BufferSetItem);
}.

(** [BufferSetResponse.__len__] *)
Definition BufferSetResponse_len (self : BufferSetResponse) : Result nat :=
  match _items self with
  | Some items => Ok (List.length items)
  | None => Raise "TypeError"
  end.

(** [BufferSetResponse.__getitem__] on an index that is not negative *)
Definition BufferSetResponse_getitem (self : BufferSetResponse) (item : nat)
  : Result BufferSetItem :=
  match _items self with
  | Some items =>
      match nth_error items item with
      | Some x => Ok x
      | None => Raise "IndexError"
      end
  | None => Raise "TypeError"
  end.

(** [for item in self]: the iteration that [collections.Sequence]
    supplies calls [self[0]], [self[1]], ... until [IndexError]. *)
Fixpoint BufferSetResponse_iter_from (fuel : nat) (self : BufferSetResponse)
         (i : nat) : option (Result (list BufferSetItem)) :=
  match fuel with
  | O => None
  | S fuel =>
      match BufferSetResponse_getitem self i with
      | Ok v =>
          match BufferSetResponse_iter_from fuel self (S i) with
          | Some (Ok vs) => Some (Ok (v :: vs))
          | other => other
          end
      | Raise "IndexError" => Some (Ok [])
      | Raise e => Some (Raise e)
      end
  end.

(** One call more than there are items is fuel enough. *)
Definition BufferSetResponse_iter (self : BufferSetResponse)
  : option (Result (list BufferSetItem)) :=
  BufferSetResponse_iter_from
    (S (match _items self with Some items => List.length items | None => 0 end))
    self 0.

(** [BufferSetResponse.as_dict] *)
Definition as_dict (self : BufferSetResponse)
  : option (Result (Dict Z PrimFloat.float)) :=
  match BufferSetResponse_iter self with
  | None => None
  | Some (Raise e) => Some (Raise e)
  | Some (Ok yielded) =>
      Some (Ok (fold_left
                  (fun result item =>
                     dict_set Z.eqb result (sample_index item)
                              (sample_value item))
                  yielded []))
  end.

(* ================================================================== *)
(** ** [Group._iterate_children]

    [supriya/tools/servertools/Group.py].  A node of the tree is a group
    with its children, or a node of another class. *)

#[local] Unset Elimination Schemes.

Inductive Node : Type :=
| OtherNode (node_id : nat)
| Group (node_id : nat) (children : list Node).

#[local] Set Elimination Schemes.

Fixpoint _iterate_children (group : Node) : list Node :=
  match group with
  | Group _ children =>
      flat_map
        (fun child =>
           match child with
           | Group _ _ => _iterate_children child
           | OtherNode _ => []
           end ++ [child])
        children
  | OtherNode _ => []
  end.

(** The number of nodes below a node. *)
Fixpoint nodes_below (node : Node) : nat :=
  match node with
  | Group _ children =>
      list_sum (map (fun child => S (nodes_below child)) children)
  | OtherNode _ => 0
  end.

Module Tree.

(** A group that holds a node, a group of two nodes and another node. *)
Definition inner : Node := Group 2 [OtherNode 3; OtherNode 4].

Definition outer : Node := Group 1 [OtherNode 5; inner; OtherNode 6].

End Tree.

(* ================================================================== *)
(** ** Notions used by the properties *)

(** [(start_offset, declaration order)]: a synth precedes another when it
    starts earlier, or starts together with it and was declared earlier. *)
Definition precedes (x y : nat * Synth) : Prop :=
  offset_lt (start_offset (snd x)) (start_offset (snd y))
  \/ (start_offset (snd x) = start_offset (snd y) /\ fst x < fst y).

(** The order in which [_build_synth_id_mapping] visits the synths. *)
Definition synth_order (self : Session) : list (nat * Synth) :=
  sorted_with Synth_ltb (enumerate 0 (_synths self)).

(** Allocating identifiers for synths that have none yet. *)
Definition numbered (first : nat) (order : list (nat * Synth))
  : Dict Ref nat :=
  map (fun entry => (SynthRef (fst (snd entry)), first + fst entry))
      (enumerate 0 order).

(** The requests of one class among the requests of an offset. *)
Definition has_type (t : RequestType) (request : Request) : bool :=
  RequestType_eqb (type_of request) t.

(** The commands of the specification's priority order. *)
Inductive Command : Type :=
| definition_receive
| bus_set
| group_new
| synth_new
| bus_mapping
| parameter_set
| node_free.

Definition command_of_type (t : RequestType) : Command :=
  match t with
  | SynthDefReceiveRequestType => definition_receive
  | ControlBusSetRequestType => bus_set
  | GroupNewRequestType => group_new
  | SynthNewRequestType => synth_new
  | NodeMapToAudioBusRequestType => bus_mapping
  | NodeMapToControlBusRequestType => bus_mapping
  | NodeSetRequestType => parameter_set
  | NodeFreeRequestType => node_free
  end.

Definition priority (c : Command) : nat :=
  match c with
  | definition_receive => 0
  | bus_set => 1
  | group_new => 2
  | synth_new => 3
  | bus_mapping => 4
  | parameter_set => 5
  | node_free => 6
  end.

(** The command that a message carries; the message built from a bare
    address carries none. *)
Definition message_command (m : OscMessage) : option Command :=
  match m with
  | to_osc_message request => Some (command_of_type (type_of request))
  | OscMessage_of_address _ => None
  end.

Definition message_priority (m : OscMessage) : nat :=
  match message_command m with
  | Some c => priority c
  | None => 0
  end.

(** The exponent of [binary64_round] and the bounds of the significand
    before it is normalised. *)
Definition binary64_exponent (numerator denominator : positive) : Z :=
  Z.max 0 (Z.log2 (Zpos numerator * 2 ^ 1074 / Zpos denominator) - 52)%Z.

Definition binary64_significand (numerator denominator : positive) : Z :=
  round_half_even (Zpos numerator * 2 ^ 1074)%Z
                  (Zpos denominator
                   * 2 ^ binary64_exponent numerator denominator)%Z.

(** The order of binary64 numbers that are not negative, on pairs of a
    significand and an exponent. *)
Definition pair_le (a b : Z * Z) : Prop :=
  (snd a < snd b)%Z \/ (snd a = snd b /\ (fst a <= fst b)%Z).

(** The identifier mapping that [to_osc_bundles] assembles. *)
Definition id_mapping_of (session : Session) : Dict Ref nat :=
  dict_update Ref_eqb
    (dict_update Ref_eqb [] (_build_synth_id_mapping session))
    (_build_bus_id_mapping session).

(** The request mapping that [to_osc_bundles] collects. *)
Definition collect_requests {set_iteration : SetIteration}
           (session : Session) : Result (Dict Offset (list Request)) :=
  request_mapping <-
    _collect_bus_requests session [] (id_mapping_of session) ;;
  _collect_synth_requests session
    (_collect_synthdef_requests session request_mapping)
    (id_mapping_of session).

(** The messages that [_process_requests] makes of the requests of an
    offset. *)
Definition osc_messages_of (requests : list Request) : list OscMessage :=
  let requests_by_type : Dict RequestType (list Request) :=
    fold_left
      (fun acc request =>
         dict_extend RequestType_eqb acc (type_of request) [request])
      requests [] in
  let osc_messages :=
    fold_left
      (fun osc_messages request_type =>
         fold_left
           (fun osc_messages request => osc_messages ++ [to_osc_message request])
           (dict_get_list RequestType_eqb requests_by_type request_type)
           osc_messages)
      _prioritized_request_types [] in
  match dict_get RequestType_eqb requests_by_type NodeFreeRequestType with
  | Some node_free_requests =>
      let node_ids :=
        fold_left (fun node_ids request => node_ids ++ request_node_ids request)
                  node_free_requests [] in
      osc_messages ++ [to_osc_message (NodeFreeRequest node_ids)]
  | None => osc_messages
  end.

(** The timestamp of an offset that [float] converts; not-a-number
    stands for an offset that it does not convert. *)
Definition timestamp_of (offset : Offset) : Timestamp :=
  match float offset with
  | Ok timestamp => timestamp
  | Raise _ => SpecFloat.S754_nan
  end.

(** The bundle of an offset and its requests, and the bundles of a
    request mapping in ascending offset order, as [to_osc_bundles] makes
    them when [float] converts every offset. *)
Definition bundle_of (offset : Offset) (requests : list Request) : OscBundle :=
  {| timestamp := timestamp_of offset; contents := osc_messages_of requests |}.

Definition bundles_of (request_mapping : Dict Offset (list Request))
  : list OscBundle :=
  map (fun item => bundle_of (fst item) (snd item))
      (sorted_with (fun x y : Offset * list Request =>
                      offset_ltb (fst x) (fst y))
                   request_mapping).

(** The terminal bundle of a render range: none, or the bundle at the
    stop offset of the range. *)
Definition terminal_of (final_offset : Offset) (timespan : option Timespan)
  : list OscBundle :=
  match timespan with
  | Some timespan =>
      if not_in_prototype (timespan_stop_offset timespan)
         && offset_ltb final_offset (timespan_stop_offset timespan)
      then [ {| timestamp := timestamp_of (timespan_stop_offset timespan);
                contents := [OscMessage_of_address 0] |} ]
      else []
  | None => []
  end.

(** The identifiers that the mapping holds for a synth and for a bus. *)
Definition node_id_of (id_mapping : Dict Ref nat) (handle : nat) : nat :=
  match dict_get Ref_eqb id_mapping (SynthRef handle) with
  | Some node_id => node_id
  | None => 0
  end.

Definition bus_index_of (id_mapping : Dict Ref nat) (handle : nat) : nat :=
  match dict_get Ref_eqb id_mapping (BusRef handle) with
  | Some bus_id => bus_id
  | None => 0
  end.

(** The value changes of the control buses of a session, in the order in
    which [_collect_bus_requests] meets them: offset, bus index, value. *)
Definition control_bus_events (session : Session) (id_mapping : Dict Ref nat)
  : list (Offset * (nat * Q)) :=
  flat_map
    (fun entry =>
       if negb (CalculationRate_eqb (calculation_rate (snd entry)) CONTROL)
       then []
       else map (fun event =>
                   (fst event, (bus_index_of id_mapping (fst entry), snd event)))
                (bus_events (snd entry)))
    (enumerate 0 (_buses session)).

Definition events_by_offset_of (events : list (Offset * (nat * Q)))
  : Dict Offset (Dict nat Q) :=
  fold_left
    (fun acc event =>
       record_bus_event acc (fst event) (fst (snd event)) (snd (snd event)))
    events [].

Definition bus_emissions (session : Session) (id_mapping : Dict Ref nat)
  : list (Offset * list Request) :=
  map (fun item =>
         (fst item,
          [ControlBusSetRequest
             (sorted_with (fun x y : nat * Q => Nat.ltb (fst x) (fst y))
                          (snd item))]))
      (events_by_offset_of (control_bus_events session id_mapping)).

(** The starting synths in the order in which
    [_collect_synthdef_requests] meets them. *)
Definition start_events {set_iteration : SetIteration} (session : Session)
  : list (nat * Synth) :=
  flat_map (fun simultaneity => iterate (start_timespans simultaneity))
           (iterate_simultaneities (_synths session)).

Definition synthdefs_to_offsets {set_iteration : SetIteration}
           (session : Session) : Dict SynthDef Offset :=
  fold_left
    (fun acc start_event =>
       if dict_mem SynthDef_eqb acc (synthdef (snd start_event)) then acc
       else dict_set SynthDef_eqb acc (synthdef (snd start_event))
                     (start_offset (snd start_event)))
    (start_events session) [].

Definition offsets_to_synthdefs {set_iteration : SetIteration}
           (session : Session) : Dict Offset (list SynthDef) :=
  emit_all offset_eqb
    (map (fun item => (snd item, [fst item])) (synthdefs_to_offsets session))
    [].

Definition synthdef_emissions {set_iteration : SetIteration}
           (session : Session) : list (Offset * list Request) :=
  map (fun item =>
         (fst item,
          [SynthDefReceiveRequest
             (sorted_with
                (fun x y => String.ltb (anonymous_name x) (anonymous_name y))
                (snd item))]))
      (offsets_to_synthdefs session).

(** The synths in the order in which [_collect_synth_requests] visits
    them. *)
Definition request_order (session : Session) (id_mapping : Dict Ref nat)
  : list (nat * Synth) :=
  map snd
      (sorted_with comparator_ltb
         (map (fun x =>
                 ((_get_timespan (snd x), node_id_of id_mapping (fst x)), x))
              (enumerate 0 (_synths session)))).

Definition synth_emissions (session : Session) (id_mapping : Dict Ref nat)
  : list (Offset * list Request) :=
  flat_map (fun x => synth_requests (node_id_of id_mapping (fst x)) (snd x))
           (request_order session id_mapping).

(** Everything that is entered into the request mapping, in order. *)
Definition all_emissions {set_iteration : SetIteration}
           (session : Session) : list (Offset * list Request) :=
  bus_emissions session (id_mapping_of session)
  ++ synthdef_emissions session
  ++ synth_emissions session (id_mapping_of session).

(** The mapping before the loop over the buses of the session. *)
Definition reserved_bus_mapping (self : Session) : Dict Ref nat :=
  let mapping : Dict Ref nat := [] in
  let mapping :=
    if Nat.eqb (_output_count self) 0 then mapping
    else fold_left (fun acc entry => dict_set Ref_eqb acc (snd entry) (fst entry))
                   (enumerate 0 (audio_output_bus_group self)) mapping in
  if Nat.eqb (_input_count self) 0 then mapping
  else fold_left (fun acc entry => dict_set Ref_eqb acc (snd entry) (fst entry))
                 (enumerate (_output_count self) (audio_input_bus_group self))
                 mapping.

(** The request mapping of a session, and the requests it holds for an
    offset. *)
Definition request_mapping_of {set_iteration : SetIteration}
           (session : Session) : Dict Offset (list Request) :=
  emit_all offset_eqb (all_emissions session) [].

Definition requests_at {set_iteration : SetIteration}
           (session : Session) (offset : Offset) : list Request :=
  emitted_at offset_eqb (all_emissions session) offset.

(** The offsets for which [to_osc_bundles] makes a bundle, in the order
    of [sorted(request_mapping.items())]: the bundle at a position of the
    result is made for the offset at that position. *)
Definition scheduled_offsets {set_iteration : SetIteration}
           (session : Session) : list Offset :=
  map fst
      (sorted_with (fun x y : Offset * list Request =>
                      offset_ltb (fst x) (fst y))
                   (request_mapping_of session)).

(** [float] converts the offset of every item of a request mapping. *)
Definition converted_items (items : list (Offset * list Request)) : Prop :=
  Forall (fun item => float (fst item) = Ok (timestamp_of (fst item))) items.

(** The four bytes of a length prefix, most significant first. *)
Definition length_prefix (n : nat) : list Byte.byte :=
  [ byte_of_Z (Z.shiftr (Z.of_nat n) 24); byte_of_Z (Z.shiftr (Z.of_nat n) 16);
    byte_of_Z (Z.shiftr (Z.of_nat n) 8); byte_of_Z (Z.of_nat n) ].

(** One record of the datagram: the length prefix of the encoded bundle,
    followed by the encoded bundle. *)
Definition datagram_record (encode : OscBundle -> list Byte.byte)
           (bundle : OscBundle) : list Byte.byte :=
  length_prefix (List.length (encode bundle)) ++ encode bundle.

(** Messages that carry a node-free, a control-bus-set or a
    definition-receive command. *)
Definition is_node_free (m : OscMessage) : bool :=
  match m with
  | to_osc_message (NodeFreeRequest _) => true
  | _ => false
  end.

Definition is_bus_set (m : OscMessage) : bool :=
  match m with
  | to_osc_message (ControlBusSetRequest _) => true
  | _ => false
  end.

(** A definition-receive message that transmits the given definition. *)
Definition receives (sd : SynthDef) (m : OscMessage) : bool :=
  match m with
  | to_osc_message (SynthDefReceiveRequest sds) => existsb (SynthDef_eqb sd) sds
  | _ => false
  end.

(** The synths that stop at an offset, in the order in which their
    requests are collected. *)
Definition stopping_at (session : Session) (offset : Offset)
  : list (nat * Synth) :=
  filter (fun x => offset_eqb (stop_offset (snd x)) offset)
         (request_order session (id_mapping_of session)).

(** The changes of control-bus values scheduled for an offset, as
    (bus index, value) pairs in the order in which they are met. *)
Definition changes_at (session : Session) (offset : Offset) : list (nat * Q) :=
  map snd
      (filter (fun event => offset_eqb (fst event) offset)
              (control_bus_events session (id_mapping_of session))).

(** A message that encodes a request of the given class. *)
Definition message_has_type (t : RequestType) (m : OscMessage) : bool :=
  match m with
  | to_osc_message request => has_type t request
  | OscMessage_of_address _ => false
  end.

(** Assigning (bus index, value) pairs to a dictionary in order. *)
Definition assign_pairs (pairs : list (nat * Q)) (d : Dict nat Q)
  : Dict nat Q :=
  fold_left (fun acc pair => dict_set Nat.eqb acc (fst pair) (snd pair)) pairs d.

(** A definition-receive request that transmits the given definition. *)
Definition request_receives (sd : SynthDef) (request : Request) : bool :=
  match request with
  | SynthDefReceiveRequest sds => existsb (SynthDef_eqb sd) sds
  | _ => false
  end.

(* ================================================================== *)
(** ** Further notions and example sessions *)

(** The number of addresses that the loop of [_build_bus_id_mapping]
    requests for a bus: one for a bus without a group,
    [len(bus.bus_group)] for a member of a group. *)
Definition bus_size (bus : Bus) : nat :=
  match bus_group bus with
  | None => 1
  | Some group => Pos.to_nat (bus_count group)
  end.

(** The allocator that serves a bus: the audio allocator for an
    audio-rate bus, the control allocator for every other rate. *)
Definition is_audio (bus : Bus) : bool :=
  CalculationRate_eqb (calculation_rate bus) AUDIO.

Definition same_allocator (a b : Bus) : bool :=
  Bool.eqb (is_audio a) (is_audio b).

(** The first address of the allocator that serves a bus. *)
Definition heap_minimum_of (self : Session) (bus : Bus) : nat :=
  if is_audio bus then _input_count self + _output_count self else 0.

(** The addresses requested from the allocator of a bus by the buses
    registered up to and including the one with the given handle. *)
Definition requested_through (buses : list Bus) (handle : nat) (bus : Bus)
  : nat :=
  list_sum (map bus_size (filter (same_allocator bus) (firstn (S handle) buses))).

Module Mixed.

(** An audio bus, a group of two control buses and a control bus, in a
    session with one input and two outputs. *)
Definition session : Session :=
  let session := Session_init 1 2 in
  let session := fst (add_bus session AUDIO) in
  let session := fst (add_bus_group session 2 CONTROL) in
  fst (add_bus session CONTROL).

End Mixed.

(** [precedes] as a test. *)
Definition precedesb (x y : nat * Synth) : bool :=
  offset_ltb (start_offset (snd x)) (start_offset (snd y))
  || (offset_eqb (start_offset (snd x)) (start_offset (snd y))
      && Nat.ltb (fst x) (fst y)).

(** The number of synths of a session that precede the given one. *)
Definition rank_of (self : Session) (x : nat * Synth) : nat :=
  List.length (filter (fun y => precedesb y x) (enumerate 0 (_synths self))).

Module Renumbered.

(** The session of the class documentation and a synth that starts
    at 2, after two of its synths and before the third. *)
Definition added : Synth := Documentation.synth 2 4 [] [].

End Renumbered.

(** Reading a datagram back as its format prescribes: four bytes give,
    most significant first, the length of the record that follows them.
    [fuel] bounds the number of records that are read. *)
Fixpoint read_records (fuel : nat) (datagram : list Byte.byte)
  : option (list (list Byte.byte)) :=
  match datagram with
  | [] => Some []
  | _ :: _ =>
      match fuel with
      | O => None
      | S fuel =>
          if List.length datagram <? 4 then None
          else
            let size := Z.to_nat (big_endian (firstn 4 datagram)) in
            let rest := skipn 4 datagram in
            if List.length rest <? size then None
            else
              match read_records fuel (skipn size rest) with
              | Some records => Some (firstn size rest :: records)
              | None => None
              end
      end
  end.

(** Every record takes at least four bytes, so the length of the
    datagram is fuel enough. *)
Definition split_datagram (datagram : list Byte.byte)
  : option (list (list Byte.byte)) :=
  read_records (List.length datagram) datagram.

(** The UGens that the expansion of the base class produced. *)
Definition instances (ugen : Expanded) : list UGen :=
  match ugen with
  | ExpandedUGen ugen => [ugen]
  | ExpandedSequence ugens => ugens
  end.

(** The number of outputs of the instances that stand before the one at
    the given position. *)
Definition outputs_before (ugens : list UGen) (position : nat) : nat :=
  list_sum (map channel_count (firstn position ugens)).

Module Panning.

(** [Pan2.__init__] passes [channel_count=2]; a source of two channels
    expands [Pan2.ar] into two instances. *)
Definition pan_2 : UGen := {| ugen_name := "Pan2"; channel_count := 2 |}.

Definition expanded : Expanded := ExpandedSequence [pan_2; pan_2].

End Panning.

(** The synths that start at an offset, in the order in which their
    requests are collected. *)
Definition starting_at (session : Session) (offset : Offset)
  : list (nat * Synth) :=
  filter (fun x => offset_eqb (start_offset (snd x)) offset)
         (request_order session (id_mapping_of session)).

(** The synth-new request of a synth. *)
Definition synth_new_request (session : Session) (x : nat * Synth) : Request :=
  SynthNewRequest (synthdef (snd x))
                  (node_id_of (id_mapping_of session) (fst x))
                  (add_action (snd x)) 0 (synth_kwargs (snd x)).

(** The order of the sort key [(x._get_timespan(x), id_mapping[x])]. *)
Definition key_before (session : Session) (x y : nat * Synth) : Prop :=
  offset_lt (start_offset (snd x)) (start_offset (snd y))
  \/ (start_offset (snd x) = start_offset (snd y)
      /\ (offset_lt (stop_offset (snd x)) (stop_offset (snd y))
          \/ (stop_offset (snd x) = stop_offset (snd y)
              /\ node_id_of (id_mapping_of session) (fst x)
                 < node_id_of (id_mapping_of session) (fst y)))).

Module Ranged.

(** A control bus with a recorded value and a synth on [0, 10), rendered
    over the range [0, 20). *)
Definition session : Session :=
  {| _input_count := 0;
     _output_count := 2;
     _buses :=
       [ {| calculation_rate := CONTROL; bus_group := None;
            bus_events := [(at_int 0, 1 # 2)] |} ];
     _synths := [ Documentation.synth 0 10 [] [] ] |}.

Definition range : Timespan :=
  {| timespan_start_offset := at_int 0; timespan_stop_offset := at_int 20 |}.

(** The timespan of the inventory of this session.  Its synth lies inside
    the range and starts where the range starts: the intersection keeps
    it ([keep_synths]) and the translation is by zero ([left_offset],
    [keep_offsets]). *)
Definition inventory_timespan (_ : list Synth) : Timespan :=
  {| timespan_start_offset := at_int 0; timespan_stop_offset := at_int 10 |}.

Definition to_osc_bundles_ranged (self : Session) (timespan : option Timespan)
  : Result (list OscBundle) :=
  to_osc_bundles (set_iteration := list_order)
                 inventory_timespan keep_synths keep_offsets left_offset
                 self timespan.

Definition bundles : list OscBundle :=
  Eval vm_compute in
    match to_osc_bundles_ranged session (Some range) with
    | Ok bundles => bundles
    | Raise _ => []
    end.

End Ranged.

Module TwoDefinitions.

(** Two definitions first used at offset 0; the one declared first has
    the greater anonymous name. *)
Definition saw : SynthDef :=
  {| name := ""; anonymous_name := "f3a1"; compiled := [] |}.

Definition pulse : SynthDef :=
  {| name := ""; anonymous_name := "0b7c"; compiled := [] |}.

Definition synth (definition : SynthDef) (start stop : Z) : Synth :=
  {| start_offset := at_int start; stop_offset := at_int stop;
     synthdef := definition; add_action := 0;
     synth_kwargs := []; synth_events := [] |}.

Definition session : Session :=
  let session := Session_new in
  let session := fst (add_synth session (synth saw 0 5)) in
  fst (add_synth session (synth pulse 0 5)).

Definition bundles : list OscBundle :=
  Eval vm_compute in plain_bundles session.

Definition first_bundle : OscBundle :=
  Eval vm_compute in
    match bundles with
    | bundle :: _ => bundle
    | [] => {| timestamp := SpecFloat.S754_nan; contents := [] |}
    end.

End TwoDefinitions.

Module SameStartBundles.

Definition bundles : list OscBundle :=
  Eval vm_compute in plain_bundles SameStart.session.

Definition first_bundle : OscBundle :=
  Eval vm_compute in
    match bundles with
    | bundle :: _ => bundle
    | [] => {| timestamp := SpecFloat.S754_nan; contents := [] |}
    end.

End SameStartBundles.

(* ================================================================== *)
(** * Properties *)

(** ** Exceptions and loops *)

Lemma for_each_total :
  forall (A St : Type) (body : St -> A -> Result St) (step : St -> A -> St)
         (xs : list A) (st : St),
    (forall st x, In x xs -> body st x = Ok (step st x)) ->
    for_each body xs st = Ok (fold_left step xs st).
Proof.
  intros A St body step xs.
  induction xs as [|x xs IH]; intros st Hbody; simpl.
  - reflexivity.
  - rewrite (Hbody st x (or_introl eq_refl)). simpl.
    apply IH. intros st' y Hy. apply Hbody. right. exact Hy.
Qed.

Lemma enumerate_length :
  forall (A : Type) (xs : list A) (start : nat),
    List.length (enumerate start xs) = List.length xs.
Proof.
  induction xs as [|x xs IH]; intros start; simpl; [reflexivity|].
  now rewrite IH.
Qed.

Lemma enumerate_nth_error :
  forall (A : Type) (xs : list A) (start i : nat) (x : A),
    nth_error (enumerate start xs) i = Some (start + i, x)
    <-> nth_error xs i = Some x.
Proof.
  induction xs as [|y xs IH]; intros start i x.
  - destruct i; simpl; split; discriminate.
  - destruct i; simpl.
    + rewrite Nat.add_0_r. split; intros H; inversion H; reflexivity.
    + rewrite <- (IH (S start) i x).
      replace (S start + i) with (start + S i) by lia. reflexivity.
Qed.

Lemma enumerate_In :
  forall (A : Type) (xs : list A) (start i : nat) (x : A),
    In (i, x) (enumerate start xs)
    <-> start <= i /\ nth_error xs (i - start) = Some x.
Proof.
  induction xs as [|y xs IH]; intros start i x; simpl.
  - split; [intros [] | intros [_ H]].
    destruct (i - start); discriminate.
  - rewrite IH. split.
    + intros [H | [Hle H]].
      * inversion H; subst. rewrite Nat.sub_diag. split; [lia | reflexivity].
      * split; [lia|].
        replace (i - start) with (S (i - S start)) by lia. exact H.
    + intros [Hle H].
      destruct (Nat.eq_dec i start) as [-> | Hne].
      * rewrite Nat.sub_diag in H. simpl in H. inversion H. now left.
      * right. split; [lia|].
        replace (i - start) with (S (i - S start)) in H by lia. exact H.
Qed.

Lemma enumerate_fst :
  forall (A : Type) (xs : list A) (start : nat),
    map fst (enumerate start xs) = seq start (List.length xs).
Proof.
  induction xs as [|x xs IH]; intros start; simpl; [reflexivity|].
  now rewrite IH.
Qed.

Lemma enumerate_snd :
  forall (A : Type) (xs : list A) (start : nat),
    map snd (enumerate start xs) = xs.
Proof.
  induction xs as [|x xs IH]; intros start; simpl; [reflexivity|].
  now rewrite IH.
Qed.

(** ** The order of offsets *)

Lemma Qccompare_refl : forall p : Qc, (p ?= p)%Qc = Eq.
Proof. intros p. apply Qceq_alt. reflexivity. Qed.

Lemma Qccompare_antisym :
  forall p q : Qc, (q ?= p)%Qc = CompOpp (p ?= q)%Qc.
Proof.
  intros p q. unfold Qccompare. symmetry. apply Qcompare_antisym.
Qed.

Lemma offset_compare_refl : forall a, offset_compare a a = Eq.
Proof. intros [|p|]; simpl; auto using Qccompare_refl. Qed.

Lemma offset_compare_eq : forall a b, offset_compare a b = Eq -> a = b.
Proof.
  intros [|p|] [|q|]; simpl; intros H; try discriminate; try reflexivity.
  apply Qceq_alt in H. now subst.
Qed.

Lemma offset_compare_antisym :
  forall a b, offset_compare b a = CompOpp (offset_compare a b).
Proof.
  intros [|p|] [|q|]; simpl; try reflexivity. apply Qccompare_antisym.
Qed.

Lemma offset_lt_trans :
  forall a b c, offset_lt a b -> offset_lt b c -> offset_lt a c.
Proof.
  unfold offset_lt.
  intros [|p|] [|q|] [|r|]; simpl; intros H1 H2;
    try discriminate; try reflexivity.
  apply Qclt_alt in H1. apply Qclt_alt in H2. apply Qclt_alt.
  eapply Qclt_trans; eassumption.
Qed.

Lemma offset_lt_irrefl : forall a, ~ offset_lt a a.
Proof. intros a H. unfold offset_lt in H. now rewrite offset_compare_refl in H. Qed.

Lemma offset_eqb_eq : forall a b, offset_eqb a b = true <-> a = b.
Proof.
  intros a b. unfold offset_eqb. split.
  - destruct (offset_compare a b) eqn:E; try discriminate.
    intros _. now apply offset_compare_eq.
  - intros ->. now rewrite offset_compare_refl.
Qed.

Lemma offset_eqb_refl : forall a, offset_eqb a a = true.
Proof. intros a. now apply offset_eqb_eq. Qed.

Lemma offset_eqb_neq : forall a b, offset_eqb a b = false <-> a <> b.
Proof.
  intros a b. rewrite <- offset_eqb_eq.
  destruct (offset_eqb a b); split; congruence.
Qed.

Lemma offset_ltb_lt : forall a b, offset_ltb a b = true <-> offset_lt a b.
Proof.
  intros a b. unfold offset_ltb, offset_lt.
  destruct (offset_compare a b); split; congruence.
Qed.

Lemma offset_ltb_ge :
  forall a b, offset_ltb a b = false <-> offset_le b a.
Proof.
  intros a b. unfold offset_ltb, offset_le.
  rewrite (offset_compare_antisym a b).
  destruct (offset_compare a b); simpl; split; congruence.
Qed.

Lemma offset_lt_le : forall a b, offset_lt a b -> offset_le a b.
Proof. unfold offset_lt, offset_le. intros a b H. rewrite H. discriminate. Qed.

Lemma offset_le_refl : forall a, offset_le a a.
Proof. intros a. unfold offset_le. rewrite offset_compare_refl. discriminate. Qed.

Lemma offset_le_lt_or_eq :
  forall a b, offset_le a b <-> offset_lt a b \/ a = b.
Proof.
  intros a b. unfold offset_le, offset_lt. split.
  - destruct (offset_compare a b) eqn:E; intros H.
    + right. now apply offset_compare_eq.
    + now left.
    + congruence.
  - intros [H | ->].
    + rewrite H. discriminate.
    + rewrite offset_compare_refl. discriminate.
Qed.

Lemma offset_le_trans :
  forall a b c, offset_le a b -> offset_le b c -> offset_le a c.
Proof.
  intros a b c H1 H2.
  apply offset_le_lt_or_eq in H1. apply offset_le_lt_or_eq in H2.
  apply offset_le_lt_or_eq.
  destruct H1 as [H1 | ->]; destruct H2 as [H2 | ->]; auto.
  left. eapply offset_lt_trans; eassumption.
Qed.

Lemma offset_lt_le_trans :
  forall a b c, offset_lt a b -> offset_le b c -> offset_lt a c.
Proof.
  intros a b c H1 H2. apply offset_le_lt_or_eq in H2.
  destruct H2 as [H2 | ->]; auto. eapply offset_lt_trans; eassumption.
Qed.

Lemma offset_le_lt_trans :
  forall a b c, offset_le a b -> offset_lt b c -> offset_lt a c.
Proof.
  intros a b c H1 H2. apply offset_le_lt_or_eq in H1.
  destruct H1 as [H1 | ->]; auto. eapply offset_lt_trans; eassumption.
Qed.

Lemma offset_lt_or_le : forall a b, offset_lt a b \/ offset_le b a.
Proof.
  intros a b. destruct (offset_ltb a b) eqn:E.
  - left. now apply offset_ltb_lt.
  - right. now apply offset_ltb_ge.
Qed.

Lemma offset_le_antisym :
  forall a b, offset_le a b -> offset_le b a -> a = b.
Proof.
  intros a b H1 H2. apply offset_le_lt_or_eq in H1.
  destruct H1 as [H1 | H1]; auto.
  exfalso. apply (offset_lt_irrefl (a:=a)).
  eapply offset_lt_le_trans; eassumption.
Qed.

(** ** Rounding to binary64 *)

Local Open Scope Z_scope.

Lemma round_half_even_cases :
  forall n d,
    round_half_even n d = n / d \/ round_half_even n d = n / d + 1.
Proof.
  intros n d. unfold round_half_even.
  destruct (2 * (n mod d) ?= d); [destruct (Z.even (n / d))| |]; auto.
Qed.

Lemma round_half_even_lower :
  forall n d b, 0 < d -> b * d <= n -> b <= round_half_even n d.
Proof.
  intros n d b Hd H.
  assert (b <= n / d) by (apply Z.div_le_lower_bound; lia).
  destruct (round_half_even_cases n d); lia.
Qed.

Lemma round_half_even_upper :
  forall n d b, 0 < d -> n <= b * d -> round_half_even n d <= b.
Proof.
  intros n d b Hd H.
  pose proof (Z.div_mod n d ltac:(lia)) as E.
  pose proof (Z.mod_pos_bound n d Hd) as Hr.
  assert (Hq : n / d <= b).
  { apply Z.div_le_upper_bound; [exact Hd | lia]. }
  destruct (Z.eq_dec (n / d) b) as [Eq | Ne].
  - assert (n mod d = 0) by nia.
    unfold round_half_even.
    replace (2 * (n mod d) ?= d) with Lt
      by (symmetry; apply Z.compare_lt_iff; lia).
    lia.
  - destruct (round_half_even_cases n d); lia.
Qed.

Lemma div_le_cross :
  forall a b c d, 0 < b -> 0 < d -> 0 <= a -> a * d <= c * b -> a / b <= c / d.
Proof.
  intros a b c d Hb Hd Ha H.
  apply Z.div_le_lower_bound; [exact Hd|].
  pose proof (Z.mul_div_le a b Hb).
  assert (0 <= a / b) by (apply Z.div_pos; lia).
  nia.
Qed.

Lemma halves_cross :
  forall a b d1 d2,
    0 < d1 -> 0 < d2 -> a * d2 <= b * d1 ->
    (d1 <= 2 * a -> d2 <= 2 * b) /\ (d1 < 2 * a -> d2 < 2 * b).
Proof.
  intros a b d1 d2 H1 H2 H. split; intros Ha.
  - destruct (Z.le_gt_cases d2 (2 * b)) as [Hb | Hb]; [exact Hb|].
    exfalso.
    assert (0 < (d2 - 2 * b) * d1) by (apply Z.mul_pos_pos; lia).
    assert (0 <= (2 * a - d1) * d2) by (apply Z.mul_nonneg_nonneg; lia).
    lia.
  - destruct (Z.lt_ge_cases d2 (2 * b)) as [Hb | Hb]; [exact Hb|].
    exfalso.
    assert (0 <= (d2 - 2 * b) * d1) by (apply Z.mul_nonneg_nonneg; lia).
    assert (0 < (2 * a - d1) * d2) by (apply Z.mul_pos_pos; lia).
    lia.
Qed.

Lemma round_half_even_monotone :
  forall n1 d1 n2 d2,
    0 < d1 -> 0 < d2 -> 0 <= n1 -> n1 * d2 <= n2 * d1 ->
    round_half_even n1 d1 <= round_half_even n2 d2.
Proof.
  intros n1 d1 n2 d2 H1 H2 Hn H.
  pose proof (@div_le_cross n1 d1 n2 d2 H1 H2 Hn H) as Hq.
  pose proof (Z.div_mod n1 d1 ltac:(lia)) as E1.
  pose proof (Z.div_mod n2 d2 ltac:(lia)) as E2.
  destruct (Z.eq_dec (n1 / d1) (n2 / d2)) as [Hsame | Hother].
  - assert (Hr : (n1 mod d1) * d2 <= (n2 mod d2) * d1).
    { rewrite E1 in H at 1. rewrite E2 in H at 1. rewrite Hsame in H.
      lia. }
    destruct (halves_cross _ _ H1 H2 Hr) as [Hle Hlt].
    unfold round_half_even. rewrite <- Hsame.
    clear - Hle Hlt.
    set (r1 := n1 mod d1) in *. set (r2 := n2 mod d2) in *.
    set (q := n1 / d1).
    destruct (Z.compare_spec (2 * r1) d1);
      destruct (Z.compare_spec (2 * r2) d2);
      destruct (Z.even q); lia.
  - destruct (round_half_even_cases n1 d1), (round_half_even_cases n2 d2); lia.
Qed.

Lemma binary64_round_unfold :
  forall n d,
    binary64_round n d
    = if binary64_significand n d =? 2 ^ 53
      then (2 ^ 52, binary64_exponent n d + 1)
      else (binary64_significand n d, binary64_exponent n d).
Proof. reflexivity. Qed.

Lemma binary64_exponent_nonneg : forall n d, 0 <= binary64_exponent n d.
Proof. intros. unfold binary64_exponent. lia. Qed.

Lemma binary64_exponent_monotone :
  forall n1 d1 n2 d2,
    Zpos n1 * Zpos d2 <= Zpos n2 * Zpos d1 ->
    binary64_exponent n1 d1 <= binary64_exponent n2 d2.
Proof.
  intros n1 d1 n2 d2 H. unfold binary64_exponent.
  apply Z.max_le_compat_l. apply Z.sub_le_mono_r. apply Z.log2_le_mono.
  assert (0 < 2 ^ 1074) by (apply Z.pow_pos_nonneg; lia).
  apply div_le_cross; nia.
Qed.

Lemma binary64_significand_upper :
  forall n d, binary64_significand n d <= 2 ^ 53.
Proof.
  intros n d. unfold binary64_significand.
  set (scaled := Zpos n * 2 ^ 1074).
  pose proof (binary64_exponent_nonneg n d) as He.
  assert (Hp : 0 < 2 ^ binary64_exponent n d)
    by (apply Z.pow_pos_nonneg; lia).
  apply round_half_even_upper; [nia|].
  assert (Hs : 0 < scaled)
    by (unfold scaled; assert (0 < 2 ^ 1074) by (apply Z.pow_pos_nonneg; lia);
        nia).
  pose proof (Z.div_mod scaled (Zpos d) ltac:(lia)) as E.
  pose proof (Z.mod_pos_bound scaled (Zpos d) ltac:(lia)) as R.
  assert (Hq : 0 <= scaled / Zpos d) by (apply Z.div_pos; lia).
  assert (Hlt : scaled / Zpos d < 2 ^ (binary64_exponent n d + 53)).
  { destruct (Z.eq_dec (scaled / Zpos d) 0) as [E0 | N0].
    - rewrite E0. apply Z.pow_pos_nonneg; lia.
    - pose proof (Z.log2_spec (scaled / Zpos d) ltac:(lia)) as [_ Hu].
      eapply Z.lt_le_trans; [exact Hu|].
      apply Z.pow_le_mono_r; [lia|].
      unfold binary64_exponent. fold scaled. lia. }
  rewrite Z.pow_add_r in Hlt by lia.
  fold scaled in E. nia.
Qed.

Lemma binary64_significand_lower :
  forall n d, 0 < binary64_exponent n d -> 2 ^ 52 <= binary64_significand n d.
Proof.
  intros n d He. unfold binary64_significand.
  set (scaled := Zpos n * 2 ^ 1074).
  assert (Hp : 0 < 2 ^ binary64_exponent n d)
    by (apply Z.pow_pos_nonneg; lia).
  apply round_half_even_lower; [nia|].
  pose proof (Z.div_mod scaled (Zpos d) ltac:(lia)) as E.
  pose proof (Z.mod_pos_bound scaled (Zpos d) ltac:(lia)) as R.
  assert (Hk : binary64_exponent n d = Z.log2 (scaled / Zpos d) - 52)
    by (unfold binary64_exponent in *; fold scaled in He |- *; lia).
  assert (Hq : 0 < scaled / Zpos d).
  { destruct (Z.le_gt_cases (scaled / Zpos d) 0) as [H0 | H0]; [|exact H0].
    rewrite (Z.log2_nonpos _ H0) in Hk. lia. }
  pose proof (Z.log2_spec (scaled / Zpos d) Hq) as [Hl _].
  replace (Z.log2 (scaled / Zpos d)) with (52 + binary64_exponent n d) in Hl
    by lia.
  rewrite Z.pow_add_r in Hl by lia.
  fold scaled in E. nia.
Qed.

Lemma binary64_significand_nonneg :
  forall n d, 0 <= binary64_significand n d.
Proof.
  intros n d. unfold binary64_significand.
  pose proof (binary64_exponent_nonneg n d) as He.
  assert (Hp : 0 < 2 ^ binary64_exponent n d)
    by (apply Z.pow_pos_nonneg; lia).
  assert (0 < 2 ^ 1074) by (apply Z.pow_pos_nonneg; lia).
  apply round_half_even_lower; nia.
Qed.

Lemma binary64_significand_monotone :
  forall n1 d1 n2 d2,
    Zpos n1 * Zpos d2 <= Zpos n2 * Zpos d1 ->
    binary64_exponent n1 d1 = binary64_exponent n2 d2 ->
    binary64_significand n1 d1 <= binary64_significand n2 d2.
Proof.
  intros n1 d1 n2 d2 H He. unfold binary64_significand. rewrite He.
  pose proof (binary64_exponent_nonneg n2 d2) as Hn.
  assert (Hp : 0 < 2 ^ binary64_exponent n2 d2)
    by (apply Z.pow_pos_nonneg; lia).
  assert (0 < 2 ^ 1074) by (apply Z.pow_pos_nonneg; lia).
  apply round_half_even_monotone; nia.
Qed.

Lemma binary64_round_monotone :
  forall n1 d1 n2 d2,
    Zpos n1 * Zpos d2 <= Zpos n2 * Zpos d1 ->
    pair_le (binary64_round n1 d1) (binary64_round n2 d2).
Proof.
  intros n1 d1 n2 d2 H. rewrite !binary64_round_unfold.
  pose proof (@binary64_exponent_monotone n1 d1 n2 d2 H) as He.
  pose proof (binary64_significand_upper n1 d1) as U1.
  pose proof (binary64_significand_upper n2 d2) as U2.
  pose proof (binary64_exponent_nonneg n1 d1) as N1.
  pose proof (@binary64_significand_lower n2 d2) as L2.
  unfold pair_le.
  assert (Hpow : 0 < 2 ^ 52 < 2 ^ 53) by (split; reflexivity).
  generalize dependent (2 ^ 53). generalize dependent (2 ^ 52).
  intros p52 L2 p53 U1 U2 Hpow.
  destruct (Z.eq_dec (binary64_exponent n1 d1) (binary64_exponent n2 d2))
    as [Ee | Ne].
  - pose proof (@binary64_significand_monotone n1 d1 n2 d2 H Ee) as Hm.
    destruct (Z.eqb_spec (binary64_significand n1 d1) p53);
      destruct (Z.eqb_spec (binary64_significand n2 d2) p53);
      cbn [fst snd]; lia.
  - assert (Hlt : binary64_exponent n1 d1 < binary64_exponent n2 d2) by lia.
    specialize (L2 ltac:(lia)).
    destruct (Z.eqb_spec (binary64_significand n1 d1) p53);
      destruct (Z.eqb_spec (binary64_significand n2 d2) p53);
      cbn [fst snd]; lia.
Qed.

Lemma binary64_round_nonneg :
  forall n d, 0 <= fst (binary64_round n d).
Proof.
  intros n d. rewrite binary64_round_unfold.
  pose proof (binary64_significand_nonneg n d).
  destruct (binary64_significand n d =? 2 ^ 53); cbn [fst]; lia.
Qed.

Lemma binary64_round_zero :
  forall n d, fst (binary64_round n d) = 0 -> snd (binary64_round n d) = 0.
Proof.
  intros n d. rewrite binary64_round_unfold.
  destruct (binary64_significand n d =? 2 ^ 53) eqn:C; cbn [fst snd].
  - intros E. exfalso. assert (0 < 2 ^ 52) by (apply Z.pow_pos_nonneg; lia). lia.
  - intros E. pose proof (binary64_exponent_nonneg n d).
    destruct (Z.eq_dec (binary64_exponent n d) 0) as [E0 | N0]; [exact E0|].
    pose proof (@binary64_significand_lower n d ltac:(lia)).
    assert (0 < 2 ^ 52) by (apply Z.pow_pos_nonneg; lia). lia.
Qed.

Lemma binary64_round_exponent_nonneg :
  forall n d, 0 <= snd (binary64_round n d).
Proof.
  intros n d. rewrite binary64_round_unfold.
  pose proof (binary64_exponent_nonneg n d).
  destruct (binary64_significand n d =? 2 ^ 53); cbn [snd]; lia.
Qed.

Lemma pos_compare_cont_le :
  forall p q, (Zpos p <= Zpos q) -> Pos.compare_cont Eq p q <> Gt.
Proof.
  intros p q H. change (Pos.compare_cont Eq p q) with (Pos.compare p q).
  rewrite Pos.compare_gt_iff. lia.
Qed.

Lemma zero_le_rounded :
  forall sign (m e : Z) t,
    match m with
    | Zpos significand =>
        if 2045 <? e then Raise "OverflowError"
        else Ok (SpecFloat.S754_finite false significand (e - 1074))
    | _ => Ok (SpecFloat.S754_zero false)
    end = Ok t ->
    Timestamp_leb (SpecFloat.S754_zero sign) t = true.
Proof.
  intros sign m e t H.
  destruct m; [| destruct (2045 <? e); [discriminate|] |];
    inversion H; reflexivity.
Qed.

Lemma rounded_le_zero :
  forall sign (m e : Z) t,
    match m with
    | Zpos significand =>
        if 2045 <? e then Raise "OverflowError"
        else Ok (SpecFloat.S754_finite true significand (e - 1074))
    | _ => Ok (SpecFloat.S754_zero true)
    end = Ok t ->
    Timestamp_leb t (SpecFloat.S754_zero sign) = true.
Proof.
  intros sign m e t H.
  destruct m; [| destruct (2045 <? e); [discriminate|] |];
    inversion H; reflexivity.
Qed.

(** Two fractions that are not negative, in ascending order, are rounded
    to timestamps in ascending order. *)
Lemma binary64_monotone :
  forall n1 d1 n2 d2 t1 t2,
    Zpos n1 * Zpos d2 <= Zpos n2 * Zpos d1 ->
    binary64 false n1 d1 = Ok t1 -> binary64 false n2 d2 = Ok t2 ->
    Timestamp_leb t1 t2 = true.
Proof.
  intros n1 d1 n2 d2 t1 t2 H. unfold binary64.
  pose proof (@binary64_round_monotone n1 d1 n2 d2 H) as Hle.
  pose proof (binary64_round_nonneg n2 d2) as N2.
  pose proof (binary64_round_exponent_nonneg n1 d1) as P1.
  pose proof (binary64_round_zero n2 d2) as Z2.
  destruct (binary64_round n1 d1) as [m1 e1], (binary64_round n2 d2) as [m2 e2].
  unfold pair_le in Hle. cbn [fst snd] in *. intros E1 E2.
  destruct m1 as [|m1|m1];
    try (inversion E1; subst t1; eapply zero_le_rounded; exact E2).
  destruct (2045 <? e1); [discriminate|]. inversion E1; subst t1. clear E1.
  destruct m2 as [|m2|m2]; [exfalso; lia | | exfalso; lia].
  destruct (2045 <? e2); [discriminate|]. inversion E2; subst t2. clear E2.
  unfold Timestamp_leb, SpecFloat.SFleb, SpecFloat.SFcompare.
  destruct Hle as [Hle | [Hle Hm]].
  - replace (e1 - 1074 ?= e2 - 1074) with Lt
      by (symmetry; apply Z.compare_lt_iff; lia).
    reflexivity.
  - replace (e1 - 1074 ?= e2 - 1074) with Eq
      by (symmetry; apply Z.compare_eq_iff; lia).
    pose proof (@pos_compare_cont_le m1 m2 Hm) as Hc.
    destruct (Pos.compare_cont Eq m1 m2);
      [reflexivity | reflexivity | congruence].
Qed.

(** Two negative fractions: the greater magnitude is rounded to the
    lesser timestamp. *)
Lemma binary64_antitone :
  forall n1 d1 n2 d2 t1 t2,
    Zpos n1 * Zpos d2 <= Zpos n2 * Zpos d1 ->
    binary64 true n1 d1 = Ok t1 -> binary64 true n2 d2 = Ok t2 ->
    Timestamp_leb t2 t1 = true.
Proof.
  intros n1 d1 n2 d2 t1 t2 H. unfold binary64.
  pose proof (@binary64_round_monotone n1 d1 n2 d2 H) as Hle.
  pose proof (binary64_round_nonneg n2 d2) as N2.
  pose proof (binary64_round_exponent_nonneg n1 d1) as P1.
  pose proof (binary64_round_zero n2 d2) as Z2.
  destruct (binary64_round n1 d1) as [m1 e1], (binary64_round n2 d2) as [m2 e2].
  unfold pair_le in Hle. cbn [fst snd] in *. intros E1 E2.
  destruct m1 as [|m1|m1];
    try (inversion E1; subst t1; eapply rounded_le_zero; exact E2).
  destruct (2045 <? e1); [discriminate|]. inversion E1; subst t1. clear E1.
  destruct m2 as [|m2|m2]; [exfalso; lia | | exfalso; lia].
  destruct (2045 <? e2); [discriminate|]. inversion E2; subst t2. clear E2.
  unfold Timestamp_leb, SpecFloat.SFleb, SpecFloat.SFcompare.
  destruct Hle as [Hle | [Hle Hm]].
  - replace (e2 - 1074 ?= e1 - 1074) with Gt
      by (symmetry; apply Z.compare_gt_iff; lia).
    reflexivity.
  - replace (e2 - 1074 ?= e1 - 1074) with Eq
      by (symmetry; apply Z.compare_eq_iff; lia).
    pose proof (@pos_compare_cont_le m1 m2 Hm) as Hc.
    change (Pos.compare_cont Eq m2 m1) with (Pos.compare m2 m1).
    change (Pos.compare_cont Eq m1 m2) with (Pos.compare m1 m2) in Hc.
    rewrite (Pos.compare_antisym m1 m2).
    destruct (Pos.compare m1 m2); simpl; congruence.
Qed.

Local Close Scope Z_scope.

Lemma float_sign :
  forall sign n d t,
    binary64 sign n d = Ok t ->
    t = SpecFloat.S754_zero sign
    \/ exists m e, t = SpecFloat.S754_finite sign m e.
Proof.
  intros sign n d t. unfold binary64.
  destruct (binary64_round n d) as [m e].
  destruct m; [| destruct (2045 <? e)%Z; [discriminate|] |];
    intros H; inversion H; eauto.
Qed.

(** [float] keeps the order of offsets: of two offsets in ascending
    order, the timestamps are in ascending order; they may be equal
    where the offsets are not. *)
Lemma float_monotone :
  forall a b ta tb,
    offset_le a b -> float a = Ok ta -> float b = Ok tb ->
    Timestamp_leb ta tb = true.
Proof.
  intros a b ta tb Hle Ha Hb. unfold offset_le in Hle.
  destruct a as [|p|], b as [|q|]; simpl in Hle; try congruence;
    simpl in Ha, Hb.
  - inversion Ha; inversion Hb; reflexivity.
  - inversion Ha; subst.
    destruct (Qnum q); [inversion Hb; reflexivity | |];
      apply float_sign in Hb; destruct Hb as [-> | (m & e & ->)]; reflexivity.
  - inversion Ha; inversion Hb; reflexivity.
  - assert (Hq : (Qnum p * Zpos (Qden q) <= Qnum q * Zpos (Qden p))%Z).
    { unfold Qccompare, Qcompare in Hle. now apply Z.compare_le_iff. }
    destruct (Qnum p) as [|n1|n1] eqn:Ep, (Qnum q) as [|n2|n2] eqn:Eq;
      try lia.
    + inversion Ha; inversion Hb; reflexivity.
    + inversion Ha; subst. apply float_sign in Hb.
      destruct Hb as [-> | (m & e & ->)]; reflexivity.
    + eapply binary64_monotone; [|exact Ha | exact Hb]. exact Hq.
    + apply float_sign in Ha. inversion Hb; subst.
      destruct Ha as [-> | (m & e & ->)]; reflexivity.
    + apply float_sign in Ha. apply float_sign in Hb.
      destruct Ha as [-> | (m & e & ->)], Hb as [-> | (m' & e' & ->)];
        reflexivity.
    + eapply binary64_antitone; [|exact Hb | exact Ha]. lia.
  - inversion Hb; subst.
    destruct (Qnum p); [inversion Ha; reflexivity | |];
      apply float_sign in Ha; destruct Ha as [-> | (m & e & ->)]; reflexivity.
  - inversion Ha; inversion Hb; reflexivity.
Qed.

(** ** Dictionaries *)

Section DictFacts.
Variables K V : Type.
Variable eqb : K -> K -> bool.
Hypothesis eqb_eq : forall a b, eqb a b = true <-> a = b.

Lemma eqb_refl_of_spec : forall a, eqb a a = true.
Proof. intros a. now apply eqb_eq. Qed.

Lemma eqb_false_of_spec : forall a b, a <> b -> eqb a b = false.
Proof.
  intros a b H. destruct (eqb a b) eqn:E; [|reflexivity].
  apply eqb_eq in E. contradiction.
Qed.

Lemma dict_get_set_same :
  forall (d : Dict K V) k v, dict_get eqb (dict_set eqb d k v) k = Some v.
Proof.
  induction d as [|[k' v'] d IH]; intros k v; simpl.
  - now rewrite eqb_refl_of_spec.
  - destruct (eqb k' k) eqn:E; simpl; rewrite E; auto.
Qed.

Lemma dict_get_set_other :
  forall (d : Dict K V) k v k',
    k <> k' -> dict_get eqb (dict_set eqb d k v) k' = dict_get eqb d k'.
Proof.
  induction d as [|[k0 v0] d IH]; intros k v k' Hne; simpl.
  - now rewrite (eqb_false_of_spec Hne).
  - destruct (eqb k0 k) eqn:E; simpl.
    + apply eqb_eq in E. subst k0.
      now rewrite (eqb_false_of_spec Hne).
    + destruct (eqb k0 k'); auto.
Qed.

Lemma dict_get_set :
  forall (d : Dict K V) k v k',
    dict_get eqb (dict_set eqb d k v) k'
    = if eqb k k' then Some v else dict_get eqb d k'.
Proof.
  intros d k v k'. destruct (eqb k k') eqn:E.
  - apply eqb_eq in E. subst. apply dict_get_set_same.
  - apply dict_get_set_other. intros ->.
    now rewrite eqb_refl_of_spec in E.
Qed.

Lemma dict_get_Some_In :
  forall (d : Dict K V) k v, dict_get eqb d k = Some v -> In (k, v) d.
Proof.
  induction d as [|[k' v'] d IH]; intros k v; simpl; [discriminate|].
  destruct (eqb k' k) eqn:E.
  - intros H. inversion H; subst. apply eqb_eq in E. subst. now left.
  - intros H. right. now apply IH.
Qed.

Lemma dict_get_None_keys :
  forall (d : Dict K V) k, dict_get eqb d k = None <-> ~ In k (dict_keys d).
Proof.
  induction d as [|[k' v'] d IH]; intros k; simpl.
  - tauto.
  - destruct (eqb k' k) eqn:E.
    + apply eqb_eq in E. subst. split; [discriminate | tauto].
    + rewrite IH. split.
      * intros H [H1 | H1]; [|contradiction].
        subst. now rewrite eqb_refl_of_spec in E.
      * tauto.
Qed.

Lemma dict_keys_set :
  forall (d : Dict K V) k v,
    dict_keys (dict_set eqb d k v)
    = if dict_mem eqb d k then dict_keys d else dict_keys d ++ [k].
Proof.
  unfold dict_mem.
  induction d as [|[k' v'] d IH]; intros k v; simpl; [reflexivity|].
  destruct (eqb k' k) eqn:E; simpl.
  - reflexivity.
  - rewrite IH. destruct (dict_get eqb d k); reflexivity.
Qed.

Lemma dict_mem_keys :
  forall (d : Dict K V) k, dict_mem eqb d k = true <-> In k (dict_keys d).
Proof.
  intros d k. unfold dict_mem.
  destruct (dict_get eqb d k) eqn:E.
  - split; [intros _ | reflexivity].
    apply dict_get_Some_In in E.
    apply (in_map fst) in E. exact E.
  - apply dict_get_None_keys in E. split; [discriminate | contradiction].
Qed.

Lemma dict_set_NoDup :
  forall (d : Dict K V) k v,
    NoDup (dict_keys d) -> NoDup (dict_keys (dict_set eqb d k v)).
Proof.
  intros d k v H. rewrite dict_keys_set.
  destruct (dict_mem eqb d k) eqn:E; [exact H|].
  assert (Hk : ~ In k (dict_keys d)).
  { intros Hin. apply dict_mem_keys in Hin. congruence. }
  clear E. induction (dict_keys d) as [|x l IH]; simpl.
  - constructor; [intros [] | constructor].
  - inversion H; subst. constructor.
    + rewrite in_app_iff. simpl. intros [H1 | [H1 | []]]; [contradiction|].
      subst. apply Hk. now left.
    + apply IH; auto. intros H1. apply Hk. now right.
Qed.

Lemma dict_In_get :
  forall (d : Dict K V) k v,
    NoDup (dict_keys d) -> In (k, v) d -> dict_get eqb d k = Some v.
Proof.
  induction d as [|[k' v'] d IH]; intros k v Hnd Hin; simpl in *; [contradiction|].
  inversion Hnd; subst.
  destruct Hin as [Hin | Hin].
  - inversion Hin; subst. now rewrite eqb_refl_of_spec.
  - destruct (eqb k' k) eqn:E.
    + apply eqb_eq in E. subst. exfalso. apply H1.
      apply (in_map fst) in Hin. exact Hin.
    + now apply IH.
Qed.

Lemma dict_update_get :
  forall (other d : Dict K V) k,
    NoDup (dict_keys other) ->
    dict_get eqb (dict_update eqb d other) k
    = match dict_get eqb other k with
      | Some v => Some v
      | None => dict_get eqb d k
      end.
Proof.
  unfold dict_update.
  induction other as [|[k' v'] other IH]; intros d k Hnd; simpl; [reflexivity|].
  inversion Hnd; subst. rewrite IH by assumption.
  destruct (eqb k' k) eqn:E.
  - apply eqb_eq in E. subst.
    destruct (dict_get eqb other k) eqn:G.
    + apply dict_get_Some_In in G. apply (in_map fst) in G. contradiction.
    + apply dict_get_set_same.
  - destruct (dict_get eqb other k); [reflexivity|].
    apply dict_get_set_other. intros ->.
    now rewrite eqb_refl_of_spec in E.
Qed.

Lemma dict_update_NoDup :
  forall (other d : Dict K V),
    NoDup (dict_keys d) -> NoDup (dict_keys (dict_update eqb d other)).
Proof.
  unfold dict_update.
  induction other as [|[k' v'] other IH]; intros d Hnd; simpl; [exact Hnd|].
  apply IH. now apply dict_set_NoDup.
Qed.

(** The last assignment to a key decides its value. *)
Lemma dict_assign_all_get :
  forall (l : list (K * V)) (d : Dict K V) k v,
    dict_get eqb
      (fold_left (fun acc kv => dict_set eqb acc (fst kv) (snd kv)) l d) k
    = Some v
    <-> (exists l1 l2, l = l1 ++ (k, v) :: l2 /\ ~ In k (map fst l2))
        \/ (~ In k (map fst l) /\ dict_get eqb d k = Some v).
Proof.
  induction l as [|[k' v'] l IH]; intros d k v; simpl.
  - split.
    + intros H. right. tauto.
    + intros [(l1 & l2 & H & _) | [_ H]]; [|exact H].
      destruct l1; discriminate.
  - rewrite IH. split.
    + intros [(l1 & l2 & H & Hn) | [Hn H]].
      * left. exists ((k', v') :: l1), l2. simpl. now rewrite H.
      * rewrite dict_get_set in H. destruct (eqb k' k) eqn:E.
        -- apply eqb_eq in E. subst. inversion H; subst.
           left. exists [], l. simpl. auto.
        -- right. split; [|exact H].
           intros [H1 | H1]; [|contradiction].
           subst. now rewrite eqb_refl_of_spec in E.
    + intros [(l1 & l2 & H & Hn) | [Hn H]].
      * destruct l1 as [|x l1]; simpl in H; inversion H; subst.
        -- right. split; [exact Hn|]. apply dict_get_set_same.
        -- left. exists l1, l2. auto.
      * right. split; [tauto|].
        rewrite dict_get_set_other; [exact H|]. intros ->. tauto.
Qed.
End DictFacts.

(** ** Dictionaries of lists *)

Section DictOfListsFacts.
Variables K A : Type.
Variable eqb : K -> K -> bool.
Hypothesis eqb_eq : forall a b, eqb a b = true <-> a = b.


Lemma dict_extend_get_list :
  forall (d : Dict K (list A)) k xs k',
    dict_get_list eqb (dict_extend eqb d k xs) k'
    = dict_get_list eqb d k' ++ (if eqb k k' then xs else []).
Proof.
  intros d k xs k'. unfold dict_get_list, dict_extend.
  destruct (dict_get eqb d k) as [old|] eqn:G;
    rewrite (dict_get_set eqb eqb_eq); destruct (eqb k k') eqn:E.
  - apply eqb_eq in E. subst. now rewrite G.
  - now rewrite app_nil_r.
  - apply eqb_eq in E. subst. now rewrite G.
  - now rewrite app_nil_r.
Qed.

Lemma dict_extend_keys :
  forall (d : Dict K (list A)) k xs,
    dict_keys (dict_extend eqb d k xs)
    = if dict_mem eqb d k then dict_keys d else dict_keys d ++ [k].
Proof.
  intros d k xs. unfold dict_extend.
  destruct (dict_get eqb d k) eqn:G; apply dict_keys_set.
Qed.

Lemma dict_extend_NoDup :
  forall (d : Dict K (list A)) k xs,
    NoDup (dict_keys d) -> NoDup (dict_keys (dict_extend eqb d k xs)).
Proof.
  intros d k xs H. unfold dict_extend.
  destruct (dict_get eqb d k); now apply dict_set_NoDup.
Qed.

Lemma emit_all_app :
  forall (e1 e2 : list (K * list A)) d,
    emit_all eqb (e1 ++ e2) d = emit_all eqb e2 (emit_all eqb e1 d).
Proof. intros. unfold emit_all. apply fold_left_app. Qed.

Lemma emit_all_get_list :
  forall (emissions : list (K * list A)) d k,
    dict_get_list eqb (emit_all eqb emissions d) k
    = dict_get_list eqb d k ++ emitted_at eqb emissions k.
Proof.
  induction emissions as [|[k0 xs] emissions IH]; intros d k; simpl.
  - now rewrite app_nil_r.
  - unfold emit_all in *. simpl. rewrite IH.
    rewrite dict_extend_get_list. now rewrite <- app_assoc.
Qed.

Lemma emit_all_NoDup :
  forall (emissions : list (K * list A)) d,
    NoDup (dict_keys d) -> NoDup (dict_keys (emit_all eqb emissions d)).
Proof.
  induction emissions as [|e emissions IH]; intros d H; simpl; [exact H|].
  apply IH. now apply dict_extend_NoDup.
Qed.

Lemma emit_all_keys :
  forall (emissions : list (K * list A)) d k,
    In k (dict_keys (emit_all eqb emissions d))
    <-> In k (dict_keys d) \/ In k (map fst emissions).
Proof.
  induction emissions as [|[k0 xs] emissions IH]; intros d k; simpl.
  - tauto.
  - unfold emit_all in *. simpl. rewrite IH.
    rewrite dict_extend_keys.
    destruct (dict_mem eqb d k0) eqn:M.
    + apply (dict_mem_keys eqb eqb_eq) in M.
      split; [tauto|]. intros [H | [H | H]]; auto. subst. auto.
    + rewrite in_app_iff. simpl. tauto.
Qed.

(** Every list stored by emissions that are not empty is not empty. *)
Lemma emit_all_nonempty :
  forall (emissions : list (K * list A)) d,
    Forall (fun e => snd e <> []) emissions ->
    Forall (fun e => snd e <> []) d ->
    Forall (fun e : K * list A => snd e <> []) (emit_all eqb emissions d).
Proof.
  induction emissions as [|[k0 xs] emissions IH]; intros d He Hd; simpl;
    [exact Hd|].
  inversion He; subst. apply IH; [assumption|].
  unfold dict_extend. simpl in *.
  assert (Hset : forall v, v <> [] ->
            Forall (fun e : K * list A => snd e <> []) (dict_set eqb d k0 v)).
  { intros v Hv. clear - Hd Hv.
    induction d as [|[k1 v1] d IHd]; simpl.
    - constructor; [exact Hv | constructor].
    - inversion Hd; subst. destruct (eqb k1 k0).
      + constructor; assumption.
      + constructor; [assumption | now apply IHd]. }
  destruct (dict_get eqb d k0) as [old|]; apply Hset.
  - intros H. apply app_eq_nil in H. destruct H. contradiction.
  - exact H1.
Qed.

(** The items stored are the items emitted, up to their order. *)
Lemma dict_set_values_perm :
  forall (d : Dict K (list A)) k old xs,
    dict_get eqb d k = Some old ->
    Permutation (flat_map snd (dict_set eqb d k (old ++ xs)))
                (flat_map snd d ++ xs).
Proof.
  induction d as [|[k1 v1] d IH]; intros k old xs; simpl; [discriminate|].
  destruct (eqb k1 k) eqn:E; simpl.
  - intros H. inversion H; subst.
    rewrite <- !app_assoc. apply Permutation_app_head.
    apply Permutation_app_comm.
  - intros H. rewrite <- app_assoc. apply Permutation_app_head.
    now apply IH.
Qed.

Lemma dict_set_values_new :
  forall (d : Dict K (list A)) k xs,
    dict_get eqb d k = None ->
    flat_map snd (dict_set eqb d k xs) = flat_map snd d ++ xs.
Proof.
  induction d as [|[k1 v1] d IH]; intros k xs; simpl.
  - intros _. now rewrite app_nil_r.
  - destruct (eqb k1 k) eqn:E; [discriminate|].
    intros H. simpl. rewrite IH by assumption. now rewrite app_assoc.
Qed.

Lemma emit_all_values_perm :
  forall (emissions : list (K * list A)) d,
    Permutation (flat_map snd (emit_all eqb emissions d))
                (flat_map snd d ++ flat_map snd emissions).
Proof.
  induction emissions as [|[k0 xs] emissions IH]; intros d; simpl.
  - now rewrite app_nil_r.
  - unfold emit_all in *. simpl. rewrite IH.
    rewrite app_assoc. apply Permutation_app_tail.
    unfold dict_extend. simpl.
    destruct (dict_get eqb d k0) as [old|] eqn:G.
    + now apply dict_set_values_perm.
    + simpl. now rewrite dict_set_values_new.
Qed.

(** Reading a dictionary whose keys are unique. *)
Lemma dict_get_list_In :
  forall (d : Dict K (list A)) k xs,
    NoDup (dict_keys d) -> In (k, xs) d -> dict_get_list eqb d k = xs.
Proof.
  intros d k xs Hnd Hin. unfold dict_get_list.
  now rewrite (dict_In_get eqb eqb_eq d k xs Hnd Hin).
Qed.

Lemma emitted_at_dict :
  forall (d : Dict K (list A)) k,
    NoDup (dict_keys d) -> emitted_at eqb d k = dict_get_list eqb d k.
Proof.
  unfold dict_get_list.
  induction d as [|[k1 v1] d IH]; intros k Hnd; simpl; [reflexivity|].
  inversion Hnd; subst.
  destruct (eqb k1 k) eqn:E.
  - apply eqb_eq in E. subst.
    assert (G : emitted_at eqb d k = []).
    { rewrite IH by assumption.
      destruct (dict_get eqb d k) eqn:G; [|reflexivity].
      apply (dict_get_Some_In eqb eqb_eq) in G. apply (in_map fst) in G. contradiction. }
    rewrite G. apply app_nil_r.
  - simpl. now apply IH.
Qed.

Lemma emitted_at_app :
  forall (e1 e2 : list (K * list A)) k,
    emitted_at eqb (e1 ++ e2) k = emitted_at eqb e1 k ++ emitted_at eqb e2 k.
Proof. intros. unfold emitted_at. apply flat_map_app. Qed.

Lemma emitted_at_In :
  forall (emissions : list (K * list A)) k x,
    In x (emitted_at eqb emissions k)
    <-> exists xs, In (k, xs) emissions /\ In x xs.
Proof.
  intros emissions k x. unfold emitted_at. rewrite in_flat_map. split.
  - intros [[k0 xs] [Hin Hx]]. simpl in Hx.
    destruct (eqb k0 k) eqn:E; [|contradiction].
    apply eqb_eq in E. subst. eauto.
  - intros [xs [Hin Hx]]. exists (k, xs). split; [exact Hin|].
    simpl. now rewrite (eqb_refl_of_spec eqb eqb_eq).
Qed.
End DictOfListsFacts.

(** ** Sorting *)

Section SortedFacts.
Variable A : Type.
Variable leb : A -> A -> bool.

Lemma insert_sorted_perm :
  forall x l, Permutation (insert_sorted leb x l) (x :: l).
Proof.
  intros x l. induction l as [|y l IH]; simpl.
  - apply Permutation_refl.
  - destruct (leb x y).
    + apply Permutation_refl.
    + eapply perm_trans; [apply perm_skip, IH | apply perm_swap].
Qed.

Lemma sorted_perm : forall l, Permutation (sorted leb l) l.
Proof.
  induction l as [|x l IH]; simpl.
  - apply perm_nil.
  - eapply perm_trans; [apply insert_sorted_perm | now apply perm_skip].
Qed.

Lemma sorted_In : forall l x, In x (sorted leb l) <-> In x l.
Proof.
  intros l x. split; apply Permutation_in.
  - apply sorted_perm.
  - apply Permutation_sym, sorted_perm.
Qed.

Lemma sorted_length : forall l, List.length (sorted leb l) = List.length l.
Proof. intros l. apply Permutation_length, sorted_perm. Qed.

(** The sorted list is ordered by every transitive relation [R] that
    the comparison decides on the pairs of the input, taken in the
    order of the input. *)
Variable R : A -> A -> Prop.
Hypothesis R_trans : forall x y z, R x y -> R y z -> R x z.


Lemma insert_sorted_ordered :
  forall x l,
    StronglySorted R l ->
    Forall (decides leb R x) l ->
    StronglySorted R (insert_sorted leb x l).
Proof.
  intros x l Hs Hd. induction Hs as [|y l Hs IH Hy]; simpl.
  - constructor; constructor.
  - inversion Hd as [|? ? [Ht Hf] Hd']; subst.
    destruct (leb x y) eqn:E.
    + constructor; [now constructor|].
      constructor; [now apply Ht|].
      rewrite Forall_forall in *. intros z Hz.
      apply R_trans with y; [now apply Ht | now apply Hy].
    + constructor; [now apply IH|].
      rewrite Forall_forall in *. intros z Hz.
      apply (Permutation_in _ (insert_sorted_perm x l)) in Hz.
      destruct Hz as [<- | Hz]; [now apply Hf | now apply Hy].
Qed.

Lemma sorted_ordered :
  forall l, StronglySorted (decides leb R) l -> StronglySorted R (sorted leb l).
Proof.
  induction 1 as [|x l Hs IH Hx]; simpl.
  - constructor.
  - apply insert_sorted_ordered; [exact IH|].
    rewrite Forall_forall in *. intros y Hy.
    apply Hx. apply (proj1 (sorted_In l y)). exact Hy.
Qed.
End SortedFacts.

Lemma StronglySorted_of_pairs :
  forall (A : Type) (P : A -> A -> Prop) (l : list A),
    (forall x y, In x l -> In y l -> P x y) -> StronglySorted P l.
Proof.
  induction l as [|x l IH]; intros H; constructor.
  - apply IH. intros a b Ha Hb. apply H; now right.
  - rewrite Forall_forall. intros y Hy. apply H; [now left | now right].
Qed.

Lemma StronglySorted_weaken :
  forall (A : Type) (P Q : A -> A -> Prop) (l : list A),
    (forall x y, In x l -> In y l -> P x y -> Q x y) ->
    StronglySorted P l -> StronglySorted Q l.
Proof.
  intros A P Q l H Hs. induction Hs as [|x l Hs IH Hx]; constructor.
  - apply IH. intros a b Ha Hb. apply H; now right.
  - rewrite Forall_forall in *. intros y Hy.
    apply H; [now left | now right | now apply Hx].
Qed.

Lemma StronglySorted_distinct_keys :
  forall (K V : Type) (l : list (K * V)),
    NoDup (map fst l) -> StronglySorted (fun x y => fst x <> fst y) l.
Proof.
  induction l as [|x l IH]; simpl; intros H; constructor; inversion H; subst.
  - now apply IH.
  - rewrite Forall_forall. intros y Hy E. apply H2. rewrite E.
    now apply in_map.
Qed.

Lemma StronglySorted_nth_error :
  forall (A : Type) (R : A -> A -> Prop) (l : list A) i j x y,
    StronglySorted R l -> i < j ->
    nth_error l i = Some x -> nth_error l j = Some y -> R x y.
Proof.
  intros A R l i j x y Hs. revert i j.
  induction Hs as [|a l Hs IH Ha]; intros i j Hlt Hi Hj.
  - destruct i; discriminate.
  - destruct j as [|j]; [lia|]. simpl in Hj.
    destruct i as [|i]; simpl in Hi.
    + inversion Hi; subst. rewrite Forall_forall in Ha.
      apply Ha. eapply nth_error_In; eassumption.
    + apply (IH i j); [lia | assumption | assumption].
Qed.

Lemma StronglySorted_map :
  forall (A B : Type) (f : A -> B) (R : B -> B -> Prop) (l : list A),
    StronglySorted (fun x y => R (f x) (f y)) l -> StronglySorted R (map f l).
Proof.
  induction 1 as [|x l Hs IH Hx]; simpl; constructor; auto.
  rewrite Forall_forall in *. intros y Hy.
  apply in_map_iff in Hy. destruct Hy as [z [<- Hz]]. now apply Hx.
Qed.

Lemma StronglySorted_app :
  forall (A : Type) (R : A -> A -> Prop) (l1 l2 : list A),
    StronglySorted R l1 -> StronglySorted R l2 ->
    (forall x y, In x l1 -> In y l2 -> R x y) ->
    StronglySorted R (l1 ++ l2).
Proof.
  induction l1 as [|a l1 IH]; intros l2 H1 H2 H; simpl; [exact H2|].
  inversion H1; subst. constructor.
  - apply IH; auto. intros x y Hx Hy. apply H; [now right | exact Hy].
  - rewrite Forall_forall in *. intros y Hy. apply in_app_iff in Hy.
    destruct Hy as [Hy | Hy]; [now apply H5 | apply H; [now left | exact Hy]].
Qed.

(** ** Equality tests *)

Lemma Ref_eqb_eq : forall a b, Ref_eqb a b = true <-> a = b.
Proof.
  intros [i|i|i|i|i] [j|j|j|j|j]; simpl;
    try (split; [discriminate | intros H; inversion H]);
    rewrite Nat.eqb_eq; (split; [intros H; now subst | intros H; now inversion H]).
Qed.

Lemma RequestType_eqb_eq : forall a b, RequestType_eqb a b = true <-> a = b.
Proof. intros [] []; simpl; split; congruence. Qed.

Lemma bytes_eqb_eq : forall a b, bytes_eqb a b = true <-> a = b.
Proof.
  intros a b. unfold bytes_eqb.
  destruct (list_eq_dec Byte.byte_eq_dec a b); split; congruence.
Qed.

Lemma SynthDef_eqb_eq : forall a b, SynthDef_eqb a b = true <-> a = b.
Proof.
  intros [n1 a1 c1] [n2 a2 c2]. unfold SynthDef_eqb. simpl.
  rewrite !andb_true_iff, !String.eqb_eq, bytes_eqb_eq.
  split.
  - intros [[-> ->] ->]. reflexivity.
  - intros H. inversion H. auto.
Qed.

Lemma dict_set_absent :
  forall (K V : Type) (eqb : K -> K -> bool) (d : Dict K V) k v,
    dict_get eqb d k = None -> dict_set eqb d k v = d ++ [(k, v)].
Proof.
  induction d as [|[k' v'] d IH]; intros k v; simpl; [reflexivity|].
  destruct (eqb k' k); [discriminate|].
  intros H. now rewrite IH.
Qed.

(** ** Multi-output UGens *)


Lemma extend_all_outputs :
  forall (us : list UGen) (acc : list Signal),
    fold_left (fun acc x => acc ++ UGen_outputs x) us acc
    = acc ++ flat_map UGen_outputs us.
Proof.
  induction us as [|u us IH]; intros acc; simpl.
  - now rewrite app_nil_r.
  - rewrite IH. now rewrite app_assoc.
Qed.

Lemma new_expanded_flat :
  forall ugen,
    MultiOutUGen_new_expanded ugen
    = match flat_outputs ugen with
      | [proxy] => Ok (BareProxy proxy)
      | proxies => result <- UGenArray_init proxies ;; Ok (Array result)
      end.
Proof.
  intros [u | us]; unfold MultiOutUGen_new_expanded, flat_outputs.
  - simpl. destruct (UGen_outputs u) as [|p [|q rest]]; reflexivity.
  - rewrite extend_all_outputs. simpl.
    destruct (flat_map UGen_outputs us) as [|p [|q rest]]; reflexivity.
Qed.

Lemma UGen_outputs_length :
  forall u, List.length (UGen_outputs u) = channel_count u.
Proof.
  intros u. unfold UGen_outputs, UGen_len.
  now rewrite length_map, length_seq.
Qed.


Lemma UGenArray_init_map :
  forall (f : Signal -> Signal) (members : list Signal),
    members <> [] ->
    exists r, UGenArray_init (map f members) = Ok r
              /\ UGenArray_len r = List.length members.
Proof.
  intros f [|x members] H; [contradiction|].
  simpl. eexists. split; [reflexivity|].
  unfold UGenArray_len. simpl. now rewrite length_map.
Qed.

Lemma nonempty_preserves_length :
  forall self, ugens self <> [] -> preserves_length self.
Proof.
  intros self H. unfold preserves_length.
  unfold UGenArray_add, UGenArray_div, UGenArray_mod, UGenArray_mul,
    UGenArray_neg, UGenArray_sub.
  repeat split; intros; now apply UGenArray_init_map.
Qed.

(** A multi-output UGen without outputs produces no output proxy: the
    flattened sequence is empty and the assertion of the array's
    constructor fails, so that no empty array is returned. *)
Lemma new_expanded_without_outputs :
  let silent := ExpandedUGen {| ugen_name := "In"; channel_count := 0 |} in
  flat_outputs silent = []
  /\ MultiOutUGen_new_expanded silent = Raise "AssertionError".
Proof.
  simpl. split; reflexivity.
Qed.

(** C10: the output proxies of all instances are flattened into one
    sequence, the one that [_new_expanded] builds with [extend].  When
    the expansion produces output proxies (the sequence is not empty):
    if the sequence holds exactly one proxy, the bare proxy is returned
    and no array; otherwise a UGen array of exactly these proxies is
    returned, which is not empty and whose elementwise arithmetic
    operations each return an array of the same length. *)
Theorem new_expanded_with_proxies :
  forall ugen : Expanded,
    flat_outputs ugen <> [] ->
    flat_outputs ugen
    = match ugen with
      | ExpandedUGen ugen => UGen_outputs ugen
      | ExpandedSequence ugens => List.concat (map UGen_outputs ugens)
      end
    /\ (forall proxy,
           flat_outputs ugen = [proxy] ->
           MultiOutUGen_new_expanded ugen = Ok (BareProxy proxy))
    /\ (List.length (flat_outputs ugen) <> 1 ->
        exists array,
          MultiOutUGen_new_expanded ugen = Ok (Array array)
          /\ ugens array = flat_outputs ugen
          /\ UGenArray_len array = List.length (flat_outputs ugen)
          /\ 2 <= UGenArray_len array
          /\ preserves_length array).
Proof.
  intros ugen Hproxies. split; [|split].
  - destruct ugen as [u | us]; [reflexivity|].
    unfold flat_outputs. apply flat_map_concat_map.
  - intros proxy E. rewrite new_expanded_flat, E. reflexivity.
  - intros Hlen. rewrite new_expanded_flat.
    destruct (flat_outputs ugen) as [|p [|q rest]];
      [contradiction | simpl in Hlen; lia |].
    simpl. eexists. split; [reflexivity|]. split; [reflexivity|].
    split; [reflexivity|]. split.
    + unfold UGenArray_len. simpl. lia.
    + apply nonempty_preserves_length. simpl. discriminate.
Qed.

Lemma new_expanded_with_proxies_witness :
  exists array,
    MultiOutUGen_new_expanded Panning.expanded = Ok (Array array)
    /\ UGenArray_len array = 4
    /\ preserves_length array.
Proof.
  assert (Hproxies : flat_outputs Panning.expanded <> [])
    by (vm_compute; discriminate).
  assert (Hlen : List.length (flat_outputs Panning.expanded) <> 1)
    by (vm_compute; lia).
  destruct (proj2 (proj2 (@new_expanded_with_proxies Panning.expanded Hproxies)) Hlen)
    as (array & Hresult & _ & Hcount & _ & Hpreserved).
  exists array. split; [exact Hresult|]. split; [|exact Hpreserved].
  rewrite Hcount. reflexivity.
Defined.

(** ** Node identifiers *)

Lemma precedes_trans :
  forall x y z, precedes x y -> precedes y z -> precedes x z.
Proof.
  unfold precedes. intros x y z [H1 | [E1 L1]] [H2 | [E2 L2]].
  - left. eapply offset_lt_trans; eassumption.
  - left. now rewrite <- E2.
  - left. now rewrite E1.
  - right. split; [congruence | lia].
Qed.

Lemma precedes_irrefl : forall x, ~ precedes x x.
Proof.
  unfold precedes. intros x [H | [_ H]].
  - now apply offset_lt_irrefl in H.
  - lia.
Qed.

Lemma enumerate_increasing :
  forall (A : Type) (xs : list A) (start : nat),
    StronglySorted (fun x y => fst x < fst y) (enumerate start xs).
Proof.
  induction xs as [|x xs IH]; intros start; simpl; constructor.
  - apply IH.
  - rewrite Forall_forall. intros [i y] Hy. simpl.
    apply enumerate_In in Hy. lia.
Qed.

Lemma synth_order_perm :
  forall self, Permutation (synth_order self) (enumerate 0 (_synths self)).
Proof. intros self. apply sorted_perm. Qed.

Lemma synth_order_sorted :
  forall self, StronglySorted precedes (synth_order self).
Proof.
  intros self. unfold synth_order, sorted_with.
  apply sorted_ordered; [exact precedes_trans|].
  eapply StronglySorted_weaken; [|apply enumerate_increasing].
  intros x y _ _ Hlt. unfold decides, precedes, Synth_ltb. split.
  - intros H. apply negb_true_iff in H. apply offset_ltb_ge in H.
    apply offset_le_lt_or_eq in H. destruct H as [H | H]; auto.
  - intros H. apply negb_false_iff in H. apply offset_ltb_lt in H. now left.
Qed.

Lemma synth_order_handles :
  forall self, NoDup (map fst (synth_order self)).
Proof.
  intros self.
  eapply Permutation_NoDup.
  - apply Permutation_sym, Permutation_map, synth_order_perm.
  - rewrite enumerate_fst. apply seq_NoDup.
Qed.

Lemma numbered_cons :
  forall first x order,
    numbered first (x :: order)
    = (SynthRef (fst x), first) :: numbered (S first) order.
Proof.
  intros first x order. unfold numbered. simpl. rewrite Nat.add_0_r. f_equal.
  generalize 0 as k. induction order as [|y order IH]; intros k; simpl.
  - reflexivity.
  - rewrite IH. f_equal. f_equal. lia.
Qed.

Lemma build_synth_id_mapping_fold :
  forall (order : list (nat * Synth)) (mapping : Dict Ref nat) (first : nat),
    NoDup (map fst order) ->
    (forall x, In x order -> dict_get Ref_eqb mapping (SynthRef (fst x)) = None) ->
    fold_left _build_synth_id_mapping_step order
              (mapping, {| next_node_id := first |})
    = (mapping ++ numbered first order,
       {| next_node_id := first + List.length order |}).
Proof.
  induction order as [|x order IH]; intros mapping first Hnd Hfresh; simpl.
  - rewrite app_nil_r, Nat.add_0_r. reflexivity.
  - inversion Hnd as [|? ? Hx Hnd']; subst.
    unfold dict_mem. rewrite (Hfresh x (or_introl eq_refl)).
    rewrite dict_set_absent by (apply Hfresh; now left).
    rewrite IH.
    + rewrite numbered_cons, <- app_assoc. simpl. f_equal. f_equal. lia.
    + exact Hnd'.
    + intros y Hy.
      rewrite <- (dict_set_absent Ref_eqb) by (apply Hfresh; now left).
      rewrite (dict_get_set_other Ref_eqb Ref_eqb_eq).
      * apply Hfresh. now right.
      * intros E. inversion E as [E']. apply Hx. rewrite E'.
        now apply in_map.
Qed.

Lemma build_synth_id_mapping_numbered :
  forall self, _build_synth_id_mapping self = numbered 1000 (synth_order self).
Proof.
  intros self. unfold _build_synth_id_mapping, NodeIdAllocator_new.
  fold (synth_order self).
  rewrite build_synth_id_mapping_fold.
  - reflexivity.
  - apply synth_order_handles.
  - reflexivity.
Qed.

Lemma numbered_nth_error :
  forall first order k x,
    nth_error order k = Some x ->
    nth_error (numbered first order) k = Some (SynthRef (fst x), first + k).
Proof.
  intros first order k x H. unfold numbered.
  rewrite nth_error_map.
  rewrite (proj2 (enumerate_nth_error order 0 k x) H). reflexivity.
Qed.

Lemma numbered_keys :
  forall first order,
    dict_keys (numbered first order) = map (fun x => SynthRef (fst x)) order.
Proof.
  intros first order. revert first.
  induction order as [|x order IH]; intros first.
  - reflexivity.
  - rewrite numbered_cons. simpl. f_equal. apply IH.
Qed.

Lemma numbered_values :
  forall first order,
    map snd (numbered first order) = seq first (List.length order).
Proof.
  intros first order. revert first.
  induction order as [|x order IH]; intros first.
  - reflexivity.
  - rewrite numbered_cons. simpl. f_equal. apply IH.
Qed.

Lemma NoDup_map_injective :
  forall (A B : Type) (f : A -> B) (l : list A),
    (forall a b, f a = f b -> a = b) -> NoDup l -> NoDup (map f l).
Proof.
  intros A B f l Hinj H. induction H as [|x l Hx H IH]; simpl; constructor.
  - intros Hin. apply in_map_iff in Hin. destruct Hin as [y [E Hy]].
    apply Hinj in E. now subst.
  - exact IH.
Qed.

Lemma numbered_keys_NoDup :
  forall first order,
    NoDup (map fst order) -> NoDup (dict_keys (numbered first order)).
Proof.
  intros first order H. rewrite numbered_keys.
  rewrite <- (map_map fst SynthRef).
  apply NoDup_map_injective; [|exact H].
  intros a b E. now inversion E.
Qed.

Lemma numbered_get :
  forall first order k x,
    NoDup (map fst order) ->
    nth_error order k = Some x ->
    dict_get Ref_eqb (numbered first order) (SynthRef (fst x))
    = Some (first + k).
Proof.
  intros first order k x Hnd H.
  apply (dict_In_get Ref_eqb Ref_eqb_eq).
  - now apply numbered_keys_NoDup.
  - eapply nth_error_In. apply numbered_nth_error. exact H.
Qed.

Lemma sorted_positions :
  forall (A : Type) (R : A -> A -> Prop) (l : list A) p q x y,
    (forall a, ~ R a a) -> (forall a b c, R a b -> R b c -> R a c) ->
    StronglySorted R l ->
    nth_error l p = Some x -> nth_error l q = Some y -> R x y -> p < q.
Proof.
  intros A R l p q x y Hirr Htr Hs Hp Hq Hxy.
  destruct (Nat.lt_trichotomy p q) as [H | [H | H]]; [exact H | |].
  - subst. rewrite Hp in Hq. inversion Hq; subst. now apply Hirr in Hxy.
  - exfalso. apply (Hirr x). apply Htr with y; [exact Hxy|].
    eapply StronglySorted_nth_error; eassumption.
Qed.

Lemma synth_id_position :
  forall self i s,
    nth_error (_synths self) i = Some s ->
    exists p,
      nth_error (synth_order self) p = Some (i, s)
      /\ dict_get Ref_eqb (_build_synth_id_mapping self) (SynthRef i)
         = Some (1000 + p).
Proof.
  intros self i s H.
  assert (Hin : In (i, s) (synth_order self)).
  { apply (Permutation_in _ (Permutation_sym (synth_order_perm self))).
    apply enumerate_In. rewrite Nat.sub_0_r. split; [lia | exact H]. }
  apply In_nth_error in Hin. destruct Hin as [p Hp].
  exists p. split; [exact Hp|].
  rewrite build_synth_id_mapping_numbered.
  change (SynthRef i) with (SynthRef (fst (i, s))).
  apply numbered_get; [apply synth_order_handles | exact Hp].
Qed.

(** C3: the synths are visited in the order of
    [(start_offset, declaration order)] and the identifiers are handed
    out by a counter along that order: the synth at position [k] of the
    order receives [1000 + k].  Hence no identifier is used twice, and a
    synth that precedes another in this order, in particular one that
    starts together with it and was declared earlier, whatever their stop
    offsets, receives the smaller identifier. *)
Theorem synth_ids_follow_start_then_declaration :
  forall self : Session,
    Permutation (synth_order self) (enumerate 0 (_synths self))
    /\ StronglySorted precedes (synth_order self)
    /\ _build_synth_id_mapping self = numbered 1000 (synth_order self)
    /\ NoDup (map snd (_build_synth_id_mapping self))
    /\ (forall i j si sj,
           nth_error (_synths self) i = Some si ->
           nth_error (_synths self) j = Some sj ->
           precedes (i, si) (j, sj) ->
           exists a b,
             dict_get Ref_eqb (_build_synth_id_mapping self) (SynthRef i) = Some a
             /\ dict_get Ref_eqb (_build_synth_id_mapping self) (SynthRef j) = Some b
             /\ a < b).
Proof.
  intros self. split; [apply synth_order_perm|].
  split; [apply synth_order_sorted|].
  split; [apply build_synth_id_mapping_numbered|].
  split.
  - rewrite build_synth_id_mapping_numbered, numbered_values. apply seq_NoDup.
  - intros i j si sj Hi Hj Hprec.
    destruct (synth_id_position self i Hi) as [p [Hp Ha]].
    destruct (synth_id_position self j Hj) as [q [Hq Hb]].
    exists (1000 + p), (1000 + q). split; [exact Ha|]. split; [exact Hb|].
    assert (p < q); [|lia].
    eapply (sorted_positions (R := precedes)); eauto.
    + exact precedes_irrefl.
    + exact precedes_trans.
    + apply synth_order_sorted.
Qed.

(** ** The messages of one bundle *)

Lemma emit_all_map :
  forall (K A B : Type) (eqb : K -> K -> bool)
         (key : B -> K) (items : B -> list A) (l : list B) d,
    fold_left (fun acc x => dict_extend eqb acc (key x) (items x)) l d
    = emit_all eqb (map (fun x => (key x, items x)) l) d.
Proof.
  intros K A B eqb key items l. unfold emit_all.
  induction l as [|x l IH]; intros d; simpl; [reflexivity | apply IH].
Qed.

Lemma emitted_at_singletons :
  forall (K A : Type) (eqb : K -> K -> bool) (key : A -> K) (l : list A) k,
    emitted_at eqb (map (fun x => (key x, [x])) l) k
    = filter (fun x => eqb (key x) k) l.
Proof.
  intros K A eqb key l k. unfold emitted_at.
  induction l as [|x l IH]; simpl; [reflexivity|].
  rewrite IH. destruct (eqb (key x) k); reflexivity.
Qed.

Lemma dict_get_get_list :
  forall (K A : Type) (eqb : K -> K -> bool) (d : Dict K (list A)) k,
    Forall (fun e => snd e <> []) d ->
    match dict_get eqb d k with
    | Some l => l = dict_get_list eqb d k /\ l <> []
    | None => dict_get_list eqb d k = []
    end.
Proof.
  intros K A eqb d k Hne. unfold dict_get_list.
  destruct (dict_get eqb d k) as [l|] eqn:G; [|reflexivity].
  split; [reflexivity|].
  clear - G Hne. induction d as [|[k' v'] d IH]; simpl in G; [discriminate|].
  inversion Hne; subst.
  destruct (eqb k' k); [inversion G; subst; assumption | now apply IH].
Qed.

Lemma append_messages :
  forall (l : list Request) (acc : list OscMessage),
    fold_left (fun acc request => acc ++ [to_osc_message request]) l acc
    = acc ++ map to_osc_message l.
Proof.
  induction l as [|r l IH]; intros acc; simpl.
  - now rewrite app_nil_r.
  - rewrite IH, <- app_assoc. reflexivity.
Qed.

Lemma append_node_ids :
  forall (l : list Request) (acc : list nat),
    fold_left (fun acc request => acc ++ request_node_ids request) l acc
    = acc ++ flat_map request_node_ids l.
Proof.
  induction l as [|r l IH]; intros acc; simpl.
  - now rewrite app_nil_r.
  - rewrite IH, <- app_assoc. reflexivity.
Qed.

Lemma append_chunks :
  forall (A B : Type) (f : A -> list B) (l : list A) (acc : list B),
    fold_left (fun acc x => acc ++ f x) l acc = acc ++ flat_map f l.
Proof.
  induction l as [|x l IH]; intros acc; simpl.
  - now rewrite app_nil_r.
  - rewrite IH, <- app_assoc. reflexivity.
Qed.

(** The messages for the requests of the prioritized classes. *)
Lemma process_requests_contents :
  forall offset requests,
    contents (bundle_of offset requests)
    = flat_map (fun t => map to_osc_message (filter (has_type t) requests))
               _prioritized_request_types
      ++ match filter (has_type NodeFreeRequestType) requests with
         | [] => []
         | frees =>
             [to_osc_message (NodeFreeRequest (flat_map request_node_ids frees))]
         end.
Proof.
  intros offset requests. unfold bundle_of, osc_messages_of. cbn [contents].
  rewrite (emit_all_map RequestType_eqb type_of (fun r => [r])).
  set (by_type := emit_all RequestType_eqb _ _).
  assert (Hget : forall t, dict_get_list RequestType_eqb by_type t
                           = filter (has_type t) requests).
  { intros t. unfold by_type.
    rewrite (emit_all_get_list RequestType_eqb RequestType_eqb_eq).
    simpl. apply emitted_at_singletons. }
  assert (Hne : Forall (fun e : RequestType * list Request => snd e <> []) by_type).
  { unfold by_type. apply emit_all_nonempty; [|constructor].
    rewrite Forall_forall. intros e He. apply in_map_iff in He.
    destruct He as [r [<- _]]. discriminate. }
  pose proof (dict_get_get_list RequestType_eqb NodeFreeRequestType Hne) as Hfree.
  rewrite Hget in Hfree.
  assert (Hmsgs :
            fold_left
              (fun osc_messages request_type =>
                 fold_left
                   (fun osc_messages request =>
                      osc_messages ++ [to_osc_message request])
                   (dict_get_list RequestType_eqb by_type request_type)
                   osc_messages)
              _prioritized_request_types []
            = flat_map
                (fun t => map to_osc_message (filter (has_type t) requests))
                _prioritized_request_types).
  { unfold _prioritized_request_types. simpl.
    rewrite !append_messages, !Hget, !app_nil_r, <- !app_assoc. reflexivity. }
  rewrite Hmsgs.
  destruct (dict_get RequestType_eqb by_type NodeFreeRequestType) as [l|].
  - destruct Hfree as [-> Hne']. rewrite append_node_ids. simpl.
    destruct (filter (has_type NodeFreeRequestType) requests); [contradiction|].
    reflexivity.
  - rewrite Hfree. now rewrite app_nil_r.
Qed.

Lemma chunk_command :
  forall t requests m,
    In m (map to_osc_message (filter (has_type t) requests)) ->
    message_command m = Some (command_of_type t).
Proof.
  intros t requests m H. apply in_map_iff in H.
  destruct H as [r [<- Hr]]. apply filter_In in Hr. destruct Hr as [_ Hr].
  unfold has_type in Hr. apply RequestType_eqb_eq in Hr. simpl. now rewrite Hr.
Qed.

Lemma chunks_in_priority_order :
  forall (ts : list RequestType) requests,
    StronglySorted
      (fun a b => priority (command_of_type a) <= priority (command_of_type b))
      ts ->
    StronglySorted (fun a b => message_priority a <= message_priority b)
      (flat_map (fun t => map to_osc_message (filter (has_type t) requests)) ts).
Proof.
  intros ts requests Hs. induction Hs as [|t ts Hs IH Ht]; simpl.
  - constructor.
  - apply StronglySorted_app; [|exact IH|].
    + apply StronglySorted_of_pairs. intros x y Hx Hy.
      unfold message_priority.
      rewrite (chunk_command _ _ _ Hx), (chunk_command _ _ _ Hy). lia.
    + intros x y Hx Hy. apply in_flat_map in Hy. destruct Hy as [t' [Ht' Hy]].
      unfold message_priority.
      rewrite (chunk_command _ _ _ Hx), (chunk_command _ _ _ Hy).
      rewrite Forall_forall in Ht. now apply Ht.
Qed.

Lemma prioritized_types_sorted :
  StronglySorted
    (fun a b => priority (command_of_type a) <= priority (command_of_type b))
    _prioritized_request_types.
Proof.
  unfold _prioritized_request_types.
  repeat (constructor; [|repeat (constructor; [simpl; lia|]); constructor]).
  constructor.
Qed.

Lemma process_requests_commands :
  forall offset requests m,
    In m (contents (bundle_of offset requests)) ->
    exists c, message_command m = Some c.
Proof.
  intros offset requests m H. rewrite process_requests_contents in H.
  apply in_app_iff in H. destruct H as [H | H].
  - apply in_flat_map in H. destruct H as [t [_ H]].
    eexists. eapply chunk_command. exact H.
  - destruct (filter (has_type NodeFreeRequestType) requests); [contradiction|].
    destruct H as [<- | []]. eexists. reflexivity.
Qed.

Lemma process_requests_sorted :
  forall offset requests,
    StronglySorted (fun a b => message_priority a <= message_priority b)
                   (contents (bundle_of offset requests)).
Proof.
  intros offset requests. rewrite process_requests_contents.
  apply StronglySorted_app.
  - apply chunks_in_priority_order, prioritized_types_sorted.
  - destruct (filter (has_type NodeFreeRequestType) requests).
    + constructor.
    + constructor; constructor.
  - intros x y Hx Hy.
    destruct (filter (has_type NodeFreeRequestType) requests); [contradiction|].
    destruct Hy as [<- | []].
    apply in_flat_map in Hx. destruct Hx as [t [_ Hx]].
    unfold message_priority. rewrite (chunk_command _ _ _ Hx). simpl.
    destruct t; simpl; lia.
Qed.

(** ** Bundles and timestamps *)

Lemma float_timestamp_of :
  forall offset timestamp,
    float offset = Ok timestamp -> timestamp_of offset = timestamp.
Proof. intros offset t H. unfold timestamp_of. now rewrite H. Qed.

(** [float] raises nothing but [OverflowError]. *)
Lemma float_raises_OverflowError :
  forall offset exception,
    float offset = Raise exception -> exception = "OverflowError"%string.
Proof.
  intros [|q|] e; simpl; try discriminate.
  assert (H : forall sign n d, binary64 sign n d = Raise e ->
                               e = "OverflowError"%string).
  { intros sign n d. unfold binary64.
    destruct (binary64_round n d) as [m x].
    destruct m; [discriminate | | discriminate].
    destruct (2045 <? x)%Z; [|discriminate].
    intros E. now inversion E. }
  destruct (Qnum q); [discriminate | apply H | apply H].
Qed.

(** [_process_requests] makes a bundle exactly when [float] converts the
    offset; the bundle has the converted offset as its timestamp and the
    messages of the requests as its contents. *)
Lemma process_requests_Ok :
  forall offset requests bundle,
    _process_requests offset requests = Ok bundle
    <-> float offset = Ok (timestamp bundle)
        /\ contents bundle = osc_messages_of requests.
Proof.
  intros offset requests [t c]. unfold _process_requests.
  fold (osc_messages_of requests). cbn [timestamp contents].
  destruct (float offset) as [t'|e]; simpl.
  - split.
    + intros H. inversion H; subst. auto.
    + intros [H ->]. inversion H; subst. reflexivity.
  - split; [discriminate | intros [H _]; discriminate].
Qed.

Lemma process_requests_bundle_of :
  forall offset requests bundle,
    _process_requests offset requests = Ok bundle ->
    bundle = bundle_of offset requests.
Proof.
  intros offset requests [t c] H. apply process_requests_Ok in H.
  cbn [timestamp contents] in H. destruct H as [Ht ->].
  unfold bundle_of. now rewrite (float_timestamp_of _ Ht).
Qed.

Lemma process_requests_raises :
  forall offset requests exception,
    _process_requests offset requests = Raise exception ->
    float offset = Raise exception.
Proof.
  intros offset requests e. unfold _process_requests.
  fold (osc_messages_of requests).
  destruct (float offset); cbn [bind];
    [discriminate | intros H; now inversion H].
Qed.

Lemma collect_bundles :
  forall (items : list (Offset * list Request)) acc bundles,
    for_each
      (fun osc_bundles item =>
         osc_bundle <- _process_requests (fst item) (snd item) ;;
         Ok (osc_bundles ++ [osc_bundle]))
      items acc = Ok bundles ->
    bundles = acc ++ map (fun item => bundle_of (fst item) (snd item)) items
    /\ converted_items items.
Proof.
  induction items as [|item items IH]; intros acc bundles H; simpl in H.
  - inversion H; subst. split; [now rewrite app_nil_r | constructor].
  - destruct (_process_requests (fst item) (snd item)) as [b|e] eqn:Hb;
      simpl in H; [|discriminate].
    apply IH in H. destruct H as [-> Hconv].
    pose proof (process_requests_bundle_of _ _ Hb) as ->.
    apply process_requests_Ok in Hb. destruct Hb as [Hf _].
    split; [simpl; now rewrite <- app_assoc|].
    constructor; [|exact Hconv].
    cbn [timestamp bundle_of] in Hf. exact Hf.
Qed.

Lemma collect_bundles_converted :
  forall (items : list (Offset * list Request)) acc,
    converted_items items ->
    for_each
      (fun osc_bundles item =>
         osc_bundle <- _process_requests (fst item) (snd item) ;;
         Ok (osc_bundles ++ [osc_bundle]))
      items acc
    = Ok (acc ++ map (fun item => bundle_of (fst item) (snd item)) items).
Proof.
  induction items as [|item items IH]; intros acc H; simpl.
  - now rewrite app_nil_r.
  - inversion H as [|? ? Hitem Hrest]; subst.
    assert (Hb : _process_requests (fst item) (snd item)
                 = Ok (bundle_of (fst item) (snd item))).
    { apply process_requests_Ok. split; [exact Hitem | reflexivity]. }
    rewrite Hb. simpl. rewrite IH by exact Hrest.
    now rewrite <- app_assoc.
Qed.

(** The first offset of the items, in order, that [float] does not
    convert raises its [OverflowError] from the loop. *)
Lemma collect_bundles_raises :
  forall (items : list (Offset * list Request)) acc exception,
    for_each
      (fun osc_bundles item =>
         osc_bundle <- _process_requests (fst item) (snd item) ;;
         Ok (osc_bundles ++ [osc_bundle]))
      items acc = Raise exception ->
    exception = "OverflowError"%string.
Proof.
  induction items as [|item items IH]; intros acc e H; simpl in H.
  - discriminate.
  - destruct (_process_requests (fst item) (snd item)) as [b|e'] eqn:Hb;
      simpl in H.
    + eapply IH. exact H.
    + inversion H; subst. apply process_requests_raises in Hb.
      eapply float_raises_OverflowError. exact Hb.
Qed.

Lemma terminal_event_Ok :
  forall final timespan terminal,
    _process_terminal_event final timespan = Ok terminal ->
    terminal = terminal_of final timespan.
Proof.
  intros final [timespan|] terminal; simpl; [|intros H; now inversion H].
  destruct (not_in_prototype (timespan_stop_offset timespan)
            && offset_ltb final (timespan_stop_offset timespan));
    [|intros H; now inversion H].
  destruct (float (timespan_stop_offset timespan)) as [t|e] eqn:E; simpl;
    [|discriminate].
  intros H. inversion H; subst. now rewrite (float_timestamp_of _ E).
Qed.

Lemma terminal_event_raises :
  forall final timespan exception,
    _process_terminal_event final timespan = Raise exception ->
    exception = "OverflowError"%string.
Proof.
  intros final [timespan|] e; simpl; [|discriminate].
  destruct (not_in_prototype (timespan_stop_offset timespan)
            && offset_ltb final (timespan_stop_offset timespan));
    [|discriminate].
  destruct (float (timespan_stop_offset timespan)) as [t|e'] eqn:E; simpl;
    [discriminate|].
  intros H. inversion H; subst. eapply float_raises_OverflowError. exact E.
Qed.

Lemma terminal_event_returns :
  forall final timespan,
    (forall range, timespan = Some range ->
                   exists t, float (timespan_stop_offset range) = Ok t) ->
    exists terminal, _process_terminal_event final timespan = Ok terminal.
Proof.
  intros final [range|] Hstop; cbn [_process_terminal_event]; [|eauto].
  destruct (not_in_prototype (timespan_stop_offset range)
            && offset_ltb final (timespan_stop_offset range)); [|eauto].
  destruct (Hstop range eq_refl) as [t Ht]. rewrite Ht. cbn [bind]. eauto.
Qed.

(** The timestamp of the terminal bundle is the converted stop offset
    of the range. *)
Lemma terminal_event_timestamp :
  forall final timespan bundle,
    _process_terminal_event final timespan = Ok (terminal_of final timespan) ->
    In bundle (terminal_of final timespan) ->
    exists range,
      timespan = Some range
      /\ float (timespan_stop_offset range) = Ok (timestamp bundle)
      /\ offset_lt final (timespan_stop_offset range).
Proof.
  intros final [timespan|] bundle; simpl; [|intros _ []].
  destruct (not_in_prototype (timespan_stop_offset timespan)) eqn:E1;
    simpl; [|intros _ []].
  destruct (offset_ltb final (timespan_stop_offset timespan)) eqn:E2;
    [|intros _ []].
  destruct (float (timespan_stop_offset timespan)) as [t|e] eqn:E; simpl;
    [|discriminate].
  intros _ [<- | []]. exists timespan. cbn [timestamp].
  rewrite (float_timestamp_of _ E).
  split; [reflexivity|]. split; [exact E | now apply offset_ltb_lt].
Qed.

(** ** The shape of the result of [to_osc_bundles] *)

Section RenderingFacts.
Variable inventory_timespan : list Synth -> Timespan.
Variable inventory_and : list Synth -> Timespan -> list Synth.
Variable inventory_translate : list Synth -> Offset -> list Synth.
Variable offset_sub : Offset -> Offset -> Offset.
Context {set_iteration : SetIteration}.

Let masked :=
  _process_timespan_mask inventory_timespan inventory_and
                         inventory_translate offset_sub.
Let rendered :=
  to_osc_bundles inventory_timespan inventory_and
                 inventory_translate offset_sub.

Lemma to_osc_bundles_unfold :
  forall self timespan,
    rendered self timespan
    = (request_mapping <- collect_requests (masked self timespan) ;;
       match request_mapping with
       | [] => Raise "ValueError"
       | first :: _ =>
           let items :=
             sorted_with (fun x y : Offset * list Request =>
                            offset_ltb (fst x) (fst y))
                         request_mapping in
           osc_bundles <-
             for_each
               (fun osc_bundles item =>
                  osc_bundle <- _process_requests (fst item) (snd item) ;;
                  Ok (osc_bundles ++ [osc_bundle]))
               items [] ;;
           terminal <-
             _process_terminal_event (last (map fst items) (fst first))
                                     timespan ;;
           Ok (osc_bundles ++ terminal)
       end).
Proof.
  intros self timespan. unfold rendered, to_osc_bundles, collect_requests.
  fold (masked self timespan). fold (id_mapping_of (masked self timespan)).
  destruct (_collect_bus_requests (masked self timespan) []
              (id_mapping_of (masked self timespan))) as [r1|e]; simpl;
    [|reflexivity].
  destruct (_collect_synth_requests (masked self timespan)
              (_collect_synthdef_requests (masked self timespan) r1)
              (id_mapping_of (masked self timespan))) as [r3|e]; simpl;
    reflexivity.
Qed.

Lemma to_osc_bundles_Ok :
  forall self timespan bundles,
    rendered self timespan = Ok bundles ->
    exists request_mapping final,
      collect_requests (masked self timespan) = Ok request_mapping
      /\ request_mapping <> []
      /\ converted_items request_mapping
      /\ _process_terminal_event final timespan
         = Ok (terminal_of final timespan)
      /\ bundles = bundles_of request_mapping
                   ++ terminal_of final timespan.
Proof.
  intros self timespan bundles H. rewrite to_osc_bundles_unfold in H.
  destruct (collect_requests (masked self timespan)) as [rm|e]; simpl in H;
    [|discriminate].
  destruct rm as [|first rm]; [discriminate|].
  cbv zeta in H.
  destruct (for_each _ _ []) as [scheduled|e] eqn:Hs; simpl in H;
    [|discriminate].
  destruct (_process_terminal_event _ timespan) as [terminal|e] eqn:Ht;
    simpl in H; [|discriminate].
  inversion H; subst. clear H.
  apply collect_bundles in Hs. destruct Hs as [-> Hconv].
  pose proof (terminal_event_Ok _ _ Ht) as ->.
  eexists. eexists.
  split; [reflexivity|]. split; [discriminate|].
  split.
  { unfold converted_items in *. rewrite Forall_forall in *.
    intros item Hin. apply Hconv. unfold sorted_with. now apply sorted_In. }
  split; [exact Ht | reflexivity].
Qed.

Lemma terminal_event_contents :
  forall final timespan bundle,
    In bundle (terminal_of final timespan) ->
    contents bundle = [OscMessage_of_address 0].
Proof.
  intros final [timespan|] bundle H; simpl in H; [|contradiction].
  destruct (not_in_prototype (timespan_stop_offset timespan)
            && offset_ltb final (timespan_stop_offset timespan));
    [|contradiction].
  destruct H as [<- | []]. reflexivity.
Qed.

Lemma bundles_of_In :
  forall request_mapping bundle,
    In bundle (bundles_of request_mapping) ->
    exists offset requests,
      In (offset, requests) request_mapping
      /\ bundle = bundle_of offset requests.
Proof.
  intros rm bundle H. unfold bundles_of in H. apply in_map_iff in H.
  destruct H as [[o rs] [<- Hin]]. unfold sorted_with in Hin.
  apply sorted_In in Hin. eauto.
Qed.

End RenderingFacts.

Lemma sorted_by_priority_positions :
  forall (msgs : list OscMessage) i j mi mj,
    StronglySorted (fun a b => message_priority a <= message_priority b) msgs ->
    nth_error msgs i = Some mi -> nth_error msgs j = Some mj ->
    message_priority mi < message_priority mj -> i < j.
Proof.
  intros msgs i j mi mj Hs Hi Hj Hlt.
  destruct (Nat.lt_trichotomy i j) as [H | [H | H]]; [exact H | |].
  - subst. rewrite Hi in Hj. inversion Hj; subst. lia.
  - pose proof (StronglySorted_nth_error Hs H Hj Hi). simpl in *. lia.
Qed.

(** C1: in every bundle that [to_osc_bundles] returns, for every session
    and render range, the commands are grouped in the priority order
    definition-receive, bus-set, group-new, synth-new, bus-mapping,
    parameter-set, node-free.  In particular every definition-receive
    command stands before every synth-new command of its bundle, and a
    node-free command stands after all other messages of its bundle. *)
Theorem bundle_commands_in_priority_order :
  forall (set_iteration : SetIteration)
         (inventory_timespan : list Synth -> Timespan)
         (inventory_and : list Synth -> Timespan -> list Synth)
         (inventory_translate : list Synth -> Offset -> list Synth)
         (offset_sub : Offset -> Offset -> Offset)
         (self : Session) (timespan : option Timespan)
         (bundles : list OscBundle) (bundle : OscBundle),
    to_osc_bundles inventory_timespan inventory_and inventory_translate
                   offset_sub self timespan = Ok bundles ->
    In bundle bundles ->
    (forall i j mi mj ci cj,
        i < j ->
        nth_error (contents bundle) i = Some mi ->
        nth_error (contents bundle) j = Some mj ->
        message_command mi = Some ci ->
        message_command mj = Some cj ->
        priority ci <= priority cj)
    /\ (forall i j mi mj,
           nth_error (contents bundle) i = Some mi ->
           nth_error (contents bundle) j = Some mj ->
           message_command mi = Some definition_receive ->
           message_command mj = Some synth_new ->
           i < j)
    /\ (forall i j mi mj,
           nth_error (contents bundle) i = Some mi ->
           nth_error (contents bundle) j = Some mj ->
           message_command mi = Some node_free ->
           message_command mj <> Some node_free ->
           j < i).
Proof.
  intros si it ia itr os self timespan bundles bundle Hok Hin.
  destruct (to_osc_bundles_Ok it ia itr os self timespan Hok)
    as (rm & final & _ & _ & _ & _ & ->).
  apply in_app_iff in Hin. destruct Hin as [Hin | Hin].
  - apply bundles_of_In in Hin. destruct Hin as (o & rs & _ & ->).
    pose proof (process_requests_sorted o rs) as Hs.
    split; [|split].
    + intros i j mi mj ci cj Hlt Hi Hj Hci Hcj.
      pose proof (StronglySorted_nth_error Hs Hlt Hi Hj) as H.
      unfold message_priority in H. now rewrite Hci, Hcj in H.
    + intros i j mi mj Hi Hj Hci Hcj.
      eapply sorted_by_priority_positions; [exact Hs | exact Hi | exact Hj |].
      unfold message_priority. rewrite Hci, Hcj. simpl. lia.
    + intros i j mi mj Hi Hj Hci Hcj.
      eapply sorted_by_priority_positions; [exact Hs | exact Hj | exact Hi |].
      destruct (process_requests_commands o rs mj (nth_error_In _ _ Hj))
        as [cj Hcj'].
      unfold message_priority. rewrite Hci, Hcj'. rewrite Hcj' in Hcj.
      destruct cj; simpl; try lia. congruence.
  - pose proof (terminal_event_contents _ _ _ Hin) as Hc. rewrite Hc.
    split; [|split].
    + intros i j mi mj ci cj Hlt Hi Hj.
      destruct j as [|j]; [lia|]. destruct j; discriminate.
    + intros [|[|i]] j mi mj Hi; try discriminate.
      inversion Hi; subst. discriminate.
    + intros [|[|i]] j mi mj Hi; try discriminate.
      inversion Hi; subst. discriminate.
Qed.

(** ** Bus identifiers *)

Arguments Ref_eqb : simpl never.
Arguments _build_bus_id_mapping_step : simpl never.

Lemma dict_mem_set :
  forall (d : Dict Ref nat) k v k',
    dict_mem Ref_eqb (dict_set Ref_eqb d k v) k'
    = Ref_eqb k k' || dict_mem Ref_eqb d k'.
Proof.
  intros d k v k'. unfold dict_mem.
  rewrite (dict_get_set Ref_eqb Ref_eqb_eq).
  destruct (Ref_eqb k k'); reflexivity.
Qed.

Lemma assign_all_mem :
  forall (A : Type) (key : A -> Ref) (val : A -> nat) (l : list A) d k,
    dict_mem Ref_eqb
      (fold_left (fun acc x => dict_set Ref_eqb acc (key x) (val x)) l d) k
    = existsb (fun x => Ref_eqb (key x) k) l || dict_mem Ref_eqb d k.
Proof.
  induction l as [|x l IH]; intros d k; simpl; [reflexivity|].
  rewrite IH, dict_mem_set.
  destruct (Ref_eqb (key x) k), (existsb (fun x0 => Ref_eqb (key x0) k) l);
    reflexivity.
Qed.

Lemma assign_all_NoDup :
  forall (A : Type) (key : A -> Ref) (val : A -> nat) (l : list A) d,
    NoDup (dict_keys d) ->
    NoDup (dict_keys
             (fold_left (fun acc x => dict_set Ref_eqb acc (key x) (val x)) l d)).
Proof.
  induction l as [|x l IH]; intros d H; simpl; [exact H|].
  apply IH. now apply (dict_set_NoDup Ref_eqb Ref_eqb_eq).
Qed.

Lemma build_bus_step_mem :
  forall mapping allocators handle bus k,
    dict_mem Ref_eqb
      (fst (_build_bus_id_mapping_step (mapping, allocators) (handle, bus))) k
    = true
    <-> dict_mem Ref_eqb mapping k = true
        \/ k = BusRef handle
        \/ (dict_mem Ref_eqb mapping (BusRef handle) = false
            /\ exists group, bus_group bus = Some group
                             /\ k = BusGroupRef (bus_group_handle group)).
Proof.
  intros mapping allocators handle bus k.
  unfold _build_bus_id_mapping_step.
  destruct (dict_mem Ref_eqb mapping (BusRef handle)) eqn:M.
  - simpl. split; [tauto|].
    intros [H | [-> | [H _]]]; [exact H | exact M | discriminate].
  - destruct (bus_group bus) as [group|].
    + destruct (allocate_for (calculation_rate bus) allocators
                             (Pos.to_nat (bus_count group)))
        as [block_id allocators'].
      simpl. rewrite (assign_all_mem (fun _ => BusRef handle) (fun i => i)).
      rewrite dict_mem_set.
      assert (Hsize : exists n, Pos.to_nat (bus_count group) = S n).
      { destruct (Pos2Nat.is_succ (bus_count group)) as [n Hn]. eauto. }
      destruct Hsize as [n ->]. simpl.
      rewrite !orb_true_iff. split.
      * intros [[H | H] | [H | H]].
        -- apply Ref_eqb_eq in H. auto.
        -- right. left. clear - H. induction (seq (S block_id) n); simpl in H;
             [discriminate|].
           apply orb_true_iff in H. destruct H as [H | H]; auto.
           apply Ref_eqb_eq in H. auto.
        -- apply Ref_eqb_eq in H. right. right. split; [reflexivity|].
           exists group. auto.
        -- auto.
      * intros [H | [-> | [_ [g [Hg ->]]]]].
        -- auto.
        -- left. left. now apply Ref_eqb_eq.
        -- inversion Hg; subst. right. left. now apply Ref_eqb_eq.
    + destruct (allocate_for (calculation_rate bus) allocators 1)
        as [address allocators'].
      simpl. rewrite dict_mem_set, orb_true_iff. split.
      * intros [H | H]; [apply Ref_eqb_eq in H | ]; auto.
      * intros [H | [-> | [_ [g [Hg _]]]]]; auto; [|discriminate].
        left. now apply Ref_eqb_eq.
Qed.

Lemma build_bus_step_NoDup :
  forall state entry,
    NoDup (dict_keys (fst state)) ->
    NoDup (dict_keys (fst (_build_bus_id_mapping_step state entry))).
Proof.
  intros [mapping allocators] [handle bus] H.
  unfold _build_bus_id_mapping_step.
  destruct (dict_mem Ref_eqb mapping (BusRef handle)); [exact H|].
  destruct (bus_group bus) as [group|].
  - destruct (allocate_for _ _ _) as [block_id allocators']. simpl.
    apply (assign_all_NoDup (fun _ => BusRef handle) (fun i => i)).
    now apply (dict_set_NoDup Ref_eqb Ref_eqb_eq).
  - destruct (allocate_for _ _ _) as [address allocators']. simpl.
    now apply (dict_set_NoDup Ref_eqb Ref_eqb_eq).
Qed.

Lemma build_bus_fold_mem :
  forall entries state k,
    dict_mem Ref_eqb
      (fst (fold_left _build_bus_id_mapping_step entries state)) k = true
    -> dict_mem Ref_eqb (fst state) k = true
       \/ (exists entry, In entry entries /\ k = BusRef (fst entry))
       \/ (exists entry group,
              In entry entries /\ bus_group (snd entry) = Some group
              /\ k = BusGroupRef (bus_group_handle group)).
Proof.
  induction entries as [|[handle bus] entries IH]; intros [mapping allocators] k;
    simpl; [tauto|].
  intros H. apply IH in H. destruct H as [H | [H | H]].
  - apply build_bus_step_mem in H.
    destruct H as [H | [-> | [_ [g [Hg ->]]]]].
    + now left.
    + right. left. exists (handle, bus). auto.
    + right. right. exists (handle, bus), g. auto.
  - destruct H as [entry [Hin ->]]. right. left. exists entry. auto.
  - destruct H as [entry [g [Hin [Hg ->]]]]. right. right.
    exists entry, g. auto.
Qed.

Lemma build_bus_fold_keeps :
  forall entries state k,
    dict_mem Ref_eqb (fst state) k = true ->
    dict_mem Ref_eqb
      (fst (fold_left _build_bus_id_mapping_step entries state)) k = true.
Proof.
  induction entries as [|[handle bus] entries IH]; intros [mapping allocators] k H;
    simpl; [exact H|].
  apply IH. apply build_bus_step_mem. now left.
Qed.

Lemma build_bus_fold_assigns :
  forall entries state entry,
    In entry entries ->
    dict_mem Ref_eqb
      (fst (fold_left _build_bus_id_mapping_step entries state))
      (BusRef (fst entry)) = true.
Proof.
  induction entries as [|[handle bus] entries IH];
    intros [mapping allocators] entry Hin; simpl; [contradiction|].
  destruct Hin as [<- | Hin]; [|now apply IH].
  apply build_bus_fold_keeps. apply build_bus_step_mem.
  right. left. reflexivity.
Qed.

Lemma build_bus_fold_NoDup :
  forall entries state,
    NoDup (dict_keys (fst state)) ->
    NoDup (dict_keys (fst (fold_left _build_bus_id_mapping_step entries state))).
Proof.
  induction entries as [|entry entries IH]; intros state H; simpl; [exact H|].
  apply IH. now apply build_bus_step_NoDup.
Qed.

Lemma dict_mem_false_get :
  forall (d : Dict Ref nat) k,
    dict_mem Ref_eqb d k = false <-> dict_get Ref_eqb d k = None.
Proof.
  intros d k. unfold dict_mem.
  destruct (dict_get Ref_eqb d k); split; congruence.
Qed.

Lemma dict_mem_true_get :
  forall (d : Dict Ref nat) k,
    dict_mem Ref_eqb d k = true <-> exists v, dict_get Ref_eqb d k = Some v.
Proof.
  intros d k. unfold dict_mem.
  destruct (dict_get Ref_eqb d k); split; try congruence; eauto.
  intros [v H]. discriminate.
Qed.

Lemma reserved_bus_mapping_NoDup :
  forall self, NoDup (dict_keys (reserved_bus_mapping self)).
Proof.
  intros self. unfold reserved_bus_mapping.
  destruct (Nat.eqb (_input_count self) 0);
    destruct (Nat.eqb (_output_count self) 0);
    repeat apply (assign_all_NoDup (@snd nat Ref) (@fst nat Ref));
    constructor.
Qed.

Lemma reserved_bus_mapping_mem :
  forall self k,
    dict_mem Ref_eqb (reserved_bus_mapping self) k = true ->
    (exists i, k = AudioOutputBusRef i) \/ (exists i, k = AudioInputBusRef i).
Proof.
  intros self k. unfold reserved_bus_mapping.
  assert (Hout : forall start d,
             dict_mem Ref_eqb
               (fold_left (fun acc entry => dict_set Ref_eqb acc (snd entry) (fst entry))
                          (enumerate start (audio_output_bus_group self)) d) k = true ->
             (exists i, k = AudioOutputBusRef i) \/ dict_mem Ref_eqb d k = true).
  { intros start d. rewrite (assign_all_mem (@snd nat Ref) (@fst nat Ref)).
    rewrite orb_true_iff, existsb_exists. intros [[[i r] [Hin E]] | H]; auto.
    left. simpl in E. apply Ref_eqb_eq in E. subst.
    apply (in_map snd) in Hin. rewrite enumerate_snd in Hin. simpl in Hin.
    unfold audio_output_bus_group in Hin. apply in_map_iff in Hin.
    destruct Hin as [j [<- _]]. eauto. }
  assert (Hin : forall start d,
             dict_mem Ref_eqb
               (fold_left (fun acc entry => dict_set Ref_eqb acc (snd entry) (fst entry))
                          (enumerate start (audio_input_bus_group self)) d) k = true ->
             (exists i, k = AudioInputBusRef i) \/ dict_mem Ref_eqb d k = true).
  { intros start d. rewrite (assign_all_mem (@snd nat Ref) (@fst nat Ref)).
    rewrite orb_true_iff, existsb_exists. intros [[[i r] [Hi E]] | H]; auto.
    left. simpl in E. apply Ref_eqb_eq in E. subst.
    apply (in_map snd) in Hi. rewrite enumerate_snd in Hi. simpl in Hi.
    unfold audio_input_bus_group in Hi. apply in_map_iff in Hi.
    destruct Hi as [j [<- _]]. eauto. }
  destruct (Nat.eqb (_input_count self) 0);
    destruct (Nat.eqb (_output_count self) 0); intros H.
  - discriminate.
  - apply Hout in H. destruct H as [H | H]; [auto | discriminate].
  - apply Hin in H. destruct H as [H | H]; [auto | discriminate].
  - apply Hin in H. destruct H as [H | H]; [auto|].
    apply Hout in H. destruct H as [H | H]; [auto | discriminate].
Qed.

Lemma build_bus_id_mapping_fold :
  forall self,
    _build_bus_id_mapping self
    = fst (fold_left _build_bus_id_mapping_step (enumerate 0 (_buses self))
             (reserved_bus_mapping self,
              {| audio_bus_allocator :=
                   BlockAllocator_new (_input_count self + _output_count self);
                 control_bus_allocator := BlockAllocator_new 0 |})).
Proof. reflexivity. Qed.

Lemma bus_mapping_NoDup :
  forall self, NoDup (dict_keys (_build_bus_id_mapping self)).
Proof.
  intros self. rewrite build_bus_id_mapping_fold.
  apply build_bus_fold_NoDup. apply reserved_bus_mapping_NoDup.
Qed.

Lemma bus_mapping_no_synth :
  forall self i, dict_get Ref_eqb (_build_bus_id_mapping self) (SynthRef i) = None.
Proof.
  intros self i. apply dict_mem_false_get.
  destruct (dict_mem Ref_eqb (_build_bus_id_mapping self) (SynthRef i)) eqn:M;
    [|reflexivity].
  rewrite build_bus_id_mapping_fold in M. apply build_bus_fold_mem in M.
  destruct M as [M | [[e [_ M]] | [e [g [_ [_ M]]]]]]; try discriminate.
  apply reserved_bus_mapping_mem in M.
  destruct M as [[j M] | [j M]]; discriminate.
Qed.

Lemma bus_mapping_has_bus :
  forall self handle bus,
    nth_error (_buses self) handle = Some bus ->
    exists bus_id,
      dict_get Ref_eqb (_build_bus_id_mapping self) (BusRef handle) = Some bus_id.
Proof.
  intros self handle bus H. apply dict_mem_true_get.
  rewrite build_bus_id_mapping_fold.
  apply (build_bus_fold_assigns _ _ (handle, bus)).
  apply enumerate_In. rewrite Nat.sub_0_r. split; [lia | exact H].
Qed.

(** ** The identifier mapping of a rendering *)

Lemma synth_mapping_NoDup :
  forall self, NoDup (dict_keys (_build_synth_id_mapping self)).
Proof.
  intros self. rewrite build_synth_id_mapping_numbered.
  apply numbered_keys_NoDup, synth_order_handles.
Qed.

Lemma synth_mapping_only_synths :
  forall self k v,
    dict_get Ref_eqb (_build_synth_id_mapping self) k = Some v ->
    exists i, k = SynthRef i.
Proof.
  intros self k v H. rewrite build_synth_id_mapping_numbered in H.
  apply (dict_get_Some_In Ref_eqb Ref_eqb_eq) in H.
  apply (in_map fst) in H.
  change (In k (dict_keys (numbered 1000 (synth_order self)))) in H.
  rewrite numbered_keys in H. apply in_map_iff in H.
  destruct H as [x [<- _]]. eauto.
Qed.

Lemma id_mapping_of_synth :
  forall session i,
    dict_get Ref_eqb (id_mapping_of session) (SynthRef i)
    = dict_get Ref_eqb (_build_synth_id_mapping session) (SynthRef i).
Proof.
  intros session i. unfold id_mapping_of.
  rewrite (dict_update_get Ref_eqb Ref_eqb_eq) by apply bus_mapping_NoDup.
  rewrite bus_mapping_no_synth.
  rewrite (dict_update_get Ref_eqb Ref_eqb_eq) by apply synth_mapping_NoDup.
  destruct (dict_get Ref_eqb (_build_synth_id_mapping session) (SynthRef i));
    reflexivity.
Qed.

Lemma id_mapping_of_bus :
  forall session h,
    dict_get Ref_eqb (id_mapping_of session) (BusRef h)
    = dict_get Ref_eqb (_build_bus_id_mapping session) (BusRef h).
Proof.
  intros session h. unfold id_mapping_of.
  rewrite (dict_update_get Ref_eqb Ref_eqb_eq) by apply bus_mapping_NoDup.
  destruct (dict_get Ref_eqb (_build_bus_id_mapping session) (BusRef h));
    [reflexivity|].
  rewrite (dict_update_get Ref_eqb Ref_eqb_eq) by apply synth_mapping_NoDup.
  destruct (dict_get Ref_eqb (_build_synth_id_mapping session) (BusRef h)) eqn:G;
    [|reflexivity].
  apply synth_mapping_only_synths in G. destruct G as [i G]. discriminate.
Qed.

(** ** The request mapping is the result of a sequence of emissions *)

Lemma fold_left_flat_map :
  forall (A B St : Type) (f : St -> B -> St) (g : A -> list B)
         (l : list A) (st : St),
    fold_left f (flat_map g l) st
    = fold_left (fun st x => fold_left f (g x) st) l st.
Proof.
  induction l as [|x l IH]; intros st; simpl; [reflexivity|].
  rewrite fold_left_app. apply IH.
Qed.

Lemma fold_left_map :
  forall (A B St : Type) (f : St -> B -> St) (g : A -> B)
         (l : list A) (st : St),
    fold_left f (map g l) st = fold_left (fun st x => f st (g x)) l st.
Proof.
  induction l as [|x l IH]; intros st; simpl; [reflexivity | apply IH].
Qed.

Lemma fold_left_ext :
  forall (A St : Type) (f g : St -> A -> St) (l : list A) (st : St),
    (forall st x, In x l -> f st x = g st x) ->
    fold_left f l st = fold_left g l st.
Proof.
  induction l as [|x l IH]; intros st H; simpl; [reflexivity|].
  rewrite H by now left. apply IH. intros st' y Hy. apply H. now right.
Qed.

Lemma fold_left_collect :
  forall (A B : Type) (f : A -> B) (l : list A) (acc : list B),
    fold_left (fun acc x => acc ++ [f x]) l acc = acc ++ map f l.
Proof.
  induction l as [|x l IH]; intros acc; simpl.
  - now rewrite app_nil_r.
  - rewrite IH, <- app_assoc. reflexivity.
Qed.

Lemma emit_all_flat_map :
  forall (A : Type) (g : A -> list (Offset * list Request)) (l : list A) d,
    fold_left (fun acc x => emit_all offset_eqb (g x) acc) l d
    = emit_all offset_eqb (flat_map g l) d.
Proof.
  induction l as [|x l IH]; intros d; simpl; [reflexivity|].
  rewrite IH. now rewrite emit_all_app.
Qed.

Lemma collect_bus_requests_emissions :
  forall session request_mapping,
    _collect_bus_requests session request_mapping (id_mapping_of session)
    = Ok (emit_all offset_eqb
                   (bus_emissions session (id_mapping_of session))
                   request_mapping).
Proof.
  intros session rm. unfold _collect_bus_requests.
  rewrite for_each_total with
    (step := fun acc entry =>
               if negb (CalculationRate_eqb (calculation_rate (snd entry)) CONTROL)
               then acc
               else fold_left
                      (fun acc event =>
                         record_bus_event acc (fst event)
                           (bus_index_of (id_mapping_of session) (fst entry))
                           (snd event))
                      (bus_events (snd entry)) acc).
  - simpl. f_equal.
    rewrite (emit_all_map offset_eqb (@fst Offset (Dict nat Q))
               (fun item =>
                  [ControlBusSetRequest
                     (sorted_with (fun x y : nat * Q => Nat.ltb (fst x) (fst y))
                                  (snd item))])).
    unfold bus_emissions, events_by_offset_of, control_bus_events.
    rewrite fold_left_flat_map.
    do 2 f_equal.
    apply fold_left_ext. intros st [h b] _. simpl.
    destruct (negb (CalculationRate_eqb (calculation_rate b) CONTROL));
      [reflexivity|].
    now rewrite fold_left_map.
  - intros st [h b] Hin. simpl.
    destruct (negb (CalculationRate_eqb (calculation_rate b) CONTROL));
      [reflexivity|].
    apply enumerate_In in Hin. rewrite Nat.sub_0_r in Hin.
    destruct Hin as [_ Hin].
    destruct (bus_mapping_has_bus session h Hin) as [bus_id Hid].
    unfold dict_item, bus_index_of. rewrite id_mapping_of_bus, Hid.
    reflexivity.
Qed.

Lemma collect_synthdef_requests_emissions {set_iteration : SetIteration} :
  forall session request_mapping,
    _collect_synthdef_requests session request_mapping
    = emit_all offset_eqb (synthdef_emissions session) request_mapping.
Proof.
  intros session rm. unfold _collect_synthdef_requests.
  rewrite (emit_all_map offset_eqb (@fst Offset (list SynthDef))
             (fun item =>
                [SynthDefReceiveRequest
                   (sorted_with
                      (fun x y => String.ltb (anonymous_name x) (anonymous_name y))
                      (snd item))])).
  unfold synthdef_emissions, offsets_to_synthdefs, synthdefs_to_offsets,
    start_events.
  rewrite (emit_all_map offset_eqb (@snd SynthDef Offset) (fun item => [fst item])).
  now rewrite fold_left_flat_map.
Qed.

Lemma request_order_In :
  forall session id_mapping x,
    In x (request_order session id_mapping)
    <-> In x (enumerate 0 (_synths session)).
Proof.
  intros session idm x. unfold request_order, sorted_with.
  rewrite in_map_iff. split.
  - intros [[key y] [<- H]]. apply sorted_In in H. apply in_map_iff in H.
    destruct H as [z [E Hz]]. inversion E; subst. exact Hz.
  - intros H. eexists. split; [|apply sorted_In, in_map; exact H]. reflexivity.
Qed.

Lemma synth_has_node_id :
  forall session h s,
    In (h, s) (enumerate 0 (_synths session)) ->
    dict_item Ref_eqb (id_mapping_of session) (SynthRef h)
    = Ok (node_id_of (id_mapping_of session) h).
Proof.
  intros session h s H. apply enumerate_In in H. rewrite Nat.sub_0_r in H.
  destruct H as [_ H].
  destruct (synth_id_position session h H) as [p [_ Hid]].
  unfold dict_item, node_id_of. rewrite id_mapping_of_synth, Hid. reflexivity.
Qed.

Lemma collect_synth_requests_emissions :
  forall session request_mapping,
    _collect_synth_requests session request_mapping (id_mapping_of session)
    = Ok (emit_all offset_eqb
                   (synth_emissions session (id_mapping_of session))
                   request_mapping).
Proof.
  intros session rm. unfold _collect_synth_requests.
  rewrite for_each_total with
    (step := fun keyed x =>
               keyed ++ [((_get_timespan (snd x),
                           node_id_of (id_mapping_of session) (fst x)), x)]).
  - simpl. rewrite fold_left_collect. simpl.
    fold (request_order session (id_mapping_of session)).
    rewrite for_each_total with
      (step := fun acc x =>
                 emit_all offset_eqb
                   (synth_requests (node_id_of (id_mapping_of session) (fst x))
                                   (snd x)) acc).
    + f_equal. unfold synth_emissions. apply emit_all_flat_map.
    + intros st [h s] Hin. apply request_order_In in Hin.
      unfold Synth_collect_requests. simpl.
      rewrite (synth_has_node_id session h s Hin). simpl.
      reflexivity.
  - intros st [h s] Hin. simpl.
    rewrite (synth_has_node_id session h s Hin). reflexivity.
Qed.

Lemma collect_requests_emissions {set_iteration : SetIteration} :
  forall session,
    collect_requests session
    = Ok (emit_all offset_eqb (all_emissions session) []).
Proof.
  intros session. unfold collect_requests, all_emissions.
  rewrite collect_bus_requests_emissions. simpl.
  rewrite collect_synthdef_requests_emissions.
  rewrite collect_synth_requests_emissions.
  now rewrite !emit_all_app.
Qed.

(** ** The request mapping *)

Lemma collect_requests_Ok {set_iteration : SetIteration} :
  forall session, collect_requests session = Ok (request_mapping_of session).
Proof. exact collect_requests_emissions. Qed.

Lemma request_mapping_NoDup {set_iteration : SetIteration} :
  forall session, NoDup (dict_keys (request_mapping_of session)).
Proof.
  intros session. unfold request_mapping_of.
  apply (emit_all_NoDup offset_eqb offset_eqb_eq). constructor.
Qed.

Lemma request_mapping_get_list {set_iteration : SetIteration} :
  forall session offset,
    dict_get_list offset_eqb (request_mapping_of session) offset
    = requests_at session offset.
Proof.
  intros session offset. unfold request_mapping_of, requests_at.
  now rewrite (emit_all_get_list offset_eqb offset_eqb_eq).
Qed.

Lemma request_mapping_In {set_iteration : SetIteration} :
  forall session offset requests,
    In (offset, requests) (request_mapping_of session) ->
    requests = requests_at session offset.
Proof.
  intros session offset requests H.
  rewrite <- request_mapping_get_list. symmetry.
  apply (dict_get_list_In offset_eqb offset_eqb_eq).
  - apply request_mapping_NoDup.
  - exact H.
Qed.

Lemma request_mapping_keys {set_iteration : SetIteration} :
  forall session offset,
    In offset (dict_keys (request_mapping_of session))
    <-> In offset (map fst (all_emissions session)).
Proof.
  intros session offset. unfold request_mapping_of.
  rewrite (emit_all_keys offset_eqb offset_eqb_eq). simpl. tauto.
Qed.

Lemma request_mapping_has {set_iteration : SetIteration} :
  forall session offset,
    In offset (map fst (all_emissions session)) ->
    In (offset, requests_at session offset) (request_mapping_of session).
Proof.
  intros session offset H. apply request_mapping_keys in H.
  unfold dict_keys in H. apply in_map_iff in H.
  destruct H as [[o rs] [E H]]. simpl in E. subst o.
  now rewrite <- (request_mapping_In session offset rs H).
Qed.

Lemma request_mapping_empty {set_iteration : SetIteration} :
  forall session,
    request_mapping_of session = [] <-> all_emissions session = [].
Proof.
  intros session. split.
  - intros H. destruct (all_emissions session) as [|[o xs] l] eqn:E;
      [reflexivity|].
    assert (Hin : In o (dict_keys (request_mapping_of session))).
    { apply request_mapping_keys. rewrite E. now left. }
    rewrite H in Hin. contradiction.
  - intros H. unfold request_mapping_of. now rewrite H.
Qed.

(** ** Sessions without requests *)

Lemma dict_set_not_nil :
  forall (K V : Type) (eqb : K -> K -> bool) (d : Dict K V) k v,
    dict_set eqb d k v <> [].
Proof.
  intros K V eqb [|[k' v'] d] k v; simpl; [discriminate|].
  destruct (eqb k' k); discriminate.
Qed.

Lemma dict_extend_not_nil :
  forall (K A : Type) (eqb : K -> K -> bool) (d : Dict K (list A)) k xs,
    dict_extend eqb d k xs <> [].
Proof.
  intros K A eqb d k xs. unfold dict_extend.
  destruct (dict_get eqb d k); apply dict_set_not_nil.
Qed.

Lemma fold_left_not_nil :
  forall (A B : Type) (f : list B -> A -> list B) (l : list A) (acc : list B),
    (forall acc x, f acc x <> []) ->
    l <> [] \/ acc <> [] ->
    fold_left f l acc <> [].
Proof.
  induction l as [|x l IH]; intros acc Hf H; simpl.
  - destruct H as [H | H]; [contradiction | exact H].
  - apply IH; [exact Hf|]. right. apply Hf.
Qed.

Lemma synth_requests_not_nil :
  forall node_id s, synth_requests node_id s <> [].
Proof. intros node_id s. unfold synth_requests. apply dict_extend_not_nil. Qed.

Lemma request_order_length :
  forall session id_mapping,
    List.length (request_order session id_mapping)
    = List.length (_synths session).
Proof.
  intros session idm. unfold request_order, sorted_with.
  now rewrite length_map, sorted_length, length_map, enumerate_length.
Qed.

Lemma synth_emissions_empty :
  forall session id_mapping,
    synth_emissions session id_mapping = [] <-> _synths session = [].
Proof.
  intros session idm. split.
  - intros H. pose proof (request_order_length session idm) as Hlen.
    unfold synth_emissions in H.
    destruct (request_order session idm) as [|x l]; simpl in *.
    + destruct (_synths session); [reflexivity | discriminate].
    + apply app_eq_nil in H. destruct H as [H _].
      now apply synth_requests_not_nil in H.
  - intros H. pose proof (request_order_length session idm) as Hlen.
    rewrite H in Hlen. unfold synth_emissions.
    destruct (request_order session idm); [reflexivity | discriminate].
Qed.

Lemma synthdef_emissions_without_synths {set_iteration : SetIteration} :
  forall session, _synths session = [] -> synthdef_emissions session = [].
Proof.
  intros session H.
  unfold synthdef_emissions, offsets_to_synthdefs, synthdefs_to_offsets,
    start_events.
  rewrite H. reflexivity.
Qed.

Lemma events_by_offset_empty :
  forall events, events_by_offset_of events = [] <-> events = [].
Proof.
  intros events. split.
  - intros H. destruct events as [|e events]; [reflexivity|].
    exfalso. revert H. unfold events_by_offset_of.
    apply fold_left_not_nil; [|left; discriminate].
    intros acc x. unfold record_bus_event. apply dict_set_not_nil.
  - intros ->. reflexivity.
Qed.

Lemma bus_emissions_empty :
  forall session id_mapping,
    bus_emissions session id_mapping = []
    <-> control_bus_events session id_mapping = [].
Proof.
  intros session idm. unfold bus_emissions.
  rewrite <- events_by_offset_empty.
  destruct (events_by_offset_of (control_bus_events session idm));
    simpl; split; congruence.
Qed.

Lemma flat_map_nil :
  forall (A B : Type) (f : A -> list B) (l : list A),
    flat_map f l = [] <-> Forall (fun x => f x = []) l.
Proof.
  induction l as [|x l IH]; simpl.
  - split; [constructor | reflexivity].
  - split.
    + intros H. apply app_eq_nil in H. destruct H as [H1 H2].
      constructor; [exact H1 | now apply IH].
    + intros H. inversion H; subst. rewrite H2. simpl. now apply IH.
Qed.

Lemma CalculationRate_eqb_eq :
  forall a b, CalculationRate_eqb a b = true <-> a = b.
Proof. intros [] []; simpl; split; congruence. Qed.

Lemma control_bus_events_empty :
  forall session id_mapping,
    control_bus_events session id_mapping = []
    <-> Forall (fun bus => calculation_rate bus = CONTROL -> bus_events bus = [])
               (_buses session).
Proof.
  intros session idm. unfold control_bus_events.
  rewrite flat_map_nil, !Forall_forall. split.
  - intros H bus Hin Hrate.
    apply In_nth_error in Hin. destruct Hin as [h Hh].
    assert (Hin : In (h, bus) (enumerate 0 (_buses session))).
    { apply enumerate_In. rewrite Nat.sub_0_r. split; [lia | exact Hh]. }
    specialize (H _ Hin). simpl in H.
    rewrite (proj2 (CalculationRate_eqb_eq _ _) Hrate) in H. simpl in H.
    destruct (bus_events bus); [reflexivity | discriminate].
  - intros H [h bus] Hin. simpl.
    destruct (CalculationRate_eqb (calculation_rate bus) CONTROL) eqn:E;
      [|reflexivity].
    simpl. apply CalculationRate_eqb_eq in E.
    apply enumerate_In in Hin. destruct Hin as [_ Hin].
    apply nth_error_In in Hin. rewrite (H bus Hin E). reflexivity.
Qed.

Lemma all_emissions_empty {set_iteration : SetIteration} :
  forall session,
    all_emissions session = []
    <-> _synths session = []
        /\ Forall (fun bus => calculation_rate bus = CONTROL -> bus_events bus = [])
                  (_buses session).
Proof.
  intros session. unfold all_emissions. split.
  - intros H. apply app_eq_nil in H. destruct H as [Hb H].
    apply app_eq_nil in H. destruct H as [_ Hs].
    split.
    + now apply synth_emissions_empty in Hs.
    + apply bus_emissions_empty in Hb.
      now apply control_bus_events_empty in Hb.
  - intros [Hs Hb].
    rewrite (proj2 (bus_emissions_empty session (id_mapping_of session)));
      [|now apply control_bus_events_empty].
    rewrite (synthdef_emissions_without_synths session Hs).
    now rewrite (proj2 (synth_emissions_empty session (id_mapping_of session))).
Qed.

(** ** The result of [to_osc_bundles] *)

Lemma items_sorted_by_offset :
  forall (request_mapping : Dict Offset (list Request)),
    NoDup (dict_keys request_mapping) ->
    StronglySorted (fun x y : Offset * list Request => offset_lt (fst x) (fst y))
      (sorted_with (fun x y : Offset * list Request => offset_ltb (fst x) (fst y))
                   request_mapping).
Proof.
  intros rm Hnd. unfold sorted_with. apply sorted_ordered.
  - intros x y z. apply offset_lt_trans.
  - eapply StronglySorted_weaken;
      [|apply StronglySorted_distinct_keys; exact Hnd].
    intros x y _ _ Hne. unfold decides. simpl. split.
    + intros Hle. apply negb_true_iff, offset_ltb_ge in Hle.
      apply offset_le_lt_or_eq in Hle. destruct Hle as [Hle | Hle];
        [exact Hle | contradiction].
    + intros Hle. apply negb_false_iff in Hle. now apply offset_ltb_lt.
Qed.

Section RenderingResult.
Variable inventory_timespan : list Synth -> Timespan.
Variable inventory_and : list Synth -> Timespan -> list Synth.
Variable inventory_translate : list Synth -> Offset -> list Synth.
Variable offset_sub : Offset -> Offset -> Offset.
Context {set_iteration : SetIteration}.
Variable OscBundle_to_datagram : OscBundle -> list Byte.byte.

Let masked :=
  _process_timespan_mask inventory_timespan inventory_and
                         inventory_translate offset_sub.
Let rendered :=
  to_osc_bundles inventory_timespan inventory_and
                 inventory_translate offset_sub.
Let datagram_of :=
  to_datagram inventory_timespan inventory_and
              inventory_translate offset_sub OscBundle_to_datagram.

Lemma to_osc_bundles_empty :
  forall self timespan,
    all_emissions (masked self timespan) = [] ->
    rendered self timespan = Raise "ValueError".
Proof.
  intros self timespan H. unfold rendered. rewrite to_osc_bundles_unfold.
  fold (masked self timespan).
  rewrite collect_requests_Ok. simpl.
  now rewrite (proj2 (request_mapping_empty (masked self timespan)) H).
Qed.

Lemma to_osc_bundles_nonempty :
  forall self timespan,
    all_emissions (masked self timespan) <> [] ->
    exists final,
      rendered self timespan
      = (osc_bundles <-
           for_each
             (fun osc_bundles item =>
                osc_bundle <- _process_requests (fst item) (snd item) ;;
                Ok (osc_bundles ++ [osc_bundle]))
             (sorted_with (fun x y : Offset * list Request =>
                             offset_ltb (fst x) (fst y))
                          (request_mapping_of (masked self timespan)))
             [] ;;
         terminal <- _process_terminal_event final timespan ;;
         Ok (osc_bundles ++ terminal))
      /\ (exists requests,
             In (final, requests) (request_mapping_of (masked self timespan)))
      /\ (forall offset requests,
             In (offset, requests) (request_mapping_of (masked self timespan)) ->
             offset_le offset final).
Proof.
  intros self timespan H. unfold rendered. rewrite to_osc_bundles_unfold.
  fold (masked self timespan).
  rewrite collect_requests_Ok. simpl.
  destruct (request_mapping_of (masked self timespan)) as [|first rm] eqn:E.
  - apply request_mapping_empty in E. contradiction.
  - eexists. split; [reflexivity|].
    set (items := sorted_with _ (first :: rm)).
    assert (Hperm : Permutation items (first :: rm)) by apply sorted_perm.
    assert (Hsorted :
              StronglySorted (fun x y : Offset * list Request =>
                                offset_lt (fst x) (fst y)) items).
    { apply items_sorted_by_offset. rewrite <- E. apply request_mapping_NoDup. }
    assert (Hlast : forall d x, In x items ->
                                offset_le (fst x) (last (map fst items) d)
                                /\ In (last (map fst items) d) (map fst items)).
    { clear - Hsorted. induction Hsorted as [|a l Hs IH Ha]; intros d x Hx.
      - contradiction.
      - destruct l as [|b l].
        + destruct Hx as [<- | []]. simpl. split; [apply offset_le_refl | now left].
        + change (last (map fst (a :: b :: l)) d)
            with (last (map fst (b :: l)) d).
          destruct (IH d b (or_introl eq_refl)) as [Hb Hin].
          split; [|now right].
          destruct Hx as [<- | Hx].
          * rewrite Forall_forall in Ha.
            eapply offset_le_trans; [|exact Hb].
            apply offset_lt_le. apply Ha. now left.
          * now apply IH. }
    split.
    + destruct (Hlast (fst first) first) as [_ Hin].
      { apply (Permutation_in _ (Permutation_sym Hperm)). now left. }
      apply in_map_iff in Hin. destruct Hin as [[o rs] [Eo Hin]].
      exists rs. simpl in Eo. rewrite <- Eo.
      apply (Permutation_in _ Hperm). exact Hin.
    + intros offset requests Hin.
      apply (Permutation_in _ (Permutation_sym Hperm)) in Hin.
      apply (Hlast (fst first) (offset, requests) Hin).
Qed.

(** What [to_osc_bundles] returns: the bundles of the request mapping in
    ascending offset order, every offset converted by [float], followed
    by the terminal bundle if there is one. *)
Lemma to_osc_bundles_result :
  forall self timespan bundles,
    rendered self timespan = Ok bundles ->
    exists final,
      bundles = bundles_of (request_mapping_of (masked self timespan))
                ++ terminal_of final timespan
      /\ converted_items (request_mapping_of (masked self timespan))
      /\ _process_terminal_event final timespan
         = Ok (terminal_of final timespan)
      /\ (exists requests,
             In (final, requests) (request_mapping_of (masked self timespan)))
      /\ (forall offset requests,
             In (offset, requests) (request_mapping_of (masked self timespan)) ->
             offset_le offset final).
Proof.
  intros self timespan bundles Hok.
  destruct (all_emissions (masked self timespan)) as [|e l] eqn:E.
  { rewrite (to_osc_bundles_empty self timespan E) in Hok. discriminate. }
  assert (Hne : all_emissions (masked self timespan) <> [])
    by (rewrite E; discriminate).
  destruct (to_osc_bundles_nonempty self timespan Hne)
    as (final & Heq & Hin & Hmax).
  rewrite Heq in Hok. exists final.
  destruct (for_each _ _ []) as [scheduled|e'] eqn:Hs; simpl in Hok;
    [|discriminate].
  destruct (_process_terminal_event final timespan) as [terminal|e'] eqn:Ht;
    simpl in Hok; [|discriminate].
  inversion Hok; subst. clear Hok.
  apply collect_bundles in Hs. destruct Hs as [-> Hconv].
  pose proof (terminal_event_Ok _ _ Ht) as ->.
  split; [reflexivity|]. split.
  { unfold converted_items in *. rewrite Forall_forall in *.
    intros item Hitem. apply Hconv. unfold sorted_with. now apply sorted_In. }
  split; [reflexivity|]. split; [exact Hin | exact Hmax].
Qed.

(** [to_osc_bundles] returns whenever a request is scheduled and [float]
    converts every offset of the request mapping and the stop offset of
    the range. *)
Lemma to_osc_bundles_returns :
  forall self timespan,
    all_emissions (masked self timespan) <> [] ->
    converted_items (request_mapping_of (masked self timespan)) ->
    (forall range, timespan = Some range ->
                   exists t, float (timespan_stop_offset range) = Ok t) ->
    exists bundles, rendered self timespan = Ok bundles.
Proof.
  intros self timespan Hne Hconv Hstop.
  destruct (to_osc_bundles_nonempty self timespan Hne) as (final & Heq & _).
  rewrite Heq. rewrite collect_bundles_converted.
  - destruct (terminal_event_returns final Hstop) as [terminal Ht].
    rewrite Ht. cbn [bind]. eauto.
  - unfold converted_items in *. rewrite Forall_forall in *.
    intros item Hitem. apply Hconv. unfold sorted_with in Hitem.
    now apply sorted_In in Hitem.
Qed.

(** When a request is scheduled, [to_osc_bundles] raises nothing but the
    [OverflowError] of [float]. *)
Lemma to_osc_bundles_raises :
  forall self timespan exception,
    all_emissions (masked self timespan) <> [] ->
    rendered self timespan = Raise exception ->
    exception = "OverflowError"%string.
Proof.
  intros self timespan e Hne H.
  destruct (to_osc_bundles_nonempty self timespan Hne) as (final & Heq & _).
  rewrite Heq in H.
  destruct (for_each _ _ []) as [scheduled|e'] eqn:Hs; simpl in H.
  - destruct (_process_terminal_event final timespan) as [terminal|e''] eqn:Ht;
      simpl in H; [discriminate|].
    inversion H; subst. eapply terminal_event_raises. exact Ht.
  - inversion H; subst. eapply collect_bundles_raises. exact Hs.
Qed.

Lemma to_datagram_empty :
  forall self timespan,
    all_emissions (masked self timespan) = [] ->
    datagram_of self timespan = Raise "ValueError".
Proof.
  intros self timespan H. unfold datagram_of, to_datagram.
  fold rendered. now rewrite to_osc_bundles_empty.
Qed.

End RenderingResult.

(** The timestamps of the bundles ascend: [float] keeps the order of
    the offsets, and may give two of them one timestamp. *)
Lemma bundles_of_sorted :
  forall (request_mapping : Dict Offset (list Request)),
    NoDup (dict_keys request_mapping) ->
    converted_items request_mapping ->
    StronglySorted
      (fun a b => Timestamp_leb (timestamp a) (timestamp b) = true)
      (bundles_of request_mapping).
Proof.
  intros rm Hnd Hconv. unfold bundles_of. apply StronglySorted_map.
  cbn [timestamp bundle_of].
  eapply StronglySorted_weaken; [|apply items_sorted_by_offset; exact Hnd].
  intros x y Hx Hy Hlt. cbv beta in Hlt.
  unfold converted_items in Hconv. rewrite Forall_forall in Hconv.
  unfold sorted_with in Hx, Hy. apply sorted_In in Hx. apply sorted_In in Hy.
  eapply float_monotone;
    [apply offset_lt_le; exact Hlt | now apply Hconv | now apply Hconv].
Qed.

Lemma bundles_of_In_iff :
  forall request_mapping bundle,
    In bundle (bundles_of request_mapping)
    <-> exists offset requests,
        In (offset, requests) request_mapping
        /\ bundle = bundle_of offset requests.
Proof.
  intros rm bundle. split; [apply bundles_of_In|].
  intros (o & rs & Hin & ->). unfold bundles_of.
  apply in_map_iff. exists (o, rs). split; [reflexivity|].
  unfold sorted_with. now apply sorted_In.
Qed.

(** C9, as the specification states it, fails on the session that was
    just created: it has no synth and no bus, so it yields no request at
    all, and rendering it does not raise [EmptySessionError]: the bundle
    producing operation raises [ValueError]. *)
Lemma empty_session_error_is_ValueError :
  all_emissions (set_iteration := list_order) Session_new = []
  /\ to_osc_bundles_plain Session_new <> Raise "EmptySessionError"
  /\ to_osc_bundles_plain Session_new = Raise "ValueError".
Proof.
  split; [reflexivity|]. split; [discriminate | reflexivity].
Qed.

(** C9, amended: a session, restricted to the render range, yields no
    request at all exactly when it has no synth and none of its control
    buses has a value change.  Rendering such a session fails with
    [ValueError], raised by the bundle producing operation before any
    bundle or byte is produced.  When at least one request is scheduled
    the operation never raises [ValueError]: it raises nothing but the
    [OverflowError] of [float], whatever it returns holds at least one
    bundle, and it returns when [float] converts every offset that has
    a request and the stop offset of the range. *)
Theorem empty_session_raises_ValueError :
  forall (set_iteration : SetIteration)
         (inventory_timespan : list Synth -> Timespan)
         (inventory_and : list Synth -> Timespan -> list Synth)
         (inventory_translate : list Synth -> Offset -> list Synth)
         (offset_sub : Offset -> Offset -> Offset)
         (OscBundle_to_datagram : OscBundle -> list Byte.byte)
         (self : Session) (timespan : option Timespan),
    let session :=
      _process_timespan_mask inventory_timespan inventory_and
                             inventory_translate offset_sub self timespan in
    let rendered :=
      to_osc_bundles inventory_timespan inventory_and inventory_translate
                     offset_sub self timespan in
    (all_emissions session = []
     <-> _synths session = []
         /\ Forall (fun bus => calculation_rate bus = CONTROL -> bus_events bus = [])
                   (_buses session))
    /\ (all_emissions session = [] ->
        rendered = Raise "ValueError"
        /\ to_datagram inventory_timespan inventory_and inventory_translate
                       offset_sub OscBundle_to_datagram self timespan
           = Raise "ValueError")
    /\ (all_emissions session <> [] ->
        rendered <> Raise "ValueError"
        /\ (forall exception,
               rendered = Raise exception ->
               exception = "OverflowError"%string)
        /\ (forall bundles, rendered = Ok bundles -> bundles <> [])
        /\ ((forall offset,
                In offset (map fst (all_emissions session)) ->
                exists timestamp, float offset = Ok timestamp) ->
            (forall range,
                timespan = Some range ->
                exists timestamp,
                  float (timespan_stop_offset range) = Ok timestamp) ->
            exists bundles, rendered = Ok bundles /\ bundles <> [])).
Proof.
  intros si it ia itr os enc self timespan session rendered.
  assert (Hsome : forall bundles, all_emissions session <> [] ->
                                  rendered = Ok bundles -> bundles <> []).
  { intros bundles H Hok.
    destruct (to_osc_bundles_result it ia itr os self timespan Hok)
      as (final & -> & _ & _ & [rs Hin] & _).
    intros E. apply app_eq_nil in E. destruct E as [E _].
    assert (Hb : In (bundle_of final rs)
                    (bundles_of (request_mapping_of session))).
    { apply bundles_of_In_iff. eauto. }
    unfold session in Hb. rewrite E in Hb. contradiction. }
  split; [apply all_emissions_empty|]. split.
  - intros H. split.
    + now apply to_osc_bundles_empty.
    + now apply to_datagram_empty.
  - intros H. split; [|split; [|split]].
    + intros E.
      pose proof (to_osc_bundles_raises it ia itr os self timespan H E).
      discriminate.
    + intros e E. exact (to_osc_bundles_raises it ia itr os self timespan H E).
    + intros bundles Hok. now apply Hsome.
    + intros Hconv Hstop.
      destruct (@to_osc_bundles_returns it ia itr os si self timespan H)
        as [bundles Hok].
      * unfold converted_items. rewrite Forall_forall. intros [o rs] Hin.
        cbn [fst].
        destruct (Hconv o) as [t Ht].
        { apply request_mapping_keys. unfold dict_keys.
          apply (in_map fst) in Hin. exact Hin. }
        now rewrite (float_timestamp_of _ Ht).
      * exact Hstop.
      * exists bundles. split; [exact Hok | now apply Hsome].
Qed.

(** ** The datagram *)

Lemma byte_of_Z_value :
  forall z, Z.of_N (Byte.to_N (byte_of_Z z)) = (z mod 256)%Z.
Proof.
  intros z. unfold byte_of_Z.
  change 255%Z with (Z.ones 8). rewrite Z.land_ones by lia.
  change (2 ^ 8)%Z with 256%Z.
  assert (Hrange : (0 <= z mod 256 < 256)%Z) by (apply Z.mod_pos_bound; lia).
  destruct (Byte.of_N (Z.to_N (z mod 256))) as [b|] eqn:E.
  - apply Byte.to_of_N in E. rewrite E. lia.
  - apply Byte.of_N_None_iff in E. lia.
Qed.

Lemma big_endian_length_prefix :
  forall n,
    (Z.of_nat n < 2 ^ 32)%Z -> big_endian (length_prefix n) = Z.of_nat n.
Proof.
  intros n Hn. unfold big_endian, length_prefix.
  cbv beta iota delta [fold_left].
  rewrite !byte_of_Z_value, !Z.shiftr_div_pow2 by lia.
  change (2 ^ 32)%Z with 4294967296%Z in Hn.
  change (2 ^ 24)%Z with 16777216%Z.
  change (2 ^ 16)%Z with 65536%Z.
  change (2 ^ 8)%Z with 256%Z.
  pose proof (Zle_0_nat n) as Hpos.
  generalize dependent (Z.of_nat n). intros z Hz Hpos.
  Z.to_euclidean_division_equations. lia.
Qed.

Lemma struct_pack_i_length_prefix :
  forall n,
    (Z.of_nat n < 2 ^ 31)%Z ->
    struct_pack_i (Z.of_nat n) = Ok (length_prefix n).
Proof.
  intros n Hn. unfold struct_pack_i.
  assert (H1 : (- 2 ^ 31 <=? Z.of_nat n)%Z = true) by (apply Z.leb_le; lia).
  assert (H2 : (Z.of_nat n <? 2 ^ 31)%Z = true) by now apply Z.ltb_lt.
  rewrite H1, H2. reflexivity.
Qed.

Lemma struct_pack_i_Ok :
  forall n packed,
    struct_pack_i (Z.of_nat n) = Ok packed ->
    (Z.of_nat n < 2 ^ 31)%Z /\ packed = length_prefix n.
Proof.
  intros n packed H. unfold struct_pack_i in H.
  destruct ((- 2 ^ 31 <=? Z.of_nat n)%Z && (Z.of_nat n <? 2 ^ 31)%Z) eqn:E;
    [|discriminate].
  apply andb_true_iff in E. destruct E as [_ E]. apply Z.ltb_lt in E.
  split; [exact E|]. now inversion H.
Qed.

Section DatagramFacts.
Variable encode : OscBundle -> list Byte.byte.

Let pack_step (datagrams : list (list Byte.byte)) (osc_bundle : OscBundle)
  : Result (list (list Byte.byte)) :=
  let datagram := encode osc_bundle in
  let size := Z.of_nat (List.length datagram) in
  size <- struct_pack_i size ;;
  Ok (datagrams ++ [size; datagram]).

Lemma pack_all_Ok :
  forall bundles acc datagrams,
    for_each pack_step bundles acc = Ok datagrams ->
    Forall (fun b => (Z.of_nat (List.length (encode b)) < 2 ^ 31)%Z) bundles
    /\ List.concat datagrams
       = List.concat acc ++ flat_map (datagram_record encode) bundles.
Proof.
  induction bundles as [|b bundles IH]; intros acc datagrams H; simpl in H.
  - inversion H; subst. split; [constructor | now rewrite app_nil_r].
  - unfold pack_step at 1 in H.
    destruct (struct_pack_i (Z.of_nat (List.length (encode b))))
      as [packed|e] eqn:E; simpl in H; [|discriminate].
    apply struct_pack_i_Ok in E. destruct E as [Hlt ->].
    apply IH in H. destruct H as [Hall Hcat].
    split; [now constructor|].
    rewrite Hcat, concat_app. simpl. rewrite app_nil_r, <- app_assoc.
    reflexivity.
Qed.

Lemma pack_all_total :
  forall bundles acc,
    Forall (fun b => (Z.of_nat (List.length (encode b)) < 2 ^ 31)%Z) bundles ->
    exists datagrams,
      for_each pack_step bundles acc = Ok datagrams
      /\ List.concat datagrams
         = List.concat acc ++ flat_map (datagram_record encode) bundles.
Proof.
  induction bundles as [|b bundles IH]; intros acc H; simpl.
  - exists acc. split; [reflexivity | now rewrite app_nil_r].
  - inversion H as [|? ? Hb Hrest]; subst.
    unfold pack_step at 1. rewrite struct_pack_i_length_prefix by exact Hb.
    simpl.
    destruct (IH (acc ++ [length_prefix (List.length (encode b)); encode b]) Hrest)
      as [datagrams [Hok Hcat]].
    exists datagrams. split; [exact Hok|].
    rewrite Hcat, concat_app. simpl. rewrite app_nil_r, <- app_assoc.
    reflexivity.
Qed.

End DatagramFacts.

Lemma process_requests_timestamp :
  forall offset requests,
    timestamp (bundle_of offset requests) = timestamp_of offset.
Proof. reflexivity. Qed.

Lemma rendered_bundles_ascending :
  forall (request_mapping : Dict Offset (list Request)) final timespan,
    NoDup (dict_keys request_mapping) ->
    converted_items request_mapping ->
    _process_terminal_event final timespan = Ok (terminal_of final timespan) ->
    (forall offset requests,
        In (offset, requests) request_mapping -> offset_le offset final) ->
    StronglySorted
      (fun a b => Timestamp_leb (timestamp a) (timestamp b) = true)
      (bundles_of request_mapping ++ terminal_of final timespan).
Proof.
  intros rm final timespan Hnd Hconv Hterm Hfinal.
  apply StronglySorted_app.
  - now apply bundles_of_sorted.
  - destruct timespan as [timespan|]; simpl; [|constructor].
    destruct (not_in_prototype (timespan_stop_offset timespan)
              && offset_ltb final (timespan_stop_offset timespan));
      repeat constructor.
  - intros a b Ha Hb. apply bundles_of_In in Ha.
    destruct Ha as (o & rs & Hin & ->). rewrite process_requests_timestamp.
    destruct (@terminal_event_timestamp final timespan b Hterm Hb)
      as (range & _ & Hstop & Hlt).
    unfold converted_items in Hconv. rewrite Forall_forall in Hconv.
    eapply float_monotone; [|exact (Hconv _ Hin) | exact Hstop].
    apply offset_lt_le.
    eapply offset_le_lt_trans; [|exact Hlt]. eapply Hfinal. exact Hin.
Qed.

(** The bundles of a rendering stand at the positions of the offsets
    they are made for. *)
Lemma scheduled_offsets_sorted :
  forall {set_iteration : SetIteration} session,
    StronglySorted offset_lt (scheduled_offsets session).
Proof.
  intros si session. unfold scheduled_offsets. apply StronglySorted_map.
  apply items_sorted_by_offset, request_mapping_NoDup.
Qed.

Lemma scheduled_offsets_In :
  forall {set_iteration : SetIteration} session offset,
    In offset (scheduled_offsets session)
    <-> In offset (map fst (all_emissions session)).
Proof.
  intros si session o. unfold scheduled_offsets, sorted_with. split.
  - intros H. apply in_map_iff in H. destruct H as [[o' rs] [<- H]].
    apply sorted_In in H. apply request_mapping_keys. unfold dict_keys.
    apply (in_map fst) in H. exact H.
  - intros H. apply request_mapping_has in H.
    apply in_map_iff. exists (o, requests_at session o).
    split; [reflexivity | now apply sorted_In].
Qed.

Lemma scheduled_offsets_position :
  forall {set_iteration : SetIteration} session position other offset,
    nth_error (scheduled_offsets session) position = Some offset ->
    nth_error (scheduled_offsets session) other = Some offset ->
    other = position.
Proof.
  intros si session i j o Hi Hj.
  pose proof (scheduled_offsets_sorted session) as Hs.
  destruct (Nat.lt_trichotomy i j) as [H | [H | H]]; [|now subst|].
  - pose proof (StronglySorted_nth_error Hs H Hi Hj) as Hlt.
    exfalso. exact (@offset_lt_irrefl _ Hlt).
  - pose proof (StronglySorted_nth_error Hs H Hj Hi) as Hlt.
    exfalso. exact (@offset_lt_irrefl _ Hlt).
Qed.

Lemma bundles_of_position :
  forall {set_iteration : SetIteration} session position,
    nth_error (bundles_of (request_mapping_of session)) position
    = option_map (fun offset => bundle_of offset (requests_at session offset))
                 (nth_error (scheduled_offsets session) position).
Proof.
  intros si session i. unfold bundles_of, scheduled_offsets.
  rewrite !nth_error_map.
  destruct (nth_error (sorted_with _ (request_mapping_of session)) i)
    as [[o rs]|] eqn:E; [|reflexivity].
  cbn [option_map fst snd]. apply nth_error_In in E.
  unfold sorted_with in E. apply sorted_In in E.
  now rewrite (request_mapping_In _ _ _ E).
Qed.

(** C8: the datagram of a session is the concatenation of one record per
    bundle, in the order of the bundles, whose timestamps ascend; each
    record is a prefix of four bytes that reads, most significant byte
    first, as the length of the bundle's wire encoding, followed by that
    encoding.  The bundles are made for the offsets that have a request,
    in strictly ascending order, and the terminal bundle follows them;
    their timestamps are these offsets rounded by [float], so that two
    bundles that follow each other may carry one timestamp.  The datagram
    is produced whenever the bundles are and every encoding is shorter
    than 2^31 bytes. *)
Theorem datagram_is_sized_bundles_in_timestamp_order :
  forall (set_iteration : SetIteration)
         (inventory_timespan : list Synth -> Timespan)
         (inventory_and : list Synth -> Timespan -> list Synth)
         (inventory_translate : list Synth -> Offset -> list Synth)
         (offset_sub : Offset -> Offset -> Offset)
         (OscBundle_to_datagram : OscBundle -> list Byte.byte)
         (self : Session) (timespan : option Timespan),
    let session :=
      _process_timespan_mask inventory_timespan inventory_and
                             inventory_translate offset_sub self timespan in
    (forall datagram,
        to_datagram inventory_timespan inventory_and inventory_translate
                    offset_sub OscBundle_to_datagram self timespan
        = Ok datagram ->
        exists bundles,
          to_osc_bundles inventory_timespan inventory_and inventory_translate
                         offset_sub self timespan = Ok bundles
          /\ datagram = flat_map (datagram_record OscBundle_to_datagram) bundles
          /\ StronglySorted
               (fun a b => Timestamp_leb (timestamp a) (timestamp b) = true)
               bundles
          /\ StronglySorted offset_lt (scheduled_offsets session)
          /\ (forall position offset,
                 nth_error (scheduled_offsets session) position = Some offset ->
                 exists bundle,
                   nth_error bundles position = Some bundle
                   /\ float offset = Ok (timestamp bundle))
          /\ Forall
               (fun bundle =>
                  let size := List.length (OscBundle_to_datagram bundle) in
                  List.length (length_prefix size) = 4
                  /\ big_endian (length_prefix size) = Z.of_nat size)
               bundles)
    /\ (forall bundles,
           to_osc_bundles inventory_timespan inventory_and inventory_translate
                          offset_sub self timespan = Ok bundles ->
           Forall (fun bundle =>
                     (Z.of_nat (List.length (OscBundle_to_datagram bundle))
                      < 2 ^ 31)%Z) bundles ->
           to_datagram inventory_timespan inventory_and inventory_translate
                       offset_sub OscBundle_to_datagram self timespan
           = Ok (flat_map (datagram_record OscBundle_to_datagram) bundles)).
Proof.
  intros si it ia itr os enc self timespan session. split.
  - intros datagram H. unfold to_datagram in H.
    destruct (to_osc_bundles it ia itr os self timespan) as [bundles|e] eqn:Hb;
      simpl in H; [|discriminate].
    exists bundles. split; [reflexivity|].
    destruct (for_each _ bundles []) as [datagrams|e] eqn:Hp; simpl in H;
      [|discriminate].
    inversion H; subst. apply pack_all_Ok in Hp. destruct Hp as [Hall Hcat].
    split; [exact Hcat|].
    destruct (to_osc_bundles_result it ia itr os self timespan Hb)
      as (final & -> & Hconv & Hterm & _ & Hfinal).
    fold session in Hconv, Hfinal |- *.
    split; [|split; [|split]].
    + apply rendered_bundles_ascending; try assumption.
      apply request_mapping_NoDup.
    + apply scheduled_offsets_sorted.
    + intros position offset Hpos.
      exists (bundle_of offset (requests_at session offset)). split.
      * rewrite nth_error_app1.
        -- rewrite bundles_of_position, Hpos. reflexivity.
        -- unfold bundles_of. rewrite length_map.
           assert (Hlt : position < List.length (scheduled_offsets session))
             by (apply nth_error_Some; rewrite Hpos; discriminate).
           unfold scheduled_offsets in Hlt. now rewrite length_map in Hlt.
      * cbn [timestamp bundle_of].
        unfold converted_items in Hconv. rewrite Forall_forall in Hconv.
        apply (Hconv (offset, requests_at session offset)).
        apply request_mapping_has. apply scheduled_offsets_In.
        eapply nth_error_In. exact Hpos.
    + rewrite Forall_forall in *. intros b Hin. specialize (Hall b Hin).
      split; [reflexivity|].
      apply big_endian_length_prefix.
      eapply Z.lt_trans; [exact Hall | reflexivity].
  - intros bundles Hb Hall. unfold to_datagram. rewrite Hb.
    destruct (pack_all_total enc [] Hall) as [datagrams [Hok Hcat]].
    unfold bind at 1. cbv beta iota zeta. cbv zeta in Hok.
    rewrite Hok. simpl. now rewrite Hcat.
Qed.

(** ** The requests of one offset *)

Lemma emitted_at_flat_map :
  forall (A : Type) (g : A -> list (Offset * list Request)) (l : list A) o,
    emitted_at offset_eqb (flat_map g l) o
    = flat_map (fun x => emitted_at offset_eqb (g x) o) l.
Proof.
  intros A g l o. induction l as [|x l IH]; simpl; [reflexivity|].
  now rewrite emitted_at_app, IH.
Qed.

Lemma emitted_at_map_singleton :
  forall (A : Type) (key : A -> Offset) (item : A -> Request) (l : list A) o,
    emitted_at offset_eqb (map (fun x => (key x, [item x])) l) o
    = map item (filter (fun x => offset_eqb (key x) o) l).
Proof.
  intros A key item l o. unfold emitted_at.
  induction l as [|x l IH]; simpl; [reflexivity|].
  destruct (offset_eqb (key x) o); simpl; now rewrite IH.
Qed.

Lemma filter_flat_map :
  forall (A B : Type) (p : B -> bool) (g : A -> list B) (l : list A),
    filter p (flat_map g l) = flat_map (fun x => filter p (g x)) l.
Proof.
  induction l as [|x l IH]; simpl; [reflexivity|].
  now rewrite filter_app, IH.
Qed.

Lemma filter_none :
  forall (A : Type) (p : A -> bool) (l : list A),
    (forall x, In x l -> p x = false) -> filter p l = [].
Proof.
  induction l as [|x l IH]; intros H; simpl; [reflexivity|].
  rewrite (H x (or_introl eq_refl)). apply IH. intros y Hy. apply H. now right.
Qed.

Lemma filter_all :
  forall (A : Type) (p : A -> bool) (l : list A),
    (forall x, In x l -> p x = true) -> filter p l = l.
Proof.
  induction l as [|x l IH]; intros H; simpl; [reflexivity|].
  rewrite (H x (or_introl eq_refl)). f_equal. apply IH.
  intros y Hy. apply H. now right.
Qed.

Lemma synth_requests_emitted :
  forall node_id s o,
    emitted_at offset_eqb (synth_requests node_id s) o
    = (if offset_eqb (start_offset s) o
       then [SynthNewRequest (synthdef s) node_id (add_action s) 0
                             (synth_kwargs s)]
       else [])
      ++ map (fun event => NodeSetRequest node_id [snd event])
             (filter (fun event => offset_eqb (fst event) o) (synth_events s))
      ++ (if offset_eqb (stop_offset s) o
          then [NodeFreeRequest [node_id]] else []).
Proof.
  intros node_id s o.
  assert (E : synth_requests node_id s
              = emit_all offset_eqb
                  ((start_offset s,
                    [SynthNewRequest (synthdef s) node_id (add_action s) 0
                                     (synth_kwargs s)])
                   :: map (fun event =>
                             (fst event, [NodeSetRequest node_id [snd event]]))
                          (synth_events s)
                   ++ [(stop_offset s, [NodeFreeRequest [node_id]])]) []).
  { unfold synth_requests.
    rewrite (emit_all_map offset_eqb (@fst Offset (string * Q))
               (fun event => [NodeSetRequest node_id [snd event]])).
    change (emit_all offset_eqb (?a :: ?l ++ [?b]) [])
      with (emit_all offset_eqb (l ++ [b]) (dict_extend offset_eqb [] (fst a) (snd a))).
    rewrite emit_all_app. reflexivity. }
  rewrite (emitted_at_dict offset_eqb offset_eqb_eq).
  - rewrite E, (emit_all_get_list offset_eqb offset_eqb_eq). simpl.
    rewrite emitted_at_app.
    rewrite (emitted_at_map_singleton (@fst Offset (string * Q))
               (fun event => NodeSetRequest node_id [snd event])).
    simpl. rewrite app_nil_r. reflexivity.
  - rewrite E. apply (emit_all_NoDup offset_eqb offset_eqb_eq). constructor.
Qed.

(** The requests of an offset: the control-bus-set request, then the
    definition-receive request, then the requests of the synths. *)
Lemma requests_at_parts {set_iteration : SetIteration} :
  forall session o,
    requests_at session o
    = emitted_at offset_eqb (bus_emissions session (id_mapping_of session)) o
      ++ emitted_at offset_eqb (synthdef_emissions session) o
      ++ flat_map
           (fun x =>
              emitted_at offset_eqb
                (synth_requests (node_id_of (id_mapping_of session) (fst x))
                                (snd x)) o)
           (request_order session (id_mapping_of session)).
Proof.
  intros session o. unfold requests_at, all_emissions.
  rewrite !emitted_at_app. unfold synth_emissions.
  now rewrite emitted_at_flat_map.
Qed.

Lemma bus_emissions_types :
  forall session id_mapping o r,
    In r (emitted_at offset_eqb (bus_emissions session id_mapping) o) ->
    exists pairs, r = ControlBusSetRequest pairs.
Proof.
  intros session idm o r H.
  apply (emitted_at_In offset_eqb offset_eqb_eq) in H.
  destruct H as [xs [Hin Hr]]. unfold bus_emissions in Hin.
  apply in_map_iff in Hin. destruct Hin as [item [E _]].
  inversion E; subst. destruct Hr as [<- | []]. eauto.
Qed.

Lemma synthdef_emissions_types {set_iteration : SetIteration} :
  forall session o r,
    In r (emitted_at offset_eqb (synthdef_emissions session) o) ->
    exists sds, r = SynthDefReceiveRequest sds.
Proof.
  intros session o r H.
  apply (emitted_at_In offset_eqb offset_eqb_eq) in H.
  destruct H as [xs [Hin Hr]]. unfold synthdef_emissions in Hin.
  apply in_map_iff in Hin. destruct Hin as [item [E _]].
  inversion E; subst. destruct Hr as [<- | []]. eauto.
Qed.

Lemma flat_map_if :
  forall (A B : Type) (p : A -> bool) (f : A -> B) (l : list A),
    flat_map (fun x => if p x then [f x] else []) l = map f (filter p l).
Proof.
  induction l as [|x l IH]; simpl; [reflexivity|].
  destruct (p x); simpl; now rewrite IH.
Qed.

Lemma node_free_requests_at {set_iteration : SetIteration} :
  forall session o,
    filter (has_type NodeFreeRequestType) (requests_at session o)
    = map (fun x => NodeFreeRequest [node_id_of (id_mapping_of session) (fst x)])
          (stopping_at session o).
Proof.
  intros session o. rewrite requests_at_parts, !filter_app.
  rewrite filter_none.
  2:{ intros r Hr. apply bus_emissions_types in Hr.
      destruct Hr as [pairs ->]. reflexivity. }
  rewrite filter_none.
  2:{ intros r Hr. apply synthdef_emissions_types in Hr.
      destruct Hr as [sds ->]. reflexivity. }
  simpl. rewrite filter_flat_map. unfold stopping_at.
  rewrite <- flat_map_if. apply flat_map_ext. intros [h s]. simpl.
  rewrite synth_requests_emitted, !filter_app.
  rewrite filter_none.
  2:{ intros r Hr. destruct (offset_eqb (start_offset s) o); [|contradiction].
      destruct Hr as [<- | []]. reflexivity. }
  rewrite filter_none.
  2:{ intros r Hr. apply in_map_iff in Hr. destruct Hr as [ev [<- _]].
      reflexivity. }
  simpl. destruct (offset_eqb (stop_offset s) o); reflexivity.
Qed.

Lemma StronglySorted_unique :
  forall (A : Type) (R : A -> A -> Prop) (l : list A) a b,
    StronglySorted R l -> In a l -> In b l ->
    ~ R a b -> ~ R b a -> a = b.
Proof.
  intros A R l a b Hs Ha Hb Hab Hba.
  apply In_nth_error in Ha. destruct Ha as [p Hp].
  apply In_nth_error in Hb. destruct Hb as [q Hq].
  destruct (Nat.lt_trichotomy p q) as [H | [H | H]].
  - exfalso. apply Hab. eapply StronglySorted_nth_error; eassumption.
  - subst. rewrite Hp in Hq. now inversion Hq.
  - exfalso. apply Hba. eapply StronglySorted_nth_error; eassumption.
Qed.

Section BundleAtOffset.
Variable inventory_timespan : list Synth -> Timespan.
Variable inventory_and : list Synth -> Timespan -> list Synth.
Variable inventory_translate : list Synth -> Offset -> list Synth.
Variable offset_sub : Offset -> Offset -> Offset.
Context {set_iteration : SetIteration}.

Let masked :=
  _process_timespan_mask inventory_timespan inventory_and
                         inventory_translate offset_sub.
Let rendered :=
  to_osc_bundles inventory_timespan inventory_and
                 inventory_translate offset_sub.

(** The bundles of a rendering: one per offset of the request mapping,
    at the position of the offset in ascending order, holding the
    requests of that offset, and possibly the terminal bundle. *)
Lemma rendered_bundles :
  forall self timespan bundles,
    rendered self timespan = Ok bundles ->
    (forall position offset,
        nth_error (scheduled_offsets (masked self timespan)) position
        = Some offset ->
        exists bundle,
          nth_error bundles position = Some bundle
          /\ float offset = Ok (timestamp bundle)
          /\ bundle = bundle_of offset
                                (requests_at (masked self timespan) offset))
    /\ (forall bundle,
           In bundle bundles ->
           (exists offset,
               In offset (map fst (all_emissions (masked self timespan)))
               /\ float offset = Ok (timestamp bundle)
               /\ bundle = bundle_of offset
                                     (requests_at (masked self timespan) offset))
           \/ contents bundle = [OscMessage_of_address 0]).
Proof.
  intros self timespan bundles Hok.
  destruct (to_osc_bundles_result inventory_timespan inventory_and
              inventory_translate offset_sub self timespan Hok)
    as (final & -> & Hconv & Hterm & _ & Hfinal).
  fold masked in Hconv, Hfinal |- *.
  unfold converted_items in Hconv. rewrite Forall_forall in Hconv.
  split.
  - intros position offset Hpos.
    exists (bundle_of offset (requests_at (masked self timespan) offset)).
    split; [|split; [|reflexivity]].
    + rewrite nth_error_app1.
      * rewrite bundles_of_position, Hpos. reflexivity.
      * unfold bundles_of. rewrite length_map.
        assert (Hlt : position
                      < List.length (scheduled_offsets (masked self timespan)))
          by (apply nth_error_Some; rewrite Hpos; discriminate).
        unfold scheduled_offsets in Hlt. now rewrite length_map in Hlt.
    + cbn [timestamp bundle_of].
      apply (Hconv (offset, requests_at (masked self timespan) offset)).
      apply request_mapping_has. apply scheduled_offsets_In.
      eapply nth_error_In. exact Hpos.
  - intros bundle Hin. apply in_app_iff in Hin. destruct Hin as [Hin | Hin].
    + left. apply bundles_of_In in Hin. destruct Hin as (o & rs & Hin & ->).
      exists o. rewrite (request_mapping_In _ _ _ Hin).
      split; [|split; [|reflexivity]].
      * apply request_mapping_keys. unfold dict_keys.
        apply (in_map fst) in Hin. exact Hin.
      * cbn [timestamp bundle_of]. exact (Hconv _ Hin).
    + right. eapply terminal_event_contents. exact Hin.
Qed.

(** The bundle of an offset that has a request. *)
Lemma bundle_at_offset :
  forall self timespan bundles offset,
    rendered self timespan = Ok bundles ->
    In offset (map fst (all_emissions (masked self timespan))) ->
    exists position bundle,
      nth_error (scheduled_offsets (masked self timespan)) position
      = Some offset
      /\ (forall other,
             nth_error (scheduled_offsets (masked self timespan)) other
             = Some offset ->
             other = position)
      /\ nth_error bundles position = Some bundle
      /\ float offset = Ok (timestamp bundle)
      /\ bundle = bundle_of offset (requests_at (masked self timespan) offset).
Proof.
  intros self timespan bundles offset Hok Hin.
  apply scheduled_offsets_In in Hin. apply In_nth_error in Hin.
  destruct Hin as [position Hpos].
  destruct (rendered_bundles self timespan Hok) as [Hat _].
  destruct (Hat position offset Hpos) as (bundle & Hb & Ht & E).
  exists position, bundle. split; [exact Hpos|]. split.
  - intros other Hother.
    exact (@scheduled_offsets_position _ _ position other offset Hpos Hother).
  - auto.
Qed.

End BundleAtOffset.

(** ** Node-free commands *)

Lemma requests_at_key {set_iteration : SetIteration} :
  forall session o,
    requests_at session o <> [] ->
    In o (map fst (all_emissions session)).
Proof.
  intros session o H. unfold requests_at in H.
  destruct (emitted_at offset_eqb (all_emissions session) o) as [|r l] eqn:E;
    [contradiction|].
  assert (Hin : In r (emitted_at offset_eqb (all_emissions session) o))
    by (rewrite E; now left).
  apply (emitted_at_In offset_eqb offset_eqb_eq) in Hin.
  destruct Hin as [xs [Hin _]]. apply (in_map fst) in Hin. exact Hin.
Qed.

Lemma request_order_perm :
  forall session id_mapping,
    Permutation (request_order session id_mapping)
                (enumerate 0 (_synths session)).
Proof.
  intros session idm. unfold request_order, sorted_with.
  eapply perm_trans; [apply Permutation_map, sorted_perm|].
  rewrite map_map. simpl. rewrite map_id. apply Permutation_refl.
Qed.

Lemma filter_perm :
  forall (A : Type) (p : A -> bool) (l1 l2 : list A),
    Permutation l1 l2 -> Permutation (filter p l1) (filter p l2).
Proof.
  intros A p l1 l2 H. induction H; simpl.
  - constructor.
  - destruct (p x); [now constructor | assumption].
  - destruct (p x), (p y); try apply Permutation_refl. apply perm_swap.
  - eapply perm_trans; eassumption.
Qed.

Lemma filter_enumerate_length :
  forall (A : Type) (p : A -> bool) (l : list A) (start : nat),
    List.length (filter (fun x => p (snd x)) (enumerate start l))
    = List.length (filter p l).
Proof.
  induction l as [|x l IH]; intros start; simpl; [reflexivity|].
  destruct (p x); simpl; now rewrite IH.
Qed.

Lemma node_free_in_chunks :
  forall requests,
    filter is_node_free
      (flat_map (fun t => map to_osc_message (filter (has_type t) requests))
                _prioritized_request_types) = [].
Proof.
  intros requests. apply filter_none. intros m Hm.
  apply in_flat_map in Hm. destruct Hm as [t [Ht Hm]].
  apply in_map_iff in Hm. destruct Hm as [r [<- Hr]].
  apply filter_In in Hr. destruct Hr as [_ Hr].
  unfold has_type in Hr. apply RequestType_eqb_eq in Hr.
  destruct r; try reflexivity. simpl in Hr. subst t.
  unfold _prioritized_request_types in Ht. simpl in Ht.
  repeat (destruct Ht as [Ht | Ht]; [discriminate|]). contradiction.
Qed.

Lemma process_requests_node_free :
  forall offset requests,
    filter is_node_free (contents (bundle_of offset requests))
    = match filter (has_type NodeFreeRequestType) requests with
      | [] => []
      | frees =>
          [to_osc_message (NodeFreeRequest (flat_map request_node_ids frees))]
      end.
Proof.
  intros offset requests. rewrite process_requests_contents, filter_app.
  rewrite node_free_in_chunks. simpl.
  destruct (filter (has_type NodeFreeRequestType) requests); reflexivity.
Qed.

(** C6: for every offset at which at least one entity stops, the bundle
    of that offset (the bundle at the position of the offset among the
    offsets that have a request, in ascending order; its timestamp is
    the offset converted by [float]) contains exactly one node-free
    command, and the command lists the node identifiers of the entities
    that stop at that offset, each of them once. *)
Theorem node_free_coalesced :
  forall (set_iteration : SetIteration)
         (inventory_timespan : list Synth -> Timespan)
         (inventory_and : list Synth -> Timespan -> list Synth)
         (inventory_translate : list Synth -> Offset -> list Synth)
         (offset_sub : Offset -> Offset -> Offset)
         (self : Session) (timespan : option Timespan)
         (bundles : list OscBundle) (offset : Offset),
    let session :=
      _process_timespan_mask inventory_timespan inventory_and
                             inventory_translate offset_sub self timespan in
    to_osc_bundles inventory_timespan inventory_and inventory_translate
                   offset_sub self timespan = Ok bundles ->
    (exists s, In s (_synths session) /\ stop_offset s = offset) ->
    exists position bundle node_ids,
      nth_error (scheduled_offsets session) position = Some offset
      /\ (forall other,
             nth_error (scheduled_offsets session) other = Some offset ->
             other = position)
      /\ nth_error bundles position = Some bundle
      /\ float offset = Ok (timestamp bundle)
      /\ filter is_node_free (contents bundle)
         = [to_osc_message (NodeFreeRequest node_ids)]
      /\ node_ids
         = map (fun x => node_id_of (id_mapping_of session) (fst x))
               (stopping_at session offset)
      /\ (forall node_id,
             In node_id node_ids
             <-> exists handle s,
                 nth_error (_synths session) handle = Some s
                 /\ stop_offset s = offset
                 /\ dict_get Ref_eqb (_build_synth_id_mapping session)
                             (SynthRef handle) = Some node_id)
      /\ List.length node_ids
         = List.length (filter (fun s => offset_eqb (stop_offset s) offset)
                               (_synths session)).
Proof.
  intros si it ia itr os self timespan bundles offset session Hok [s [Hs Hstop]].
  apply In_nth_error in Hs. destruct Hs as [h Hh].
  assert (Hstopping : In (h, s) (stopping_at session offset)).
  { unfold stopping_at. apply filter_In. split.
    - apply request_order_In, enumerate_In. rewrite Nat.sub_0_r.
      split; [lia | exact Hh].
    - simpl. now apply offset_eqb_eq. }
  pose proof (node_free_requests_at session offset) as Hfree.
  assert (Hkey : In offset (map fst (all_emissions session))).
  { apply requests_at_key. intros E. rewrite E in Hfree. simpl in Hfree.
    destruct (stopping_at session offset); [contradiction | discriminate]. }
  destruct (@bundle_at_offset it ia itr os si self timespan bundles offset
              Hok Hkey)
    as (position & bundle & Hpos & Huniq & Hb & Ht & ->).
  fold session in Hpos, Huniq.
  exists position, (bundle_of offset (requests_at session offset)).
  exists (map (fun x => node_id_of (id_mapping_of session) (fst x))
              (stopping_at session offset)).
  split; [exact Hpos|]. split; [exact Huniq|]. split; [exact Hb|].
  split; [exact Ht|].
  split.
  { rewrite process_requests_node_free, Hfree.
    assert (Hids : forall l' : list (nat * Synth),
               flat_map request_node_ids
                 (map (fun x => NodeFreeRequest
                                  [node_id_of (id_mapping_of session) (fst x)]) l')
               = map (fun x => node_id_of (id_mapping_of session) (fst x)) l').
    { induction l' as [|y l' IH]; simpl; [reflexivity | now rewrite IH]. }
    rewrite <- Hids.
    destruct (map _ (stopping_at session offset)) eqn:E; [|reflexivity].
    apply map_eq_nil in E. rewrite E in Hstopping. contradiction. }
  split; [reflexivity|]. split.
  - intros node_id. rewrite in_map_iff. split.
    + intros [[h' s'] [Hid Hin]]. simpl in Hid.
      unfold stopping_at in Hin. apply filter_In in Hin.
      destruct Hin as [Hin Hst]. apply request_order_In, enumerate_In in Hin.
      rewrite Nat.sub_0_r in Hin. destruct Hin as [_ Hin].
      simpl in Hst. apply offset_eqb_eq in Hst.
      exists h', s'. split; [exact Hin|]. split; [exact Hst|].
      destruct (synth_id_position session h' Hin) as [p [_ Hp]].
      unfold node_id_of in Hid. rewrite id_mapping_of_synth, Hp in Hid.
      now rewrite Hp, Hid.
    + intros (h' & s' & Hin & Hst & Hid). exists (h', s'). split.
      * simpl. unfold node_id_of. now rewrite id_mapping_of_synth, Hid.
      * unfold stopping_at. apply filter_In. split.
        -- apply request_order_In, enumerate_In. rewrite Nat.sub_0_r.
           split; [lia | exact Hin].
        -- simpl. now apply offset_eqb_eq.
  - rewrite length_map. unfold stopping_at.
    rewrite (Permutation_length
               (filter_perm _ (request_order_perm session (id_mapping_of session)))).
    apply (filter_enumerate_length
             (fun s => offset_eqb (stop_offset s) offset)).
Qed.

(** ** Messages of one class in a bundle *)

Lemma chunk_of_type :
  forall t t' requests,
    filter (message_has_type t)
           (map to_osc_message (filter (has_type t') requests))
    = if RequestType_eqb t' t
      then map to_osc_message (filter (has_type t') requests)
      else [].
Proof.
  intros t t' requests. destruct (RequestType_eqb t' t) eqn:E.
  - apply RequestType_eqb_eq in E. subst. apply filter_all.
    intros m Hm. apply in_map_iff in Hm. destruct Hm as [r [<- Hr]].
    apply filter_In in Hr. now destruct Hr.
  - apply filter_none. intros m Hm. apply in_map_iff in Hm.
    destruct Hm as [r [<- Hr]]. apply filter_In in Hr. destruct Hr as [_ Hr].
    unfold has_type in Hr. apply RequestType_eqb_eq in Hr. simpl.
    unfold has_type. rewrite Hr. exact E.
Qed.

Lemma process_requests_of_type :
  forall t offset requests,
    In t _prioritized_request_types ->
    filter (message_has_type t) (contents (bundle_of offset requests))
    = map to_osc_message (filter (has_type t) requests).
Proof.
  intros t offset requests Ht. rewrite process_requests_contents.
  rewrite filter_app.
  match goal with
  | |- _ ++ filter _ ?tail = _ =>
      assert (Htail : filter (message_has_type t) tail = [])
  end.
  { destruct (filter (has_type NodeFreeRequestType) requests); [reflexivity|].
    simpl. unfold has_type. simpl.
    unfold _prioritized_request_types in Ht. simpl in Ht.
    repeat (destruct Ht as [<- | Ht]; [reflexivity|]). contradiction. }
  rewrite Htail, app_nil_r.
  unfold _prioritized_request_types. cbn [flat_map].
  rewrite !filter_app, !chunk_of_type.
  unfold _prioritized_request_types in Ht. simpl in Ht.
  repeat (destruct Ht as [<- | Ht];
          [simpl; now rewrite ?app_nil_r|]).
  contradiction.
Qed.

Lemma is_bus_set_has_type :
  forall m, is_bus_set m = message_has_type ControlBusSetRequestType m.
Proof. intros [[]|]; reflexivity. Qed.

(** ** Control-bus-set commands *)


Lemma record_all_get :
  forall (events : list (Offset * (nat * Q))) (acc : Dict Offset (Dict nat Q)) o,
    dict_get offset_eqb
      (fold_left
         (fun acc event =>
            record_bus_event acc (fst event) (fst (snd event)) (snd (snd event)))
         events acc) o
    = match map snd (filter (fun e => offset_eqb (fst e) o) events) with
      | [] => dict_get offset_eqb acc o
      | changes =>
          Some (assign_pairs changes
                  match dict_get offset_eqb acc o with
                  | Some d => d
                  | None => []
                  end)
      end.
Proof.
  induction events as [|[o' [i v]] events IH]; intros acc o; simpl;
    [reflexivity|].
  rewrite IH. unfold record_bus_event. simpl.
  rewrite !(dict_get_set offset_eqb offset_eqb_eq).
  destruct (offset_eqb o' o) eqn:E; simpl.
  - apply offset_eqb_eq in E. subst o'.
    destruct (map snd (filter (fun e => offset_eqb (fst e) o) events));
      reflexivity.
  - reflexivity.
Qed.

Lemma record_all_NoDup :
  forall (events : list (Offset * (nat * Q))) (acc : Dict Offset (Dict nat Q)),
    NoDup (dict_keys acc) ->
    NoDup (dict_keys
             (fold_left
                (fun acc event =>
                   record_bus_event acc (fst event) (fst (snd event))
                                    (snd (snd event)))
                events acc)).
Proof.
  induction events as [|e events IH]; intros acc H; simpl; [exact H|].
  apply IH. unfold record_bus_event.
  now apply (dict_set_NoDup offset_eqb offset_eqb_eq).
Qed.

Lemma filter_key_dict :
  forall (V : Type) (d : Dict Offset V) o,
    NoDup (dict_keys d) ->
    filter (fun item => offset_eqb (fst item) o) d
    = match dict_get offset_eqb d o with
      | Some v => [(o, v)]
      | None => []
      end.
Proof.
  induction d as [|[k v] d IH]; intros o Hnd; simpl; [reflexivity|].
  inversion Hnd as [|? ? Hk Hnd']; subst.
  destruct (offset_eqb k o) eqn:E.
  - apply offset_eqb_eq in E. subst k. f_equal.
    apply filter_none. intros [k' v'] Hin. simpl.
    apply offset_eqb_neq. intros ->. apply Hk.
    apply (in_map fst) in Hin. exact Hin.
  - now apply IH.
Qed.

Lemma bus_set_requests_at {set_iteration : SetIteration} :
  forall session o,
    filter (has_type ControlBusSetRequestType) (requests_at session o)
    = match changes_at session o with
      | [] => []
      | changes =>
          [ControlBusSetRequest
             (sorted_with (fun x y : nat * Q => Nat.ltb (fst x) (fst y))
                          (assign_pairs changes []))]
      end.
Proof.
  intros session o. rewrite requests_at_parts, !filter_app.
  rewrite (filter_none (has_type ControlBusSetRequestType)
             (emitted_at offset_eqb (synthdef_emissions session) o)).
  2:{ intros r Hr. apply synthdef_emissions_types in Hr.
      destruct Hr as [sds ->]. reflexivity. }
  rewrite (filter_none (has_type ControlBusSetRequestType) (flat_map _ _)).
  2:{ intros r Hr. apply in_flat_map in Hr. destruct Hr as [[h s] [_ Hr]].
      simpl in Hr. rewrite synth_requests_emitted in Hr.
      apply in_app_iff in Hr. destruct Hr as [Hr | Hr].
      - destruct (offset_eqb (start_offset s) o); [|contradiction].
        destruct Hr as [<- | []]. reflexivity.
      - apply in_app_iff in Hr. destruct Hr as [Hr | Hr].
        + apply in_map_iff in Hr. destruct Hr as [ev [<- _]]. reflexivity.
        + destruct (offset_eqb (stop_offset s) o); [|contradiction].
          destruct Hr as [<- | []]. reflexivity. }
  rewrite !app_nil_r.
  rewrite filter_all.
  2:{ intros r Hr. apply bus_emissions_types in Hr.
      destruct Hr as [pairs ->]. reflexivity. }
  unfold bus_emissions.
  rewrite (emitted_at_map_singleton (@fst Offset (Dict nat Q))
             (fun item =>
                ControlBusSetRequest
                  (sorted_with (fun x y : nat * Q => Nat.ltb (fst x) (fst y))
                               (snd item)))).
  rewrite filter_key_dict.
  2:{ unfold events_by_offset_of. apply record_all_NoDup. constructor. }
  unfold events_by_offset_of. rewrite record_all_get. simpl.
  fold (changes_at session o).
  destruct (changes_at session o); reflexivity.
Qed.






Lemma process_requests_bus_set :
  forall offset requests,
    filter is_bus_set (contents (bundle_of offset requests))
    = map to_osc_message (filter (has_type ControlBusSetRequestType) requests).
Proof.
  intros offset requests.
  rewrite (filter_ext _ _ is_bus_set_has_type).
  apply process_requests_of_type.
  unfold _prioritized_request_types. simpl. auto.
Qed.



(** ** Simultaneities *)

Lemma insert_offset_In :
  forall o l x, In x (insert_offset o l) <-> x = o \/ In x l.
Proof.
  intros o l x. induction l as [|p l IH]; simpl.
  - split; [intros [H | []]; auto | intros [H | []]; auto].
  - destruct (offset_compare o p) eqn:E; simpl.
    + apply offset_compare_eq in E. subst p.
      split; [intros [H | H]; auto | intros [H | [H | H]]; auto].
    + split; [intros [H | H]; auto | intros [H | H]; auto].
    + rewrite IH.
      split; [intros [H | [H | H]]; auto | intros [H | [H | H]]; auto].
Qed.

Lemma insert_offset_sorted :
  forall o l,
    StronglySorted offset_lt l -> StronglySorted offset_lt (insert_offset o l).
Proof.
  intros o l Hs. induction Hs as [|p l Hs IH Hp]; simpl.
  - constructor; constructor.
  - destruct (offset_compare o p) eqn:E.
    + now constructor.
    + constructor; [now constructor|]. constructor; [exact E|].
      rewrite Forall_forall in *. intros z Hz.
      eapply offset_lt_trans; [exact E | now apply Hp].
    + constructor; [exact IH|]. rewrite Forall_forall in *. intros z Hz.
      apply insert_offset_In in Hz. destruct Hz as [-> | Hz]; [|now apply Hp].
      unfold offset_lt. rewrite offset_compare_antisym, E. reflexivity.
Qed.

Lemma timeline_points_sorted :
  forall synths, StronglySorted offset_lt (timeline_points synths).
Proof.
  intros synths. unfold timeline_points.
  induction (map start_offset synths ++ map stop_offset synths) as [|o l IH];
    simpl; [constructor | now apply insert_offset_sorted].
Qed.

Lemma timeline_points_In :
  forall synths x,
    In x (timeline_points synths)
    <-> In x (map start_offset synths ++ map stop_offset synths).
Proof.
  intros synths x. unfold timeline_points.
  induction (map start_offset synths ++ map stop_offset synths) as [|o l IH];
    simpl; [tauto|].
  rewrite insert_offset_In, IH. split; intros [H | H]; auto.
Qed.

Lemma iterate_In {set_iteration : SetIteration} :
  forall members x, In x (iterate members) -> In x members.
Proof. intros members x. apply Permutation_in, iterate_members. Qed.

Lemma In_iterate {set_iteration : SetIteration} :
  forall members x, In x members -> In x (iterate members).
Proof.
  intros members x. apply Permutation_in, Permutation_sym, iterate_members.
Qed.

Lemma start_events_In {set_iteration : SetIteration} :
  forall session x,
    In x (start_events session) <-> In x (enumerate 0 (_synths session)).
Proof.
  intros session [h s]. unfold start_events, iterate_simultaneities.
  rewrite in_flat_map. split.
  - intros [sim [Hsim Hx]]. apply in_map_iff in Hsim.
    destruct Hsim as [o [<- _]]. simpl in Hx. apply iterate_In in Hx.
    apply filter_In in Hx. now destruct Hx.
  - intros H. eexists. split.
    + apply in_map_iff. exists (start_offset s). split; [reflexivity|].
      apply timeline_points_In, in_app_iff. left. apply in_map.
      apply (in_map snd) in H. now rewrite enumerate_snd in H.
    + simpl. apply In_iterate.
      apply filter_In. split; [exact H | apply offset_eqb_refl].
Qed.

Lemma start_events_ascending {set_iteration : SetIteration} :
  forall session,
    StronglySorted
      (fun a b => offset_le (start_offset (snd a)) (start_offset (snd b)))
      (start_events session).
Proof.
  intros session. unfold start_events, iterate_simultaneities.
  rewrite flat_map_concat_map, map_map, <- flat_map_concat_map. simpl.
  pose proof (timeline_points_sorted (_synths session)) as Hs.
  induction Hs as [|o l Hs IH Ho]; simpl; [constructor|].
  apply StronglySorted_app.
  - apply StronglySorted_of_pairs. intros a b Ha Hb.
    apply iterate_In in Ha. apply iterate_In in Hb.
    apply filter_In in Ha. apply filter_In in Hb.
    destruct Ha as [_ Ha]. destruct Hb as [_ Hb].
    apply offset_eqb_eq in Ha. apply offset_eqb_eq in Hb.
    rewrite Ha, Hb. apply offset_le_refl.
  - exact IH.
  - intros a b Ha Hb. apply iterate_In in Ha.
    apply filter_In in Ha. destruct Ha as [_ Ha].
    apply offset_eqb_eq in Ha. apply in_flat_map in Hb.
    destruct Hb as [o' [Ho' Hb]]. apply iterate_In in Hb.
    apply filter_In in Hb.
    destruct Hb as [_ Hb]. apply offset_eqb_eq in Hb.
    rewrite Ha, Hb. apply offset_lt_le.
    rewrite Forall_forall in Ho. now apply Ho.
Qed.

(** ** The first use of a definition *)

Lemma first_wins_get :
  forall (events : list (nat * Synth)) (acc : Dict SynthDef Offset) sd,
    dict_get SynthDef_eqb
      (fold_left
         (fun acc start_event =>
            if dict_mem SynthDef_eqb acc (synthdef (snd start_event)) then acc
            else dict_set SynthDef_eqb acc (synthdef (snd start_event))
                          (start_offset (snd start_event)))
         events acc) sd
    = match dict_get SynthDef_eqb acc sd with
      | Some o => Some o
      | None =>
          match find (fun e => SynthDef_eqb (synthdef (snd e)) sd) events with
          | Some e => Some (start_offset (snd e))
          | None => None
          end
      end.
Proof.
  induction events as [|e events IH]; intros acc sd; simpl.
  - destruct (dict_get SynthDef_eqb acc sd); reflexivity.
  - rewrite IH. unfold dict_mem.
    destruct (dict_get SynthDef_eqb acc (synthdef (snd e))) as [o|] eqn:G.
    + destruct (SynthDef_eqb (synthdef (snd e)) sd) eqn:E; [|reflexivity].
      apply SynthDef_eqb_eq in E. rewrite <- E, G. reflexivity.
    + rewrite (dict_get_set SynthDef_eqb SynthDef_eqb_eq).
      destruct (SynthDef_eqb (synthdef (snd e)) sd) eqn:E.
      * apply SynthDef_eqb_eq in E. rewrite <- E, G. reflexivity.
      * reflexivity.
Qed.

Lemma first_wins_NoDup :
  forall (events : list (nat * Synth)) (acc : Dict SynthDef Offset),
    NoDup (dict_keys acc) ->
    NoDup (dict_keys
             (fold_left
                (fun acc start_event =>
                   if dict_mem SynthDef_eqb acc (synthdef (snd start_event))
                   then acc
                   else dict_set SynthDef_eqb acc (synthdef (snd start_event))
                                 (start_offset (snd start_event)))
                events acc)).
Proof.
  induction events as [|e events IH]; intros acc H; simpl; [exact H|].
  apply IH. destruct (dict_mem SynthDef_eqb acc (synthdef (snd e))); [exact H|].
  now apply (dict_set_NoDup SynthDef_eqb SynthDef_eqb_eq).
Qed.

Lemma find_first_sorted :
  forall (A : Type) (R : A -> A -> Prop) (p : A -> bool) (l : list A) x,
    StronglySorted R l -> (forall a, R a a) ->
    find p l = Some x ->
    In x l /\ p x = true /\ forall y, In y l -> p y = true -> R x y.
Proof.
  intros A R p l x Hs Hrefl. induction Hs as [|a l Hs IH Ha]; simpl;
    [discriminate|].
  destruct (p a) eqn:E.
  - intros H. inversion H; subst. split; [now left|]. split; [exact E|].
    intros y [<- | Hy] _; [apply Hrefl|].
    rewrite Forall_forall in Ha. now apply Ha.
  - intros H. destruct (IH H) as (Hin & Hp & Hmin).
    split; [now right|]. split; [exact Hp|].
    intros y [<- | Hy] Hy'; [congruence | now apply Hmin].
Qed.

Lemma synthdefs_to_offsets_NoDup {set_iteration : SetIteration} :
  forall session, NoDup (dict_keys (synthdefs_to_offsets session)).
Proof. intros session. apply first_wins_NoDup. constructor. Qed.

(** A definition is entered with the least start offset of the synths
    that use it. *)
Lemma synthdefs_to_offsets_get {set_iteration : SetIteration} :
  forall session sd,
    (exists s, In s (_synths session) /\ synthdef s = sd) ->
    exists first,
      dict_get SynthDef_eqb (synthdefs_to_offsets session) sd = Some first
      /\ (exists s, In s (_synths session) /\ synthdef s = sd
                    /\ start_offset s = first)
      /\ (forall s, In s (_synths session) -> synthdef s = sd ->
                    offset_le first (start_offset s)).
Proof.
  intros session sd [s [Hs Hsd]].
  unfold synthdefs_to_offsets. rewrite first_wins_get. simpl.
  apply In_nth_error in Hs. destruct Hs as [h Hh].
  assert (Hin : In (h, s) (start_events session)).
  { apply start_events_In, enumerate_In. rewrite Nat.sub_0_r.
    split; [lia | exact Hh]. }
  destruct (find (fun e => SynthDef_eqb (synthdef (snd e)) sd)
                 (start_events session)) as [e|] eqn:F.
  - destruct (find_first_sorted _ (start_events_ascending session)
                                (fun a => offset_le_refl _) F)
      as (He & Hp & Hmin).
    apply SynthDef_eqb_eq in Hp.
    exists (start_offset (snd e)). split; [reflexivity|]. split.
    + exists (snd e). split; [|split; [exact Hp | reflexivity]].
      apply start_events_In in He. apply (in_map snd) in He.
      now rewrite enumerate_snd in He.
    + intros s' Hs' Hsd'. apply In_nth_error in Hs'. destruct Hs' as [h' Hh'].
      apply (Hmin (h', s')).
      * apply start_events_In, enumerate_In. rewrite Nat.sub_0_r.
        split; [lia | exact Hh'].
      * simpl. now apply SynthDef_eqb_eq.
  - exfalso. apply (find_none _ _ F) in Hin. simpl in Hin.
    rewrite (proj2 (SynthDef_eqb_eq _ _) Hsd) in Hin. discriminate.
Qed.

Lemma synthdefs_to_offsets_used {set_iteration : SetIteration} :
  forall session sd first,
    dict_get SynthDef_eqb (synthdefs_to_offsets session) sd = Some first ->
    exists s, In s (_synths session) /\ synthdef s = sd.
Proof.
  intros session sd first H. unfold synthdefs_to_offsets in H.
  rewrite first_wins_get in H. simpl in H.
  destruct (find (fun e => SynthDef_eqb (synthdef (snd e)) sd)
                 (start_events session)) as [e|] eqn:F; [|discriminate].
  apply find_some in F. destruct F as [He Hp].
  apply SynthDef_eqb_eq in Hp. exists (snd e). split; [|exact Hp].
  apply start_events_In in He. apply (in_map snd) in He.
  now rewrite enumerate_snd in He.
Qed.

Lemma emitted_at_map_single :
  forall (K A B : Type) (eqb : K -> K -> bool) (key : B -> K) (item : B -> A)
         (l : list B) k,
    emitted_at eqb (map (fun x => (key x, [item x])) l) k
    = map item (filter (fun x => eqb (key x) k) l).
Proof.
  intros K A B eqb key item l k. unfold emitted_at.
  induction l as [|x l IH]; simpl; [reflexivity|].
  destruct (eqb (key x) k); simpl; now rewrite IH.
Qed.

Lemma offsets_to_synthdefs_NoDup {set_iteration : SetIteration} :
  forall session, NoDup (dict_keys (offsets_to_synthdefs session)).
Proof.
  intros session. unfold offsets_to_synthdefs.
  apply (emit_all_NoDup offset_eqb offset_eqb_eq). constructor.
Qed.

Lemma offsets_to_synthdefs_get_list {set_iteration : SetIteration} :
  forall session o,
    dict_get_list offset_eqb (offsets_to_synthdefs session) o
    = map fst (filter (fun item => offset_eqb (snd item) o)
                      (synthdefs_to_offsets session)).
Proof.
  intros session o. unfold offsets_to_synthdefs.
  rewrite (emit_all_get_list offset_eqb offset_eqb_eq). simpl.
  apply (emitted_at_map_single offset_eqb (@snd SynthDef Offset)
                               (@fst SynthDef Offset)).
Qed.

Lemma offsets_to_synthdefs_In {set_iteration : SetIteration} :
  forall session o sd,
    In sd (dict_get_list offset_eqb (offsets_to_synthdefs session) o)
    <-> dict_get SynthDef_eqb (synthdefs_to_offsets session) sd = Some o.
Proof.
  intros session o sd. rewrite offsets_to_synthdefs_get_list, in_map_iff.
  split.
  - intros [[sd' o'] [E H]]. simpl in E. subst sd'.
    apply filter_In in H. destruct H as [H Ho]. simpl in Ho.
    apply offset_eqb_eq in Ho. subst o'.
    apply (dict_In_get SynthDef_eqb SynthDef_eqb_eq); [|exact H].
    apply synthdefs_to_offsets_NoDup.
  - intros H. apply (dict_get_Some_In SynthDef_eqb SynthDef_eqb_eq) in H.
    exists (sd, o). split; [reflexivity|]. apply filter_In.
    split; [exact H | apply offset_eqb_refl].
Qed.

Lemma definition_requests_at {set_iteration : SetIteration} :
  forall session o,
    filter (has_type SynthDefReceiveRequestType) (requests_at session o)
    = match dict_get offset_eqb (offsets_to_synthdefs session) o with
      | Some sds =>
          [SynthDefReceiveRequest
             (sorted_with
                (fun x y => String.ltb (anonymous_name x) (anonymous_name y))
                sds)]
      | None => []
      end.
Proof.
  intros session o. rewrite requests_at_parts, !filter_app.
  rewrite (filter_none (has_type SynthDefReceiveRequestType)
             (emitted_at offset_eqb
                (bus_emissions session (id_mapping_of session)) o)).
  2:{ intros r Hr. apply bus_emissions_types in Hr.
      destruct Hr as [pairs ->]. reflexivity. }
  rewrite (filter_none (has_type SynthDefReceiveRequestType) (flat_map _ _)).
  2:{ intros r Hr. apply in_flat_map in Hr. destruct Hr as [[h s] [_ Hr]].
      simpl in Hr. rewrite synth_requests_emitted in Hr.
      apply in_app_iff in Hr. destruct Hr as [Hr | Hr].
      - destruct (offset_eqb (start_offset s) o); [|contradiction].
        destruct Hr as [<- | []]. reflexivity.
      - apply in_app_iff in Hr. destruct Hr as [Hr | Hr].
        + apply in_map_iff in Hr. destruct Hr as [ev [<- _]]. reflexivity.
        + destruct (offset_eqb (stop_offset s) o); [|contradiction].
          destruct Hr as [<- | []]. reflexivity. }
  rewrite app_nil_r. simpl.
  rewrite filter_all.
  2:{ intros r Hr. apply synthdef_emissions_types in Hr.
      destruct Hr as [sds ->]. reflexivity. }
  unfold synthdef_emissions.
  rewrite (emitted_at_map_single offset_eqb (@fst Offset (list SynthDef))
             (fun item =>
                SynthDefReceiveRequest
                  (sorted_with
                     (fun x y => String.ltb (anonymous_name x) (anonymous_name y))
                     (snd item)))).
  rewrite filter_key_dict by apply offsets_to_synthdefs_NoDup.
  destruct (dict_get offset_eqb (offsets_to_synthdefs session) o); reflexivity.
Qed.

Lemma existsb_sorted :
  forall (A : Type) (leb : A -> A -> bool) (p : A -> bool) (l : list A),
    existsb p (sorted leb l) = existsb p l.
Proof.
  intros A leb p l.
  destruct (existsb p l) eqn:E.
  - apply existsb_exists in E. destruct E as [x [Hx Hp]].
    apply existsb_exists. exists x. split; [now apply sorted_In | exact Hp].
  - destruct (existsb p (sorted leb l)) eqn:E'; [|reflexivity].
    apply existsb_exists in E'. destruct E' as [x [Hx Hp]].
    apply sorted_In in Hx.
    assert (existsb p l = true) by (apply existsb_exists; eauto). congruence.
Qed.

(** A definition-receive request of an offset transmits a definition
    exactly when the offset is the first use of the definition. *)
Lemma definition_received_at {set_iteration : SetIteration} :
  forall session o sd r,
    In r (requests_at session o) ->
    request_receives sd r = true ->
    dict_get SynthDef_eqb (synthdefs_to_offsets session) sd = Some o.
Proof.
  intros session o sd r Hin Hr.
  assert (Hf : In r (filter (has_type SynthDefReceiveRequestType)
                            (requests_at session o))).
  { apply filter_In. split; [exact Hin|]. destruct r; try discriminate.
    reflexivity. }
  rewrite definition_requests_at in Hf.
  destruct (dict_get offset_eqb (offsets_to_synthdefs session) o) as [sds|] eqn:G;
    [|contradiction].
  destruct Hf as [<- | []]. simpl in Hr. unfold sorted_with in Hr.
  rewrite existsb_sorted in Hr. apply existsb_exists in Hr.
  destruct Hr as [sd' [Hsd' E]]. apply SynthDef_eqb_eq in E. subst sd'.
  apply offsets_to_synthdefs_In. unfold dict_get_list. now rewrite G.
Qed.

(** ** Counting definition-receive commands *)

Arguments bundle_of : simpl never.

Lemma filter_implied :
  forall (A : Type) (p q : A -> bool) (l : list A),
    (forall x, p x = true -> q x = true) ->
    filter p (filter q l) = filter p l.
Proof.
  intros A p q l H. induction l as [|x l IH]; simpl; [reflexivity|].
  destruct (q x) eqn:Q; simpl.
  - destruct (p x); now rewrite IH.
  - destruct (p x) eqn:P; [|exact IH].
    apply H in P. congruence.
Qed.

Lemma filter_map_swap :
  forall (A B : Type) (f : A -> B) (p : B -> bool) (l : list A),
    filter p (map f l) = map f (filter (fun x => p (f x)) l).
Proof.
  induction l as [|x l IH]; simpl; [reflexivity|].
  destruct (p (f x)); simpl; now rewrite IH.
Qed.

Lemma process_requests_receives :
  forall sd offset requests,
    filter (receives sd) (contents (bundle_of offset requests))
    = map to_osc_message (filter (request_receives sd) requests).
Proof.
  intros sd offset requests.
  rewrite <- (filter_implied (receives sd)
                (message_has_type SynthDefReceiveRequestType)).
  2:{ intros [r|a] H; [|discriminate]. destruct r; try discriminate.
      reflexivity. }
  rewrite process_requests_of_type
    by (unfold _prioritized_request_types; simpl; auto).
  rewrite filter_map_swap. f_equal.
  apply filter_implied. intros r H. destruct r; try discriminate. reflexivity.
Qed.

Lemma received_in_bundles :
  forall sd (items : list (Offset * list Request)),
    filter (receives sd)
      (flat_map contents
         (map (fun item => bundle_of (fst item) (snd item)) items))
    = map to_osc_message (filter (request_receives sd) (flat_map snd items)).
Proof.
  intros sd items. induction items as [|[o rs] items IH];
    cbn [flat_map map fst snd]; [reflexivity|].
  rewrite !filter_app, map_app, IH, process_requests_receives. reflexivity.
Qed.

Lemma count_zero_chunks :
  forall (K A : Type) (p : A -> bool) (ls : list (K * list A)),
    filter p (flat_map snd ls) = [] ->
    filter (fun item => existsb p (snd item)) ls = [].
Proof.
  intros K A p ls H. apply filter_none. intros [k l] Hin. simpl.
  destruct (existsb p l) eqn:E; [|reflexivity].
  apply existsb_exists in E. destruct E as [x [Hx Hp]].
  assert (Hf : In x (filter p (flat_map snd ls))).
  { apply filter_In. split; [|exact Hp]. apply in_flat_map.
    exists (k, l). auto. }
  rewrite H in Hf. contradiction.
Qed.

Lemma count_one_chunk :
  forall (K A : Type) (p : A -> bool) (ls : list (K * list A)),
    List.length (filter p (flat_map snd ls)) = 1 ->
    List.length (filter (fun item => existsb p (snd item)) ls) = 1.
Proof.
  intros K A p ls. induction ls as [|[k l] ls IH]; simpl; [discriminate|].
  rewrite filter_app, length_app. intros H.
  destruct (existsb p l) eqn:E.
  - simpl. f_equal.
    assert (Hl : filter p l <> []).
    { apply existsb_exists in E. destruct E as [x [Hx Hp]].
      intros Hnil.
      assert (Hf : In x (filter p l)) by (apply filter_In; auto).
      rewrite Hnil in Hf. contradiction. }
    assert (Hrest : filter p (flat_map snd ls) = []).
    { destruct (filter p l); [contradiction|].
      destruct (filter p (flat_map snd ls)); [reflexivity|].
      simpl in H. lia. }
    now rewrite (count_zero_chunks p ls Hrest).
  - apply IH.
    assert (Hl : filter p l = []).
    { apply filter_none. intros x Hx.
      destruct (p x) eqn:P; [|reflexivity].
      assert (existsb p l = true) by (apply existsb_exists; eauto).
      congruence. }
    rewrite Hl in H. exact H.
Qed.

Lemma NoDup_count_one :
  forall (l : list SynthDef) sd,
    NoDup l -> In sd l -> List.length (filter (SynthDef_eqb sd) l) = 1.
Proof.
  intros l sd Hnd. induction Hnd as [|x l Hx Hnd IH]; intros Hin;
    [contradiction|].
  simpl. destruct (SynthDef_eqb sd x) eqn:E.
  - apply SynthDef_eqb_eq in E. subst x. simpl. f_equal.
    rewrite filter_none; [reflexivity|].
    intros y Hy. destruct (SynthDef_eqb sd y) eqn:E'; [|reflexivity].
    apply SynthDef_eqb_eq in E'. subst y. contradiction.
  - apply IH. destruct Hin as [-> | Hin]; [|exact Hin].
    rewrite (proj2 (SynthDef_eqb_eq sd sd) eq_refl) in E. discriminate.
Qed.

Lemma synth_requests_never_receive :
  forall sd node_id s r,
    In r (flat_map snd (synth_requests node_id s)) ->
    request_receives sd r = false.
Proof.
  intros sd node_id s r H. apply in_flat_map in H.
  destruct H as [[o xs] [Hin Hr]]. simpl in Hr.
  assert (Hnd : NoDup (dict_keys (synth_requests node_id s))).
  { unfold synth_requests.
    repeat apply (dict_extend_NoDup offset_eqb offset_eqb_eq).
    rewrite (emit_all_map offset_eqb (@fst Offset (string * Q))
               (fun event => [NodeSetRequest node_id [snd event]])).
    apply (emit_all_NoDup offset_eqb offset_eqb_eq).
    apply (dict_extend_NoDup offset_eqb offset_eqb_eq). constructor. }
  pose proof (dict_get_list_In offset_eqb offset_eqb_eq _ _ _ Hnd Hin) as E.
  rewrite <- (emitted_at_dict offset_eqb offset_eqb_eq _ _ Hnd) in E.
  rewrite synth_requests_emitted in E. rewrite <- E in Hr.
  apply in_app_iff in Hr. destruct Hr as [Hr | Hr].
  - destruct (offset_eqb (start_offset s) o); [|contradiction].
    destruct Hr as [<- | []]. reflexivity.
  - apply in_app_iff in Hr. destruct Hr as [Hr | Hr].
    + apply in_map_iff in Hr. destruct Hr as [ev [<- _]]. reflexivity.
    + destruct (offset_eqb (stop_offset s) o); [|contradiction].
      destruct Hr as [<- | []]. reflexivity.
Qed.

Lemma received_count {set_iteration : SetIteration} :
  forall session sd,
    (exists s, In s (_synths session) /\ synthdef s = sd) ->
    List.length
      (filter (request_receives sd)
              (flat_map snd (request_mapping_of session))) = 1.
Proof.
  intros session sd Hused.
  unfold request_mapping_of.
  rewrite (Permutation_length
             (filter_perm _ (emit_all_values_perm offset_eqb
                               (all_emissions session) []))).
  simpl. unfold all_emissions. rewrite !flat_map_app, !filter_app, !length_app.
  rewrite (filter_none (request_receives sd)
             (flat_map snd (bus_emissions session (id_mapping_of session)))).
  2:{ intros r Hr. apply in_flat_map in Hr. destruct Hr as [[o xs] [Hin Hr]].
      unfold bus_emissions in Hin. apply in_map_iff in Hin.
      destruct Hin as [item [E _]]. inversion E; subst.
      destruct Hr as [<- | []]. reflexivity. }
  rewrite (filter_none (request_receives sd)
             (flat_map snd (synth_emissions session (id_mapping_of session)))).
  2:{ intros r Hr. unfold synth_emissions in Hr.
      apply in_flat_map in Hr. destruct Hr as [[o xs] [Hin Hr]].
      apply in_flat_map in Hin. destruct Hin as [[h s] [_ Hin]].
      eapply synth_requests_never_receive.
      apply in_flat_map. exists (o, xs). split; [exact Hin | exact Hr]. }
  simpl. rewrite Nat.add_0_r.
  unfold synthdef_emissions.
  rewrite flat_map_concat_map, map_map. simpl.
  rewrite <- flat_map_concat_map.
  assert (Hcount :
            forall items : list (Offset * list SynthDef),
              List.length
                (filter (request_receives sd)
                   (flat_map
                      (fun item =>
                         [SynthDefReceiveRequest
                            (sorted_with
                               (fun x y => String.ltb (anonymous_name x)
                                                      (anonymous_name y))
                               (snd item))]) items))
              = List.length
                  (filter (fun item => existsb (SynthDef_eqb sd) (snd item))
                          items)).
  { induction items as [|[o sds] items IH]; simpl; [reflexivity|].
    unfold sorted_with at 1. rewrite existsb_sorted.
    destruct (existsb (SynthDef_eqb sd) sds); simpl; now rewrite IH. }
  rewrite Hcount. apply count_one_chunk.
  unfold offsets_to_synthdefs.
  rewrite (Permutation_length
             (filter_perm _ (emit_all_values_perm offset_eqb _ []))).
  simpl. rewrite flat_map_concat_map, map_map. simpl.
  rewrite <- flat_map_concat_map.
  assert (Hflat : forall l : list (SynthDef * Offset),
             flat_map (fun item => [fst item]) l = map fst l).
  { induction l as [|x l IH]; simpl; [reflexivity | now rewrite IH]. }
  rewrite Hflat. apply NoDup_count_one.
  - apply synthdefs_to_offsets_NoDup.
  - destruct (synthdefs_to_offsets_get session Hused) as (first & Hget & _).
    apply (dict_get_Some_In SynthDef_eqb SynthDef_eqb_eq) in Hget.
    apply (in_map fst) in Hget. exact Hget.
Qed.

Lemma terminal_event_receives :
  forall sd final timespan,
    filter (receives sd)
           (flat_map contents (terminal_of final timespan)) = [].
Proof.
  intros sd final [timespan|]; simpl; [|reflexivity].
  destruct (not_in_prototype (timespan_stop_offset timespan)
            && offset_ltb final (timespan_stop_offset timespan)); reflexivity.
Qed.

(** C2: every definition that at least one synth of the session uses is
    transmitted by exactly one definition-receive command of the whole
    bundle sequence, and the bundle that holds this command has the
    least start offset of the synths using the definition as its
    timestamp. *)
Theorem synthdef_received_once_at_first_use :
  forall (set_iteration : SetIteration)
         (inventory_timespan : list Synth -> Timespan)
         (inventory_and : list Synth -> Timespan -> list Synth)
         (inventory_translate : list Synth -> Offset -> list Synth)
         (offset_sub : Offset -> Offset -> Offset)
         (self : Session) (timespan : option Timespan)
         (bundles : list OscBundle) (sd : SynthDef),
    let session :=
      _process_timespan_mask inventory_timespan inventory_and
                             inventory_translate offset_sub self timespan in
    to_osc_bundles inventory_timespan inventory_and inventory_translate
                   offset_sub self timespan = Ok bundles ->
    (exists s, In s (_synths session) /\ synthdef s = sd) ->
    exists first,
      (exists s, In s (_synths session) /\ synthdef s = sd
                 /\ start_offset s = first)
      /\ (forall s, In s (_synths session) -> synthdef s = sd ->
                    offset_le first (start_offset s))
      /\ List.length (filter (receives sd) (flat_map contents bundles)) = 1
      /\ (forall bundle m,
             In bundle bundles -> In m (contents bundle) ->
             receives sd m = true -> float first = Ok (timestamp bundle))
      /\ (exists bundle m,
             In bundle bundles /\ In m (contents bundle)
             /\ receives sd m = true
             /\ float first = Ok (timestamp bundle)).
Proof.
  intros si it ia itr os self timespan bundles sd session Hok Hused.
  destruct (synthdefs_to_offsets_get session Hused)
    as (first & Hget & Hwitness & Hmin).
  exists first. split; [exact Hwitness|]. split; [exact Hmin|].
  destruct (rendered_bundles it ia itr os self timespan Hok)
    as (_ & Hall).
  fold session in Hall.
  assert (Hloc : forall bundle m,
             In bundle bundles -> In m (contents bundle) ->
             receives sd m = true -> float first = Ok (timestamp bundle)).
  { intros bundle m Hb Hm Hr.
    destruct (Hall bundle Hb) as [(o & _ & Ht & E) | Hc].
    - rewrite E in Hm.
      assert (Hf : In m (filter (receives sd)
                           (contents (bundle_of o (requests_at session o)))))
        by (apply filter_In; auto).
      rewrite process_requests_receives in Hf. apply in_map_iff in Hf.
      destruct Hf as [r [_ Hf]]. apply filter_In in Hf.
      destruct Hf as [Hin Hrr].
      pose proof (definition_received_at session _ sd r Hin Hrr) as G.
      rewrite Hget in G. inversion G; subst. exact Ht.
    - rewrite Hc in Hm. destruct Hm as [<- | []]. discriminate. }
  assert (Hcount :
            List.length (filter (receives sd) (flat_map contents bundles)) = 1).
  { assert (Hne : all_emissions session <> []).
    { intros E. apply all_emissions_empty in E. destruct E as [E _].
      destruct Hused as [s [Hs _]]. rewrite E in Hs. contradiction. }
    destruct (to_osc_bundles_result it ia itr os self timespan Hok)
      as (final & -> & _).
    rewrite flat_map_app, filter_app, terminal_event_receives, app_nil_r.
    unfold bundles_of. rewrite received_in_bundles, length_map.
    fold session. unfold sorted_with.
    rewrite (Permutation_length
               (filter_perm _
                  (Permutation_flat_map snd
                     (sorted_perm _ (request_mapping_of session))))).
    now apply received_count. }
  split; [exact Hcount|]. split; [exact Hloc|].
  destruct (filter (receives sd) (flat_map contents bundles)) as [|m l] eqn:E;
    [discriminate|].
  assert (Hm : In m (filter (receives sd) (flat_map contents bundles)))
    by (rewrite E; now left).
  apply filter_In in Hm. destruct Hm as [Hm Hr].
  apply in_flat_map in Hm. destruct Hm as [bundle [Hb Hm]].
  exists bundle, m. split; [exact Hb|]. split; [exact Hm|].
  split; [exact Hr|]. eapply Hloc; eassumption.
Qed.

(** ** The order of the bundles and the iteration order of a set *)

Lemma ascii_compare_trans :
  forall (a b c : ascii) (r : comparison),
    Ascii.compare a b = r -> Ascii.compare b c = r -> Ascii.compare a c = r.
Proof.
  intros a b c r. unfold Ascii.compare.
  destruct r; intros H1 H2.
  - apply N.compare_eq_iff in H1, H2. apply N.compare_eq_iff. congruence.
  - rewrite N.compare_lt_iff in *. lia.
  - rewrite N.compare_gt_iff in *. lia.
Qed.

Lemma string_compare_lt_trans :
  forall a b c : string,
    String.compare a b = Lt -> String.compare b c = Lt ->
    String.compare a c = Lt.
Proof.
  induction a as [|x a IH]; intros [|y b] [|z c] H1 H2; simpl in *;
    try discriminate; try reflexivity.
  destruct (Ascii.compare x y) eqn:E1; try discriminate;
    destruct (Ascii.compare y z) eqn:E2; try discriminate.
  - rewrite (@ascii_compare_trans _ _ _ _ E1 E2). now apply IH with b.
  - apply Ascii.compare_eq_iff in E1. subst. now rewrite E2.
  - apply Ascii.compare_eq_iff in E2. subst. now rewrite E1.
  - now rewrite (@ascii_compare_trans _ _ _ _ E1 E2).
Qed.

Lemma string_compare_le_trans :
  forall a b c : string,
    String.compare a b <> Gt -> String.compare b c <> Gt ->
    String.compare a c <> Gt.
Proof.
  intros a b c H1 H2.
  destruct (String.compare a b) eqn:E1; [| |contradiction].
  - apply String.compare_eq_iff in E1. now subst.
  - destruct (String.compare b c) eqn:E2; [| |contradiction].
    + apply String.compare_eq_iff in E2. subst. now rewrite E1.
    + now rewrite (@string_compare_lt_trans _ _ _ E1 E2).
Qed.

Lemma sorted_by_anonymous_name :
  forall sds : list SynthDef,
    StronglySorted
      (fun a b => String.compare (anonymous_name a) (anonymous_name b) <> Gt)
      (sorted_with (fun x y => String.ltb (anonymous_name x) (anonymous_name y))
                   sds).
Proof.
  intros sds. unfold sorted_with. apply sorted_ordered.
  - intros x y z. apply string_compare_le_trans.
  - apply StronglySorted_of_pairs. intros x y _ _. unfold decides, String.ltb.
    rewrite (String.compare_antisym (anonymous_name x) (anonymous_name y)).
    destruct (String.compare (anonymous_name y) (anonymous_name x));
      simpl; split; intros H; try discriminate; congruence.
Qed.

Lemma NoDup_filter :
  forall (A : Type) (p : A -> bool) (l : list A),
    NoDup l -> NoDup (filter p l).
Proof.
  intros A p l H. induction H as [|x l Hx H IH]; simpl; [constructor|].
  destruct (p x); [|exact IH]. constructor; [|exact IH].
  intros Hin. apply filter_In in Hin. now apply Hx.
Qed.

Lemma NoDup_map_fst_filter :
  forall (K V : Type) (p : K * V -> bool) (d : list (K * V)),
    NoDup (map fst d) -> NoDup (map fst (filter p d)).
Proof.
  intros K V p d. induction d as [|[k v] d IH]; simpl; intros H;
    [constructor|].
  inversion H as [|? ? Hk Hd]; subst.
  destruct (p (k, v)); [|now apply IH]. simpl. constructor; [|now apply IH].
  intros Hin. apply Hk. apply in_map_iff in Hin.
  destruct Hin as [[k' v'] [E Hin]]. simpl in E. subst k'.
  apply filter_In in Hin. destruct Hin as [Hin _].
  apply in_map_iff. now exists (k, v').
Qed.


Lemma StronglySorted_perm_eq :
  forall (A : Type) (R : A -> A -> Prop) (l1 l2 : list A),
    (forall a, ~ R a a) -> (forall a b c, R a b -> R b c -> R a c) ->
    StronglySorted R l1 -> StronglySorted R l2 -> Permutation l1 l2 ->
    l1 = l2.
Proof.
  intros A R l1 l2 Hirr Htr Hs1. revert l2.
  induction Hs1 as [|a l1 Hs1 IH Ha]; intros l2 Hs2 Hperm.
  - apply Permutation_nil in Hperm. now subst.
  - destruct l2 as [|b l2].
    + apply Permutation_sym, Permutation_nil in Hperm. discriminate.
    + inversion Hs2 as [|? ? Hs2' Hb]; subst.
      assert (E : a = b).
      { assert (Hin_a : In a (b :: l2))
          by (apply (Permutation_in _ Hperm); now left).
        assert (Hin_b : In b (a :: l1))
          by (apply (Permutation_in _ (Permutation_sym Hperm)); now left).
        rewrite Forall_forall in Ha, Hb.
        destruct Hin_a as [E | Hin_a]; [now symmetry|].
        destruct Hin_b as [E | Hin_b]; [exact E|].
        exfalso. apply (Hirr a). apply Htr with b; [now apply Ha | now apply Hb]. }
      subst b. f_equal. apply IH; [exact Hs2'|].
      eapply Permutation_cons_inv. exact Hperm.
Qed.

Lemma bundles_of_perm :
  forall (rm rm' : Dict Offset (list Request)),
    NoDup (dict_keys rm) -> Permutation rm rm' ->
    bundles_of rm = bundles_of rm'.
Proof.
  intros rm rm' Hnd Hperm. unfold bundles_of. f_equal.
  assert (Hnd' : NoDup (dict_keys rm')).
  { eapply Permutation_NoDup; [|exact Hnd]. now apply Permutation_map. }
  apply (StronglySorted_perm_eq
           (R := fun x y : Offset * list Request => offset_lt (fst x) (fst y))).
  - intros a. apply offset_lt_irrefl.
  - intros a b c. apply offset_lt_trans.
  - now apply items_sorted_by_offset.
  - now apply items_sorted_by_offset.
  - unfold sorted_with. eapply perm_trans; [apply sorted_perm|].
    eapply perm_trans; [exact Hperm|]. apply Permutation_sym, sorted_perm.
Qed.

Lemma sorted_items_perm :
  forall (rm rm' : Dict Offset (list Request)),
    NoDup (dict_keys rm) -> Permutation rm rm' ->
    sorted_with (fun x y : Offset * list Request => offset_ltb (fst x) (fst y))
                rm
    = sorted_with (fun x y : Offset * list Request =>
                     offset_ltb (fst x) (fst y)) rm'.
Proof.
  intros rm rm' Hnd Hperm.
  assert (Hnd' : NoDup (dict_keys rm')).
  { eapply Permutation_NoDup; [|exact Hnd]. now apply Permutation_map. }
  apply (StronglySorted_perm_eq
           (R := fun x y : Offset * list Request => offset_lt (fst x) (fst y))).
  - intros a. apply offset_lt_irrefl.
  - intros a b c. apply offset_lt_trans.
  - now apply items_sorted_by_offset.
  - now apply items_sorted_by_offset.
  - unfold sorted_with. eapply perm_trans; [apply sorted_perm|].
    eapply perm_trans; [exact Hperm|]. apply Permutation_sym, sorted_perm.
Qed.

Lemma StronglySorted_NoDup_weaken :
  forall (A : Type) (P Q : A -> A -> Prop) (l : list A),
    (forall x y, In x l -> In y l -> x <> y -> P x y -> Q x y) ->
    NoDup l -> StronglySorted P l -> StronglySorted Q l.
Proof.
  intros A P Q l H Hnd Hs. induction Hs as [|x l Hs IH Hx]; constructor.
  - inversion Hnd; subst. apply IH; [|assumption].
    intros a b Ha Hb. apply H; now right.
  - inversion Hnd as [|? ? Hnotin _]; subst.
    rewrite Forall_forall in *. intros y Hy.
    apply H; [now left | now right | | now apply Hx].
    intros E. subst y. contradiction.
Qed.

(** Definitions with different anonymous names have one sorted order. *)
Lemma sorted_distinct_names :
  forall l1 l2 : list SynthDef,
    NoDup l1 -> Permutation l1 l2 ->
    (forall a b, In a l1 -> In b l1 ->
                 anonymous_name a = anonymous_name b -> a = b) ->
    sorted_with (fun x y => String.ltb (anonymous_name x) (anonymous_name y)) l1
    = sorted_with (fun x y => String.ltb (anonymous_name x) (anonymous_name y))
                  l2.
Proof.
  intros l1 l2 Hnd Hperm Hnames.
  set (by_name := fun x y => String.ltb (anonymous_name x) (anonymous_name y)).
  assert (Hp1 : Permutation (sorted_with by_name l1) l1) by apply sorted_perm.
  assert (Hp2 : Permutation (sorted_with by_name l2) l2) by apply sorted_perm.
  assert (Hstrict :
            forall l, Permutation l l1 ->
                      StronglySorted
                        (fun a b => String.compare (anonymous_name a)
                                                   (anonymous_name b) <> Gt) l ->
                      StronglySorted
                        (fun a b => String.compare (anonymous_name a)
                                                   (anonymous_name b) = Lt) l).
  { intros l Hl Hs.
    eapply StronglySorted_NoDup_weaken; [| |exact Hs].
    - intros x y Hx Hy Hne Hle. cbv beta in *.
      destruct (String.compare (anonymous_name x) (anonymous_name y)) eqn:E;
        [|reflexivity | contradiction].
      exfalso. apply Hne. apply String.compare_eq_iff in E.
      apply Hnames; [apply (Permutation_in _ Hl) | apply (Permutation_in _ Hl)
                     | exact E]; assumption.
    - eapply Permutation_NoDup; [apply Permutation_sym; exact Hl | exact Hnd]. }
  apply (StronglySorted_perm_eq
           (R := fun a b => String.compare (anonymous_name a)
                                           (anonymous_name b) = Lt)).
  - intros a H. pose proof (String.compare_antisym (anonymous_name a)
                                                   (anonymous_name a)) as E.
    rewrite H in E. discriminate.
  - intros a b c. apply string_compare_lt_trans.
  - apply Hstrict; [exact Hp1 | apply sorted_by_anonymous_name].
  - apply Hstrict; [|apply sorted_by_anonymous_name].
    eapply perm_trans; [exact Hp2 | now apply Permutation_sym].
  - eapply perm_trans; [exact Hp1|].
    eapply perm_trans; [exact Hperm | now apply Permutation_sym].
Qed.

Lemma NoDup_of_keys :
  forall (K V : Type) (l : list (K * V)), NoDup (map fst l) -> NoDup l.
Proof.
  intros K V l. induction l as [|x l IH]; intros H; [constructor|].
  inversion H; subst. constructor; [|now apply IH].
  intros Hin. apply (in_map fst) in Hin. contradiction.
Qed.

Lemma last_default :
  forall (A : Type) (l : list A) (d d' : A), l <> [] -> last l d = last l d'.
Proof.
  induction l as [|x l IH]; intros d d' H; [contradiction|].
  destruct l as [|y l]; [reflexivity|].
  change (last (y :: l) d = last (y :: l) d'). apply IH. discriminate.
Qed.

Lemma synthdef_emitted_at {set_iteration : SetIteration} :
  forall session o,
    emitted_at offset_eqb (synthdef_emissions session) o
    = match dict_get_list offset_eqb (offsets_to_synthdefs session) o with
      | [] => []
      | sds =>
          [SynthDefReceiveRequest
             (sorted_with
                (fun x y => String.ltb (anonymous_name x) (anonymous_name y))
                sds)]
      end.
Proof.
  intros session o. unfold synthdef_emissions.
  rewrite (emitted_at_map_single offset_eqb (@fst Offset (list SynthDef))
             (fun item =>
                SynthDefReceiveRequest
                  (sorted_with
                     (fun x y => String.ltb (anonymous_name x) (anonymous_name y))
                     (snd item)))).
  rewrite filter_key_dict by apply offsets_to_synthdefs_NoDup.
  assert (Hne : Forall (fun e : Offset * list SynthDef => snd e <> [])
                       (offsets_to_synthdefs session)).
  { unfold offsets_to_synthdefs. apply emit_all_nonempty; [|constructor].
    rewrite Forall_forall. intros e He. apply in_map_iff in He.
    destruct He as [x [<- _]]. discriminate. }
  pose proof (dict_get_get_list offset_eqb o Hne) as H.
  destruct (dict_get offset_eqb (offsets_to_synthdefs session) o) as [sds|].
  - destruct H as [<- Hsds]. destruct sds; [contradiction | reflexivity].
  - rewrite H. reflexivity.
Qed.

Section TwoIterationOrders.
Variables one other : SetIteration.

(** The offset at which a definition is first used is the least start
    offset of the synths that use it, whatever the iteration order. *)
Lemma first_use_independent :
  forall session sd,
    dict_get SynthDef_eqb (synthdefs_to_offsets (set_iteration := one) session)
             sd
    = dict_get SynthDef_eqb
               (synthdefs_to_offsets (set_iteration := other) session) sd.
Proof.
  assert (H : forall (a b : SetIteration) session sd o,
             dict_get SynthDef_eqb
                      (synthdefs_to_offsets (set_iteration := a) session) sd
             = Some o ->
             dict_get SynthDef_eqb
                      (synthdefs_to_offsets (set_iteration := b) session) sd
             = Some o).
  { intros a b session sd o Ha.
    pose proof (synthdefs_to_offsets_used (set_iteration := a) session sd Ha)
      as Hused.
    destruct (synthdefs_to_offsets_get (set_iteration := a) session Hused)
      as (fa & Hga & (sa & Hsa & Hda & Hta) & Hmina).
    destruct (synthdefs_to_offsets_get (set_iteration := b) session Hused)
      as (fb & Hgb & (sb & Hsb & Hdb & Htb) & Hminb).
    rewrite Ha in Hga. injection Hga as Efa. rewrite Hgb. f_equal.
    apply offset_le_antisym.
    - rewrite Efa, <- Hta. now apply Hminb.
    - rewrite Efa, <- Htb. now apply Hmina. }
  intros session sd.
  destruct (dict_get SynthDef_eqb
              (synthdefs_to_offsets (set_iteration := one) session) sd)
    as [o|] eqn:E1.
  - symmetry. apply (H one other session sd o E1).
  - destruct (dict_get SynthDef_eqb
                (synthdefs_to_offsets (set_iteration := other) session) sd)
      as [o|] eqn:E2; [|reflexivity].
    rewrite (H other one session sd o E2) in E1. discriminate.
Qed.

Lemma definitions_at_NoDup :
  forall (set_iteration : SetIteration) session o,
    NoDup (dict_get_list offset_eqb (offsets_to_synthdefs session) o).
Proof.
  intros si session o. rewrite offsets_to_synthdefs_get_list.
  apply NoDup_map_fst_filter. apply synthdefs_to_offsets_NoDup.
Qed.

Lemma definitions_at_perm :
  forall session o,
    Permutation
      (dict_get_list offset_eqb
                     (offsets_to_synthdefs (set_iteration := one) session) o)
      (dict_get_list offset_eqb
                     (offsets_to_synthdefs (set_iteration := other) session) o).
Proof.
  intros session o. apply NoDup_Permutation.
  - apply definitions_at_NoDup.
  - apply definitions_at_NoDup.
  - intros sd. rewrite !offsets_to_synthdefs_In.
    now rewrite first_use_independent.
Qed.

Section DistinctNames.
Variable session : Session.

(** No two different definitions of synths that start together have the
    same anonymous name. *)
Hypothesis distinct_names :
  forall x y,
    In x (_synths session) -> In y (_synths session) ->
    start_offset x = start_offset y ->
    anonymous_name (synthdef x) = anonymous_name (synthdef y) ->
    synthdef x = synthdef y.

Lemma definitions_at_names :
  forall (set_iteration : SetIteration) o a b,
    In a (dict_get_list offset_eqb (offsets_to_synthdefs session) o) ->
    In b (dict_get_list offset_eqb (offsets_to_synthdefs session) o) ->
    anonymous_name a = anonymous_name b -> a = b.
Proof.
  intros si o a b Ha Hb E.
  apply offsets_to_synthdefs_In in Ha. apply offsets_to_synthdefs_In in Hb.
  pose proof (synthdefs_to_offsets_used session a Ha) as Ua.
  pose proof (synthdefs_to_offsets_used session b Hb) as Ub.
  destruct (synthdefs_to_offsets_get session Ua)
    as (fa & Hga & (sa & Hsa & Hda & Hta) & _).
  destruct (synthdefs_to_offsets_get session Ub)
    as (fb & Hgb & (sb & Hsb & Hdb & Htb) & _).
  rewrite Ha in Hga. rewrite Hb in Hgb.
  injection Hga as Efa. injection Hgb as Efb.
  rewrite <- Hda, <- Hdb.
  apply distinct_names; [exact Hsa | exact Hsb | congruence | congruence].
Qed.

Lemma requests_at_independent :
  forall o,
    requests_at (set_iteration := one) session o
    = requests_at (set_iteration := other) session o.
Proof.
  intros o. rewrite !requests_at_parts. f_equal. f_equal.
  rewrite !synthdef_emitted_at.
  pose proof (definitions_at_perm session o) as Hperm.
  pose proof (@sorted_distinct_names _ _ (definitions_at_NoDup one session o)
                Hperm (@definitions_at_names one o)) as Hsorted.
  destruct (dict_get_list offset_eqb
              (offsets_to_synthdefs (set_iteration := one) session) o)
    as [|a l1] eqn:E1;
    destruct (dict_get_list offset_eqb
                (offsets_to_synthdefs (set_iteration := other) session) o)
      as [|b l2] eqn:E2.
  - reflexivity.
  - apply Permutation_nil in Hperm. discriminate.
  - apply Permutation_sym, Permutation_nil in Hperm. discriminate.
  - now rewrite Hsorted.
Qed.

Lemma emission_keys_independent :
  forall o,
    In o (map fst (all_emissions (set_iteration := one) session))
    <-> In o (map fst (all_emissions (set_iteration := other) session)).
Proof.
  assert (H : forall (a b : SetIteration) o,
             (forall sd,
                 dict_get SynthDef_eqb
                          (synthdefs_to_offsets (set_iteration := a) session) sd
                 = dict_get SynthDef_eqb
                            (synthdefs_to_offsets (set_iteration := b) session)
                            sd) ->
             In o (map fst (all_emissions (set_iteration := a) session)) ->
             In o (map fst (all_emissions (set_iteration := b) session))).
  { intros a b o Hsame. unfold all_emissions.
    rewrite !map_app, !in_app_iff.
    intros [Hin | [Hin | Hin]]; [now left | right; left | now right; right].
    unfold synthdef_emissions in *. rewrite map_map in *. cbn [fst] in *.
    change (In o (dict_keys (offsets_to_synthdefs (set_iteration := a) session)))
      in Hin.
    change (In o (dict_keys (offsets_to_synthdefs (set_iteration := b) session))).
    unfold offsets_to_synthdefs in *.
    apply (emit_all_keys offset_eqb offset_eqb_eq) in Hin.
    apply (emit_all_keys offset_eqb offset_eqb_eq).
    destruct Hin as [[] | Hin]. right.
    rewrite map_map in *. cbn [fst] in *.
    apply in_map_iff in Hin. destruct Hin as [[sd o'] [Eo Hin]].
    cbn [snd] in Eo. subst o'.
    pose proof (synthdefs_to_offsets_NoDup (set_iteration := a) session) as Hnd.
    assert (Hget : dict_get SynthDef_eqb
                     (synthdefs_to_offsets (set_iteration := a) session) sd
                   = Some o).
    { apply (dict_In_get SynthDef_eqb SynthDef_eqb_eq); assumption. }
    rewrite Hsame in Hget.
    apply (dict_get_Some_In SynthDef_eqb SynthDef_eqb_eq) in Hget.
    apply in_map_iff. exists (sd, o). split; [reflexivity | exact Hget]. }
  intros o. split; apply H; intros sd.
  - apply first_use_independent.
  - symmetry. apply first_use_independent.
Qed.

Lemma request_mapping_independent :
  Permutation (request_mapping_of (set_iteration := one) session)
              (request_mapping_of (set_iteration := other) session).
Proof.
  apply NoDup_Permutation.
  - apply NoDup_of_keys. apply (request_mapping_NoDup (set_iteration := one)).
  - apply NoDup_of_keys. apply (request_mapping_NoDup (set_iteration := other)).
  - intros [o rs]. split; intros Hin.
    + rewrite (request_mapping_In _ _ _ Hin), requests_at_independent.
      apply request_mapping_has. apply emission_keys_independent.
      apply request_mapping_keys. unfold dict_keys.
      apply (in_map fst) in Hin. exact Hin.
    + rewrite (request_mapping_In _ _ _ Hin), <- requests_at_independent.
      apply request_mapping_has. apply emission_keys_independent.
      apply request_mapping_keys. unfold dict_keys.
      apply (in_map fst) in Hin. exact Hin.
Qed.

End DistinctNames.
End TwoIterationOrders.

(** C5: scheduling is deterministic but for one case.  The bundle
    producing operation creates its allocators and mappings anew at every
    call, sorts every sequence it takes from a dictionary, and takes from
    an unordered collection only the synths that start together, whose
    definitions it sorts by their anonymous names: whatever the order in
    which such a set is iterated, the bundles and the datagram are the
    same, provided that no two different definitions of synths that start
    together have the same anonymous name.  Where two such definitions
    do (one graph compiled under two names), the order in which one
    definition-receive command lists them is the iteration order of the
    set, and two iteration orders give two different lists of bundles. *)
Theorem scheduling_depends_on_set_iteration :
  (forall (one other : SetIteration)
          (inventory_timespan : list Synth -> Timespan)
          (inventory_and : list Synth -> Timespan -> list Synth)
          (inventory_translate : list Synth -> Offset -> list Synth)
          (offset_sub : Offset -> Offset -> Offset)
          (OscBundle_to_datagram : OscBundle -> list Byte.byte)
          (self : Session) (timespan : option Timespan),
      let session :=
        _process_timespan_mask inventory_timespan inventory_and
                               inventory_translate offset_sub self timespan in
      (forall x y,
          In x (_synths session) -> In y (_synths session) ->
          start_offset x = start_offset y ->
          anonymous_name (synthdef x) = anonymous_name (synthdef y) ->
          synthdef x = synthdef y) ->
      to_osc_bundles (set_iteration := one)
                     inventory_timespan inventory_and inventory_translate
                     offset_sub self timespan
      = to_osc_bundles (set_iteration := other)
                       inventory_timespan inventory_and inventory_translate
                       offset_sub self timespan
      /\ to_datagram (set_iteration := one)
                     inventory_timespan inventory_and inventory_translate
                     offset_sub OscBundle_to_datagram self timespan
         = to_datagram (set_iteration := other)
                       inventory_timespan inventory_and inventory_translate
                       offset_sub OscBundle_to_datagram self timespan)
  /\ (exists timestamp synth_requests later,
         to_osc_bundles (set_iteration := list_order)
                        whole_timespan keep_synths keep_offsets left_offset
                        SameGraph.session None
         = Ok ({| timestamp := timestamp;
                  contents :=
                    to_osc_message
                      (SynthDefReceiveRequest
                         [SameGraph.first; SameGraph.second])
                    :: synth_requests |} :: later)
         /\ to_osc_bundles (set_iteration := reverse_order)
                           whole_timespan keep_synths keep_offsets left_offset
                           SameGraph.session None
            = Ok ({| timestamp := timestamp;
                     contents :=
                       to_osc_message
                         (SynthDefReceiveRequest
                            [SameGraph.second; SameGraph.first])
                       :: synth_requests |} :: later))
  /\ to_osc_bundles (set_iteration := list_order)
                    whole_timespan keep_synths keep_offsets left_offset
                    SameGraph.session None
     <> to_osc_bundles (set_iteration := reverse_order)
                       whole_timespan keep_synths keep_offsets left_offset
                       SameGraph.session None.
Proof.
  split; [|split].
  - intros one other it ia itr os enc self timespan session Hnames.
    assert (Hbundles :
              to_osc_bundles (set_iteration := one) it ia itr os self timespan
              = to_osc_bundles (set_iteration := other) it ia itr os self
                               timespan).
    { rewrite (@to_osc_bundles_unfold it ia itr os one self timespan).
      rewrite (@to_osc_bundles_unfold it ia itr os other self timespan).
      fold session. rewrite !collect_requests_Ok. cbn [bind].
      pose proof (@request_mapping_independent one other session Hnames)
        as Hperm.
      pose proof (sorted_items_perm
                    (request_mapping_NoDup (set_iteration := one) session)
                    Hperm) as Hitems.
      destruct (request_mapping_of (set_iteration := one) session)
        as [|first1 rm1] eqn:E1;
        destruct (request_mapping_of (set_iteration := other) session)
          as [|first2 rm2] eqn:E2.
      - reflexivity.
      - apply Permutation_nil in Hperm. discriminate.
      - apply Permutation_sym, Permutation_nil in Hperm. discriminate.
      - cbv zeta. rewrite Hitems.
        rewrite (@last_default _ _ (fst first1) (fst first2)); [reflexivity|].
        intros En. apply map_eq_nil in En.
        assert (Hin : In first2 (sorted_with
                                   (fun x y : Offset * list Request =>
                                      offset_ltb (fst x) (fst y))
                                   (first2 :: rm2)))
          by (unfold sorted_with; apply sorted_In; now left).
        rewrite En in Hin. contradiction. }
    split; [exact Hbundles|].
    unfold to_datagram. now rewrite Hbundles.
  - eexists. eexists. eexists. split; vm_compute; reflexivity.
  - vm_compute. discriminate.
Qed.

Lemma scheduling_depends_on_set_iteration_witness :
  to_osc_bundles (set_iteration := list_order)
                 whole_timespan keep_synths keep_offsets left_offset
                 TwoDefinitions.session None
  = to_osc_bundles (set_iteration := reverse_order)
                   whole_timespan keep_synths keep_offsets left_offset
                   TwoDefinitions.session None.
Proof.
  refine (proj1 (proj1 scheduling_depends_on_set_iteration
                       list_order reverse_order
                       whole_timespan keep_synths keep_offsets left_offset
                       one_byte_per_message TwoDefinitions.session None _)).
  intros x y Hx Hy _ E. vm_compute in Hx, Hy.
  destruct Hx as [<- | [<- | []]]; destruct Hy as [<- | [<- | []]];
    try reflexivity; vm_compute in E; discriminate E.
Defined.

(** ** Bus addresses of a bus group *)

(** C4: on a session with one group of two control buses the loop of
    [_build_bus_id_mapping] allocates a block of two addresses for each
    member bus it meets instead of one block for the group, and assigns
    to each member the last address of its own block: the two members
    receive the addresses 1 and 3, the group is left with the block
    starting at 2, and no block of two consecutive addresses holds both
    members. *)
Theorem bus_group_members_are_not_contiguous :
  _build_bus_id_mapping Buses.grouped
  = [ (AudioOutputBusRef 0, 0); (AudioOutputBusRef 1, 1);
      (BusGroupRef 0, 2); (BusRef 0, 1); (BusRef 1, 3) ]
  /\ ~ (exists block,
           dict_get Ref_eqb (_build_bus_id_mapping Buses.grouped) (BusRef 0)
           = Some block
           /\ dict_get Ref_eqb (_build_bus_id_mapping Buses.grouped) (BusRef 1)
              = Some (block + 1)).
Proof.
  split; [reflexivity|].
  intros [block [H0 H1]]. vm_compute in H0. inversion H0; subst.
  vm_compute in H1. discriminate.
Qed.

(** ** The properties on the example sessions *)

Lemma bundle_commands_in_priority_order_witness :
  to_osc_bundles_plain Documentation.session
  = Ok DocumentationBundles.bundles
  /\ In DocumentationBundles.first_bundle DocumentationBundles.bundles
  /\ (forall i j mi mj,
         nth_error (contents DocumentationBundles.first_bundle) i = Some mi ->
         nth_error (contents DocumentationBundles.first_bundle) j = Some mj ->
         message_command mi = Some definition_receive ->
         message_command mj = Some synth_new ->
         i < j).
Proof.
  assert (Hok : to_osc_bundles_plain Documentation.session
                = Ok DocumentationBundles.bundles)
    by (vm_compute; reflexivity).
  assert (Hin : In DocumentationBundles.first_bundle
                   DocumentationBundles.bundles)
    by (left; reflexivity).
  split; [exact Hok|]. split; [exact Hin|].
  exact (proj1 (proj2 (@bundle_commands_in_priority_order list_order
                         whole_timespan keep_synths keep_offsets left_offset
                         Documentation.session None
                         DocumentationBundles.bundles
                         DocumentationBundles.first_bundle Hok Hin))).
Defined.

Lemma synthdef_received_once_at_first_use_witness :
  to_osc_bundles_plain ScenarioC.session = Ok ScenarioC.bundles
  /\ (exists s, In s (_synths ScenarioC.session)
                /\ synthdef s = Documentation.sine)
  /\ List.length (filter (receives Documentation.sine)
                         (flat_map contents ScenarioC.bundles)) = 1
  /\ (forall bundle m,
         In bundle ScenarioC.bundles -> In m (contents bundle) ->
         receives Documentation.sine m = true ->
         float (at_int 0) = Ok (timestamp bundle)).
Proof.
  assert (Hok : to_osc_bundles_plain ScenarioC.session = Ok ScenarioC.bundles)
    by (vm_compute; reflexivity).
  assert (Hused : exists s, In s (_synths ScenarioC.session)
                            /\ synthdef s = Documentation.sine).
  { exists (Documentation.synth 0 10 [] []). split; [left|]; reflexivity. }
  split; [exact Hok|]. split; [exact Hused|].
  destruct (@synthdef_received_once_at_first_use list_order
              whole_timespan keep_synths keep_offsets left_offset
              ScenarioC.session None ScenarioC.bundles Documentation.sine
              Hok Hused)
    as (first & (s & Hs & _ & Hfirst) & Hmin & Hcount & Hloc & _).
  split; [exact Hcount|].
  assert (E : first = at_int 0).
  { destruct Hs as [<- | [<- | []]]; [symmetry; exact Hfirst|].
    exfalso.
    apply (Hmin (Documentation.synth 0 10 [] [])
                (or_introl eq_refl) eq_refl).
    rewrite <- Hfirst. vm_compute. reflexivity. }
  rewrite <- E. exact Hloc.
Defined.

Lemma synth_ids_follow_start_then_declaration_witness :
  nth_error (_synths SameStart.session) 0 = Some SameStart.long_synth
  /\ nth_error (_synths SameStart.session) 1 = Some SameStart.short_synth
  /\ precedes (0, SameStart.long_synth) (1, SameStart.short_synth)
  /\ offset_lt (stop_offset SameStart.short_synth)
               (stop_offset SameStart.long_synth)
  /\ exists a b,
      dict_get Ref_eqb (_build_synth_id_mapping SameStart.session) (SynthRef 0)
      = Some a
      /\ dict_get Ref_eqb (_build_synth_id_mapping SameStart.session)
                  (SynthRef 1) = Some b
      /\ a < b.
Proof.
  assert (H0 : nth_error (_synths SameStart.session) 0
               = Some SameStart.long_synth) by reflexivity.
  assert (H1 : nth_error (_synths SameStart.session) 1
               = Some SameStart.short_synth) by reflexivity.
  assert (Hp : precedes (0, SameStart.long_synth) (1, SameStart.short_synth)).
  { right. split; [reflexivity | simpl; lia]. }
  split; [exact H0|]. split; [exact H1|]. split; [exact Hp|].
  split; [vm_compute; reflexivity|].
  exact (proj2 (proj2 (proj2 (proj2
           (@synth_ids_follow_start_then_declaration SameStart.session))))
           0 1 SameStart.long_synth SameStart.short_synth H0 H1 Hp).
Defined.

Lemma node_free_coalesced_witness :
  to_osc_bundles_plain Documentation.session = Ok DocumentationBundles.bundles
  /\ (exists s, In s (_synths Documentation.session)
                /\ stop_offset s = at_int 15)
  /\ exists position bundle,
      nth_error DocumentationBundles.bundles position = Some bundle
      /\ float (at_int 15) = Ok (timestamp bundle)
      /\ filter is_node_free (contents bundle)
         = [to_osc_message (NodeFreeRequest [1001; 1002])].
Proof.
  assert (Hok : to_osc_bundles_plain Documentation.session
                = Ok DocumentationBundles.bundles)
    by (vm_compute; reflexivity).
  assert (Hstop : exists s, In s (_synths Documentation.session)
                            /\ stop_offset s = at_int 15).
  { exists (Documentation.synth 0 15 [("frequency"%string, 666 # 1)] []).
    split; [right; right; left|]; reflexivity. }
  split; [exact Hok|]. split; [exact Hstop|].
  destruct (@node_free_coalesced list_order
              whole_timespan keep_synths keep_offsets left_offset
              Documentation.session None DocumentationBundles.bundles
              (at_int 15) Hok Hstop)
    as (position & bundle & node_ids & _ & _ & Hb & Ht & Hfree & Hids & _).
  exists position, bundle. split; [exact Hb|]. split; [exact Ht|].
  rewrite Hfree, Hids. vm_compute. reflexivity.
Defined.


Lemma datagram_is_sized_bundles_in_timestamp_order_witness :
  to_osc_bundles_plain Documentation.session
  = Ok DocumentationBundles.bundles
  /\ Forall (fun bundle =>
               (Z.of_nat (List.length (one_byte_per_message bundle)) < 2 ^ 31)%Z)
            DocumentationBundles.bundles
  /\ to_datagram (set_iteration := list_order) whole_timespan keep_synths keep_offsets left_offset
                 one_byte_per_message Documentation.session None
     = Ok (flat_map (datagram_record one_byte_per_message)
                    DocumentationBundles.bundles).
Proof.
  assert (Hok : to_osc_bundles_plain Documentation.session
                = Ok DocumentationBundles.bundles)
    by (vm_compute; reflexivity).
  assert (Hall : Forall (fun bundle =>
                           (Z.of_nat (List.length (one_byte_per_message bundle))
                            < 2 ^ 31)%Z)
                        DocumentationBundles.bundles)
    by (repeat constructor).
  split; [exact Hok|]. split; [exact Hall|].
  exact (proj2 (@datagram_is_sized_bundles_in_timestamp_order list_order
                  whole_timespan keep_synths keep_offsets left_offset
                  one_byte_per_message Documentation.session None)
               DocumentationBundles.bundles Hok Hall).
Defined.

Lemma empty_session_raises_ValueError_witness :
  all_emissions (set_iteration := list_order) Session_new = []
  /\ to_osc_bundles_plain Session_new = Raise "ValueError"
  /\ all_emissions (set_iteration := list_order) Documentation.session <> []
  /\ to_osc_bundles_plain Documentation.session <> Raise "ValueError"
  /\ exists bundles,
      to_osc_bundles_plain Documentation.session = Ok bundles
      /\ bundles <> [].
Proof.
  assert (Hempty : all_emissions (set_iteration := list_order) Session_new = [])
    by reflexivity.
  assert (Hne : all_emissions (set_iteration := list_order)
                              Documentation.session <> [])
    by (vm_compute; discriminate).
  split; [exact Hempty|]. split.
  - exact (proj1 (proj1 (proj2 (@empty_session_raises_ValueError list_order
                                  whole_timespan keep_synths keep_offsets
                                  left_offset one_byte_per_message
                                  Session_new None)) Hempty)).
  - split; [exact Hne|].
    destruct (proj2 (proj2 (@empty_session_raises_ValueError list_order
                              whole_timespan keep_synths keep_offsets
                              left_offset one_byte_per_message
                              Documentation.session None)) Hne)
      as (Hno & _ & _ & Hreturns).
    split; [exact Hno|]. apply Hreturns.
    + intros offset Hin. vm_compute in Hin.
      repeat (destruct Hin as [<- | Hin];
              [eexists; vm_compute; reflexivity|]).
      contradiction.
    + intros range Hrange. discriminate.
Defined.

(* ================================================================== *)
(** * Further properties of the code *)

(** ** Rendering over a range *)

Section RangeFacts.
Variable inventory_timespan : list Synth -> Timespan.
Variable inventory_and : list Synth -> Timespan -> list Synth.
Variable inventory_translate : list Synth -> Offset -> list Synth.
Variable offset_sub : Offset -> Offset -> Offset.
Context {set_iteration : SetIteration}.

Let masked :=
  _process_timespan_mask inventory_timespan inventory_and
                         inventory_translate offset_sub.

Lemma masked_session_is_fresh :
  forall self span,
    _synths self <> [] ->
    _buses (masked self (Some span)) = []
    /\ _input_count (masked self (Some span)) = 0
    /\ _output_count (masked self (Some span)) = 2.
Proof.
  intros self span H. unfold masked, _process_timespan_mask.
  destruct (_synths self); [contradiction|]. simpl. auto.
Qed.

Lemma unmasked_session :
  forall self timespan,
    timespan = None \/ _synths self = [] -> masked self timespan = self.
Proof.
  intros self timespan [-> | H]; unfold masked, _process_timespan_mask.
  - reflexivity.
  - rewrite H. now destruct timespan.
Qed.

End RangeFacts.

Lemma changes_at_without_buses :
  forall session o, _buses session = [] -> changes_at session o = [].
Proof.
  intros session o H. unfold changes_at, control_bus_events. now rewrite H.
Qed.

(** X1: when a render range is given and the session holds at least one
    synth, [_process_timespan_mask] builds a new session with
    [type(self)()] and inserts only the masked synths: the session that
    is rendered has no bus of its own, no input channel and two output
    channels, whatever the original session had, and no bundle of the
    result carries a control-bus-set command. *)
Theorem range_rendering_drops_bus_values :
  forall (set_iteration : SetIteration)
         (inventory_timespan : list Synth -> Timespan)
         (inventory_and : list Synth -> Timespan -> list Synth)
         (inventory_translate : list Synth -> Offset -> list Synth)
         (offset_sub : Offset -> Offset -> Offset)
         (self : Session) (span : Timespan) (bundles : list OscBundle),
    let session :=
      _process_timespan_mask inventory_timespan inventory_and
                             inventory_translate offset_sub self (Some span) in
    _synths self <> [] ->
    to_osc_bundles inventory_timespan inventory_and inventory_translate
                   offset_sub self (Some span) = Ok bundles ->
    _buses session = []
    /\ _input_count session = 0
    /\ _output_count session = 2
    /\ (forall bundle m,
           In bundle bundles -> In m (contents bundle) -> is_bus_set m = false).
Proof.
  intros si it ia itr os self span bundles session Hs Hok.
  destruct (masked_session_is_fresh it ia itr os self span Hs)
    as (Hb & Hi & Ho).
  fold session in Hb, Hi, Ho.
  split; [exact Hb|]. split; [exact Hi|]. split; [exact Ho|].
  intros bundle m Hin Hm.
  destruct (rendered_bundles it ia itr os self (Some span) Hok)
    as (_ & Hall).
  fold session in Hall.
  destruct (Hall bundle Hin) as [(o & _ & _ & E) | E].
  - destruct (is_bus_set m) eqn:Em; [|reflexivity]. exfalso.
    assert (Hf : In m (filter is_bus_set (contents bundle)))
      by (apply filter_In; auto).
    rewrite E, process_requests_bus_set, bus_set_requests_at in Hf.
    now rewrite (changes_at_without_buses session _ Hb) in Hf.
  - rewrite E in Hm. destruct Hm as [<- | []]. reflexivity.
Qed.

Lemma range_rendering_drops_bus_values_witness :
  _synths Ranged.session <> []
  /\ changes_at Ranged.session (at_int 0) <> []
  /\ Ranged.to_osc_bundles_ranged Ranged.session (Some Ranged.range)
     = Ok Ranged.bundles
  /\ (forall bundle m,
         In bundle Ranged.bundles -> In m (contents bundle) ->
         is_bus_set m = false).
Proof.
  split; [discriminate|]. split; [discriminate|].
  split; [vm_compute; reflexivity|].
  apply (@range_rendering_drops_bus_values list_order
           Ranged.inventory_timespan keep_synths keep_offsets left_offset
           Ranged.session Ranged.range Ranged.bundles).
  - discriminate.
  - vm_compute. reflexivity.
Defined.

(** ** The terminal bundle *)

Lemma scheduled_messages_encode_requests :
  forall offset requests m,
    In m (contents (bundle_of offset requests)) ->
    m <> OscMessage_of_address 0.
Proof.
  intros offset requests m Hin E. subst m.
  destruct (process_requests_commands offset requests _ Hin) as [c Hc].
  discriminate.
Qed.

(** X2: the result of [to_osc_bundles] is the bundles of the offsets
    that have a request, of which there is at least one and none of
    which holds [OscMessage(0)], followed by what
    [_process_terminal_event] returns: nothing when no range is given,
    when the range stops at infinity, or when an offset with a request
    lies at or after the stop offset of the range; and exactly one
    bundle, with the stop offset converted by [float] as its timestamp
    and holding only [OscMessage(0)], when the range stops, not at
    infinity, after every offset with a request.  The offsets are
    compared before they are converted, so the terminal bundle may carry
    the timestamp of the bundle before it. *)
Theorem terminal_bundle_closes_the_range :
  forall (set_iteration : SetIteration)
         (inventory_timespan : list Synth -> Timespan)
         (inventory_and : list Synth -> Timespan -> list Synth)
         (inventory_translate : list Synth -> Offset -> list Synth)
         (offset_sub : Offset -> Offset -> Offset)
         (self : Session) (timespan : option Timespan)
         (bundles : list OscBundle),
    let session :=
      _process_timespan_mask inventory_timespan inventory_and
                             inventory_translate offset_sub self timespan in
    to_osc_bundles inventory_timespan inventory_and inventory_translate
                   offset_sub self timespan = Ok bundles ->
    exists scheduled terminal,
      bundles = scheduled ++ terminal
      /\ scheduled_offsets session <> []
      /\ List.length scheduled = List.length (scheduled_offsets session)
      /\ (forall position offset,
             nth_error (scheduled_offsets session) position = Some offset ->
             exists bundle,
               nth_error scheduled position = Some bundle
               /\ float offset = Ok (timestamp bundle))
      /\ (forall bundle m,
             In bundle scheduled -> In m (contents bundle) ->
             m <> OscMessage_of_address 0)
      /\ (timespan = None -> terminal = [])
      /\ (forall span,
             timespan = Some span ->
             timespan_stop_offset span = Infinity
             \/ (exists offset,
                    In offset (scheduled_offsets session)
                    /\ offset_le (timespan_stop_offset span) offset) ->
             terminal = [])
      /\ (forall span,
             timespan = Some span ->
             timespan_stop_offset span <> Infinity ->
             (forall offset,
                 In offset (scheduled_offsets session) ->
                 offset_lt offset (timespan_stop_offset span)) ->
             exists timestamp,
               float (timespan_stop_offset span) = Ok timestamp
               /\ terminal = [ {| timestamp := timestamp;
                                  contents := [OscMessage_of_address 0] |} ]).
Proof.
  intros si it ia itr os self timespan bundles session Hok.
  destruct (to_osc_bundles_result it ia itr os self timespan Hok)
    as (final & -> & Hconv & Hterm & [rs Hfin] & Hfinal).
  fold session in Hconv, Hfin, Hfinal |- *.
  assert (Hkey : In final (scheduled_offsets session)).
  { apply scheduled_offsets_In. apply request_mapping_keys.
    unfold dict_keys. apply (in_map fst) in Hfin. exact Hfin. }
  assert (Hle : forall offset, In offset (scheduled_offsets session) ->
                               offset_le offset final).
  { intros offset Hin. apply scheduled_offsets_In in Hin.
    apply request_mapping_has in Hin. eapply Hfinal. exact Hin. }
  exists (bundles_of (request_mapping_of session)),
         (terminal_of final timespan).
  split; [reflexivity|]. split.
  { intros En. rewrite En in Hkey. contradiction. }
  split.
  { unfold bundles_of, scheduled_offsets. now rewrite !length_map. }
  split.
  { intros position offset Hpos.
    exists (bundle_of offset (requests_at session offset)). split.
    - rewrite bundles_of_position, Hpos. reflexivity.
    - cbn [timestamp bundle_of].
      unfold converted_items in Hconv. rewrite Forall_forall in Hconv.
      apply (Hconv (offset, requests_at session offset)).
      apply request_mapping_has. apply scheduled_offsets_In.
      eapply nth_error_In. exact Hpos. }
  split.
  { intros bundle m Hb Hm. apply bundles_of_In in Hb.
    destruct Hb as (o & rq & _ & ->).
    eapply scheduled_messages_encode_requests. exact Hm. }
  split; [intros ->; reflexivity|]. split.
  - intros span -> H. simpl.
    destruct (not_in_prototype (timespan_stop_offset span)) eqn:E1;
      [|reflexivity].
    destruct (offset_ltb final (timespan_stop_offset span)) eqn:E2;
      [|reflexivity].
    exfalso. apply offset_ltb_lt in E2. destruct H as [H | (o & Ho & Hstop)].
    + rewrite H in E1. discriminate.
    + apply (offset_lt_irrefl (a := final)).
      eapply offset_lt_le_trans; [exact E2|].
      eapply offset_le_trans; [exact Hstop | now apply Hle].
  - intros span -> Hinf Hall.
    assert (E1 : not_in_prototype (timespan_stop_offset span) = true).
    { unfold not_in_prototype. rewrite orb_false_r. apply negb_true_iff.
      now apply offset_eqb_neq. }
    assert (E2 : offset_ltb final (timespan_stop_offset span) = true).
    { apply offset_ltb_lt. now apply Hall. }
    cbn [_process_terminal_event terminal_of] in Hterm |- *.
    rewrite E1, E2 in Hterm |- *. cbn [andb] in Hterm |- *.
    destruct (float (timespan_stop_offset span)) as [t|e] eqn:Ef;
      cbn [bind] in Hterm; [|discriminate].
    exists t. split; [reflexivity|].
    now rewrite (float_timestamp_of _ Ef).
Qed.

Lemma terminal_bundle_closes_the_range_witness :
  Ranged.to_osc_bundles_ranged Ranged.session (Some Ranged.range)
  = Ok Ranged.bundles
  /\ exists scheduled terminal timestamp,
      Ranged.bundles = scheduled ++ terminal
      /\ List.length scheduled = 2
      /\ float (at_int 20) = Ok timestamp
      /\ terminal = [ {| timestamp := timestamp;
                         contents := [OscMessage_of_address 0] |} ].
Proof.
  assert (Hok : Ranged.to_osc_bundles_ranged Ranged.session (Some Ranged.range)
                = Ok Ranged.bundles) by (vm_compute; reflexivity).
  split; [exact Hok|].
  destruct (@terminal_bundle_closes_the_range list_order
              Ranged.inventory_timespan keep_synths keep_offsets left_offset
              Ranged.session (Some Ranged.range) Ranged.bundles Hok)
    as (scheduled & terminal & Hb & _ & Hlen & _ & _ & _ & _ & Hcloses).
  destruct (Hcloses Ranged.range eq_refl) as (timestamp & Hf & Ht).
  - discriminate.
  - intros offset Hin. vm_compute in Hin.
    destruct Hin as [<- | [<- | []]]; reflexivity.
  - exists scheduled, terminal, timestamp.
    split; [exact Hb|]. split; [exact Hlen|]. split; [exact Hf | exact Ht].
Defined.

(** ** No bundle is empty *)

Lemma process_requests_not_empty :
  forall offset requests,
    requests <> [] -> contents (bundle_of offset requests) <> [].
Proof.
  intros offset requests Hne. rewrite process_requests_contents.
  destruct requests as [|r rs]; [contradiction|].
  destruct (has_type NodeFreeRequestType r) eqn:Ef.
  - cbn [filter]. rewrite Ef. intros E. apply app_eq_nil in E.
    destruct E as [_ E]. discriminate.
  - intros E. apply app_eq_nil in E. destruct E as [E _].
    assert (Hin : In (to_osc_message r)
                     (flat_map
                        (fun t => map to_osc_message
                                      (filter (has_type t) (r :: rs)))
                        _prioritized_request_types)).
    { apply in_flat_map. exists (type_of r). split.
      - destruct r; simpl; try tauto. discriminate.
      - apply in_map. apply filter_In. split; [now left|].
        unfold has_type. apply RequestType_eqb_eq. reflexivity. }
    rewrite E in Hin. contradiction.
Qed.

Lemma dict_extend_nonempty :
  forall (K A : Type) (eqb : K -> K -> bool) (d : Dict K (list A)) k xs,
    xs <> [] ->
    Forall (fun e => snd e <> []) d ->
    Forall (fun e : K * list A => snd e <> []) (dict_extend eqb d k xs).
Proof.
  intros K A eqb d k xs Hxs Hd.
  change (dict_extend eqb d k xs) with (emit_all eqb [(k, xs)] d).
  apply emit_all_nonempty; [|exact Hd]. now constructor.
Qed.

Lemma synth_requests_nonempty :
  forall node_id s,
    Forall (fun e : Offset * list Request => snd e <> [])
           (synth_requests node_id s).
Proof.
  intros node_id s. unfold synth_requests.
  apply dict_extend_nonempty; [discriminate|].
  assert (H : forall events acc,
             Forall (fun e : Offset * list Request => snd e <> []) acc ->
             Forall (fun e : Offset * list Request => snd e <> [])
                    (fold_left
                       (fun acc event =>
                          dict_extend offset_eqb acc (fst event)
                                      [NodeSetRequest node_id [snd event]])
                       events acc)).
  { induction events as [|ev events IH]; intros acc Hacc; simpl; [exact Hacc|].
    apply IH. apply dict_extend_nonempty; [discriminate | exact Hacc]. }
  apply H. apply dict_extend_nonempty; [discriminate | constructor].
Qed.

Lemma all_emissions_nonempty {set_iteration : SetIteration} :
  forall session,
    Forall (fun e : Offset * list Request => snd e <> [])
           (all_emissions session).
Proof.
  intros session. unfold all_emissions.
  apply Forall_app. split; [|apply Forall_app; split].
  - unfold bus_emissions. apply Forall_forall. intros e He.
    apply in_map_iff in He. destruct He as [x [<- _]]. discriminate.
  - unfold synthdef_emissions. apply Forall_forall. intros e He.
    apply in_map_iff in He. destruct He as [x [<- _]]. discriminate.
  - unfold synth_emissions. apply Forall_forall. intros e He.
    apply in_flat_map in He. destruct He as [x [_ He]].
    pose proof (synth_requests_nonempty
                  (node_id_of (id_mapping_of session) (fst x)) (snd x)) as H.
    rewrite Forall_forall in H. now apply H.
Qed.

(** X3: whenever [to_osc_bundles] returns, it returns at least one
    bundle and every bundle holds at least one message. *)
Theorem no_bundle_is_empty :
  forall (set_iteration : SetIteration)
         (inventory_timespan : list Synth -> Timespan)
         (inventory_and : list Synth -> Timespan -> list Synth)
         (inventory_translate : list Synth -> Offset -> list Synth)
         (offset_sub : Offset -> Offset -> Offset)
         (self : Session) (timespan : option Timespan)
         (bundles : list OscBundle),
    to_osc_bundles inventory_timespan inventory_and inventory_translate
                   offset_sub self timespan = Ok bundles ->
    bundles <> []
    /\ Forall (fun bundle => contents bundle <> []) bundles.
Proof.
  intros si it ia itr os self timespan bundles Hok.
  destruct (to_osc_bundles_Ok it ia itr os self timespan Hok)
    as (rm & final & Hrm & Hne & _ & _ & ->).
  rewrite collect_requests_Ok in Hrm. inversion Hrm; subst rm. clear Hrm.
  split.
  - intros E. apply app_eq_nil in E. destruct E as [E _].
    unfold bundles_of in E. apply map_eq_nil in E.
    apply Hne. apply Permutation_nil.
    rewrite <- E. unfold sorted_with. apply sorted_perm.
  - apply Forall_app. split.
    + apply Forall_forall. intros bundle Hin. apply bundles_of_In in Hin.
      destruct Hin as (o & rs & Hin & ->).
      apply process_requests_not_empty.
      pose proof (emit_all_nonempty offset_eqb
                    (emissions := all_emissions
                       (_process_timespan_mask it ia itr os self timespan))
                    (d := [])
                    (all_emissions_nonempty _) (Forall_nil _)) as H.
      rewrite Forall_forall in H. apply (H _ Hin).
    + apply Forall_forall. intros bundle Hin.
      rewrite (terminal_event_contents _ _ _ Hin). discriminate.
Qed.

Lemma no_bundle_is_empty_witness :
  to_osc_bundles_plain Buses.session = Ok Buses.bundles
  /\ Buses.bundles <> []
  /\ Forall (fun bundle => contents bundle <> []) Buses.bundles.
Proof.
  assert (Hok : to_osc_bundles_plain Buses.session
                = Ok Buses.bundles) by (vm_compute; reflexivity).
  split; [exact Hok|].
  exact (@no_bundle_is_empty list_order whole_timespan keep_synths keep_offsets
                             left_offset Buses.session None Buses.bundles Hok).
Defined.

(** ** The addresses of the buses of a session *)

Lemma bus_size_positive : forall bus, 1 <= bus_size bus.
Proof.
  intros bus. unfold bus_size. destruct (bus_group bus); lia.
Qed.

Lemma list_sum_cons : forall x l, list_sum (x :: l) = x + list_sum l.
Proof. reflexivity. Qed.

Lemma list_sum_nil : list_sum [] = 0.
Proof. reflexivity. Qed.

Lemma assign_last :
  forall (k : Ref) (addresses : list nat) (d : Dict Ref nat) (a : nat) k',
    dict_get Ref_eqb
      (fold_left (fun acc bus_id => dict_set Ref_eqb acc k bus_id)
                 (addresses ++ [a]) d) k'
    = if Ref_eqb k k' then Some a else dict_get Ref_eqb d k'.
Proof.
  intros k addresses d a k'. rewrite fold_left_app. simpl.
  rewrite (dict_get_set Ref_eqb Ref_eqb_eq).
  destruct (Ref_eqb k k') eqn:E; [reflexivity|].
  revert d. induction addresses as [|x l IH]; intros d; simpl; [reflexivity|].
  rewrite IH. rewrite (dict_get_set Ref_eqb Ref_eqb_eq). now rewrite E.
Qed.

Lemma seq_last :
  forall start n, seq start (S n) = seq start n ++ [start + n].
Proof. intros start n. rewrite seq_S. reflexivity. Qed.

(** One turn of the loop for a bus that is not in the mapping yet. *)
Lemma build_bus_step_address :
  forall mapping audio control handle bus,
    dict_get Ref_eqb mapping (BusRef handle) = None ->
    let state :=
      _build_bus_id_mapping_step
        (mapping, {| audio_bus_allocator := {| free_from := audio |};
                     control_bus_allocator := {| free_from := control |} |})
        (handle, bus) in
    dict_get Ref_eqb (fst state) (BusRef handle)
    = Some ((if is_audio bus then audio else control) + bus_size bus - 1)
    /\ snd state
       = {| audio_bus_allocator :=
              {| free_from := if is_audio bus then audio + bus_size bus
                              else audio |};
            control_bus_allocator :=
              {| free_from := if is_audio bus then control
                              else control + bus_size bus |} |}
    /\ (forall k, k <> BusRef handle -> (forall g, k <> BusGroupRef g) ->
                  dict_get Ref_eqb (fst state) k = dict_get Ref_eqb mapping k).
Proof.
  intros mapping audio control handle bus Hnone state.
  unfold state, _build_bus_id_mapping_step, bus_size, is_audio.
  apply dict_mem_false_get in Hnone. rewrite Hnone.
  unfold allocate_for, allocate.
  destruct (bus_group bus) as [group|].
  - destruct (Pos.to_nat (bus_count group)) as [|n] eqn:En;
      [pose proof (Pos2Nat.is_pos (bus_count group)); lia|].
    destruct (CalculationRate_eqb (calculation_rate bus) AUDIO);
      cbn [fst snd free_from audio_bus_allocator control_bus_allocator];
      rewrite seq_last; (split; [|split]).
    + rewrite assign_last.
      rewrite (proj2 (Ref_eqb_eq _ _) eq_refl). f_equal. lia.
    + reflexivity.
    + intros k Hk Hg. rewrite assign_last.
      destruct (Ref_eqb (BusRef handle) k) eqn:E;
        [apply Ref_eqb_eq in E; congruence|].
      apply (dict_get_set_other Ref_eqb Ref_eqb_eq). intros E'.
      apply (Hg (bus_group_handle group)). now symmetry.
    + rewrite assign_last.
      rewrite (proj2 (Ref_eqb_eq _ _) eq_refl). f_equal. lia.
    + reflexivity.
    + intros k Hk Hg. rewrite assign_last.
      destruct (Ref_eqb (BusRef handle) k) eqn:E;
        [apply Ref_eqb_eq in E; congruence|].
      apply (dict_get_set_other Ref_eqb Ref_eqb_eq). intros E'.
      apply (Hg (bus_group_handle group)). now symmetry.
  - destruct (CalculationRate_eqb (calculation_rate bus) AUDIO);
      cbn [fst snd free_from audio_bus_allocator control_bus_allocator];
      (split; [|split]).
    + rewrite (dict_get_set Ref_eqb Ref_eqb_eq).
      rewrite (proj2 (Ref_eqb_eq _ _) eq_refl). f_equal. lia.
    + reflexivity.
    + intros k Hk _. apply (dict_get_set_other Ref_eqb Ref_eqb_eq).
      congruence.
    + rewrite (dict_get_set Ref_eqb Ref_eqb_eq).
      rewrite (proj2 (Ref_eqb_eq _ _) eq_refl). f_equal. lia.
    + reflexivity.
    + intros k Hk _. apply (dict_get_set_other Ref_eqb Ref_eqb_eq).
      congruence.
Qed.

(** A turn of the loop leaves every key other than the bus of the turn
    and the bus groups as it was. *)
Lemma build_bus_step_keeps :
  forall state handle bus k,
    k <> BusRef handle -> (forall g, k <> BusGroupRef g) ->
    dict_get Ref_eqb (fst (_build_bus_id_mapping_step state (handle, bus))) k
    = dict_get Ref_eqb (fst state) k.
Proof.
  intros [mapping [[audio] [control]]] handle bus k Hk Hg.
  destruct (dict_get Ref_eqb mapping (BusRef handle)) as [v|] eqn:E.
  - unfold _build_bus_id_mapping_step.
    assert (M : dict_mem Ref_eqb mapping (BusRef handle) = true)
      by (apply dict_mem_true_get; eauto).
    now rewrite M.
  - destruct (@build_bus_step_address mapping audio control handle bus E)
      as (_ & _ & H).
    apply H; assumption.
Qed.

Lemma build_bus_fold_keeps_key :
  forall entries state k,
    (forall entry, In entry entries -> k <> BusRef (fst entry)) ->
    (forall g, k <> BusGroupRef g) ->
    dict_get Ref_eqb (fst (fold_left _build_bus_id_mapping_step entries state)) k
    = dict_get Ref_eqb (fst state) k.
Proof.
  induction entries as [|[handle bus] entries IH]; intros state k Hk Hg;
    simpl; [reflexivity|].
  rewrite IH.
  - apply build_bus_step_keeps; [|exact Hg]. apply (Hk (handle, bus)). now left.
  - intros entry Hin. apply Hk. now right.
  - exact Hg.
Qed.

Lemma enumerate_handles_above :
  forall (A : Type) (xs : list A) start entry,
    In entry (enumerate start xs) -> start <= fst entry.
Proof.
  intros A xs start [i x] Hin. apply enumerate_In in Hin. simpl. lia.
Qed.

(** The address that the loop gives to each bus, in closed form. *)
Lemma build_bus_fold_address :
  forall buses start mapping audio control i bus,
    (forall h, start <= h -> dict_get Ref_eqb mapping (BusRef h) = None) ->
    nth_error buses i = Some bus ->
    dict_get Ref_eqb
      (fst (fold_left _build_bus_id_mapping_step (enumerate start buses)
              (mapping,
               {| audio_bus_allocator := {| free_from := audio |};
                  control_bus_allocator := {| free_from := control |} |})))
      (BusRef (start + i))
    = Some ((if is_audio bus then audio else control)
            + requested_through buses i bus - 1).
Proof.
  induction buses as [|b buses IH];
    intros start mapping audio control i bus Hnone Hnth.
  - destruct i; discriminate.
  - cbn [enumerate fold_left].
    destruct (@build_bus_step_address mapping audio control start b
                (Hnone start (le_n _)))
      as (Hget & Hsnd & Hkeep).
    destruct (_build_bus_id_mapping_step _ (start, b)) as [mapping' allocators']
      eqn:Estep.
    cbn [fst snd] in Hget, Hsnd, Hkeep. subst allocators'.
    destruct i as [|i].
    + inversion Hnth; subst b. rewrite Nat.add_0_r.
      rewrite build_bus_fold_keeps_key.
      * cbn [fst]. rewrite Hget. unfold requested_through.
        cbn [firstn filter]. unfold same_allocator at 1.
        rewrite eqb_reflx. cbn [map]; rewrite ?list_sum_cons, ?list_sum_nil. apply f_equal. lia.
      * intros entry Hin E. apply enumerate_handles_above in Hin.
        inversion E. lia.
      * discriminate.
    + cbn [nth_error] in Hnth.
      replace (start + S i) with (S start + i) by lia.
      rewrite (@IH (S start) mapping' _ _ i bus); [| |exact Hnth].
      * f_equal. unfold requested_through.
        change (firstn (S (S i)) (b :: buses)) with (b :: firstn (S i) buses).
        cbn [filter]. unfold same_allocator at 2.
        destruct (is_audio bus), (is_audio b); cbn [Bool.eqb map]; rewrite ?list_sum_cons;
          pose proof (bus_size_positive b); lia.
      * intros h Hh. rewrite Hkeep; [apply Hnone; lia | | discriminate].
        intros E. inversion E. lia.
Qed.

Lemma reserved_bus_mapping_no_bus :
  forall self h, dict_get Ref_eqb (reserved_bus_mapping self) (BusRef h) = None.
Proof.
  intros self h. apply dict_mem_false_get.
  destruct (dict_mem Ref_eqb (reserved_bus_mapping self) (BusRef h)) eqn:M;
    [|reflexivity].
  apply reserved_bus_mapping_mem in M.
  destruct M as [[i M] | [i M]]; discriminate.
Qed.

Lemma bus_address :
  forall self handle bus,
    nth_error (_buses self) handle = Some bus ->
    dict_get Ref_eqb (_build_bus_id_mapping self) (BusRef handle)
    = Some (heap_minimum_of self bus
            + requested_through (_buses self) handle bus - 1).
Proof.
  intros self handle bus H. rewrite build_bus_id_mapping_fold.
  unfold BlockAllocator_new.
  apply (@build_bus_fold_address (_buses self) 0 (reserved_bus_mapping self)
           (_input_count self + _output_count self) 0 handle bus).
  - intros h _. apply reserved_bus_mapping_no_bus.
  - exact H.
Qed.

Lemma requested_through_positive :
  forall buses handle bus,
    nth_error buses handle = Some bus ->
    bus_size bus <= requested_through buses handle bus.
Proof.
  induction buses as [|b buses IH]; intros handle bus H.
  - destruct handle; discriminate.
  - unfold requested_through.
    change (firstn (S handle) (b :: buses)) with (b :: firstn handle buses).
    destruct handle as [|handle].
    + inversion H; subst. cbn [firstn filter]. unfold same_allocator.
      rewrite eqb_reflx. cbn [map]; rewrite ?list_sum_cons, ?list_sum_nil. lia.
    + cbn [nth_error] in H. specialize (IH handle bus H).
      unfold requested_through in IH. cbn [filter].
      destruct (same_allocator bus b); cbn [map]; rewrite ?list_sum_cons, ?list_sum_nil; lia.
Qed.

Lemma requested_through_increases :
  forall buses h1 h2 b1 b2,
    nth_error buses h1 = Some b1 -> nth_error buses h2 = Some b2 ->
    h1 < h2 -> same_allocator b1 b2 = true ->
    requested_through buses h1 b1 + bus_size b2
    <= requested_through buses h2 b2.
Proof.
  induction buses as [|b buses IH]; intros h1 h2 b1 b2 H1 H2 Hlt Hsame.
  - destruct h1; discriminate.
  - destruct h2 as [|h2]; [lia|]. cbn [nth_error] in H2.
    assert (Hfilter : forall x, same_allocator b1 x = same_allocator b2 x).
    { intros x. unfold same_allocator in *.
      apply eqb_prop in Hsame. now rewrite Hsame. }
    unfold requested_through.
    change (firstn (S (S h2)) (b :: buses)) with (b :: firstn (S h2) buses).
    change (firstn (S h1) (b :: buses)) with (b :: firstn h1 buses).
    cbn [filter]. rewrite Hfilter.
    destruct h1 as [|h1].
    + change (firstn 0 buses) with (@nil Bus). cbn [filter].
      pose proof (requested_through_positive _ _ H2) as Hp.
      unfold requested_through in Hp.
      destruct (same_allocator b2 b); cbn [map]; rewrite ?list_sum_cons, ?list_sum_nil; lia.
    + cbn [nth_error] in H1.
      assert (Hlt' : h1 < h2) by lia.
      pose proof (IH h1 h2 b1 b2 H1 H2 Hlt' Hsame) as G.
      unfold requested_through in G.
      destruct (same_allocator b2 b); cbn [map]; rewrite ?list_sum_cons, ?list_sum_nil; lia.
Qed.

Lemma enumerate_app :
  forall (A : Type) (xs ys : list A) (start : nat),
    enumerate start (xs ++ ys)
    = enumerate start xs ++ enumerate (start + List.length xs) ys.
Proof.
  induction xs as [|x xs IH]; intros ys start; simpl.
  - now rewrite Nat.add_0_r.
  - rewrite IH, Nat.add_succ_r. reflexivity.
Qed.

Lemma find_app_first :
  forall (A : Type) (p : A -> bool) (l1 l2 : list A),
    find p (l1 ++ l2)
    = match find p l1 with Some x => Some x | None => find p l2 end.
Proof.
  induction l1 as [|x l1 IH]; intros l2; simpl; [reflexivity|].
  destruct (p x); [reflexivity | apply IH].
Qed.

(** Assigning consecutive numbers to the members of a reserved group. *)
Lemma assign_group_get :
  forall (member : nat -> Ref) (n start : nat) (d : Dict Ref nat) (k : Ref),
    (forall i j, member i = member j -> i = j) ->
    dict_get Ref_eqb
      (fold_left (fun acc entry => dict_set Ref_eqb acc (snd entry) (fst entry))
                 (enumerate start (map member (seq 0 n))) d) k
    = match find (fun i => Ref_eqb (member i) k) (seq 0 n) with
      | Some i => Some (start + i)
      | None => dict_get Ref_eqb d k
      end.
Proof.
  intros member n start d k Hinj. induction n as [|n IH].
  - reflexivity.
  - rewrite seq_S, map_app, enumerate_app, fold_left_app. simpl.
    rewrite length_map, length_seq.
    rewrite (dict_get_set Ref_eqb Ref_eqb_eq), IH.
    rewrite find_app_first.
    destruct (find (fun i => Ref_eqb (member i) k) (seq 0 n)) as [i|] eqn:E.
    + apply find_some in E. destruct E as [Hin E]. apply Ref_eqb_eq in E.
      apply in_seq in Hin.
      destruct (Ref_eqb (member n) k) eqn:E'; [|reflexivity].
      apply Ref_eqb_eq in E'. rewrite <- E' in E. apply Hinj in E. lia.
    + simpl. destruct (Ref_eqb (member n) k); reflexivity.
Qed.

Lemma find_in_seq :
  forall (member : nat -> Ref) n i,
    (forall i j, member i = member j -> i = j) ->
    i < n ->
    find (fun j => Ref_eqb (member j) (member i)) (seq 0 n) = Some i.
Proof.
  intros member n i Hinj Hlt.
  destruct (find (fun j => Ref_eqb (member j) (member i)) (seq 0 n))
    as [j|] eqn:E.
  - apply find_some in E. destruct E as [_ E]. apply Ref_eqb_eq in E.
    apply Hinj in E. now subst.
  - exfalso. eapply find_none in E; [|apply in_seq; split; [lia | exact Hlt]].
    simpl in E.
    now rewrite (proj2 (Ref_eqb_eq (member i) (member i)) eq_refl) in E.
Qed.

Lemma find_not_member :
  forall (member : nat -> Ref) n k,
    (forall i, member i <> k) ->
    find (fun j => Ref_eqb (member j) k) (seq 0 n) = None.
Proof.
  intros member n k Hk.
  destruct (find (fun j => Ref_eqb (member j) k) (seq 0 n)) as [j|] eqn:E;
    [|reflexivity].
  apply find_some in E. destruct E as [_ E]. apply Ref_eqb_eq in E.
  now apply Hk in E.
Qed.

Lemma reserved_output_bus :
  forall self i,
    i < _output_count self ->
    dict_get Ref_eqb (reserved_bus_mapping self) (AudioOutputBusRef i) = Some i.
Proof.
  intros self i Hlt. unfold reserved_bus_mapping.
  assert (Hout : Nat.eqb (_output_count self) 0 = false)
    by (apply Nat.eqb_neq; lia).
  rewrite Hout. unfold audio_output_bus_group, audio_input_bus_group.
  assert (Hget :
            dict_get Ref_eqb
              (fold_left
                 (fun acc entry => dict_set Ref_eqb acc (snd entry) (fst entry))
                 (enumerate 0 (map AudioOutputBusRef (seq 0 (_output_count self))))
                 []) (AudioOutputBusRef i) = Some i).
  { rewrite assign_group_get by (intros a b E; now inversion E).
    rewrite find_in_seq; [reflexivity | intros a b E; now inversion E | exact Hlt]. }
  destruct (Nat.eqb (_input_count self) 0); [exact Hget|].
  rewrite assign_group_get by (intros a b E; now inversion E).
  rewrite find_not_member by discriminate. exact Hget.
Qed.

Lemma reserved_input_bus :
  forall self i,
    i < _input_count self ->
    dict_get Ref_eqb (reserved_bus_mapping self) (AudioInputBusRef i)
    = Some (_output_count self + i).
Proof.
  intros self i Hlt. unfold reserved_bus_mapping.
  assert (Hin : Nat.eqb (_input_count self) 0 = false)
    by (apply Nat.eqb_neq; lia).
  rewrite Hin. unfold audio_input_bus_group.
  rewrite assign_group_get by (intros a b E; now inversion E).
  rewrite find_in_seq; [reflexivity | intros a b E; now inversion E | exact Hlt].
Qed.

Lemma bus_mapping_keeps_reserved :
  forall self k,
    (forall h, k <> BusRef h) -> (forall g, k <> BusGroupRef g) ->
    dict_get Ref_eqb (_build_bus_id_mapping self) k
    = dict_get Ref_eqb (reserved_bus_mapping self) k.
Proof.
  intros self k Hb Hg. rewrite build_bus_id_mapping_fold.
  rewrite build_bus_fold_keeps_key; [reflexivity | | exact Hg].
  intros entry _. apply Hb.
Qed.

(** X8: [_build_bus_id_mapping] gives the bus of output channel [i] the
    address [i] and the bus of input channel [i] the address
    [output_count + i], whatever buses the session registers besides. *)
Theorem hardware_buses_are_addressed_by_channel :
  forall (self : Session) (i : nat),
    (i < _output_count self ->
     dict_get Ref_eqb (_build_bus_id_mapping self) (AudioOutputBusRef i)
     = Some i)
    /\ (i < _input_count self ->
        dict_get Ref_eqb (_build_bus_id_mapping self) (AudioInputBusRef i)
        = Some (_output_count self + i)).
Proof.
  intros self i. split; intros Hlt.
  - rewrite bus_mapping_keeps_reserved by discriminate.
    now apply reserved_output_bus.
  - rewrite bus_mapping_keeps_reserved by discriminate.
    now apply reserved_input_bus.
Qed.

Lemma hardware_buses_are_addressed_by_channel_witness :
  0 < _input_count Mixed.session
  /\ 1 < _output_count Mixed.session
  /\ dict_get Ref_eqb (_build_bus_id_mapping Mixed.session) (AudioOutputBusRef 1)
     = Some 1
  /\ dict_get Ref_eqb (_build_bus_id_mapping Mixed.session) (AudioInputBusRef 0)
     = Some 2.
Proof.
  assert (Hin : 0 < _input_count Mixed.session) by (vm_compute; lia).
  assert (Hout : 1 < _output_count Mixed.session) by (vm_compute; lia).
  split; [exact Hin|]. split; [exact Hout|]. split.
  - exact (proj1 (hardware_buses_are_addressed_by_channel Mixed.session 1) Hout).
  - exact (proj2 (hardware_buses_are_addressed_by_channel Mixed.session 0) Hin).
Defined.

(** X9: of two buses registered in a session that are served by the same
    allocator (both audio-rate, or both of another rate), the one
    registered later receives the greater address, so no two of them
    share one; and the address of an audio-rate bus is at least
    [input_count + output_count], above the hardware channels.  The
    allocator is the one the specification describes. *)
Theorem session_buses_get_distinct_addresses :
  forall (self : Session) (h1 h2 : nat) (b1 b2 : Bus),
    nth_error (_buses self) h1 = Some b1 ->
    nth_error (_buses self) h2 = Some b2 ->
    h1 < h2 ->
    same_allocator b1 b2 = true ->
    exists a1 a2,
      dict_get Ref_eqb (_build_bus_id_mapping self) (BusRef h1) = Some a1
      /\ dict_get Ref_eqb (_build_bus_id_mapping self) (BusRef h2) = Some a2
      /\ a1 < a2
      /\ (calculation_rate b1 = AUDIO ->
          _input_count self + _output_count self <= a1).
Proof.
  intros self h1 h2 b1 b2 H1 H2 Hlt Hsame.
  exists (heap_minimum_of self b1 + requested_through (_buses self) h1 b1 - 1),
         (heap_minimum_of self b2 + requested_through (_buses self) h2 b2 - 1).
  split; [now apply bus_address|]. split; [now apply bus_address|].
  pose proof (requested_through_increases _ H1 H2 Hlt Hsame) as Hinc.
  pose proof (requested_through_positive _ _ H1) as Hp1.
  pose proof (bus_size_positive b1) as Hs1.
  pose proof (bus_size_positive b2) as Hs2.
  assert (Hmin : heap_minimum_of self b1 = heap_minimum_of self b2).
  { unfold heap_minimum_of. unfold same_allocator in Hsame.
    apply eqb_prop in Hsame. now rewrite Hsame. }
  split; [lia|].
  intros Hrate. unfold heap_minimum_of, is_audio. rewrite Hrate. simpl. lia.
Qed.

Lemma session_buses_get_distinct_addresses_witness :
  exists a1 a2,
    dict_get Ref_eqb (_build_bus_id_mapping Mixed.session) (BusRef 1) = Some a1
    /\ dict_get Ref_eqb (_build_bus_id_mapping Mixed.session) (BusRef 3) = Some a2
    /\ a1 < a2.
Proof.
  destruct (@session_buses_get_distinct_addresses
              Mixed.session 1 3
              {| calculation_rate := CONTROL;
                 bus_group := Some {| bus_group_handle := 1; bus_count := 2 |};
                 bus_events := [] |}
              {| calculation_rate := CONTROL; bus_group := None;
                 bus_events := [] |}
              eq_refl eq_refl)
    as (a1 & a2 & H1 & H2 & Hlt & _).
  - lia.
  - reflexivity.
  - exists a1, a2. auto.
Defined.

Lemma firstn_app_within :
  forall (A : Type) (l l' : list A) n,
    n <= List.length l -> firstn n (l ++ l') = firstn n l.
Proof.
  intros A l l' n H. rewrite firstn_app.
  replace (n - List.length l) with 0 by lia. simpl. apply app_nil_r.
Qed.

Lemma bus_address_of_prefix :
  forall self self' more handle bus,
    _input_count self' = _input_count self ->
    _output_count self' = _output_count self ->
    _buses self' = _buses self ++ more ->
    nth_error (_buses self) handle = Some bus ->
    dict_get Ref_eqb (_build_bus_id_mapping self') (BusRef handle)
    = dict_get Ref_eqb (_build_bus_id_mapping self) (BusRef handle).
Proof.
  intros self self' more handle bus Hi Ho Hb H.
  assert (Hlt : handle < List.length (_buses self))
    by (apply nth_error_Some; congruence).
  rewrite (bus_address self handle H).
  rewrite (bus_address self' handle (bus := bus))
    by (rewrite Hb, nth_error_app1; assumption).
  unfold heap_minimum_of, requested_through. rewrite Hi, Ho, Hb.
  now rewrite firstn_app_within by lia.
Qed.

(** X10: the address that [_build_bus_id_mapping] gives to a registered
    bus is the same after [add_bus], [add_bus_group] or [add_synth] was
    called on the session. *)
Theorem bus_addresses_survive_additions :
  forall (self : Session) (handle : nat) (bus : Bus)
         (rate : CalculationRate) (count : nat) (synth : Synth),
    nth_error (_buses self) handle = Some bus ->
    dict_get Ref_eqb (_build_bus_id_mapping (fst (add_bus self rate)))
             (BusRef handle)
    = dict_get Ref_eqb (_build_bus_id_mapping self) (BusRef handle)
    /\ dict_get Ref_eqb
         (_build_bus_id_mapping (fst (add_bus_group self count rate)))
         (BusRef handle)
       = dict_get Ref_eqb (_build_bus_id_mapping self) (BusRef handle)
    /\ dict_get Ref_eqb (_build_bus_id_mapping (fst (add_synth self synth)))
                (BusRef handle)
       = dict_get Ref_eqb (_build_bus_id_mapping self) (BusRef handle).
Proof.
  intros self handle bus rate count synth H. split; [|split].
  - eapply bus_address_of_prefix with (more := [_]); try eassumption;
      reflexivity.
  - destruct count as [|n].
    + reflexivity.
    + eapply bus_address_of_prefix with (more := repeat _ (S n));
        try eassumption; reflexivity.
  - reflexivity.
Qed.

Lemma bus_addresses_survive_additions_witness :
  nth_error (_buses Mixed.session) 1
  = Some {| calculation_rate := CONTROL;
            bus_group := Some {| bus_group_handle := 1; bus_count := 2 |};
            bus_events := [] |}
  /\ dict_get Ref_eqb
       (_build_bus_id_mapping (fst (add_bus_group Mixed.session 3 CONTROL)))
       (BusRef 1)
     = dict_get Ref_eqb (_build_bus_id_mapping Mixed.session) (BusRef 1).
Proof.
  split; [reflexivity|].
  exact (proj1 (proj2 (@bus_addresses_survive_additions
                         Mixed.session 1 _ CONTROL 3
                         (Documentation.synth 0 1 [] []) eq_refl))).
Defined.

(** ** Node identifiers and later additions *)

Lemma precedesb_precedes :
  forall x y, precedesb x y = true <-> precedes x y.
Proof.
  intros x y. unfold precedesb, precedes.
  rewrite orb_true_iff, andb_true_iff, offset_ltb_lt, offset_eqb_eq,
    Nat.ltb_lt.
  reflexivity.
Qed.

Lemma precedes_total :
  forall x y, fst x <> fst y -> precedes x y \/ precedes y x.
Proof.
  intros x y Hne. unfold precedes, offset_lt.
  rewrite (offset_compare_antisym (start_offset (snd x)) (start_offset (snd y))).
  destruct (offset_compare (start_offset (snd x)) (start_offset (snd y))) eqn:E;
    simpl; auto.
  apply offset_compare_eq in E.
  destruct (Nat.lt_trichotomy (fst x) (fst y)) as [H | [H | H]];
    [left | contradiction | right]; right; split; auto.
Qed.

(** In a list sorted by a strict order, the position of an element is the
    number of elements that stand before it in the order. *)
Lemma sorted_position_counts :
  forall (A : Type) (R : A -> A -> Prop) (before : A -> A -> bool)
         (l : list A) p x,
    (forall a b, before a b = true <-> R a b) ->
    (forall a, ~ R a a) -> (forall a b c, R a b -> R b c -> R a c) ->
    StronglySorted R l ->
    nth_error l p = Some x ->
    List.length (filter (fun y => before y x) l) = p.
Proof.
  intros A R before l p x Hb Hirr Htr Hs. revert p.
  induction Hs as [|a l Hs IH Ha]; intros p Hp.
  - destruct p; discriminate.
  - rewrite Forall_forall in Ha. destruct p as [|p]; simpl in Hp.
    + inversion Hp; subst a. simpl.
      destruct (before x x) eqn:E; [apply Hb in E; now apply Hirr in E|].
      rewrite filter_none; [reflexivity|].
      intros y Hy. destruct (before y x) eqn:E'; [|reflexivity].
      apply Hb in E'. exfalso. apply (Hirr x). eapply Htr; [|exact E'].
      now apply Ha.
    + simpl. assert (Hax : before a x = true).
      { apply Hb. apply Ha. eapply nth_error_In. exact Hp. }
      rewrite Hax. simpl. f_equal. now apply IH.
Qed.

Lemma filter_length_perm :
  forall (A : Type) (p : A -> bool) (l1 l2 : list A),
    Permutation l1 l2 ->
    List.length (filter p l1) = List.length (filter p l2).
Proof.
  intros A p l1 l2 H. apply Permutation_length. now apply filter_perm.
Qed.

(** The identifier of a synth is 1000 plus the number of synths that
    precede it. *)
Lemma synth_id_rank :
  forall self i s,
    nth_error (_synths self) i = Some s ->
    dict_get Ref_eqb (_build_synth_id_mapping self) (SynthRef i)
    = Some (1000 + rank_of self (i, s)).
Proof.
  intros self i s H.
  destruct (synth_id_position self i H) as [p [Hp Hget]].
  rewrite Hget. f_equal. f_equal. unfold rank_of.
  rewrite <- (filter_length_perm _ (synth_order_perm self)).
  symmetry.
  apply (@sorted_position_counts _ precedes precedesb
           (synth_order self) p (i, s)).
  - exact precedesb_precedes.
  - exact precedes_irrefl.
  - exact precedes_trans.
  - apply synth_order_sorted.
  - exact Hp.
Qed.

Lemma rank_after_add_synth :
  forall self synth x,
    rank_of (fst (add_synth self synth)) x
    = rank_of self x
      + (if precedesb (List.length (_synths self), synth) x then 1 else 0).
Proof.
  intros self synth x. unfold rank_of, add_synth. cbn [fst _synths].
  rewrite enumerate_app, filter_app, length_app. simpl.
  destruct (precedesb (List.length (_synths self), synth) x); reflexivity.
Qed.

(** X11: node identifiers are positions in the order of start offsets, not
    handles that stay with a synth.  After [add_synth], a synth that was
    in the session keeps its identifier if the new synth does not start
    before it, and has the next identifier if the new synth starts
    earlier; the new synth receives 1000 plus the number of synths that
    start no later than it does.  The order of synths and the allocator
    are the ones the specification describes. *)
Theorem adding_a_synth_renumbers_later_synths :
  forall (self : Session) (synth : Synth) (i : nat) (s : Synth),
    nth_error (_synths self) i = Some s ->
    exists a,
      dict_get Ref_eqb (_build_synth_id_mapping self) (SynthRef i) = Some a
      /\ dict_get Ref_eqb (_build_synth_id_mapping (fst (add_synth self synth)))
                  (SynthRef i)
         = Some (if offset_ltb (start_offset synth) (start_offset s)
                 then S a else a)
      /\ dict_get Ref_eqb (_build_synth_id_mapping (fst (add_synth self synth)))
                  (SynthRef (snd (add_synth self synth)))
         = Some (1000
                 + List.length
                     (filter (fun x => offset_leb (start_offset x)
                                                  (start_offset synth))
                             (_synths self))).
Proof.
  intros self synth i s H.
  assert (Hlt : i < List.length (_synths self))
    by (apply nth_error_Some; congruence).
  exists (1000 + rank_of self (i, s)).
  split; [now apply synth_id_rank|]. split.
  - rewrite (synth_id_rank (fst (add_synth self synth)) i (s := s))
      by (cbn [add_synth fst _synths]; rewrite nth_error_app1; assumption).
    rewrite rank_after_add_synth. unfold precedesb. cbn [fst snd].
    assert (E : Nat.ltb (List.length (_synths self)) i = false)
      by (apply Nat.ltb_ge; lia).
    rewrite E, andb_false_r, orb_false_r.
    destruct (offset_ltb (start_offset synth) (start_offset s));
      f_equal; lia.
  - cbn [add_synth snd].
    rewrite (synth_id_rank (fst (add_synth self synth))
               (List.length (_synths self)) (s := synth)).
    2:{ cbn [add_synth fst _synths]. rewrite nth_error_app2 by lia.
        now rewrite Nat.sub_diag. }
    rewrite rank_after_add_synth.
    assert (E : precedesb (List.length (_synths self), synth)
                          (List.length (_synths self), synth) = false).
    { destruct (precedesb _ _) eqn:E'; [|reflexivity].
      apply precedesb_precedes in E'. now apply precedes_irrefl in E'. }
    rewrite E, Nat.add_0_r. f_equal. f_equal. unfold rank_of.
    rewrite <- (filter_enumerate_length
                  (fun x => offset_leb (start_offset x) (start_offset synth))
                  (_synths self) 0).
    f_equal. apply filter_ext_in. intros [j x] Hin.
    apply enumerate_In in Hin. destruct Hin as [_ Hin].
    assert (Hj : j < List.length (_synths self))
      by (apply nth_error_Some; rewrite Nat.sub_0_r in Hin; congruence).
    unfold precedesb, offset_ltb, offset_eqb, offset_leb. cbn [fst snd].
    apply Nat.ltb_lt in Hj. rewrite Hj.
    destruct (offset_compare (start_offset x) (start_offset synth));
      reflexivity.
Qed.

Lemma adding_a_synth_renumbers_later_synths_witness :
  nth_error (_synths Documentation.session) 1
  = Some (Documentation.synth 5 15 [("frequency"%string, 443 # 1)]
            [(at_frac 15 2, ("frequency"%string, 990 # 1))])
  /\ dict_get Ref_eqb (_build_synth_id_mapping Documentation.session)
              (SynthRef 1) = Some 1002
  /\ dict_get Ref_eqb
       (_build_synth_id_mapping
          (fst (add_synth Documentation.session Renumbered.added)))
       (SynthRef 1) = Some 1003
  /\ dict_get Ref_eqb
       (_build_synth_id_mapping
          (fst (add_synth Documentation.session Renumbered.added)))
       (SynthRef 3) = Some 1002.
Proof.
  assert (H : nth_error (_synths Documentation.session) 1
              = Some (Documentation.synth 5 15 [("frequency"%string, 443 # 1)]
                        [(at_frac 15 2, ("frequency"%string, 990 # 1))]))
    by reflexivity.
  split; [exact H|].
  destruct (@adding_a_synth_renumbers_later_synths
              Documentation.session Renumbered.added 1 _ H)
    as (a & Ha & Hshift & Hnew).
  assert (Ea : a = 1002).
  { vm_compute in Ha. now inversion Ha. }
  subst a. split; [exact Ha|]. split.
  - rewrite Hshift. reflexivity.
  - exact Hnew.
Defined.

(** ** The definitions of a definition-receive command *)

(** X6: a definition-receive message of a bundle lists its definitions in
    ascending order of [anonymous_name], lists none twice, and lists
    exactly the definitions whose earliest use by a synth of the session
    is at the offset the bundle is made for (the offset at the position
    of the bundle among the offsets that have a request; the timestamp of
    the bundle is that offset converted by [float]). *)
Theorem received_definitions_are_sorted_by_name :
  forall (set_iteration : SetIteration)
         (inventory_timespan : list Synth -> Timespan)
         (inventory_and : list Synth -> Timespan -> list Synth)
         (inventory_translate : list Synth -> Offset -> list Synth)
         (offset_sub : Offset -> Offset -> Offset)
         (self : Session) (timespan : option Timespan)
         (bundles : list OscBundle) (bundle : OscBundle)
         (sds : list SynthDef),
    let session :=
      _process_timespan_mask inventory_timespan inventory_and
                             inventory_translate offset_sub self timespan in
    to_osc_bundles inventory_timespan inventory_and inventory_translate
                   offset_sub self timespan = Ok bundles ->
    In bundle bundles ->
    In (to_osc_message (SynthDefReceiveRequest sds)) (contents bundle) ->
    StronglySorted
      (fun a b => String.compare (anonymous_name a) (anonymous_name b) <> Gt)
      sds
    /\ NoDup sds
    /\ exists position offset,
        nth_error (scheduled_offsets session) position = Some offset
        /\ nth_error bundles position = Some bundle
        /\ float offset = Ok (timestamp bundle)
        /\ (forall sd,
               In sd sds
               <-> (exists s, In s (_synths session) /\ synthdef s = sd
                              /\ start_offset s = offset)
                   /\ (forall s, In s (_synths session) -> synthdef s = sd ->
                                 offset_le offset (start_offset s))).
Proof.
  intros si it ia itr os self timespan bundles bundle sds session Hok Hb Hm.
  destruct (rendered_bundles it ia itr os self timespan Hok) as (_ & Hall).
  fold session in Hall.
  destruct (Hall bundle Hb) as [(o & Hkey & Hto & E) | E];
    [|rewrite E in Hm; destruct Hm as [Hm | []]; discriminate].
  destruct (@bundle_at_offset it ia itr os si self timespan bundles o Hok Hkey)
    as (position & bundle' & Hpos & _ & Hnth & _ & E').
  fold session in Hpos, E'. rewrite <- E in E'. subst bundle'.
  assert (Hf : In (to_osc_message (SynthDefReceiveRequest sds))
                  (filter (message_has_type SynthDefReceiveRequestType)
                          (contents bundle)))
    by (apply filter_In; split; [exact Hm | reflexivity]).
  rewrite E, process_requests_of_type in Hf by (simpl; tauto).
  rewrite definition_requests_at in Hf.
  pose proof (offsets_to_synthdefs_NoDup session) as Hnd.
  destruct (dict_get offset_eqb (offsets_to_synthdefs session) o)
    as [sds0|] eqn:Eg; [|contradiction].
  destruct Hf as [Hf | []]. inversion Hf as [Esds]. clear Hf.
  assert (Elist : dict_get_list offset_eqb (offsets_to_synthdefs session) o
                  = sds0)
    by (unfold dict_get_list; now rewrite Eg).
  split; [apply sorted_by_anonymous_name|].
  assert (Hperm : Permutation
                    (sorted_with
                       (fun x y => String.ltb (anonymous_name x)
                                              (anonymous_name y)) sds0) sds0)
    by apply sorted_perm.
  split.
  - eapply Permutation_NoDup; [apply Permutation_sym; exact Hperm|].
    rewrite <- Elist, offsets_to_synthdefs_get_list.
    apply NoDup_map_fst_filter. apply synthdefs_to_offsets_NoDup.
  - exists position, o. split; [exact Hpos|]. split; [exact Hnth|].
    split; [exact Hto|].
    intros sd. unfold sorted_with. rewrite sorted_In.
    rewrite <- Elist, offsets_to_synthdefs_In. split.
    + intros Hget.
      destruct (synthdefs_to_offsets_used session sd Hget) as [s0 Hs0].
      destruct (synthdefs_to_offsets_get session (ex_intro _ s0 Hs0))
        as (first & Hget' & Hw & Hmin).
      rewrite Hget in Hget'. inversion Hget'; subst first. auto.
    + intros [(s & Hs & Hsd & Hstart) Hmin].
      destruct (synthdefs_to_offsets_get session
                  (ex_intro _ s (conj Hs Hsd)))
        as (first & Hget' & (s' & Hs' & Hsd' & Hstart') & Hmin').
      rewrite Hget'. f_equal.
      pose proof (Hmin' s Hs Hsd) as H1. pose proof (Hmin s' Hs' Hsd') as H2.
      rewrite Hstart in H1. rewrite Hstart' in H2.
      apply offset_le_lt_or_eq in H1. destruct H1 as [H1 | H1]; [|exact H1].
      apply offset_le_lt_or_eq in H2. destruct H2 as [H2 | H2]; [|now symmetry].
      exfalso. apply (offset_lt_irrefl (a := first)).
      eapply offset_lt_trans; eassumption.
Qed.

Lemma received_definitions_are_sorted_by_name_witness :
  to_osc_bundles_plain TwoDefinitions.session = Ok TwoDefinitions.bundles
  /\ In TwoDefinitions.first_bundle TwoDefinitions.bundles
  /\ In (to_osc_message
           (SynthDefReceiveRequest [TwoDefinitions.pulse; TwoDefinitions.saw]))
        (contents TwoDefinitions.first_bundle)
  /\ StronglySorted
       (fun a b => String.compare (anonymous_name a) (anonymous_name b) <> Gt)
       [TwoDefinitions.pulse; TwoDefinitions.saw]
  /\ NoDup [TwoDefinitions.pulse; TwoDefinitions.saw].
Proof.
  assert (Hok : to_osc_bundles_plain TwoDefinitions.session
                = Ok TwoDefinitions.bundles) by (vm_compute; reflexivity).
  assert (Hb : In TwoDefinitions.first_bundle TwoDefinitions.bundles)
    by (left; reflexivity).
  assert (Hm : In (to_osc_message
                     (SynthDefReceiveRequest
                        [TwoDefinitions.pulse; TwoDefinitions.saw]))
                  (contents TwoDefinitions.first_bundle))
    by (left; reflexivity).
  split; [exact Hok|]. split; [exact Hb|]. split; [exact Hm|].
  destruct (@received_definitions_are_sorted_by_name list_order
              whole_timespan keep_synths keep_offsets left_offset
              TwoDefinitions.session None TwoDefinitions.bundles
              TwoDefinitions.first_bundle
              [TwoDefinitions.pulse; TwoDefinitions.saw] Hok Hb Hm)
    as (Hs & Hnd & _).
  split; assumption.
Defined.

(** ** The messages of a bundle and the requests of its offset *)

Lemma filter_disjoint_union :
  forall (A : Type) (p q : A -> bool) (l : list A),
    (forall x, p x = true -> q x = false) ->
    Permutation (filter (fun x => p x || q x) l) (filter p l ++ filter q l).
Proof.
  intros A p q l Hpq. induction l as [|x l IH]; simpl; [constructor|].
  destruct (p x) eqn:Ep; simpl.
  - rewrite (Hpq x Ep). now constructor.
  - destruct (q x); [|exact IH]. now apply Permutation_cons_app.
Qed.

Lemma chunks_by_type :
  forall (types : list RequestType) (requests : list Request),
    NoDup types ->
    Permutation
      (flat_map (fun t => filter (has_type t) requests) types)
      (filter (fun r => existsb (RequestType_eqb (type_of r)) types) requests).
Proof.
  intros types requests. induction types as [|t types IH]; intros Hnd; simpl.
  - rewrite filter_none by reflexivity. constructor.
  - inversion Hnd as [|? ? Ht Hnd']; subst.
    eapply Permutation_trans;
      [apply Permutation_app_head; apply IH; exact Hnd'|].
    apply Permutation_sym.
    apply (filter_disjoint_union
             (fun r => RequestType_eqb (type_of r) t)
             (fun r => existsb (RequestType_eqb (type_of r)) types)).
    intros r E. apply RequestType_eqb_eq in E. subst t.
    destruct (existsb (RequestType_eqb (type_of r)) types) eqn:E';
      [|reflexivity].
    apply existsb_exists in E'. destruct E' as [t [Hin E']].
    apply RequestType_eqb_eq in E'. subst t. contradiction.
Qed.

Lemma flat_map_map :
  forall (A B C : Type) (f : B -> C) (g : A -> list B) (l : list A),
    flat_map (fun x => map f (g x)) l = map f (flat_map g l).
Proof.
  intros A B C f g l. induction l as [|x l IH]; simpl; [reflexivity|].
  now rewrite IH, map_app.
Qed.

Lemma prioritized_types_NoDup : NoDup _prioritized_request_types.
Proof.
  unfold _prioritized_request_types.
  repeat (constructor; [simpl; intuition discriminate|]). constructor.
Qed.

Lemma prioritized_or_node_free :
  forall r,
    existsb (RequestType_eqb (type_of r)) _prioritized_request_types
    = negb (has_type NodeFreeRequestType r).
Proof. intros r. destruct r; reflexivity. Qed.

(** X4: [_process_requests], for any offset and any list of requests of
    the classes the session names, raises the [OverflowError] of [float]
    if [float] does not convert the offset, and otherwise returns a
    bundle: the bundle carries the converted offset as its timestamp;
    apart from node-free messages its messages are the encodings of the
    requests that are not node-free requests, each once; the messages of
    each prioritized class stand in the order of the requests of that
    class; all node-free requests together yield one message with their
    identifiers concatenated in request order, none if there is no such
    request; hence the bundle holds as many messages as there are other
    requests, plus one if any node is freed. *)
Theorem process_requests_keeps_every_request :
  forall (offset : Offset) (requests : list Request),
    let node_free_requests := filter (has_type NodeFreeRequestType) requests in
    match float offset with
    | Raise exception =>
        exception = "OverflowError"%string
        /\ _process_requests offset requests = Raise exception
    | Ok converted =>
        exists bundle,
          _process_requests offset requests = Ok bundle
          /\ timestamp bundle = converted
          /\ Permutation
               (filter (fun m => negb (is_node_free m)) (contents bundle))
               (map to_osc_message
                    (filter (fun r => negb (has_type NodeFreeRequestType r))
                            requests))
          /\ (forall t,
                 In t _prioritized_request_types ->
                 filter (message_has_type t) (contents bundle)
                 = map to_osc_message (filter (has_type t) requests))
          /\ filter is_node_free (contents bundle)
             = match node_free_requests with
               | [] => []
               | _ :: _ =>
                   [to_osc_message
                      (NodeFreeRequest
                         (flat_map request_node_ids node_free_requests))]
               end
          /\ List.length (contents bundle)
             = List.length requests - List.length node_free_requests
               + match node_free_requests with [] => 0 | _ :: _ => 1 end
    end.
Proof.
  intros offset requests frees.
  destruct (float offset) as [converted|exception] eqn:Ef.
  2:{ split; [eapply float_raises_OverflowError; exact Ef|].
      unfold _process_requests. rewrite Ef. reflexivity. }
  set (bundle := bundle_of offset requests).
  assert (Hok : _process_requests offset requests = Ok bundle).
  { apply process_requests_Ok. unfold bundle. split; [|reflexivity].
    change (float offset = Ok (timestamp_of offset)).
    now rewrite (float_timestamp_of _ Ef). }
  exists bundle. split; [exact Hok|].
  assert (Hchunks :
            Permutation
              (flat_map (fun t => map to_osc_message
                                      (filter (has_type t) requests))
                        _prioritized_request_types)
              (map to_osc_message
                   (filter (fun r => negb (has_type NodeFreeRequestType r))
                           requests))).
  { rewrite flat_map_map. apply Permutation_map.
    eapply Permutation_trans;
      [apply chunks_by_type; exact prioritized_types_NoDup|].
    erewrite filter_ext; [reflexivity|]. exact prioritized_or_node_free. }
  split; [exact (float_timestamp_of _ Ef)|]. split; [|split; [|split]].
  - unfold bundle. rewrite process_requests_contents, filter_app.
    assert (E1 : filter (fun m => negb (is_node_free m))
                   (flat_map (fun t => map to_osc_message
                                           (filter (has_type t) requests))
                             _prioritized_request_types)
                 = flat_map (fun t => map to_osc_message
                                          (filter (has_type t) requests))
                            _prioritized_request_types).
    { apply filter_all. intros m Hm.
      destruct (is_node_free m) eqn:E; [|reflexivity].
      assert (Hf : In m (filter is_node_free
                           (flat_map (fun t => map to_osc_message
                                                   (filter (has_type t) requests))
                                     _prioritized_request_types)))
        by (apply filter_In; auto).
      rewrite node_free_in_chunks in Hf. contradiction. }
    rewrite E1.
    destruct (filter (has_type NodeFreeRequestType) requests);
      simpl; rewrite app_nil_r; exact Hchunks.
  - intros t Ht. now apply process_requests_of_type.
  - unfold bundle. rewrite process_requests_node_free. unfold frees.
    destruct (filter (has_type NodeFreeRequestType) requests); reflexivity.
  - unfold bundle. rewrite process_requests_contents, length_app.
    rewrite (Permutation_length Hchunks), length_map.
    assert (Hsplit : List.length requests
                     = List.length
                         (filter (fun r => negb (has_type NodeFreeRequestType r))
                                 requests)
                       + List.length frees).
    { unfold frees. clear. induction requests as [|r l IH]; simpl; [reflexivity|].
      destruct (has_type NodeFreeRequestType r); simpl; lia. }
    rewrite Hsplit. unfold frees.
    destruct (filter (has_type NodeFreeRequestType) requests); simpl; lia.
Qed.

(** ** Reading the datagram back *)

Lemma length_prefix_length : forall n, List.length (length_prefix n) = 4.
Proof. reflexivity. Qed.

Lemma read_records_of_records :
  forall (encode : OscBundle -> list Byte.byte) (bundles : list OscBundle)
         (fuel : nat),
    Forall (fun b => (Z.of_nat (List.length (encode b)) < 2 ^ 31)%Z) bundles ->
    List.length bundles <= fuel ->
    read_records fuel (flat_map (datagram_record encode) bundles)
    = Some (map encode bundles).
Proof.
  intros encode bundles. induction bundles as [|b bundles IH];
    intros fuel Hall Hfuel.
  - destruct fuel; reflexivity.
  - inversion Hall as [|? ? Hb Hrest]; subst.
    destruct fuel as [|fuel]; [simpl in Hfuel; lia|].
    cbn [flat_map]. unfold datagram_record at 1.
    set (size := List.length (encode b)) in *.
    set (tail := flat_map (datagram_record encode) bundles).
    rewrite <- app_assoc.
    assert (Hshape : exists x l, length_prefix size ++ encode b ++ tail = x :: l)
      by (unfold length_prefix; simpl; eauto).
    destruct Hshape as (x & l & Hshape).
    cbn [read_records]. rewrite Hshape. rewrite <- Hshape. clear x l Hshape.
    assert (E1 : (List.length (length_prefix size ++ encode b ++ tail) <? 4)
                 = false).
    { apply Nat.ltb_ge. rewrite length_app, length_prefix_length. lia. }
    rewrite E1.
    assert (E2 : firstn 4 (length_prefix size ++ encode b ++ tail)
                 = length_prefix size).
    { rewrite <- (length_prefix_length size) at 1.
      now rewrite firstn_app, Nat.sub_diag, firstn_all, firstn_O, app_nil_r. }
    assert (E3 : skipn 4 (length_prefix size ++ encode b ++ tail)
                 = encode b ++ tail).
    { rewrite <- (length_prefix_length size) at 1.
      now rewrite skipn_app, Nat.sub_diag, skipn_all, skipn_O. }
    rewrite E2, E3.
    rewrite big_endian_length_prefix
      by (eapply Z.lt_trans; [exact Hb | reflexivity]).
    rewrite Nat2Z.id.
    assert (E4 : (List.length (encode b ++ tail) <? size) = false).
    { apply Nat.ltb_ge. rewrite length_app. unfold size. lia. }
    rewrite E4.
    assert (E5 : firstn size (encode b ++ tail) = encode b).
    { unfold size.
      now rewrite firstn_app, Nat.sub_diag, firstn_all, firstn_O, app_nil_r. }
    assert (E6 : skipn size (encode b ++ tail) = tail).
    { unfold size. now rewrite skipn_app, Nat.sub_diag, skipn_all, skipn_O. }
    rewrite E5, E6. unfold tail.
    rewrite (IH fuel Hrest) by (simpl in Hfuel; lia). reflexivity.
Qed.

Lemma records_length :
  forall (encode : OscBundle -> list Byte.byte) (bundles : list OscBundle),
    List.length bundles
    <= List.length (flat_map (datagram_record encode) bundles).
Proof.
  intros encode bundles. induction bundles as [|b bundles IH]; [simpl; lia|].
  cbn [flat_map]. unfold datagram_record at 1.
  rewrite !length_app, length_prefix_length. simpl. lia.
Qed.

(** X12: the datagram of [to_datagram] can be read back: reading four
    bytes as a big-endian length and then that many bytes, until the
    datagram is used up, succeeds and yields exactly the encodings of the
    bundles of [to_osc_bundles], in order.  The length of the datagram is
    the sum of the lengths of the encodings plus four bytes for each. *)
Theorem datagram_splits_into_the_bundles :
  forall (set_iteration : SetIteration)
         (inventory_timespan : list Synth -> Timespan)
         (inventory_and : list Synth -> Timespan -> list Synth)
         (inventory_translate : list Synth -> Offset -> list Synth)
         (offset_sub : Offset -> Offset -> Offset)
         (OscBundle_to_datagram : OscBundle -> list Byte.byte)
         (self : Session) (timespan : option Timespan)
         (datagram : list Byte.byte),
    to_datagram inventory_timespan inventory_and inventory_translate
                offset_sub OscBundle_to_datagram self timespan
    = Ok datagram ->
    exists bundles,
      to_osc_bundles inventory_timespan inventory_and inventory_translate
                     offset_sub self timespan = Ok bundles
      /\ split_datagram datagram = Some (map OscBundle_to_datagram bundles)
      /\ List.length datagram
         = list_sum (map (fun bundle =>
                            4 + List.length (OscBundle_to_datagram bundle))
                         bundles).
Proof.
  intros si it ia itr os enc self timespan datagram H. unfold to_datagram in H.
  destruct (to_osc_bundles it ia itr os self timespan) as [bundles|e] eqn:Hb;
    simpl in H; [|discriminate].
  exists bundles. split; [reflexivity|].
  destruct (for_each _ bundles []) as [datagrams|e] eqn:Hp; simpl in H;
    [|discriminate].
  inversion H; subst datagram. clear H.
  apply pack_all_Ok in Hp. destruct Hp as [Hall Hcat].
  simpl in Hcat. rewrite Hcat. split.
  - unfold split_datagram. apply read_records_of_records; [exact Hall|].
    apply records_length.
  - clear. induction bundles as [|b bundles IH]; [reflexivity|].
    cbn [flat_map map]. unfold datagram_record at 1.
    rewrite list_sum_cons, !length_app, length_prefix_length, IH. lia.
Qed.

Lemma datagram_splits_into_the_bundles_witness :
  to_datagram (set_iteration := list_order) whole_timespan keep_synths keep_offsets left_offset
              one_byte_per_message Documentation.session None
  = Ok (flat_map (datagram_record one_byte_per_message)
                 DocumentationBundles.bundles)
  /\ exists bundles,
      to_osc_bundles_plain Documentation.session = Ok bundles
      /\ split_datagram
           (flat_map (datagram_record one_byte_per_message)
                     DocumentationBundles.bundles)
         = Some (map one_byte_per_message bundles).
Proof.
  assert (Hok : to_datagram (set_iteration := list_order) whole_timespan keep_synths keep_offsets left_offset
                            one_byte_per_message Documentation.session None
                = Ok (flat_map (datagram_record one_byte_per_message)
                               DocumentationBundles.bundles))
    by (vm_compute; reflexivity).
  split; [exact Hok|].
  destruct (@datagram_splits_into_the_bundles list_order
              whole_timespan keep_synths keep_offsets left_offset
              one_byte_per_message Documentation.session None _ Hok)
    as (bundles & Hb & Hsplit & _).
  exists bundles. split; assumption.
Defined.

(** ** The layout of an expanded multi-output UGen *)

Lemma flat_outputs_instances :
  forall ugen, flat_outputs ugen = flat_map UGen_outputs (instances ugen).
Proof.
  intros [u | us]; simpl; [now rewrite app_nil_r | reflexivity].
Qed.

Lemma UGen_outputs_nth :
  forall u i, i < channel_count u ->
              nth_error (UGen_outputs u) i = Some (OutputProxy u i).
Proof.
  intros u i Hlt. unfold UGen_outputs, UGen_len.
  rewrite nth_error_map.
  assert (E : nth_error (seq 0 (channel_count u)) i = Some i).
  { rewrite nth_error_nth' with (d := 0) by (rewrite length_seq; exact Hlt).
    now rewrite seq_nth. }
  now rewrite E.
Qed.

Lemma flat_outputs_layout :
  forall (us : list UGen) j i u,
    nth_error us j = Some u -> i < channel_count u ->
    nth_error (flat_map UGen_outputs us) (outputs_before us j + i)
    = Some (OutputProxy u i).
Proof.
  induction us as [|x us IH]; intros j i u Hj Hi.
  - destruct j; discriminate.
  - destruct j as [|j]; simpl in Hj.
    + inversion Hj; subst x. unfold outputs_before. simpl.
      rewrite nth_error_app1 by (rewrite UGen_outputs_length; exact Hi).
      now apply UGen_outputs_nth.
    + unfold outputs_before.
      change (firstn (S j) (x :: us)) with (x :: firstn j us).
      cbn [map flat_map]. rewrite list_sum_cons.
      rewrite nth_error_app2 by (rewrite UGen_outputs_length; lia).
      rewrite UGen_outputs_length.
      replace (channel_count x + list_sum (map channel_count (firstn j us)) + i
               - channel_count x)
        with (outputs_before us j + i) by (unfold outputs_before; lia).
      now apply IH.
Qed.

Lemma flat_outputs_length :
  forall us,
    List.length (flat_map UGen_outputs us) = list_sum (map channel_count us).
Proof.
  induction us as [|x us IH]; [reflexivity|].
  cbn [flat_map map]. rewrite list_sum_cons, length_app, UGen_outputs_length.
  now rewrite IH.
Qed.

Lemma outputs_before_uniform :
  forall (us : list UGen) (c j : nat),
    Forall (fun u => channel_count u = c) us ->
    j <= List.length us ->
    outputs_before us j = j * c.
Proof.
  induction us as [|u us IH]; intros c j Hall Hj.
  - simpl in Hj. replace j with 0 by lia. reflexivity.
  - destruct j as [|j]; [reflexivity|].
    inversion Hall as [|? ? Hu Hrest]; subst.
    unfold outputs_before.
    change (firstn (S j) (u :: us)) with (u :: firstn j us).
    cbn [map]. rewrite list_sum_cons.
    change (list_sum (map channel_count (firstn j us)))
      with (outputs_before us j).
    rewrite (IH (channel_count u) j Hrest) by (simpl in Hj; lia).
    simpl. lia.
Qed.

(** X13: when the expansion of a multi-output UGen has two or more
    outputs in all, [_new_expanded] returns an array with one member per
    output; the outputs of an instance stand together, after those of
    the instances before it, in the order of their output indices: the
    member at position (outputs of earlier instances) + [i] is output [i]
    of the instance.  When every instance has [c] outputs, as the two of
    [Pan2], the outputs of instance [j] start at position [j * c]. *)
Theorem expansion_lays_out_the_outputs_in_order :
  forall ugen : Expanded,
    2 <= list_sum (map channel_count (instances ugen)) ->
    exists array,
      MultiOutUGen_new_expanded ugen = Ok (Array array)
      /\ UGenArray_len array = list_sum (map channel_count (instances ugen))
      /\ (forall j i u,
             nth_error (instances ugen) j = Some u ->
             i < channel_count u ->
             UGenArray_getitem array (outputs_before (instances ugen) j + i)
             = Some (OutputProxy u i))
      /\ (forall c j,
             Forall (fun u => channel_count u = c) (instances ugen) ->
             j <= List.length (instances ugen) ->
             outputs_before (instances ugen) j = j * c).
Proof.
  intros ugen Htotal.
  rewrite new_expanded_flat, flat_outputs_instances.
  pose proof (flat_outputs_length (instances ugen)) as Hlen.
  pose proof (flat_outputs_layout (instances ugen)) as Hlayout.
  destruct (flat_map UGen_outputs (instances ugen)) as [|p [|q proxies]] eqn:E;
    simpl in Hlen; try lia.
  exists {| ugens := p :: q :: proxies |}.
  split; [reflexivity|]. split; [exact Hlen|]. split.
  - intros j i u Hj Hi. unfold UGenArray_getitem. simpl ugens.
    now apply Hlayout.
  - intros c j Hall Hj. now apply outputs_before_uniform.
Qed.

Lemma expansion_lays_out_the_outputs_in_order_witness :
  exists array,
    MultiOutUGen_new_expanded Panning.expanded = Ok (Array array)
    /\ UGenArray_len array = 4
    /\ UGenArray_getitem array 3 = Some (OutputProxy Panning.pan_2 1).
Proof.
  destruct (@expansion_lays_out_the_outputs_in_order Panning.expanded)
    as (array & Hok & Hlen & Hget & _).
  - vm_compute. lia.
  - exists array. split; [exact Hok|]. split; [exact Hlen|].
    exact (Hget 1 1 Panning.pan_2 eq_refl (le_n 2)).
Defined.

(** ** Synth-new commands *)

Lemma synth_new_requests_at {set_iteration : SetIteration} :
  forall session o,
    filter (has_type SynthNewRequestType) (requests_at session o)
    = map (synth_new_request session) (starting_at session o).
Proof.
  intros session o. rewrite requests_at_parts, !filter_app.
  rewrite filter_none.
  2:{ intros r Hr. apply bus_emissions_types in Hr.
      destruct Hr as [pairs ->]. reflexivity. }
  rewrite filter_none.
  2:{ intros r Hr. apply synthdef_emissions_types in Hr.
      destruct Hr as [sds ->]. reflexivity. }
  simpl. rewrite filter_flat_map. unfold starting_at.
  rewrite <- flat_map_if. apply flat_map_ext. intros [h s].
  unfold synth_new_request. cbn [fst snd].
  rewrite synth_requests_emitted, !filter_app.
  rewrite (filter_none (has_type SynthNewRequestType)
             (map _ (filter _ (synth_events s)))).
  2:{ intros r Hr. apply in_map_iff in Hr. destruct Hr as [ev [<- _]].
      reflexivity. }
  rewrite (filter_none (has_type SynthNewRequestType)
             (if offset_eqb (stop_offset s) o then _ else _)).
  2:{ intros r Hr. destruct (offset_eqb (stop_offset s) o); [|contradiction].
      destruct Hr as [<- | []]. reflexivity. }
  rewrite !app_nil_r. destruct (offset_eqb (start_offset s) o); reflexivity.
Qed.

Lemma node_ids_differ :
  forall session i j si sj,
    nth_error (_synths session) i = Some si ->
    nth_error (_synths session) j = Some sj ->
    node_id_of (id_mapping_of session) i = node_id_of (id_mapping_of session) j ->
    i = j.
Proof.
  intros session i j si sj Hi Hj E.
  destruct (synth_id_position session i Hi) as [p [Hp Ha]].
  destruct (synth_id_position session j Hj) as [q [Hq Hb]].
  unfold node_id_of in E. rewrite !id_mapping_of_synth, Ha, Hb in E.
  assert (p = q) by lia. subst q. rewrite Hp in Hq. now inversion Hq.
Qed.

Lemma Timespan_eqb_spec :
  forall x y : Synth,
    Timespan_eqb (_get_timespan x) (_get_timespan y) = true
    <-> start_offset x = start_offset y /\ stop_offset x = stop_offset y.
Proof.
  intros x y. unfold Timespan_eqb, _get_timespan. cbn.
  now rewrite andb_true_iff, !offset_eqb_eq.
Qed.

Lemma comparator_ltb_key_before :
  forall session x y,
    comparator_ltb
      ((_get_timespan (snd x), node_id_of (id_mapping_of session) (fst x)), x)
      ((_get_timespan (snd y), node_id_of (id_mapping_of session) (fst y)), y)
    = true
    <-> key_before session x y.
Proof.
  intros session x y. unfold comparator_ltb, key_before. cbn [fst snd].
  destruct (Timespan_eqb (_get_timespan (snd x)) (_get_timespan (snd y))) eqn:E.
  - apply Timespan_eqb_spec in E. destruct E as [E1 E2].
    rewrite Nat.ltb_lt, E1, E2. split.
    + intros H. right. split; [reflexivity|]. right. now split.
    + intros [H | [_ [H | [_ H]]]]; [| |exact H];
        now apply offset_lt_irrefl in H.
  - unfold Timespan_ltb, _get_timespan. cbn.
    rewrite orb_true_iff, andb_true_iff, !offset_ltb_lt, offset_eqb_eq.
    split.
    + intros [H | [H1 H2]]; [now left | right; split; [exact H1 | now left]].
    + intros [H | [H1 [H2 | [H2 _]]]]; [now left | right; now split |].
      exfalso.
      assert (Et : Timespan_eqb (_get_timespan (snd x)) (_get_timespan (snd y))
                   = true) by (apply Timespan_eqb_spec; now split).
      congruence.
Qed.

Lemma key_before_trans :
  forall session x y z,
    key_before session x y -> key_before session y z -> key_before session x z.
Proof.
  unfold key_before. intros session x y z.
  intros [H1 | [E1 H1]] [H2 | [E2 H2]].
  - left. eapply offset_lt_trans; eassumption.
  - left. now rewrite <- E2.
  - left. now rewrite E1.
  - right. split; [congruence|].
    destruct H1 as [H1 | [F1 H1]], H2 as [H2 | [F2 H2]].
    + left. eapply offset_lt_trans; eassumption.
    + left. now rewrite <- F2.
    + left. now rewrite F1.
    + right. split; [congruence | lia].
Qed.

Lemma key_before_total :
  forall session x y,
    node_id_of (id_mapping_of session) (fst x)
    <> node_id_of (id_mapping_of session) (fst y) ->
    key_before session x y \/ key_before session y x.
Proof.
  intros session x y Hne. unfold key_before, offset_lt.
  rewrite (offset_compare_antisym (start_offset (snd x)) (start_offset (snd y))).
  rewrite (offset_compare_antisym (stop_offset (snd x)) (stop_offset (snd y))).
  destruct (offset_compare (start_offset (snd x)) (start_offset (snd y))) eqn:E1;
    simpl; auto.
  apply offset_compare_eq in E1.
  destruct (offset_compare (stop_offset (snd x)) (stop_offset (snd y))) eqn:E2;
    simpl; auto.
  apply offset_compare_eq in E2.
  destruct (Nat.lt_trichotomy (node_id_of (id_mapping_of session) (fst x))
                              (node_id_of (id_mapping_of session) (fst y)))
    as [H | [H | H]]; [left | contradiction | right];
    right; (split; [auto|]); right; split; auto.
Qed.

Lemma key_before_irrefl : forall session x, ~ key_before session x x.
Proof.
  intros session x [H | [_ [H | [_ H]]]];
    try (now apply offset_lt_irrefl in H). lia.
Qed.

Lemma StronglySorted_filter :
  forall (A : Type) (R : A -> A -> Prop) (p : A -> bool) (l : list A),
    StronglySorted R l -> StronglySorted R (filter p l).
Proof.
  intros A R p l H. induction H as [|a l Hs IH Ha]; simpl; [constructor|].
  destruct (p a); [|exact IH]. constructor; [exact IH|].
  rewrite Forall_forall in *. intros x Hx. apply filter_In in Hx.
  now apply Ha.
Qed.

Lemma request_order_sorted :
  forall session,
    StronglySorted (key_before session)
                   (request_order session (id_mapping_of session)).
Proof.
  intros session. unfold request_order.
  set (key := fun x : nat * Synth =>
                ((_get_timespan (snd x),
                  node_id_of (id_mapping_of session) (fst x)), x)).
  set (R := fun a b : (Timespan * nat) * (nat * Synth) =>
              key_before session (snd a) (snd b)).
  apply StronglySorted_map. fold R.
  unfold sorted_with. apply sorted_ordered.
  - intros a b c. apply key_before_trans.
  - apply StronglySorted_map with (f := key)
                                  (R := decides
                                          (fun x y => negb (comparator_ltb y x)) R).
    eapply StronglySorted_weaken; [|apply enumerate_increasing].
    intros x y Hx Hy Hlt. unfold decides, R, key. cbn [snd].
    assert (Hne : node_id_of (id_mapping_of session) (fst x)
                  <> node_id_of (id_mapping_of session) (fst y)).
    { destruct x as [i si], y as [j sj].
      apply enumerate_In in Hx, Hy. rewrite Nat.sub_0_r in Hx, Hy.
      cbn [fst] in *. intros E.
      pose proof (node_ids_differ session i j (proj2 Hx) (proj2 Hy) E). lia. }
    split; intros H.
    + apply negb_true_iff in H.
      destruct (key_before_total session x y Hne) as [G | G]; [exact G|].
      apply comparator_ltb_key_before in G. congruence.
    + apply negb_false_iff in H. now apply comparator_ltb_key_before.
Qed.

(** X5: every bundle of a rendering but the terminal one is made for an
    offset that has a request, and its synth-new messages are those of
    the synths that start at that offset, one for each such synth and no
    other, each with the definition, node identifier, add action and
    settings of its synth.  They stand in the order of the sort key of
    [_collect_synth_requests], timespan and then node identifier: among
    synths that start together, by stop offset and, for equal stop
    offsets, by node identifier. *)
Theorem synths_are_created_in_key_order :
  forall (set_iteration : SetIteration)
         (inventory_timespan : list Synth -> Timespan)
         (inventory_and : list Synth -> Timespan -> list Synth)
         (inventory_translate : list Synth -> Offset -> list Synth)
         (offset_sub : Offset -> Offset -> Offset)
         (self : Session) (timespan : option Timespan)
         (bundles : list OscBundle) (bundle : OscBundle),
    let session :=
      _process_timespan_mask inventory_timespan inventory_and
                             inventory_translate offset_sub self timespan in
    to_osc_bundles inventory_timespan inventory_and inventory_translate
                   offset_sub self timespan = Ok bundles ->
    In bundle bundles ->
    contents bundle = [OscMessage_of_address 0]
    \/ exists position offset,
        let starting := starting_at session offset in
        nth_error (scheduled_offsets session) position = Some offset
        /\ nth_error bundles position = Some bundle
        /\ float offset = Ok (timestamp bundle)
        /\ filter (message_has_type SynthNewRequestType) (contents bundle)
           = map (fun x => to_osc_message (synth_new_request session x))
                 starting
        /\ (forall x,
               In x starting
               <-> nth_error (_synths session) (fst x) = Some (snd x)
                   /\ start_offset (snd x) = offset)
        /\ NoDup (map fst starting)
        /\ StronglySorted
             (fun x y =>
                offset_lt (stop_offset (snd x)) (stop_offset (snd y))
                \/ (stop_offset (snd x) = stop_offset (snd y)
                    /\ node_id_of (id_mapping_of session) (fst x)
                       < node_id_of (id_mapping_of session) (fst y)))
             starting.
Proof.
  intros si it ia itr os self timespan bundles bundle session Hok Hb.
  destruct (rendered_bundles it ia itr os self timespan Hok) as (_ & Hall).
  fold session in Hall.
  destruct (Hall bundle Hb) as [(offset & Hkey & Hto & E) | E];
    [right | left; exact E].
  destruct (@bundle_at_offset it ia itr os si self timespan bundles offset
              Hok Hkey)
    as (position & bundle' & Hpos & _ & Hnth & _ & E').
  fold session in Hpos, E'. rewrite <- E in E'. subst bundle'.
  exists position, offset. intros starting.
  assert (Hin : forall x,
             In x starting
             <-> nth_error (_synths session) (fst x) = Some (snd x)
                 /\ start_offset (snd x) = offset).
  { intros [i s]. unfold starting, starting_at.
    rewrite filter_In, request_order_In, enumerate_In, Nat.sub_0_r.
    cbn [fst snd]. rewrite offset_eqb_eq. intuition lia. }
  assert (Hsorted : StronglySorted (key_before session) starting).
  { unfold starting, starting_at. apply StronglySorted_filter.
    apply request_order_sorted. }
  split; [exact Hpos|]. split; [exact Hnth|]. split; [exact Hto|].
  split; [|split; [exact Hin|split]].
  - rewrite E at 1. rewrite process_requests_of_type by (simpl; tauto).
    rewrite synth_new_requests_at, map_map. reflexivity.
  - unfold starting, starting_at.
    eapply NoDup_map_fst_filter.
    eapply Permutation_NoDup.
    + apply Permutation_sym, Permutation_map. apply request_order_perm.
    + rewrite enumerate_fst. apply seq_NoDup.
  - eapply StronglySorted_weaken; [|exact Hsorted].
    intros x y Hx Hy [H | [_ H]]; [|exact H]. exfalso.
    apply Hin in Hx, Hy. destruct Hx as [_ Hx], Hy as [_ Hy].
    rewrite Hx, Hy in H. now apply offset_lt_irrefl in H.
Qed.

Lemma synths_are_created_in_key_order_witness :
  to_osc_bundles_plain SameStart.session = Ok SameStartBundles.bundles
  /\ In SameStartBundles.first_bundle SameStartBundles.bundles
  /\ filter (message_has_type SynthNewRequestType)
            (contents SameStartBundles.first_bundle)
     = [ to_osc_message (SynthNewRequest Documentation.sine 1001 0 0 []);
         to_osc_message (SynthNewRequest Documentation.sine 1000 0 0 []) ]
  /\ exists position offset,
      nth_error (scheduled_offsets (set_iteration := list_order)
                                   SameStart.session) position
      = Some offset
      /\ nth_error SameStartBundles.bundles position
         = Some SameStartBundles.first_bundle
      /\ float offset = Ok (timestamp SameStartBundles.first_bundle)
      /\ filter (message_has_type SynthNewRequestType)
                (contents SameStartBundles.first_bundle)
         = map (fun x => to_osc_message
                           (synth_new_request SameStart.session x))
               (starting_at SameStart.session offset).
Proof.
  assert (Hok : to_osc_bundles_plain SameStart.session
                = Ok SameStartBundles.bundles) by (vm_compute; reflexivity).
  assert (Hb : In SameStartBundles.first_bundle SameStartBundles.bundles)
    by (left; reflexivity).
  split; [exact Hok|]. split; [exact Hb|]. split; [reflexivity|].
  destruct (@synths_are_created_in_key_order list_order
              whole_timespan keep_synths keep_offsets left_offset
              SameStart.session None SameStartBundles.bundles
              SameStartBundles.first_bundle Hok Hb)
    as [Hterminal
       | (position & offset & Hpos & Hnth & Hto & Hnew & _)];
    [discriminate|].
  exists position, offset. auto.
Defined.

(** ** Buses that are never written *)

Lemma flat_map_ext_in :
  forall (A B : Type) (f g : A -> list B) (l : list A),
    (forall x, In x l -> f x = g x) -> flat_map f l = flat_map g l.
Proof.
  intros A B f g l H. induction l as [|x l IH]; simpl; [reflexivity|].
  rewrite H by now left. rewrite IH; [reflexivity|].
  intros y Hy. apply H. now right.
Qed.

Lemma node_id_of_same_synths :
  forall s s' h,
    _synths s' = _synths s ->
    node_id_of (id_mapping_of s') h = node_id_of (id_mapping_of s) h.
Proof.
  intros s s' h E. unfold node_id_of. rewrite !id_mapping_of_synth.
  unfold _build_synth_id_mapping. now rewrite E.
Qed.

(** A session to which buses without recorded values were added collects
    the same requests. *)
Lemma all_emissions_with_silent_buses {set_iteration : SetIteration} :
  forall s s' more,
    _input_count s' = _input_count s ->
    _output_count s' = _output_count s ->
    _synths s' = _synths s ->
    _buses s' = _buses s ++ more ->
    Forall (fun bus => bus_events bus = []) more ->
    all_emissions s' = all_emissions s.
Proof.
  intros s s' more Hi Ho Hs Hb Hsilent. unfold all_emissions.
  f_equal; [|f_equal].
  - unfold bus_emissions. f_equal. f_equal. unfold control_bus_events.
    rewrite Hb, enumerate_app, flat_map_app.
    rewrite (proj2 (flat_map_nil _ (enumerate (0 + List.length (_buses s)) more))).
    + rewrite app_nil_r. apply flat_map_ext_in. intros [h bus] Hin.
      cbn [fst snd].
      destruct (negb (CalculationRate_eqb (calculation_rate bus) CONTROL));
        [reflexivity|].
      apply map_ext. intros event. do 2 f_equal.
      unfold bus_index_of. rewrite !id_mapping_of_bus.
      apply enumerate_In in Hin. rewrite Nat.sub_0_r in Hin.
      now rewrite (@bus_address_of_prefix s s' more h bus Hi Ho Hb (proj2 Hin)).
    + apply Forall_forall. intros [h bus] Hin. cbn [fst snd].
      apply (in_map snd) in Hin. rewrite enumerate_snd in Hin.
      cbn [snd] in Hin. rewrite Forall_forall in Hsilent. rewrite (Hsilent _ Hin).
      now destruct (negb (CalculationRate_eqb (calculation_rate bus) CONTROL)).
  - unfold synthdef_emissions, offsets_to_synthdefs, synthdefs_to_offsets,
      start_events. now rewrite Hs.
  - unfold synth_emissions, request_order. rewrite Hs.
    assert (E : forall x : nat * Synth,
               node_id_of (id_mapping_of s') (fst x)
               = node_id_of (id_mapping_of s) (fst x))
      by (intros x; now apply node_id_of_same_synths).
    rewrite (map_ext
               (fun x => ((_get_timespan (snd x),
                           node_id_of (id_mapping_of s') (fst x)), x))
               (fun x => ((_get_timespan (snd x),
                           node_id_of (id_mapping_of s) (fst x)), x)))
      by (intros x; now rewrite E).
    apply flat_map_ext. intros x. now rewrite E.
Qed.

Section SilentBuses.
Variable inventory_timespan : list Synth -> Timespan.
Variable inventory_and : list Synth -> Timespan -> list Synth.
Variable inventory_translate : list Synth -> Offset -> list Synth.
Variable offset_sub : Offset -> Offset -> Offset.
Context {set_iteration : SetIteration}.

Lemma to_osc_bundles_with_silent_buses :
  forall s s' more timespan,
    _input_count s' = _input_count s ->
    _output_count s' = _output_count s ->
    _synths s' = _synths s ->
    _buses s' = _buses s ++ more ->
    Forall (fun bus => bus_events bus = []) more ->
    to_osc_bundles inventory_timespan inventory_and inventory_translate
                   offset_sub s' timespan
    = to_osc_bundles inventory_timespan inventory_and inventory_translate
                     offset_sub s timespan.
Proof.
  intros s s' more timespan Hi Ho Hs Hb Hsilent.
  rewrite !to_osc_bundles_unfold, !collect_requests_Ok.
  unfold request_mapping_of.
  assert (E : all_emissions
                (_process_timespan_mask inventory_timespan inventory_and
                   inventory_translate offset_sub s' timespan)
              = all_emissions
                  (_process_timespan_mask inventory_timespan inventory_and
                     inventory_translate offset_sub s timespan)).
  { unfold _process_timespan_mask. rewrite Hs.
    destruct timespan as [span|]; [destruct (_synths s) eqn:Esynths|].
    - rewrite <- Esynths in *.
      now apply all_emissions_with_silent_buses with (more := more).
    - reflexivity.
    - now apply all_emissions_with_silent_buses with (more := more). }
  now rewrite E.
Qed.

End SilentBuses.

(** X7: [add_bus] and [add_bus_group] by themselves do not change what
    [to_osc_bundles] returns or raises, for any rate, size and render
    range: a bus on which no value was recorded contributes no request
    and leaves the addresses of the other buses as they are. *)
Theorem registering_a_bus_leaves_the_bundles_unchanged :
  forall (set_iteration : SetIteration)
         (inventory_timespan : list Synth -> Timespan)
         (inventory_and : list Synth -> Timespan -> list Synth)
         (inventory_translate : list Synth -> Offset -> list Synth)
         (offset_sub : Offset -> Offset -> Offset)
         (self : Session) (rate : CalculationRate) (count : nat)
         (timespan : option Timespan),
    to_osc_bundles inventory_timespan inventory_and inventory_translate
                   offset_sub (fst (add_bus self rate)) timespan
    = to_osc_bundles inventory_timespan inventory_and inventory_translate
                     offset_sub self timespan
    /\ to_osc_bundles inventory_timespan inventory_and inventory_translate
                      offset_sub (fst (add_bus_group self count rate)) timespan
       = to_osc_bundles inventory_timespan inventory_and inventory_translate
                        offset_sub self timespan.
Proof.
  intros si it ia itr os self rate count timespan. split.
  - eapply to_osc_bundles_with_silent_buses with (more := [_]);
      try reflexivity.
    repeat constructor.
  - destruct count as [|n]; [reflexivity|].
    eapply to_osc_bundles_with_silent_buses with (more := repeat _ (S n));
      try reflexivity.
    apply Forall_forall. intros bus Hin. apply repeat_spec in Hin.
    now subst bus.
Qed.

(** ** Shuffling *)

Lemma list_pop_perm :
  forall (A : Type) (l : list A) index x rest,
    list_pop l index = Ok (x, rest) ->
    Permutation l (x :: rest) /\ List.length l = S (List.length rest).
Proof.
  intros A l index x rest H. unfold list_pop in H.
  destruct (nth_error l index) as [y|] eqn:E; [|discriminate].
  inversion H; subst. clear H.
  revert index E. induction l as [|a l IH]; intros index E.
  - destruct index; discriminate.
  - destruct index as [|index]; simpl in E.
    + inversion E; subst. simpl. split; [apply Permutation_refl | reflexivity].
    + destruct (IH index E) as [Hp Hl].
      change (firstn (S index) (a :: l) ++ skipn (S (S index)) (a :: l))
        with (a :: (firstn index l ++ skipn (S index) l)).
      split.
      * eapply Permutation_trans; [apply perm_skip; exact Hp|]. apply perm_swap.
      * simpl. now rewrite Hl.
Qed.

Lemma draw_index_in_range :
  forall rng position n index,
    draw_index rng position n = Ok index -> index < n.
Proof.
  intros rng position n index H. unfold draw_index in H.
  destruct (int _) as [z|e]; simpl in H; [|discriminate].
  destruct (Nat.eqb n 0) eqn:E; [discriminate|].
  apply Nat.eqb_neq in E. inversion H; subst.
  assert (Hb : (0 <= z mod Z.of_nat n < Z.of_nat n)%Z)
    by (apply Z.mod_pos_bound; lia).
  lia.
Qed.

Lemma draw_index_Ok :
  forall rng position n,
    0 < n ->
    (exists z, int (PrimFloat.mul (rng position) (float_of_int 2147483647))
               = Ok z) ->
    exists index, draw_index rng position n = Ok index.
Proof.
  intros rng position n Hn [z Hz]. unfold draw_index. rewrite Hz. simpl.
  assert (E : Nat.eqb n 0 = false) by (apply Nat.eqb_neq; lia).
  rewrite E. eauto.
Qed.

(** The loop ends by its condition: one index is left (or none was
    there), the others were moved to the shuffled indices, and one value
    of the generator was used for each of them. *)
Lemma shuffle_loop_returns :
  forall fuel rng indices shuffled position,
    List.length indices <= fuel ->
    (forall n, position <= n -> n < position + (List.length indices - 1) ->
               exists z,
                 int (PrimFloat.mul (rng n) (float_of_int 2147483647)) = Ok z) ->
    exists left moved,
      shuffle_loop fuel rng indices shuffled position
      = Some (Ok (left, shuffled ++ moved,
                  position + (List.length indices - 1)))
      /\ Permutation indices (moved ++ left)
      /\ List.length left <= 1
      /\ (indices <> [] -> left <> []).
Proof.
  induction fuel as [|fuel IH]; intros rng indices shuffled position Hfuel Hrng.
  - destruct indices; [|simpl in Hfuel; lia]. exists [], []. simpl.
    rewrite app_nil_r, Nat.add_0_r. repeat split; auto.
  - cbn [shuffle_loop].
    destruct (Nat.ltb 1 (List.length indices)) eqn:E.
    + apply Nat.ltb_lt in E.
      destruct (@draw_index_Ok rng position (List.length indices))
        as [index Hindex]; [lia | apply Hrng; lia |].
      rewrite Hindex.
      pose proof (draw_index_in_range _ _ _ Hindex) as Hlt.
      unfold list_pop at 1.
      destruct (nth_error indices index) as [x|] eqn:Ex;
        [|apply nth_error_None in Ex; lia].
      assert (Hpop : list_pop indices index
                     = Ok (x, firstn index indices ++ skipn (S index) indices))
        by (unfold list_pop; now rewrite Ex).
      destruct (list_pop_perm _ _ Hpop) as [Hperm Hlen].
      set (rest := firstn index indices ++ skipn (S index) indices) in *.
      destruct (IH rng rest (shuffled ++ [x]) (S position)) as
          (left & moved & Hloop & Hp & Hl & Hne).
      * lia.
      * intros n H1 H2. apply Hrng; lia.
      * exists left, (x :: moved). rewrite Hloop. split; [|split; [|split]].
        -- rewrite <- app_assoc. simpl. repeat f_equal. lia.
        -- eapply Permutation_trans; [exact Hperm|]. simpl. now constructor.
        -- exact Hl.
        -- intros _. apply Hne. intros En. rewrite En in Hlen. simpl in Hlen. lia.
    + apply Nat.ltb_ge in E. exists indices, []. rewrite app_nil_r.
      replace (List.length indices - 1) with 0 by lia. rewrite Nat.add_0_r.
      repeat split; auto.
Qed.

Lemma int_of_finite :
  forall x, is_finite x = true -> exists z, int x = Ok z.
Proof.
  intros x H. unfold is_finite in H. unfold int.
  destruct (FloatOps.Prim2SF x); try discriminate; eexists; reflexivity.
Qed.

(** X14: [ShufflePattern._shuffle], for a generator whose next
    [length - 1] values each have a finite product with [0x7FFFFFFF]
    (neither an infinity nor a nan, so that [int] converts it): the call
    returns, its result holds every index below [length] exactly once,
    and it takes [length - 1] values from the generator (none for a
    length of 0 or 1). *)
Theorem shuffle_is_a_permutation :
  forall (length : nat) (rng : nat -> PrimFloat.float) (position : nat),
    (forall n, position <= n -> n < position + (length - 1) ->
               is_finite (PrimFloat.mul (rng n) (float_of_int 2147483647))
               = true) ->
    exists shuffled_indices,
      _shuffle length rng position
      = Some (Ok (shuffled_indices, position + (length - 1)))
      /\ Permutation shuffled_indices (seq 0 length)
      /\ List.length shuffled_indices = length.
Proof.
  intros length rng position Hfinite.
  assert (Hrng : forall n,
             position <= n -> n < position + (length - 1) ->
             exists z,
               int (PrimFloat.mul (rng n) (float_of_int 2147483647)) = Ok z)
    by (intros n Hlow Hhigh; apply int_of_finite; now apply Hfinite).
  clear Hfinite. unfold _shuffle.
  destruct (@shuffle_loop_returns length rng (seq 0 length) [] position)
    as (left & moved & Hloop & Hperm & Hleft & Hne).
  - now rewrite length_seq.
  - now rewrite length_seq.
  - rewrite Hloop, length_seq. simpl app.
    assert (Hresult : exists shuffled_indices,
               match left with
               | [] => Some (Ok (moved, position + (length - 1)))
               | _ :: _ =>
                   Some (Ok (moved ++ [last left 0], position + (length - 1)))
               end = Some (Ok (shuffled_indices, position + (length - 1)))
               /\ Permutation shuffled_indices (seq 0 length)).
    { destruct left as [|x [|y left]]; [| |simpl in Hleft; lia].
      - exists moved. split; [reflexivity|].
        rewrite app_nil_r in Hperm. now apply Permutation_sym.
      - exists (moved ++ [x]). split; [reflexivity|].
        now apply Permutation_sym. }
    destruct Hresult as (shuffled_indices & Hr & Hp).
    exists shuffled_indices. split; [exact Hr|]. split; [exact Hp|].
    rewrite (Permutation_length Hp). apply length_seq.
Qed.

Lemma shuffle_is_a_permutation_witness :
  exists shuffled_indices,
    _shuffle 5 (_get_seeded_rng 1) 0 = Some (Ok (shuffled_indices, 4))
    /\ shuffled_indices = [0; 4; 2; 3; 1]
    /\ Permutation shuffled_indices [0; 1; 2; 3; 4].
Proof.
  destruct (@shuffle_is_a_permutation 5 (_get_seeded_rng 1) 0)
    as (shuffled_indices & Hok & Hperm & _).
  - intros n _ Hn.
    destruct n as [|[|[|[|n]]]]; [| | | |simpl in Hn; lia];
      vm_compute; reflexivity.
  - exists shuffled_indices. split; [exact Hok|]. split; [|exact Hperm].
    vm_compute in Hok. now inversion Hok.
Defined.

(** ** The seeded generator *)

Lemma seeded_rng_step_mod :
  forall seed,
    seeded_rng_step seed = ((seed * 1103515245 + 12345) mod 2 ^ 31)%Z.
Proof.
  intros seed. unfold seeded_rng_step.
  change 2147483647%Z with (Z.ones 31). now rewrite Z.land_ones by lia.
Qed.

Lemma seeded_rng_step_congruent :
  forall seed k,
    seeded_rng_step (seed + k * 2 ^ 31) = seeded_rng_step seed.
Proof.
  intros seed k. rewrite !seeded_rng_step_mod.
  replace ((seed + k * 2 ^ 31) * 1103515245 + 12345)%Z
    with (seed * 1103515245 + 12345 + (k * 1103515245) * 2 ^ 31)%Z by ring.
  now rewrite Z.mod_add by lia.
Qed.

(** X15: the state of [Pattern._get_seeded_rng] lies in [0, 2^31) after
    every turn and is the previous state times 1103515245 plus 12345,
    modulo 2^31; this holds for negative and for large seeds alike, and
    two seeds that differ by a multiple of 2^31 yield the same values. *)
Theorem seeded_rng_is_congruential_modulo_2_31 :
  forall (seed : Z) (n : nat),
    (0 <= seeded_rng_state seed (S n) < 2 ^ 31)%Z
    /\ seeded_rng_state seed (S n)
       = ((seeded_rng_state seed n * 1103515245 + 12345) mod 2 ^ 31)%Z
    /\ (forall k : Z,
           _get_seeded_rng (seed + k * 2 ^ 31) n = _get_seeded_rng seed n).
Proof.
  intros seed n. split; [|split].
  - cbn [seeded_rng_state]. rewrite seeded_rng_step_mod.
    apply Z.mod_pos_bound. lia.
  - cbn [seeded_rng_state]. apply seeded_rng_step_mod.
  - intros k. unfold _get_seeded_rng. do 2 f_equal.
    induction n as [|n IH].
    + cbn [seeded_rng_state]. apply seeded_rng_step_congruent.
    + change (seeded_rng_state (seed + k * 2 ^ 31) (S (S n)))
        with (seeded_rng_step (seeded_rng_state (seed + k * 2 ^ 31) (S n))).
      rewrite IH. reflexivity.
Qed.


(** ** [SoundIn.ar] *)

Lemma all_int_values :
  forall zs, all_int (map IntValue zs) = Some zs.
Proof.
  induction zs as [|z zs IH]; simpl; [reflexivity | now rewrite IH].
Qed.

Lemma fold_min_le :
  forall l z, (fold_left Z.min l z <= z)%Z
              /\ (forall x, In x l -> (fold_left Z.min l z <= x)%Z)
              /\ (fold_left Z.min l z = z \/ In (fold_left Z.min l z) l).
Proof.
  induction l as [|a l IH]; intros z; simpl.
  - split; [lia|]. split; [contradiction | now left].
  - destruct (IH (Z.min z a)) as (H1 & H2 & H3). split; [lia|]. split.
    + intros x [<- | Hx]; [lia | now apply H2].
    + destruct H3 as [H3 | H3]; [|right; now right].
      rewrite H3. destruct (Z.min_spec z a) as [[_ E] | [_ E]]; rewrite E; auto.
Qed.

Lemma fold_max_ge :
  forall l z, (z <= fold_left Z.max l z)%Z
              /\ (forall x, In x l -> (x <= fold_left Z.max l z)%Z)
              /\ (fold_left Z.max l z = z \/ In (fold_left Z.max l z) l).
Proof.
  induction l as [|a l IH]; intros z; simpl.
  - split; [lia|]. split; [contradiction | now left].
  - destruct (IH (Z.max z a)) as (H1 & H2 & H3). split; [lia|]. split.
    + intros x [<- | Hx]; [lia | now apply H2].
    + destruct H3 as [H3 | H3]; [|right; now right].
      rewrite H3. destruct (Z.max_spec z a) as [[_ E] | [_ E]]; rewrite E; auto.
Qed.

Lemma run_length : forall first n, List.length (run first n) = n.
Proof. intros first n. unfold run. now rewrite length_map, length_seq. Qed.

Lemma run_In :
  forall first n x,
    In x (run first n) <-> (first <= x < first + Z.of_nat n)%Z.
Proof.
  intros first n x. unfold run. rewrite in_map_iff. split.
  - intros [i [<- Hi]]. apply in_seq in Hi. lia.
  - intros H. exists (Z.to_nat (x - first)). split; [lia|].
    apply in_seq. lia.
Qed.

Lemma run_cons :
  forall first n, run first (S n) = first :: run (first + 1) n.
Proof.
  intros first n. unfold run. cbn [seq map]. f_equal; [lia|].
  rewrite <- seq_shift, map_map. apply map_ext. intros i. lia.
Qed.

Lemma run_sorted : forall n first, StronglySorted Z.le (run first n).
Proof.
  induction n as [|n IH]; intros first.
  - constructor.
  - rewrite run_cons. constructor; [apply IH|].
    apply Forall_forall. intros x Hx. apply run_In in Hx. lia.
Qed.

Lemma range_run :
  forall first n, range first (first + Z.of_nat n) = run first n.
Proof.
  intros first n. unfold range, run. do 2 f_equal. lia.
Qed.

Lemma sorted_Z_ordered : forall l, StronglySorted Z.le (sorted Z.leb l).
Proof.
  intros l. apply sorted_ordered.
  - intros x y z. apply Z.le_trans.
  - apply StronglySorted_of_pairs. intros x y _ _. unfold decides.
    split; intros H; [apply Z.leb_le in H | apply Z.leb_gt in H]; lia.
Qed.

(** Two ascending lists with the same members are the same list. *)
Lemma ascending_perm_eq :
  forall l1 l2 : list Z,
    StronglySorted Z.le l1 -> StronglySorted Z.le l2 ->
    Permutation l1 l2 -> l1 = l2.
Proof.
  induction l1 as [|a l1 IH]; intros l2 H1 H2 Hp.
  - apply Permutation_nil in Hp. now subst.
  - destruct l2 as [|b l2];
      [apply Permutation_sym, Permutation_nil in Hp; discriminate|].
    inversion H1 as [|? ? Hs1 Ha]; subst.
    inversion H2 as [|? ? Hs2 Hb]; subst.
    rewrite Forall_forall in Ha, Hb.
    assert (E : a = b).
    { assert (Hab : In a (b :: l2))
        by (apply (Permutation_in _ Hp); now left).
      assert (Hba : In b (a :: l1))
        by (apply (Permutation_in _ (Permutation_sym Hp)); now left).
      destruct Hab as [Hab | Hab]; [now symmetry|].
      destruct Hba as [Hba | Hba]; [exact Hba|].
      specialize (Ha _ Hba). specialize (Hb _ Hab). lia. }
    subst b. f_equal. apply IH; try assumption.
    eapply Permutation_cons_inv. exact Hp.
Qed.

Lemma sorted_run :
  forall l first,
    Permutation l (run first (List.length l)) ->
    sorted Z.leb l = run first (List.length l).
Proof.
  intros l first Hp. apply ascending_perm_eq.
  - apply sorted_Z_ordered.
  - apply run_sorted.
  - eapply Permutation_trans; [apply sorted_perm | exact Hp].
Qed.

Lemma run_min_max :
  forall n first,
    tuple_min (run first (S n)) = Ok first
    /\ tuple_max (run first (S n)) = Ok (first + Z.of_nat n)%Z.
Proof.
  intros n first. rewrite run_cons. unfold tuple_min, tuple_max. split.
  - f_equal. destruct (fold_min_le (run (first + 1) n) first) as (H1 & H2 & H3).
    destruct H3 as [H3 | H3]; [exact H3|]. apply run_In in H3. lia.
  - f_equal. destruct (fold_max_ge (run (first + 1) n) first) as (H1 & H2 & H3).
    destruct n as [|n]; [simpl; lia|].
    assert (Hlast : In (first + Z.of_nat (S n))%Z (run (first + 1) (S n)))
      by (apply run_In; lia).
    specialize (H2 _ Hlast).
    destruct H3 as [H3 | H3]; [lia|]. apply run_In in H3. lia.
Qed.

Lemma tuple_eqb_eq : forall a b, tuple_eqb a b = true <-> a = b.
Proof.
  intros a b. unfold tuple_eqb. destruct (list_eq_dec Z.eq_dec a b);
    split; intros H; congruence.
Qed.

(** X17: [SoundIn.ar] on a sequence of bus numbers that is not empty: if
    the numbers are, in some order, a run of consecutive integers, it
    reads as many channels as there are numbers from the least of them
    (offset by the number of output buses) in one call of [In.ar];
    otherwise it asks for one channel and passes on the sorted tuple.
    The order in which the numbers are given makes no difference. *)
Theorem SoundIn_reads_a_run_of_buses_at_once :
  forall bus : list Z,
    bus <> [] ->
    (forall first,
        Permutation bus (run first (List.length bus)) ->
        SoundIn_ar (BusNumbers (map IntValue bus))
        = Ok {| In_bus := PlusNumOutputBuses first;
                In_channel_count := List.length bus |})
    /\ ((forall first, ~ Permutation bus (run first (List.length bus))) ->
        SoundIn_ar (BusNumbers (map IntValue bus))
        = Ok {| In_bus := TuplePlusNumOutputBuses (sorted Z.leb bus);
                In_channel_count := 1 |})
    /\ (forall other,
           Permutation bus other ->
           SoundIn_ar (BusNumbers (map IntValue other))
           = SoundIn_ar (BusNumbers (map IntValue bus))).
Proof.
  intros bus Hne. split; [|split].
  - intros first Hp. unfold SoundIn_ar. rewrite all_int_values.
    cbn [bind]. rewrite (sorted_run _ Hp).
    destruct (List.length bus) as [|n] eqn:En;
      [destruct bus; [contradiction | discriminate]|].
    destruct (run_min_max n first) as [Hmin Hmax]. rewrite Hmin, Hmax.
    cbn [bind].
    replace (first + Z.of_nat n + 1)%Z with (first + Z.of_nat (S n))%Z by lia.
    rewrite range_run.
    rewrite (proj2 (tuple_eqb_eq _ _) eq_refl). now rewrite run_length.
  - intros Hnone. unfold SoundIn_ar. rewrite all_int_values. cbn [bind].
    pose proof (sorted_perm Z.leb bus) as Hperm.
    pose proof (sorted_length Z.leb bus) as Hlen.
    destruct (sorted Z.leb bus) as [|z zs] eqn:Es;
      [destruct bus; [contradiction | discriminate]|].
    cbn [tuple_min tuple_max bind].
    destruct (tuple_eqb (z :: zs)
                (range (fold_left Z.min zs z) (fold_left Z.max zs z + 1)))
      eqn:E; [|reflexivity].
    exfalso. apply tuple_eqb_eq in E.
    apply (Hnone (fold_left Z.min zs z)).
    assert (Hn : List.length bus
                 = Z.to_nat (fold_left Z.max zs z + 1 - fold_left Z.min zs z)).
    { rewrite <- Hlen, E at 1. unfold range.
      now rewrite length_map, length_seq. }
    eapply Permutation_trans; [apply Permutation_sym; exact Hperm|].
    rewrite E at 1. unfold range, run. rewrite Hn. apply Permutation_refl.
  - intros other Hp. unfold SoundIn_ar. rewrite !all_int_values.
    assert (E : sorted Z.leb other = sorted Z.leb bus).
    { apply ascending_perm_eq; try apply sorted_Z_ordered.
      eapply Permutation_trans; [apply sorted_perm|].
      eapply Permutation_trans; [apply Permutation_sym; exact Hp|].
      apply Permutation_sym, sorted_perm. }
    now rewrite E.
Qed.

Lemma SoundIn_reads_a_run_of_buses_at_once_witness :
  SoundIn_ar (BusNumbers [IntValue 3; IntValue 1; IntValue 2])
  = Ok {| In_bus := PlusNumOutputBuses 1; In_channel_count := 3 |}
  /\ SoundIn_ar (BusNumbers [IntValue 2; IntValue 1; IntValue 3])
     = SoundIn_ar (BusNumbers [IntValue 3; IntValue 1; IntValue 2]).
Proof.
  destruct (@SoundIn_reads_a_run_of_buses_at_once [3; 1; 2]%Z)
    as (Hrun & _ & Hperm); [discriminate|].
  split.
  - apply (Hrun 1%Z). simpl.
    apply Permutation_sym.
    apply (@Permutation_cons_app Z [2; 3]%Z [3]%Z [2]%Z 1%Z).
    apply perm_swap.
  - apply (Hperm [2; 1; 3]%Z).
    apply (@Permutation_cons_app Z [1; 2]%Z [2; 1]%Z [] 3%Z).
    apply perm_swap.
Defined.

(** ** [BufferSetResponse.as_dict] *)

Lemma skipn_nth_error :
  forall (A : Type) (l : list A) i x,
    nth_error l i = Some x -> skipn i l = x :: skipn (S i) l.
Proof.
  induction l as [|a l IH]; intros i x H.
  - destruct i; discriminate.
  - destruct i as [|i]; simpl in H.
    + now inversion H.
    + change (skipn (S i) (a :: l)) with (skipn i l).
      change (skipn (S (S i)) (a :: l)) with (skipn (S i) l). now apply IH.
Qed.

Lemma iter_from_yields_the_rest :
  forall (all : list BufferSetItem) (buffer : option Z) (fuel i : nat),
    List.length all - i < fuel ->
    BufferSetResponse_iter_from
      fuel {| _buffer_id := buffer; _items := Some all |} i
    = Some (Ok (skipn i all)).
Proof.
  intros all buffer fuel. induction fuel as [|fuel IH]; intros i Hfuel; [lia|].
  cbn [BufferSetResponse_iter_from].
  unfold BufferSetResponse_getitem. cbn [_items].
  destruct (nth_error all i) as [x|] eqn:E.
  - assert (Hlt : i < List.length all) by (apply nth_error_Some; congruence).
    rewrite IH by lia.
    now rewrite (skipn_nth_error _ _ E).
  - apply nth_error_None in E. rewrite skipn_all2 by lia. reflexivity.
Qed.

(** X18: [BufferSetResponse.as_dict] on a response with items returns a
    dictionary that maps a sample index to a value exactly when the last
    item with this index carries this value; its keys are distinct.  On a
    response constructed without items it raises [TypeError]. *)
Theorem as_dict_keeps_the_last_value_of_each_index :
  forall (buffer : option Z) (all : list BufferSetItem),
    exists result,
      as_dict {| _buffer_id := buffer; _items := Some all |} = Some (Ok result)
      /\ NoDup (dict_keys result)
      /\ (forall index value,
             dict_get Z.eqb result index = Some value
             <-> exists before item after,
                 all = before ++ item :: after
                 /\ sample_index item = index
                 /\ sample_value item = value
                 /\ ~ In index (map sample_index after))
      /\ as_dict {| _buffer_id := buffer; _items := None |}
         = Some (Raise "TypeError").
Proof.
  intros buffer all. unfold as_dict, BufferSetResponse_iter. cbn [_items].
  rewrite iter_from_yields_the_rest by lia. cbn [skipn].
  eexists. split; [reflexivity|].
  set (pairs := map (fun item => (sample_index item, sample_value item)) all).
  assert (E : fold_left
                (fun result item =>
                   dict_set Z.eqb result (sample_index item) (sample_value item))
                all []
              = fold_left (fun acc kv => dict_set Z.eqb acc (fst kv) (snd kv))
                          pairs []).
  { unfold pairs. now rewrite fold_left_map. }
  rewrite E. split; [|split; [|reflexivity]].
  - apply (@dict_update_NoDup Z PrimFloat.float Z.eqb Z.eqb_eq pairs []).
    constructor.
  - intros index value.
    rewrite (@dict_assign_all_get Z PrimFloat.float Z.eqb Z.eqb_eq). split.
    + intros [(l1 & l2 & Hsplit & Hnot) | [_ H]]; [|discriminate].
      unfold pairs in Hsplit. apply map_eq_app in Hsplit.
      destruct Hsplit as (before & rest & -> & <- & Hrest).
      apply map_eq_cons in Hrest.
      destruct Hrest as (item & after & -> & Hitem & <-).
      inversion Hitem; subst. exists before, item, after.
      repeat split; auto.
      rewrite map_map in Hnot. exact Hnot.
    + intros (before & item & after & -> & <- & <- & Hnot). left.
      exists (map (fun item => (sample_index item, sample_value item)) before),
             (map (fun item => (sample_index item, sample_value item)) after).
      split; [unfold pairs; now rewrite map_app|].
      now rewrite map_map.
Qed.

(** ** [Group._iterate_children] *)

(** Induction on a tree of nodes. *)
Lemma Node_induction :
  forall P : Node -> Prop,
    (forall node_id, P (OtherNode node_id)) ->
    (forall node_id children,
        Forall P children -> P (Group node_id children)) ->
    forall node, P node.
Proof.
  intros P Hother Hgroup.
  fix IH 1. intros [node_id | node_id children].
  - apply Hother.
  - apply Hgroup. induction children as [|child children IHc].
    + constructor.
    + constructor; [apply IH | exact IHc].
Qed.

Lemma iterate_children_unfold :
  forall node_id children,
    _iterate_children (Group node_id children)
    = flat_map (fun child => _iterate_children child ++ [child]) children.
Proof.
  intros node_id children. cbn [_iterate_children].
  apply flat_map_ext. intros [i | i cs]; reflexivity.
Qed.

Lemma iterate_children_length :
  forall node, List.length (_iterate_children node) = nodes_below node.
Proof.
  induction node as [node_id | node_id children IH] using Node_induction;
    [reflexivity|].
  rewrite iterate_children_unfold. cbn [nodes_below].
  induction IH as [|child children Hchild _ IHc]; [reflexivity|].
  cbn [flat_map map]. rewrite list_sum_cons, !length_app, IHc, Hchild.
  simpl. lia.
Qed.

(** X19: [Group._iterate_children] yields the nodes below a group depth
    first, every node after the nodes below it: whenever a node is
    yielded, everything that [_iterate_children] yields for that node
    stands immediately before it. *)
Theorem children_are_yielded_after_their_own_children :
  forall (group node : Node),
    In node (_iterate_children group) ->
    exists before after,
      _iterate_children group
      = before ++ _iterate_children node ++ node :: after.
Proof.
  induction group as [node_id | node_id children IH] using Node_induction;
    intros node Hin; [contradiction|].
  rewrite iterate_children_unfold in *.
  induction IH as [|child children Hchild _ IHc]; [contradiction|].
  cbn [flat_map] in *.
  apply in_app_iff in Hin. destruct Hin as [Hin | Hin].
  - apply in_app_iff in Hin. destruct Hin as [Hin | [<- | []]].
    + destruct (Hchild node Hin) as (before & after & E).
      exists before,
        (after ++ [child]
               ++ flat_map (fun c => _iterate_children c ++ [c]) children).
      rewrite E. now rewrite <- !app_assoc.
    + exists [],
        (flat_map (fun c => _iterate_children c ++ [c]) children).
      now rewrite <- app_assoc.
  - destruct (IHc Hin) as (before & after & E).
    exists ((_iterate_children child ++ [child]) ++ before), after.
    rewrite E. now rewrite <- !app_assoc.
Qed.

Lemma children_are_yielded_after_their_own_children_witness :
  In Tree.inner (_iterate_children Tree.outer)
  /\ _iterate_children Tree.outer
     = [OtherNode 5; OtherNode 3; OtherNode 4; Tree.inner; OtherNode 6]
  /\ exists before after,
      _iterate_children Tree.outer
      = before ++ [OtherNode 3; OtherNode 4] ++ Tree.inner :: after.
Proof.
  assert (Hin : In Tree.inner (_iterate_children Tree.outer))
    by (simpl; tauto).
  split; [exact Hin|]. split; [reflexivity|].
  exact (@children_are_yielded_after_their_own_children
           Tree.outer Tree.inner Hin).
Defined.

(** ** [Pattern._process_recursive] *)

Lemma collect_Ok :
  forall (X Y : Type) (f : X -> option (Result Y)) (xs : list X) (ys : list Y),
    collect f xs = Some (Ok ys) ->
    List.length ys = List.length xs
    /\ (forall i x, nth_error xs i = Some x ->
                    exists y, nth_error ys i = Some y /\ f x = Some (Ok y)).
Proof.
  intros X Y f. induction xs as [|x xs IH]; intros ys H; simpl in H.
  - inversion H; subst. split; [reflexivity|]. intros [|i] x Hx; discriminate.
  - destruct (f x) as [[y|e]|] eqn:Ef; try discriminate.
    destruct (collect f xs) as [[ys'|e]|] eqn:Ec; try discriminate.
    inversion H; subst. destruct (IH ys' eq_refl) as [Hlen Hnth].
    split; [simpl; now rewrite Hlen|].
    intros [|i] x0 Hx; simpl in Hx.
    + inversion Hx; subst. exists y. auto.
    + now apply Hnth.
Qed.

Lemma collect_total :
  forall (X Y : Type) (f : X -> option (Result Y)) (xs : list X),
    (forall x, In x xs -> exists y, f x = Some (Ok y)) ->
    exists ys, collect f xs = Some (Ok ys).
Proof.
  intros X Y f. induction xs as [|x xs IH]; intros H; simpl.
  - eauto.
  - destruct (H x (or_introl eq_refl)) as [y Hy]. rewrite Hy.
    destruct IH as [ys Hys]; [intros x0 Hx0; apply H; now right|].
    rewrite Hys. eauto.
Qed.

Section ProcessRecursiveFacts.
Variables A B : Type.
Variable procedure : A -> A -> Result B.

(** The operand as the loop reads it: itself if it has the greater
    length, cycled up to that length otherwise. *)
Lemma cycled_or_kept :
  forall (expr : list (Expr A)) (other : nat) (read : list (Expr A)),
    (if List.length expr <? Nat.max (List.length expr) other
     then cycled expr (Nat.max (List.length expr) other)
     else Ok expr) = Ok read ->
    List.length read = Nat.max (List.length expr) other
    /\ (forall i, i < List.length read ->
                  nth_error read i = nth_error expr (i mod List.length expr)).
Proof.
  intros expr other read H.
  destruct (List.length expr <? Nat.max (List.length expr) other) eqn:E.
  - apply Nat.ltb_lt in E. unfold cycled in H.
    destruct expr as [|first expr'] eqn:Ee.
    + destruct (Nat.eqb (Nat.max (List.length (@nil (Expr A))) other) 0) eqn:E0;
        [|discriminate].
      apply Nat.eqb_eq in E0. simpl in E. lia.
    + rewrite <- Ee in *. inversion H; subst read. clear H.
      rewrite length_map, length_seq. split; [reflexivity|].
      intros i Hi. rewrite nth_error_map.
      assert (Es : nth_error (seq 0 (Nat.max (List.length expr) other)) i
                   = Some i).
      { rewrite nth_error_nth' with (d := 0) by (rewrite length_seq; exact Hi).
        now rewrite seq_nth. }
      rewrite Es. simpl.
      assert (Hlen : 0 < List.length expr) by (rewrite Ee; simpl; lia).
      symmetry. apply nth_error_nth'.
      apply Nat.mod_upper_bound. lia.
  - apply Nat.ltb_ge in E. inversion H; subst read. clear H.
    split; [lia|]. intros i Hi. now rewrite Nat.mod_small.
Qed.

Lemma nth_error_combine :
  forall (X Y : Type) (xs : list X) (ys : list Y) i x y,
    nth_error xs i = Some x -> nth_error ys i = Some y ->
    nth_error (combine xs ys) i = Some (x, y).
Proof.
  intros X Y. induction xs as [|a xs IH]; intros ys i x y Hx Hy.
  - destruct i; discriminate.
  - destruct ys as [|b ys]; [destruct i; discriminate|].
    destruct i as [|i]; simpl in *.
    + now inversion Hx; inversion Hy; subst.
    + now apply IH.
Qed.

Lemma max_comm_length :
  forall (ones twos : list (Expr A)),
    Nat.max (List.length ones) (List.length twos)
    = Nat.max (List.length twos) (List.length ones).
Proof. intros. apply Nat.max_comm. Qed.

(** One level of the recursion on operands of which at least one is a
    sequence. *)
Lemma process_recursive_level :
  forall (fuel : nat) (expr_one expr_two : Expr A),
    is_sequence expr_one || is_sequence expr_two = true ->
    _process_recursive procedure (S fuel) expr_one expr_two
    = let ones := as_sequence expr_one in
      let twos := as_sequence expr_two in
      let length := Nat.max (List.length ones) (List.length twos) in
      match (if List.length ones <? length
             then cycled ones length else Ok ones) with
      | Raise e => Some (Raise e)
      | Ok ones =>
          match (if List.length twos <? length
                 then cycled twos length else Ok twos) with
          | Raise e => Some (Raise e)
          | Ok twos =>
              match collect
                      (fun pair =>
                         _process_recursive procedure fuel (fst pair) (snd pair))
                      (combine ones twos) with
              | None => None
              | Some (Raise e) => Some (Raise e)
              | Some (Ok result) => Some (Ok (Sequence result))
              end
          end
      end.
Proof.
  intros fuel expr_one expr_two H.
  destruct expr_one, expr_two; try discriminate; reflexivity.
Qed.

End ProcessRecursiveFacts.

(** X20: [Pattern._process_recursive] on operands of which at least one is
    a sequence, an operand that is not a sequence counting as the
    sequence of itself: if the call returns, the result is a list as long
    as the longer operand, and its item at position [i] is what the
    recursive call returns for the items of the operands at [i] modulo
    their lengths: the shorter operand is repeated cyclically. *)
Theorem process_recursive_cycles_the_shorter_operand :
  forall (A B : Type) (procedure : A -> A -> Result B) (fuel : nat)
         (expr_one expr_two : Expr A) (result : Expr B),
    let ones := as_sequence expr_one in
    let twos := as_sequence expr_two in
    is_sequence expr_one || is_sequence expr_two = true ->
    _process_recursive procedure (S fuel) expr_one expr_two = Some (Ok result) ->
    exists results,
      result = Sequence results
      /\ List.length results = Nat.max (List.length ones) (List.length twos)
      /\ (forall i,
             i < List.length results ->
             exists one two item,
               nth_error ones (i mod List.length ones) = Some one
               /\ nth_error twos (i mod List.length twos) = Some two
               /\ nth_error results i = Some item
               /\ _process_recursive procedure fuel one two = Some (Ok item)).
Proof.
  intros A B procedure fuel expr_one expr_two result ones twos Hseq H.
  rewrite process_recursive_level in H by exact Hseq.
  cbv zeta in H. fold ones twos in H.
  destruct (if List.length ones <? Nat.max (List.length ones) (List.length twos)
            then cycled ones (Nat.max (List.length ones) (List.length twos))
            else Ok ones) as [ones'|e] eqn:E1; [|discriminate].
  destruct (if List.length twos <? Nat.max (List.length ones) (List.length twos)
            then cycled twos (Nat.max (List.length ones) (List.length twos))
            else Ok twos) as [twos'|e] eqn:E2; [|discriminate].
  destruct (collect _ (combine ones' twos')) as [[results|e]|] eqn:Ec;
    try discriminate.
  inversion H; subst result. clear H.
  apply cycled_or_kept in E1. destruct E1 as [Hl1 Hn1].
  rewrite max_comm_length in E2. apply cycled_or_kept in E2.
  destruct E2 as [Hl2 Hn2]. rewrite <- max_comm_length in Hl2.
  apply collect_Ok in Ec. destruct Ec as [Hlen Hnth].
  rewrite length_combine, Hl1, Hl2, Nat.min_id in Hlen.
  exists results. split; [reflexivity|]. split; [exact Hlen|].
  intros i Hi.
  destruct (nth_error ones' i) as [one|] eqn:Eo;
    [|apply nth_error_None in Eo; lia].
  destruct (nth_error twos' i) as [two|] eqn:Et;
    [|apply nth_error_None in Et; lia].
  destruct (Hnth i (one, two) (nth_error_combine _ _ _ Eo Et))
    as [item [Hitem Hcall]].
  exists one, two, item.
  rewrite <- Hn1 by lia. rewrite <- Hn2 by lia. auto.
Qed.

Lemma process_recursive_cycles_the_shorter_operand_witness :
  _process_recursive Broadcasting.add 3
                     Broadcasting.expr_one Broadcasting.expr_two
  = Some (Ok (Sequence [Atom 11; Sequence [Atom 22; Atom 32]; Atom 13]%Z))
  /\ exists results,
      Sequence [Atom 11; Sequence [Atom 22; Atom 32]; Atom 13]%Z
      = Sequence results
      /\ List.length results = 3.
Proof.
  assert (H : _process_recursive Broadcasting.add 3
                Broadcasting.expr_one Broadcasting.expr_two
              = Some (Ok (Sequence [Atom 11; Sequence [Atom 22; Atom 32];
                                    Atom 13]%Z)))
    by reflexivity.
  split; [exact H|].
  destruct (@process_recursive_cycles_the_shorter_operand
              Z Z Broadcasting.add 2 Broadcasting.expr_one
              Broadcasting.expr_two _ eq_refl H)
    as (results & E & Hlen & _).
  exists results. split; [exact E | exact Hlen].
Defined.

Lemma list_max_In :
  forall (l : list nat) x, In x l -> x <= list_max l.
Proof.
  induction l as [|a l IH]; intros x Hin; [contradiction|].
  simpl. destruct Hin as [<- | H].
  - lia.
  - specialize (IH x H). lia.
Qed.

Lemma item_depth :
  forall (A : Type) (expr item : Expr A),
    no_str expr = true ->
    In item (as_sequence expr) ->
    (is_sequence expr = true -> depth item < depth expr)
    /\ (is_sequence expr = false -> item = expr)
    /\ (no_empty_sequence expr = true -> no_empty_sequence item = true)
    /\ no_str item = true.
Proof.
  intros A [value | value | items] item Hstr Hin; simpl in Hin.
  - destruct Hin as [<- | []]. repeat split; auto. discriminate.
  - discriminate.
  - split; [|split; [|split]]; [| discriminate | |].
    + intros _. cbn [depth].
      assert (depth item <= list_max (map (@depth A) items))
        by (apply list_max_In, in_map, Hin).
      lia.
    + cbn [no_empty_sequence]. destruct items as [|first items];
        [discriminate|].
      intros H. rewrite forallb_forall in H. now apply H.
    + cbn [no_str] in Hstr. rewrite forallb_forall in Hstr. now apply Hstr.
Qed.

Lemma cycled_items :
  forall (A : Type) (expr : list (Expr A)) (other : nat),
    expr <> [] ->
    exists read,
      (if List.length expr <? Nat.max (List.length expr) other
       then cycled expr (Nat.max (List.length expr) other)
       else Ok expr) = Ok read
      /\ (forall item, In item read -> In item expr).
Proof.
  intros A expr other Hne.
  destruct (List.length expr <? Nat.max (List.length expr) other).
  - destruct expr as [|first expr']; [contradiction|].
    unfold cycled. eexists. split; [reflexivity|].
    intros item Hin. apply in_map_iff in Hin. destruct Hin as [i [<- _]].
    apply nth_In. apply Nat.mod_upper_bound. simpl. lia.
  - exists expr. auto.
Qed.

Lemma atom_depth :
  forall (A : Type) (expr : Expr A),
    is_sequence expr = false -> depth expr = 0.
Proof.
  intros A [value | value | items] H; [reflexivity | discriminate..].
Qed.

Lemma as_sequence_not_empty :
  forall (A : Type) (expr : Expr A),
    no_empty_sequence expr = true -> as_sequence expr <> [].
Proof.
  intros A [value | [|character value] | [|item items]] H; simpl in *;
    discriminate.
Qed.

(** The operand as the loop reads it begins with the first item of the
    operand. *)
Lemma cycled_first :
  forall (A : Type) (first : Expr A) (rest : list (Expr A)) (other : nat),
    exists read,
      (if List.length (first :: rest)
          <? Nat.max (List.length (first :: rest)) other
       then cycled (first :: rest) (Nat.max (List.length (first :: rest)) other)
       else Ok (first :: rest)) = Ok (first :: read).
Proof.
  intros A first rest other.
  destruct (@cycled_items A (first :: rest) other) as (read & E & _);
    [discriminate|].
  pose proof (cycled_or_kept _ _ E) as [Hlen Hnth].
  destruct read as [|item read].
  { pose proof (Nat.le_max_l (List.length (first :: rest)) other) as Hmax.
    rewrite <- Hlen in Hmax. simpl in Hmax. lia. }
  specialize (Hnth 0). rewrite Nat.Div0.mod_0_l in Hnth.
  simpl in Hnth. assert (H : Some item = Some first) by (apply Hnth; lia).
  injection H as ->. exists read. exact E.
Qed.

(** When the recursion on the first items of the operands does not end,
    the recursion on the operands does not end. *)
Lemma process_recursive_first_items :
  forall (A B : Type) (procedure : A -> A -> Result B) (fuel : nat)
         (expr_one expr_two one two : Expr A) (ones twos : list (Expr A)),
    is_sequence expr_one || is_sequence expr_two = true ->
    as_sequence expr_one = one :: ones ->
    as_sequence expr_two = two :: twos ->
    _process_recursive procedure fuel one two = None ->
    _process_recursive procedure (S fuel) expr_one expr_two = None.
Proof.
  intros A B procedure fuel expr_one expr_two one two ones twos
         Hseq E1 E2 Hfirst.
  rewrite process_recursive_level by exact Hseq. cbv zeta.
  rewrite E1, E2.
  destruct (@cycled_first A one ones (List.length (two :: twos)))
    as (read_one & ->).
  destruct (@cycled_first A two twos (List.length (one :: ones)))
    as (read_two & Hread).
  rewrite Nat.max_comm in Hread. rewrite Hread.
  cbn [combine collect fst snd]. rewrite Hfirst. reflexivity.
Qed.

(** X21: [Pattern._process_recursive] returns whenever the operands hold
    no str, no sequence in them is empty and the procedure raises
    nothing: the recursion is as deep as the deeper operand is nested
    and then ends.  On a str that is not empty and a value that is not a
    sequence it does not return: the first character of a str is a str
    that is not empty, and no depth of recursion suffices. *)
Theorem process_recursive_returns :
  forall (A B : Type) (procedure : A -> A -> Result B),
    (forall expr_one expr_two : Expr A,
        (forall one two, exists result, procedure one two = Ok result) ->
        no_str expr_one = true ->
        no_str expr_two = true ->
        no_empty_sequence expr_one = true ->
        no_empty_sequence expr_two = true ->
        exists result,
          _process_recursive procedure
                             (S (Nat.max (depth expr_one) (depth expr_two)))
                             expr_one expr_two
          = Some (Ok result))
    /\ (forall (fuel : nat) (character : ascii) (value : string) (other : A),
           _process_recursive procedure fuel
                              (Text (String character value)) (Atom other)
           = None
           /\ _process_recursive procedure fuel
                                 (Atom other) (Text (String character value))
              = None).
Proof.
  intros A B procedure. split.
  - intros expr_one expr_two Htotal.
    assert (Hfuel : forall fuel one two,
               Nat.max (depth one) (depth two) < fuel ->
               no_str one = true ->
               no_str two = true ->
               no_empty_sequence one = true ->
               no_empty_sequence two = true ->
               exists result,
                 _process_recursive procedure fuel one two = Some (Ok result)).
    { induction fuel as [|fuel IH]; intros one two Hd T1 T2 H1 H2; [lia|].
      destruct (is_sequence one || is_sequence two) eqn:Hseq.
      - rewrite process_recursive_level by exact Hseq. cbv zeta.
        destruct (@cycled_items A (as_sequence one)
                                (List.length (as_sequence two))
                                (as_sequence_not_empty _ H1))
          as (ones & -> & Hones).
        destruct (@cycled_items A (as_sequence two)
                                (List.length (as_sequence one))
                                (as_sequence_not_empty _ H2))
          as (twos & E2 & Htwos).
        rewrite Nat.max_comm in E2. rewrite E2.
        destruct (@collect_total _ _
                    (fun pair => _process_recursive procedure fuel
                                                    (fst pair) (snd pair))
                    (combine ones twos)) as [results Hresults].
        + intros [x y] Hin. cbn [fst snd].
          pose proof (in_combine_l _ _ _ _ Hin) as Hx.
          pose proof (in_combine_r _ _ _ _ Hin) as Hy.
          apply Hones in Hx. apply Htwos in Hy.
          destruct (@item_depth A one x T1 Hx) as (Dx & Ex & Wx & Tx).
          destruct (@item_depth A two y T2 Hy) as (Dy & Ey & Wy & Ty).
          apply IH; [| exact Tx | exact Ty | now apply Wx | now apply Wy].
          destruct (is_sequence one) eqn:S1, (is_sequence two) eqn:S2;
            try discriminate.
          * specialize (Dx eq_refl). specialize (Dy eq_refl). lia.
          * specialize (Dx eq_refl). rewrite (Ey eq_refl).
            rewrite (atom_depth two S2) in *. lia.
          * specialize (Dy eq_refl). rewrite (Ex eq_refl).
            rewrite (atom_depth one S1) in *. lia.
        + rewrite Hresults. eauto.
      - destruct one as [a | ? | ?], two as [b | ? | ?]; try discriminate.
        cbn [_process_recursive]. destruct (Htotal a b) as [r Hr].
        rewrite Hr. simpl. eauto. }
    intros T1 T2 H1 H2. apply Hfuel; [lia | assumption..].
  - induction fuel as [|fuel IH]; intros character value other;
      [split; reflexivity|].
    split.
    + apply (@process_recursive_first_items
               A B procedure fuel _ _
               (Text (String character EmptyString)) (Atom other)
               (characters A value) []);
        [reflexivity | reflexivity | reflexivity | apply IH].
    + apply (@process_recursive_first_items
               A B procedure fuel _ _
               (Atom other) (Text (String character EmptyString))
               [] (characters A value));
        [reflexivity | reflexivity | reflexivity | apply IH].
Qed.

Lemma process_recursive_returns_witness :
  (forall one two, exists result, Broadcasting.add one two = Ok result)
  /\ no_str Broadcasting.expr_one = true
  /\ no_str Broadcasting.expr_two = true
  /\ no_empty_sequence Broadcasting.expr_one = true
  /\ no_empty_sequence Broadcasting.expr_two = true
  /\ exists result,
      _process_recursive Broadcasting.add 3
                         Broadcasting.expr_one Broadcasting.expr_two
      = Some (Ok result).
Proof.
  assert (Htotal : forall one two,
             exists result, Broadcasting.add one two = Ok result)
    by (intros one two; eexists; reflexivity).
  split; [exact Htotal|]. do 4 (split; [reflexivity|]).
  exact (proj1 (@process_recursive_returns Z Z Broadcasting.add)
               Broadcasting.expr_one Broadcasting.expr_two
               Htotal eq_refl eq_refl eq_refl eq_refl).
Defined.

(** X22: [Pattern._process_recursive] raises [RuntimeError] when exactly
    one operand is an empty sequence, whatever the other operand holds
    and before the procedure is called on anything; two empty sequences
    give the empty list. *)
Theorem process_recursive_rejects_one_empty_operand :
  forall (A B : Type) (procedure : A -> A -> Result B) (fuel : nat)
         (expr_one expr_two : Expr A),
    (as_sequence expr_one = [] \/ as_sequence expr_two = []) ->
    _process_recursive procedure (S fuel) expr_one expr_two
    = match as_sequence expr_one, as_sequence expr_two with
      | [], [] => Some (Ok (Sequence []))
      | _, _ => Some (Raise "RuntimeError")
      end.
Proof.
  intros A B procedure fuel expr_one expr_two Hempty.
  assert (Hseq : is_sequence expr_one || is_sequence expr_two = true).
  { destruct expr_one, expr_two; try reflexivity.
    destruct Hempty; discriminate. }
  rewrite process_recursive_level by exact Hseq. cbv zeta.
  destruct (as_sequence expr_one) as [|one ones],
           (as_sequence expr_two) as [|two twos].
  - reflexivity.
  - reflexivity.
  - cbn [List.length Nat.max]. rewrite Nat.ltb_irrefl.
    assert (E : (0 <? S (List.length ones)) = true)
      by (apply Nat.ltb_lt; lia).
    cbn [List.length] in E |- *. rewrite E. reflexivity.
  - destruct Hempty; discriminate.
Qed.

Lemma process_recursive_rejects_one_empty_operand_witness :
  (as_sequence (Atom 1%Z) = [] \/ as_sequence (@Sequence Z []) = [])
  /\ _process_recursive Broadcasting.add 1 (Atom 1%Z) (Sequence [])
     = Some (Raise "RuntimeError").
Proof.
  split; [right; reflexivity|].
  exact (@process_recursive_rejects_one_empty_operand
           Z Z Broadcasting.add 0 (Atom 1%Z) (Sequence [])
           (or_intror eq_refl)).
Defined.
